(** * Family tree viewer: relationship repair and tree layout

    A shallow embedding of the layout engine of the family tree viewer
    ([TreeView.calculateLayout], [TreeView.renderGhostNodes]) and of the
    relationship repair of the data store ([FamilyTree.repairData]).

    Conventions of the embedding.
    - JavaScript numbers.  The layout pass is embedded twice.  In the
      first embedding numbers are exact rationals ([Q]); it carries the
      properties of the widths, the relative positions, the rows and the
      bounds, which are sums and halves of the integer constants of the
      view.  [Module Binary64] repeats the numeric part of the pass over
      IEEE 754 binary64 values (primitive floats), every operation
      rounded as JavaScript rounds it; the properties of the placement
      loop, of [checkFit], of the commit and of the shifts, which depend
      on how absolute positions are rounded, are stated there.
      Generations are integers ([Z]).
    - A JavaScript [Map] is an insertion-ordered association list whose
      [set] overwrites an existing key in place; a [Set] of ids is a
      duplicate-free list in insertion order.
    - Person objects are shared between the [people] array and
      [personMap]: the [people] list is the store of objects, a lookup by
      id returns the last person carrying that id (the entry the [Map]
      constructor keeps) and a mutation through [personMap] rewrites that
      person in the list.
    - The two comparator sorts over people ([Array.prototype.sort] with
      comparators that parse birth dates) are parameters of the model.
    - Recursion guarded by a visited set (the generation wave, the
      descendant walk, [buildTree]) takes a fuel argument; the placement
      loops are bounded by the counters the source itself uses. *)

From Stdlib Require Import Ascii String List ZArith QArith Qminmax Qabs Lia Lqa Bool
  Permutation.
From Stdlib Require Import Uint63 PrimFloat FloatOps SpecFloat.
Import ListNotations.

#[local] Set Warnings "-register-all".
Local Open Scope Q_scope.

(** ** Containers *)

Definition PersonId := string.

(** [Array.prototype.includes] on an array of ids. *)
Definition includes (l : list PersonId) (k : PersonId) : bool :=
  existsb (String.eqb k) l.

Module IdSet.
Definition t := list PersonId.
Definition has (s : t) (k : PersonId) : bool := includes s k.
Definition add (s : t) (k : PersonId) : t := if has s k then s else s ++ [k].
Definition addAll (s : t) (ks : list PersonId) : t := fold_left add ks s.
  (** [new Set(array)], and [[...new Set(array)]] read back as an array. *)
Definition ofList (ks : list PersonId) : t := addAll [] ks.
End IdSet.

Module JsMap.
Section WithValue.
Context {V : Type}.
Definition t := list (PersonId * V).

Fixpoint get (m : t) (k : PersonId) : option V :=
      match m with
      | [] => None
      | (k', v) :: m' => if String.eqb k' k then Some v else get m' k
      end.

Definition has (m : t) (k : PersonId) : bool :=
      match get m k with Some _ => true | None => false end.

Fixpoint set (m : t) (k : PersonId) (v : V) : t :=
      match m with
      | [] => [(k, v)]
      | (k', v') :: m' =>
          if String.eqb k' k then (k', v) :: m' else (k', v') :: set m' k v
      end.

Definition setAll (m : t) (kvs : list (PersonId * V)) : t :=
      fold_left (fun m kv => set m (fst kv) (snd kv)) kvs m.

Definition keys (m : t) : list PersonId := map fst m.
End WithValue.
Arguments t : clear implicits.
End JsMap.

(** ** Data model *)

Module Rel.
Record t := mk {
    parents : list PersonId;
    children : list PersonId;
    partners : list PersonId }.
End Rel.

Module Split.
Record t := mk {
    type : string;
    linkedPersonId : PersonId;
    ghostContext : string }.
End Split.

Module Person.
Record t := mk {
    id : PersonId;
    gender : string;
    birthDate : string;
    relationships : Rel.t;
    splitLinks : list Split.t }.
End Person.

Inductive Kind := Parents | Children | Partners.

Definition mirror (k : Kind) : Kind :=
  match k with Parents => Children | Children => Parents | Partners => Partners end.

Definition Kind_eqb (k k' : Kind) : bool :=
  match k, k' with
  | Parents, Parents | Children, Children | Partners, Partners => true
  | _, _ => false
  end.

Definition relGet (k : Kind) (r : Rel.t) : list PersonId :=
  match k with
  | Parents => Rel.parents r
  | Children => Rel.children r
  | Partners => Rel.partners r
  end.

Definition relSet (k : Kind) (l : list PersonId) (r : Rel.t) : Rel.t :=
  match k with
  | Parents => Rel.mk l (Rel.children r) (Rel.partners r)
  | Children => Rel.mk (Rel.parents r) l (Rel.partners r)
  | Partners => Rel.mk (Rel.parents r) (Rel.children r) l
  end.

(** [p.relationships.<k>] and the assignment to it. *)
Definition listOf (k : Kind) (p : Person.t) : list PersonId :=
  relGet k (Person.relationships p).

Definition withList (k : Kind) (l : list PersonId) (p : Person.t) : Person.t :=
  Person.mk (Person.id p) (Person.gender p) (Person.birthDate p)
            (relSet k l (Person.relationships p)) (Person.splitLinks p).

(** [personMap.get(k)] for [personMap = new Map(people.map(p => [p.id, p]))]. *)
Fixpoint personMap_get (people : list Person.t) (k : PersonId) : option Person.t :=
  match people with
  | [] => None
  | p :: rest =>
      match personMap_get rest k with
      | Some q => Some q
      | None => if String.eqb (Person.id p) k then Some p else None
      end
  end.

(** In-place mutation of the object [personMap.get(k)]. *)
Fixpoint personMap_update (people : list Person.t) (k : PersonId)
         (f : Person.t -> Person.t) : list Person.t :=
  match people with
  | [] => []
  | p :: rest =>
      match personMap_get rest k with
      | Some _ => p :: personMap_update rest k f
      | None => if String.eqb (Person.id p) k then f p :: rest else p :: rest
      end
  end.

(** In-place mutation of the object [people[i]]. *)
Fixpoint setNth (i : nat) (f : Person.t -> Person.t) (people : list Person.t)
  : list Person.t :=
  match people, i with
  | [], _ => []
  | p :: rest, O => f p :: rest
  | p :: rest, S i' => p :: setNth i' f rest
  end.

(** ** Relationship repair *)

(** [if (!other.relationships.<k>.includes(who)) other.relationships.<k>.push(who)]
    for [other = personMap.get(target)]; the flag tells whether it pushed. *)
Definition ensureLink (k : Kind) (who target : PersonId) (people : list Person.t)
  : list Person.t * bool :=
  match personMap_get people target with
  | Some other =>
      if includes (listOf k other) who then (people, false)
      else (personMap_update people target
              (fun o => withList k (listOf k o ++ [who]) o), true)
  | None => (people, false)
  end.

Definition ensureLinks (k : Kind) (who : PersonId) (targets : list PersonId)
           (st : list Person.t * bool) : list Person.t * bool :=
  fold_left (fun st target =>
               let r := ensureLink k who target (fst st) in
               (fst r, snd st || snd r))
            targets st.

(** One of the three blocks of the body of the loop of [repairData], for
    the entry at position [i] of the store: deduplicate the list, then
    make every person it names list this one back. *)
Definition repairKind (k : Kind) (i : nat) (st : list Person.t * bool)
  : list Person.t * bool :=
  match nth_error (fst st) i with
  | None => st
  | Some person =>
      let l := IdSet.ofList (listOf k person) in
      ensureLinks (mirror k) (Person.id person) l
                  (setNth i (withList k l) (fst st), snd st)
  end.

(** [FamilyTree.repairData]: the store after the pass and the [changed]
    flag it returns.  The store is the list of the values of [this.people]
    in insertion order; every entry is keyed by its person's [id].
    [repairEntry] is the body of the loop for the entry at position [i]:
    parents, then children, then partners. *)
Definition repairEntry (st : list Person.t * bool) (i : nat) : list Person.t * bool :=
  repairKind Partners i (repairKind Children i (repairKind Parents i st)).

Definition repairData (store : list Person.t) : list Person.t * bool :=
  fold_left repairEntry (seq 0 (length store)) (store, false).

(** The pre-processing loop of [calculateLayout], for [p = people[i]]. *)
Definition repairLinksAt (people : list Person.t) (i : nat) : list Person.t :=
  match nth_error people i with
  | None => people
  | Some p =>
      let people1 :=
        fst (ensureLinks Parents (Person.id p) (listOf Children p) (people, false)) in
      match nth_error people1 i with
      | None => people1
      | Some p1 =>
          fst (ensureLinks Children (Person.id p) (listOf Parents p1) (people1, false))
      end
  end.

Definition repairLinks (people : list Person.t) : list Person.t :=
  fold_left repairLinksAt (seq 0 (length people)) people.

(** ** Layout constants and geometry *)

Module TreeView.
Record t := mk {
    nodeWidth : Q;
    nodeHeight : Q;
    horizontalGap : Q;
    generationGap : Q }.

  (** The values the constructor assigns. *)
Definition new : t := mk 180 80 40 150.
End TreeView.

Module Pos.
Record t := mk { x : Q; y : Q }.
End Pos.

Definition Qlt_bool (a b : Q) : bool := negb (Qle_bool b a).

(** The two [Array.prototype.sort] calls over people.  [sortChildIds]
    orders the ids of the children of a couple (the centripetal
    comparator), [sortCluster] orders the roots of a cluster by birth
    date. *)
Record Sorters := {
  sortChildIds : list Person.t -> list PersonId -> list PersonId;
  sortCluster : list Person.t -> list Person.t }.

(** On people without gender and birth date both comparators return 0 on
    every pair and the sort, being stable, returns its argument. *)
Definition inputOrder : Sorters :=
  {| sortChildIds := fun _ ids => ids; sortCluster := fun c => c |}.

(** ** Generation assignment *)

(** The partner set built by the generation wave and by [getFullPartners]:
    the explicit partners, then every other parent of every child. *)
Definition fullPartnerIds (people : list Person.t) (self : PersonId)
           (person : Person.t) : IdSet.t :=
  fold_left
    (fun acc cid =>
       match personMap_get people cid with
       | Some child =>
           fold_left (fun acc pid => if String.eqb pid self then acc else IdSet.add acc pid)
                     (listOf Parents child) acc
       | None => acc
       end)
    (listOf Children person) (IdSet.ofList (listOf Partners person)).

Definition Gens := JsMap.t Z.
Definition Queue := list (PersonId * Z).

(** [if (!generations.has(pid)) { generations.set(pid, gen); queue.push({id: pid, gen}) }] *)
Definition visit (gen : Z) (st : Gens * Queue) (pid : PersonId) : Gens * Queue :=
  if JsMap.has (fst st) pid then st
  else (JsMap.set (fst st) pid gen, snd st ++ [(pid, gen)]).

(** One turn of the [while (queue.length > 0)] loop on a person found in
    [personMap]. *)
Definition expand (people : list Person.t) (id : PersonId) (gen : Z)
           (person : Person.t) (st : Gens * Queue) : Gens * Queue :=
  let st := fold_left (visit gen) (fullPartnerIds people id person) st in
  let st := fold_left (visit (gen + 1)%Z) (listOf Children person) st in
  fold_left (visit (gen - 1)%Z) (listOf Parents person) st.

Fixpoint wave (fuel : nat) (people : list Person.t) (gens : Gens) (queue : Queue)
  : option Gens :=
  match queue with
  | [] => Some gens
  | (id, gen) :: rest =>
      match fuel with
      | O => None
      | S fuel' =>
          match personMap_get people id with
          | None => wave fuel' people gens rest
          | Some person =>
              let st := expand people id gen person (gens, rest) in
              wave fuel' people (fst st) (snd st)
          end
      end
  end.

(** The body of [people.forEach(seed => ...)]. *)
Definition seedStep (fuel : nat) (people : list Person.t) (acc : option Gens)
           (seed : Person.t) : option Gens :=
  match acc with
  | None => None
  | Some gens =>
      if JsMap.has gens (Person.id seed) then Some gens
      else wave fuel people (JsMap.set gens (Person.id seed) 0%Z)
                [(Person.id seed, 0%Z)]
  end.

Definition seedWaves (fuel : nat) (people : list Person.t) : option Gens :=
  fold_left (seedStep fuel people) people (Some []).

(** [minGen] after the [forEach]; [None] stands for [Infinity]. *)
Definition minGen (gens : Gens) : option Z :=
  fold_left (fun m kv =>
               match m with
               | None => Some (snd kv)
               | Some z => Some (Z.min z (snd kv))
               end)
            gens None.

Definition normalize (gens : Gens) : Gens :=
  match minGen gens with
  | Some m => if (m =? 0)%Z then gens else map (fun kv => (fst kv, (snd kv - m)%Z)) gens
  | None => gens
  end.

Definition assignGenerations (fuel : nat) (people : list Person.t) : option Gens :=
  option_map normalize (seedWaves fuel people).

(** ** Root clusters *)

Fixpoint getDescendants (fuel : nat) (people : list Person.t) (personId : PersonId)
         (visited : IdSet.t) : option IdSet.t :=
  match fuel with
  | O => None
  | S fuel' =>
      if IdSet.has visited personId then Some visited
      else
        let visited := IdSet.add visited personId in
        match personMap_get people personId with
        | Some person =>
            fold_left (fun acc cid =>
                         match acc with
                         | None => None
                         | Some v => getDescendants fuel' people cid v
                         end)
                      (listOf Children person) (Some visited)
        | None => Some visited
        end
  end.

(** The inner [potentialRoots.forEach(otherRoot => ...)] for one root. *)
Definition gatherCluster (fuel : nat) (people potentialRoots : list Person.t)
           (rootDescendants : IdSet.t) (st : list Person.t * IdSet.t)
  : option (list Person.t * IdSet.t) :=
  fold_left
    (fun acc otherRoot =>
       match acc with
       | None => None
       | Some (cluster, assignedRoots) =>
           if IdSet.has assignedRoots (Person.id otherRoot) then acc
           else
             match getDescendants fuel people (Person.id otherRoot) [] with
             | None => None
             | Some otherDescendants =>
                 if existsb (IdSet.has otherDescendants) rootDescendants
                 then Some (cluster ++ [otherRoot],
                            IdSet.add assignedRoots (Person.id otherRoot))
                 else acc
             end
       end)
    potentialRoots (Some st).

Definition rootClusters (srt : Sorters) (fuel : nat) (people potentialRoots : list Person.t)
  : option (list (list Person.t)) :=
  option_map fst
    (fold_left
       (fun acc root =>
          match acc with
          | None => None
          | Some (clusters, assignedRoots) =>
              if IdSet.has assignedRoots (Person.id root) then acc
              else
                match getDescendants fuel people (Person.id root) [] with
                | None => None
                | Some rootDescendants =>
                    match gatherCluster fuel people potentialRoots rootDescendants
                                        ([root], IdSet.add assignedRoots (Person.id root)) with
                    | None => None
                    | Some (cluster, assignedRoots') =>
                        Some (clusters ++ [sortCluster srt cluster], assignedRoots')
                    end
                end
          end)
       potentialRoots (Some ([], []))).

(** ** Subtree construction *)

Module Node.
#[local] Unset Elimination Schemes.
Inductive t : Type :=
    mk (person : Person.t) (partners : list Person.t) (children : list t)
       (coupleWidth totalWidth : Q).
#[local] Set Elimination Schemes.

Definition person (n : t) : Person.t := match n with mk p _ _ _ _ => p end.
Definition partners (n : t) : list Person.t := match n with mk _ ps _ _ _ => ps end.
Definition children (n : t) : list t := match n with mk _ _ cs _ _ => cs end.
Definition coupleWidth (n : t) : Q := match n with mk _ _ _ cw _ => cw end.
Definition totalWidth (n : t) : Q := match n with mk _ _ _ _ tw => tw end.
End Node.

(** [Array.from(partners).map(id => personMap.get(id)).filter(Boolean)] *)
Definition getFullPartners (people : list Person.t) (p : Person.t) : list Person.t :=
  flat_map (fun id => match personMap_get people id with Some q => [q] | None => [] end)
           (fullPartnerIds people (Person.id p) p).

(** [children.reduce((sum, c) => sum + c.totalWidth, 0)] *)
Definition sumWidths (children : list Node.t) : Q :=
  fold_left (fun sum child => sum + Node.totalWidth child) children 0.

(** [sum + Math.max(0, children.length - 1) * this.horizontalGap] *)
Definition childrenBlockWidth (tv : TreeView.t) (children : list Node.t) : Q :=
  sumWidths children
  + Qmax 0 (inject_Z (Z.of_nat (length children)) - 1) * TreeView.horizontalGap tv.

Definition coupleWidthOf (tv : TreeView.t) (partners : list Person.t) : Q :=
  let couplesCount := 1 + inject_Z (Z.of_nat (length partners)) in
  couplesCount * TreeView.nodeWidth tv + (couplesCount - 1) * TreeView.horizontalGap tv.

(** The ids of the children of the person and of the partners, as the
    [Set] [childIds] collects them. *)
Definition collectChildIds (person : Person.t) (partners : list Person.t) : IdSet.t :=
  fold_left (fun s p => IdSet.addAll s (listOf Children p)) partners
            (IdSet.addAll [] (listOf Children person)).

(** [sortedChildIds.forEach(cid => { const childNode = buildTree(cid);
    if (childNode) node.children.push(childNode); })], over the recursive
    call [build]. *)
Fixpoint buildChildren (build : IdSet.t -> PersonId -> option (IdSet.t * option Node.t))
         (cids : list PersonId) (visited : IdSet.t) (children : list Node.t)
  : option (IdSet.t * list Node.t) :=
  match cids with
  | [] => Some (visited, children)
  | cid :: rest =>
      match build visited cid with
      | None => None
      | Some (visited', None) => buildChildren build rest visited' children
      | Some (visited', Some childNode) =>
          buildChildren build rest visited' (children ++ [childNode])
      end
  end.

Section BuildTree.
Variable tv : TreeView.t.
Variable srt : Sorters.
Variable people : list Person.t.

  (** [buildTree(personId)] threading the [visited] set; the inner result
      is [null] or the node. *)
Fixpoint buildTree (fuel : nat) (visited : IdSet.t) (personId : PersonId)
    : option (IdSet.t * option Node.t) :=
    match fuel with
    | O => None
    | S fuel' =>
        if IdSet.has visited personId then Some (visited, None)
        else
          let visited := IdSet.add visited personId in
          match personMap_get people personId with
          | None => Some (visited, None)
          | Some person =>
              let partners :=
                filter (fun p => negb (IdSet.has visited (Person.id p)))
                       (getFullPartners people person) in
              let visited :=
                fold_left (fun v p => IdSet.add v (Person.id p)) partners visited in
              let coupleWidth := coupleWidthOf tv partners in
              let sortedChildIds :=
                sortChildIds srt people (collectChildIds person partners) in
              match buildChildren (buildTree fuel') sortedChildIds visited [] with
              | None => None
              | Some (visited', children) =>
                  let childrenWidth := childrenBlockWidth tv children in
                  Some (visited',
                        Some (Node.mk person partners children coupleWidth
                                      (Qmax coupleWidth childrenWidth)))
              end
          end
    end.

  (** [ps.forEach(p => { if (!visited.has(p.id)) { const node = buildTree(p.id);
      if (node) roots.push(node); } })] *)
Definition buildRoots (fuel : nat) (ps : list Person.t) (st : IdSet.t * list Node.t)
    : option (IdSet.t * list Node.t) :=
    fold_left
      (fun acc p =>
         match acc with
         | None => None
         | Some (visited, roots) =>
             if IdSet.has visited (Person.id p) then acc
             else
               match buildTree fuel visited (Person.id p) with
               | None => None
               | Some (visited', None) => Some (visited', roots)
               | Some (visited', Some node) => Some (visited', roots ++ [node])
               end
         end)
      ps (Some st).
End BuildTree.

(** ** Relative positions of a tree *)

(** [node.children.forEach(child => { calcRelative(child, childX, y + generationGap);
    childX += child.totalWidth + this.horizontalGap; })], over the recursive
    call [place]. *)
Fixpoint layoutChildren (tv : TreeView.t)
         (place : Node.t -> Q -> JsMap.t Pos.t -> JsMap.t Pos.t)
         (children : list Node.t) (childX : Q) (rel : JsMap.t Pos.t) : JsMap.t Pos.t :=
  match children with
  | [] => rel
  | child :: rest =>
      layoutChildren tv place rest
                     (childX + Node.totalWidth child + TreeView.horizontalGap tv)
                     (place child childX rel)
  end.

(** [node.partners.forEach(p => { relativePositions.set(p.id, {x: currentPartnerX, y});
    currentPartnerX += this.nodeWidth + this.horizontalGap; })] *)
Fixpoint layoutPartners (tv : TreeView.t) (partners : list Person.t)
         (currentPartnerX y : Q) (rel : JsMap.t Pos.t) : JsMap.t Pos.t :=
  match partners with
  | [] => rel
  | p :: rest =>
      layoutPartners tv rest
                     (currentPartnerX + TreeView.nodeWidth tv + TreeView.horizontalGap tv) y
                     (JsMap.set rel (Person.id p) (Pos.mk currentPartnerX y))
  end.

(** [calcRelative(node, x, y)] writing into [relativePositions]. *)
Fixpoint calcRelative (tv : TreeView.t) (node : Node.t) (x y : Q)
         (relativePositions : JsMap.t Pos.t) {struct node} : JsMap.t Pos.t :=
  match node with
  | Node.mk person partners children coupleWidth totalWidth =>
      let coupleX := x + (totalWidth - coupleWidth) / 2 in
      let rel := JsMap.set relativePositions (Person.id person) (Pos.mk coupleX y) in
      let rel :=
        layoutPartners tv partners
                       (coupleX + TreeView.nodeWidth tv + TreeView.horizontalGap tv) y rel in
      let childX := x + (totalWidth - childrenBlockWidth tv children) / 2 in
      layoutChildren tv
        (fun child childX rel =>
           calcRelative tv child childX (y + TreeView.generationGap tv) rel)
        children childX rel
  end.

(** ** Root layouts, anchors and the collision probe *)

Module RootLayout.
Record t := mk {
    rootNode : Node.t;
    relativePositions : JsMap.t Pos.t;
    width : Q;
    id : PersonId;
    placed : bool;
    finalX : Q;
    anchors : list PersonId }.
End RootLayout.

(** One of the three [forEach] blocks of the anchor search; [anchors] and
    [processedAnchors] always hold the same ids. *)
Definition addAnchors (relativePositions : JsMap.t Pos.t) (anchors : list PersonId)
           (ids : list PersonId) : list PersonId :=
  fold_left
    (fun anchors cid =>
       if negb (JsMap.has relativePositions cid) && negb (IdSet.has anchors cid)
       then anchors ++ [cid] else anchors)
    ids anchors.

Definition findAnchors (people : list Person.t) (relativePositions : JsMap.t Pos.t)
  : list PersonId :=
  fold_left
    (fun anchors personId =>
       match personMap_get people personId with
       | None => anchors
       | Some person =>
           let anchors := addAnchors relativePositions anchors (listOf Children person) in
           let anchors := addAnchors relativePositions anchors (listOf Partners person) in
           addAnchors relativePositions anchors (listOf Parents person)
       end)
    (JsMap.keys relativePositions) [].

Definition makeLayout (tv : TreeView.t) (people : list Person.t) (root : Node.t)
  : RootLayout.t :=
  let relativePositions := calcRelative tv root 0 0 [] in
  RootLayout.mk root relativePositions (Node.totalWidth root)
                (Person.id (Node.person root)) false 0
                (findAnchors people relativePositions).

(** The collision test of [checkFit] between a candidate node at
    [(absX, absY)] and a placed node. *)
Definition collides (tv : TreeView.t) (absX absY : Q) (placedPos : Pos.t) : bool :=
  Qlt_bool (Qabs (Pos.y placedPos - absY)) (TreeView.nodeHeight tv)
  && (Qlt_bool absX (Pos.x placedPos + TreeView.nodeWidth tv + TreeView.horizontalGap tv)
      && Qlt_bool (Pos.x placedPos)
                  (absX + TreeView.nodeWidth tv + TreeView.horizontalGap tv)).

Record FitResult := { fits : bool; pushDir : Z }.

Definition checkFit (tv : TreeView.t) (placedPersonPositions : JsMap.t Pos.t)
           (layout : RootLayout.t) (targetX : Q) : FitResult :=
  let r :=
    fold_left
      (fun acc entry =>
         let absX := targetX + Pos.x (snd entry) in
         let absY := 100 + Pos.y (snd entry) in
         fold_left
           (fun acc placedEntry =>
              let placedPos := snd placedEntry in
              if collides tv absX absY placedPos then
                let myCenter := absX + TreeView.nodeWidth tv / 2 in
                let obsCenter := Pos.x placedPos + TreeView.nodeWidth tv / 2 in
                ((if Qlt_bool obsCenter myCenter then fst acc + 1 else fst acc - 1)%Z,
                 S (snd acc))
              else acc)
           placedPersonPositions acc)
      (RootLayout.relativePositions layout) (0%Z, O) in
  {| fits := Nat.eqb (snd r) 0; pushDir := fst r |}.

(** ** Component placement *)

Record PlacerState := {
  rootLayouts : list RootLayout.t;
  placedPersonPositions : JsMap.t Pos.t;
  positions : JsMap.t Pos.t;
  safetyCounter : nat }.

(** A scored candidate; [candIndex] is the position in [rootLayouts] of
    the layout object the candidate refers to. *)
Record Candidate := {
  candIndex : nat;
  candLayout : RootLayout.t;
  score : Z;
  desiredX : option Q }.

Definition scoreLayout (placedPersonPositions : JsMap.t Pos.t)
           (il : nat * RootLayout.t) : Candidate :=
  let layout := snd il in
  let placedAnchors :=
    flat_map (fun id => match JsMap.get placedPersonPositions id with
                        | Some pos => [pos]
                        | None => []
                        end)
             (RootLayout.anchors layout) in
  match placedAnchors with
  | _ :: _ =>
      let avgAnchorX :=
        fold_left (fun sum p => sum + Pos.x p) placedAnchors 0
        / inject_Z (Z.of_nat (length placedAnchors)) in
      {| candIndex := fst il; candLayout := layout; score := 10;
         desiredX := Some (avgAnchorX - RootLayout.width layout / 2) |}
  | [] =>
      match RootLayout.anchors layout with
      | _ :: _ => {| candIndex := fst il; candLayout := layout; score := -5;
                     desiredX := None |}
      | [] => {| candIndex := fst il; candLayout := layout; score := 1;
                 desiredX := None |}
      end
  end.

(** The comparator of [candidates.sort]. *)
Definition compareCandidates (a b : Candidate) : Q :=
  if negb (score b =? score a)%Z then inject_Z (score b - score a)
  else
    match desiredX a, desiredX b with
    | Some xa, Some xb => xa - xb
    | _, _ => 0
    end.

(** [Array.prototype.sort] is stable; the comparator above is a total
    preorder on candidates (equal scores come with desired positions on
    both sides or on neither), on which every stable sort agrees with
    this insertion sort. *)
Fixpoint insertSorted {A : Type} (cmp : A -> A -> Q) (a : A) (l : list A) : list A :=
  match l with
  | [] => [a]
  | b :: l' => if Qlt_bool 0 (cmp a b) then b :: insertSorted cmp a l' else a :: l
  end.

Definition stableSort {A : Type} (cmp : A -> A -> Q) (l : list A) : list A :=
  fold_right (insertSorted cmp) [] l.

Fixpoint indexed {A : Type} (i : nat) (l : list A) : list (nat * A) :=
  match l with
  | [] => []
  | a :: l' => (i, a) :: indexed (S i) l'
  end.

Definition scoreCandidates (st : PlacerState) : list Candidate :=
  map (scoreLayout (placedPersonPositions st))
      (filter (fun il => negb (RootLayout.placed (snd il)))
              (indexed 0 (rootLayouts st))).

(** [rootLayouts.filter(l => l.placed).reduce((max, l) => Math.max(max, l.finalX + l.width), 100)] *)
Definition maxPlacedX (layouts : list RootLayout.t) : Q :=
  fold_left (fun max l => Qmax max (RootLayout.finalX l + RootLayout.width l))
            (filter RootLayout.placed layouts) 100.

Definition appendRight (tv : TreeView.t) (layouts : list RootLayout.t) : Q :=
  maxPlacedX layouts + TreeView.horizontalGap tv * 1.5.

(** The [while (offset < 4000)] search; [steps] bounds the number of
    turns, which the loop condition limits to 4000 / 50 = 80. *)
Fixpoint searchFit (steps : nat) (fitsAt : Q -> bool) (placeX preferredDir offset : Q)
  : option Q :=
  match steps with
  | O => None
  | S steps' =>
      if Qlt_bool offset 4000 then
        let offset := offset + 50 in
        if fitsAt (placeX + offset * preferredDir)
        then Some (placeX + offset * preferredDir)
        else if Qlt_bool 1500 offset && fitsAt (placeX - offset * preferredDir)
             then Some (placeX - offset * preferredDir)
             else searchFit steps' fitsAt placeX preferredDir offset
      else None
  end.

Definition choosePlaceX (tv : TreeView.t) (st : PlacerState) (best : Candidate) : Q :=
  let layout := candLayout best in
  match desiredX best with
  | Some desired =>
      let fitResult := checkFit tv (placedPersonPositions st) layout desired in
      if fits fitResult then desired
      else
        let preferredDir := if (0 <=? pushDir fitResult)%Z then 1 else -1 in
        match searchFit 80 (fun x => fits (checkFit tv (placedPersonPositions st) layout x))
                        desired preferredDir 0 with
        | Some placeX => placeX
        | None => appendRight tv (rootLayouts st)
        end
  | None => appendRight tv (rootLayouts st)
  end.

Definition markPlaced (placeX : Q) (l : RootLayout.t) : RootLayout.t :=
  RootLayout.mk (RootLayout.rootNode l) (RootLayout.relativePositions l)
                (RootLayout.width l) (RootLayout.id l) true placeX
                (RootLayout.anchors l).

Fixpoint updateAt {A : Type} (i : nat) (f : A -> A) (l : list A) : list A :=
  match l, i with
  | [], _ => []
  | a :: l', O => f a :: l'
  | a :: l', S i' => a :: updateAt i' f l'
  end.

(** The absolute positions a layout writes when committed at [placeX]. *)
Definition finalEntries (placeX : Q) (layout : RootLayout.t) : list (PersonId * Pos.t) :=
  map (fun entry => (fst entry,
                     Pos.mk (placeX + Pos.x (snd entry)) (100 + Pos.y (snd entry))))
      (RootLayout.relativePositions layout).

Definition commit (placeX : Q) (best : Candidate) (st : PlacerState) : PlacerState :=
  let written := finalEntries placeX (candLayout best) in
  {| rootLayouts := updateAt (candIndex best) (markPlaced placeX) (rootLayouts st);
     placedPersonPositions := JsMap.setAll (placedPersonPositions st) written;
     positions := JsMap.setAll (positions st) written;
     safetyCounter := S (safetyCounter st) |}.

(** One turn of the placement loop; [None] is the [TypeError] of
    [best.layout] on an empty candidate array. *)
Definition placeRound (tv : TreeView.t) (st : PlacerState) : option PlacerState :=
  match stableSort compareCandidates (scoreCandidates st) with
  | [] => None
  | best :: _ => Some (commit (choosePlaceX tv st best) best st)
  end.

(** [while (rootLayouts.some(l => !l.placed) && safetyCounter < 100)];
    [remaining] is [100 - safetyCounter]. *)
Fixpoint placeLoop (tv : TreeView.t) (remaining : nat) (st : PlacerState)
  : option PlacerState :=
  match remaining with
  | O => Some st
  | S remaining' =>
      if existsb (fun l => negb (RootLayout.placed l)) (rootLayouts st) then
        match placeRound tv st with
        | None => None
        | Some st' => placeLoop tv remaining' st'
        end
      else Some st
  end.

Definition placeComponents (tv : TreeView.t) (layouts : list RootLayout.t)
  : option PlacerState :=
  placeLoop tv 100
            {| rootLayouts := layouts; placedPersonPositions := [];
               positions := []; safetyCounter := 0 |}.

(** ** The layout pass *)

Inductive Outcome (A : Type) : Type :=
| OutOfFuel
| Thrown
| Returned (a : A).
Arguments OutOfFuel {A}.
Arguments Thrown {A}.
Arguments Returned {A} a.

(** What a call of [calculateLayout] leaves behind: [this.positions], the
    repaired people, and the locals the properties below speak about. *)
Record Layout := {
  repaired : list Person.t;
  generations : Gens;
  roots : list Node.t;
  placer : PlacerState }.

Definition buildForest (tv : TreeView.t) (srt : Sorters) (fuel : nat)
           (people : list Person.t) (generations : Gens) : option (list Node.t) :=
  let potentialRoots :=
    filter (fun p => match JsMap.get generations (Person.id p) with
                     | Some g => (g =? 0)%Z
                     | None => false
                     end) people in
  match rootClusters srt fuel people potentialRoots with
  | None => None
  | Some clusters =>
      let sortedRoots := concat clusters in
      match buildRoots tv srt people fuel sortedRoots ([], []) with
      | None => None
      | Some st => option_map snd (buildRoots tv srt people fuel people st)
      end
  end.

Definition calculateLayout (tv : TreeView.t) (srt : Sorters) (fuel : nat)
           (people : list Person.t) : Outcome Layout :=
  match people with
  | [] => Returned {| repaired := []; generations := []; roots := [];
                      placer := {| rootLayouts := []; placedPersonPositions := [];
                                   positions := []; safetyCounter := 0 |} |}
  | _ :: _ =>
      let people := repairLinks people in
      match assignGenerations fuel people with
      | None => OutOfFuel
      | Some generations =>
          match buildForest tv srt fuel people generations with
          | None => OutOfFuel
          | Some roots =>
              match placeComponents tv (map (makeLayout tv people) roots) with
              | None => Thrown
              | Some st => Returned {| repaired := people; generations := generations;
                                       roots := roots; placer := st |}
              end
          end
      end
  end.

(** ** Ghost positions *)

Record Ghost := {
  ghostPerson : Person.t;
  ghostX : option Q;
  ghostY : option Q;
  linkedPerson : Person.t;
  splitType : string }.

(** The ghost coordinates of [renderGhostNodes]; a type other than the
    three leaves both coordinates [undefined]. *)
Definition ghostCoordinates (tv : TreeView.t) (type : string) (linkedPos : Pos.t)
  : option Q * option Q :=
  if String.eqb type "parent" then
    (Some (Pos.x linkedPos), Some (Pos.y linkedPos + TreeView.generationGap tv))
  else if String.eqb type "partner" then
    (Some (Pos.x linkedPos + TreeView.nodeWidth tv + TreeView.horizontalGap tv),
     Some (Pos.y linkedPos))
  else if String.eqb type "child" then
    (Some (Pos.x linkedPos), Some (Pos.y linkedPos - TreeView.generationGap tv))
  else (None, None).

Definition ghostsOf (tv : TreeView.t) (people : list Person.t) (positions : JsMap.t Pos.t)
           (person : Person.t) : list Ghost :=
  flat_map
    (fun split =>
       match personMap_get people (Split.linkedPersonId split) with
       | None => []
       | Some linked =>
           match JsMap.get positions (Split.linkedPersonId split) with
           | None => []
           | Some linkedPos =>
               let g := ghostCoordinates tv (Split.type split) linkedPos in
               [{| ghostPerson := person; ghostX := fst g; ghostY := snd g;
                   linkedPerson := linked; splitType := Split.type split |}]
           end
       end)
    (Person.splitLinks person).

(** The [ghostPositions] array of [renderGhostNodes], together with
    [this.positions], which the function reads and never writes. *)
Definition renderGhostNodes (tv : TreeView.t) (people : list Person.t)
           (positions : JsMap.t Pos.t) : list Ghost * JsMap.t Pos.t :=
  (flat_map (ghostsOf tv people positions) people, positions).

(** ** The data store: relationship operations

    [FamilyTree] keeps the people in [this.people], a [Map] from id to
    person object; the store below is the list of its values in
    insertion order, every entry keyed by its person's [id]. *)

(** The loop of the [sibling] case of [addRelationship]: every parent of
    the person becomes a parent of [relatedId], and lists it as a child
    when the parent is in the store. *)
Definition shareParents (relatedId : PersonId) (parents : list PersonId)
           (s : list Person.t) : list Person.t :=
  fold_left (fun s parentId =>
               fst (ensureLink Children relatedId parentId
                      (fst (ensureLink Parents parentId relatedId s))))
            parents s.

(** [FamilyTree.addRelationship(personId, relatedId, type)]: the store
    afterwards and the value returned. *)
Definition addRelationship (store : list Person.t) (personId relatedId : PersonId)
           (type : string) : list Person.t * bool :=
  match personMap_get store personId, personMap_get store relatedId with
  | Some person, Some _ =>
      (if String.eqb type "parent" then
         fst (ensureLink Children personId relatedId
                (fst (ensureLink Parents relatedId personId store)))
       else if String.eqb type "child" then
         fst (ensureLink Parents personId relatedId
                (fst (ensureLink Children relatedId personId store)))
       else if String.eqb type "partner" then
         fst (ensureLink Partners personId relatedId
                (fst (ensureLink Partners relatedId personId store)))
       else if String.eqb type "sibling" then
         shareParents relatedId (listOf Parents person) store
       else store,
       true)
  | _, _ => (store, false)
  end.

(** [other.relationships.<k> = other.relationships.<k>.filter(id => id !== who)]
    for [other = this.people.get(target)], when there is such a person. *)
Definition dropLink (k : Kind) (who target : PersonId) (people : list Person.t)
  : list Person.t :=
  personMap_update people target
    (fun o => withList k (filter (fun id => negb (String.eqb id who)) (listOf k o)) o).

(** [FamilyTree.removeRelationship(personId, relatedId, type)] *)
Definition removeRelationship (store : list Person.t) (personId relatedId : PersonId)
           (type : string) : list Person.t * bool :=
  match personMap_get store personId, personMap_get store relatedId with
  | Some _, Some _ =>
      (if String.eqb type "parent" then
         dropLink Children personId relatedId (dropLink Parents relatedId personId store)
       else if String.eqb type "child" then
         dropLink Parents personId relatedId (dropLink Children relatedId personId store)
       else if String.eqb type "partner" then
         dropLink Partners personId relatedId (dropLink Partners relatedId personId store)
       else store,
       true)
  | _, _ => (store, false)
  end.

Definition dropLinks (k : Kind) (who : PersonId) (targets : list PersonId)
           (people : list Person.t) : list Person.t :=
  fold_left (fun s target => dropLink k who target s) targets people.

(** [person.relationships.<k>] as it is when a loop over it starts. *)
Definition currentList (k : Kind) (id : PersonId) (people : list Person.t)
  : list PersonId :=
  match personMap_get people id with
  | Some person => listOf k person
  | None => []
  end.

(** [this.people.delete(id)] *)
Definition removeEntry (id : PersonId) (s : list Person.t) : list Person.t :=
  filter (fun p => negb (String.eqb (Person.id p) id)) s.

(** [FamilyTree.deletePerson(id)]: the three clean-up loops read the
    lists of the person as the earlier loops left them, then the entry is
    deleted. *)
Definition deletePerson (store : list Person.t) (id : PersonId)
  : list Person.t * bool :=
  match personMap_get store id with
  | None => (store, false)
  | Some person =>
      let s1 := dropLinks Children id (listOf Parents person) store in
      let s2 := dropLinks Parents id (currentList Children id s1) s1 in
      let s3 := dropLinks Partners id (currentList Partners id s2) s2 in
      (removeEntry id s3, true)
  end.

(** [Array.from(ids).map(id => this.people.get(id)).filter(Boolean)] *)
Definition lookupAll (store : list Person.t) (ids : list PersonId) : list Person.t :=
  flat_map (fun id => match personMap_get store id with Some q => [q] | None => [] end) ids.

(** [FamilyTree.getSiblings(personId)] *)
Definition siblingIds (store : list Person.t) (personId : PersonId) (person : Person.t)
  : IdSet.t :=
  fold_left
    (fun siblings parentId =>
       match personMap_get store parentId with
       | Some parent =>
           fold_left (fun siblings childId =>
                        if String.eqb childId personId then siblings
                        else IdSet.add siblings childId)
                     (listOf Children parent) siblings
       | None => siblings
       end)
    (listOf Parents person) [].

Definition getSiblings (store : list Person.t) (personId : PersonId) : list Person.t :=
  match personMap_get store personId with
  | None => []
  | Some person =>
      match listOf Parents person with
      | [] => []
      | _ :: _ => lookupAll store (siblingIds store personId person)
      end
  end.

(** [FamilyTree.getPartners(personId)]: the partners listed and the other
    parents of the children, the computation [getFullPartners] of the
    layout repeats. *)
Definition getPartners (store : list Person.t) (personId : PersonId) : list Person.t :=
  match personMap_get store personId with
  | None => []
  | Some person => lookupAll store (fullPartnerIds store personId person)
  end.

(** ** The data store: split links

    A split link is kept with its [type], [linkedPersonId] and
    [ghostContext]; the time stamps the store also writes ([createdAt] on
    the link, [updatedAt] on the person) are not part of the records of
    this model. *)

(** [s.type === type && s.linkedPersonId === linkedPersonId] *)
Definition sameSplit (type : string) (linkedPersonId : PersonId) (s : Split.t) : bool :=
  String.eqb (Split.type s) type && String.eqb (Split.linkedPersonId s) linkedPersonId.

Definition withSplitLinks (l : list Split.t) (p : Person.t) : Person.t :=
  Person.mk (Person.id p) (Person.gender p) (Person.birthDate p)
            (Person.relationships p) l.

(** [FamilyTree.splitLink(personId, type, linkedPersonId, ghostContext)] *)
Definition splitLink (store : list Person.t) (personId : PersonId) (type : string)
           (linkedPersonId : PersonId) (ghostContext : string)
  : list Person.t * bool :=
  match personMap_get store personId with
  | None => (store, false)
  | Some person =>
      if existsb (sameSplit type linkedPersonId) (Person.splitLinks person)
      then (store, false)
      else (personMap_update store personId
              (fun o => withSplitLinks
                          (Person.splitLinks o
                           ++ [Split.mk type linkedPersonId ghostContext]) o),
            true)
  end.

(** [FamilyTree.unsplitLink(personId, type, linkedPersonId)] *)
Definition unsplitLink (store : list Person.t) (personId : PersonId) (type : string)
           (linkedPersonId : PersonId) : list Person.t * bool :=
  match personMap_get store personId with
  | None => (store, false)
  | Some person =>
      let initialLength := length (Person.splitLinks person) in
      let kept := filter (fun s => negb (sameSplit type linkedPersonId s))
                         (Person.splitLinks person) in
      (personMap_update store personId (withSplitLinks kept),
       Nat.ltb (length kept) initialLength)
  end.

(** [FamilyTree.isLinkSplit(personId, type, linkedPersonId)] *)
Definition isLinkSplit (store : list Person.t) (personId : PersonId) (type : string)
           (linkedPersonId : PersonId) : bool :=
  match personMap_get store personId with
  | None => false
  | Some person => existsb (sameSplit type linkedPersonId) (Person.splitLinks person)
  end.

(** [FamilyTree.getSplitLinks(personId)] *)
Definition getSplitLinks (store : list Person.t) (personId : PersonId) : list Split.t :=
  match personMap_get store personId with
  | None => []
  | Some person => Person.splitLinks person
  end.

(** ** Date fields of the form

    Strings are modelled by [string]; the characters the two helpers
    look for are ASCII. *)

(** [\d] *)
Definition isDigit (c : Ascii.ascii) : bool :=
  (48 <=? Ascii.nat_of_ascii c)%nat && (Ascii.nat_of_ascii c <=? 57)%nat.

(** [UI.dateToISO(displayDate)]: the match of
    [/^(\d{2})\/(\d{2})\/(\d{4})$/] rearranged as [yyyy-mm-dd]; [None]
    is [null]. *)
Definition dateToISO (displayDate : string) : option string :=
  match displayDate with
  | String d1 (String d2 (String s1 (String m1 (String m2 (String s2
      (String y1 (String y2 (String y3 (String y4 EmptyString))))))))) =>
      if isDigit d1 && isDigit d2 && Ascii.eqb s1 "/"%char
         && isDigit m1 && isDigit m2 && Ascii.eqb s2 "/"%char
         && isDigit y1 && isDigit y2 && isDigit y3 && isDigit y4
      then Some (String y1 (String y2 (String y3 (String y4 (String "-"%char
                   (String m1 (String m2 (String "-"%char
                      (String d1 (String d2 EmptyString))))))))))
      else None
  | _ => None
  end.

(** [String.prototype.split] with a separator of one character. *)
Fixpoint splitOn (sep : Ascii.ascii) (s : string) : list string :=
  match s with
  | EmptyString => [EmptyString]
  | String c rest =>
      if Ascii.eqb c sep then EmptyString :: splitOn sep rest
      else match splitOn sep rest with
           | [] => [String c EmptyString]
           | first :: others => String c first :: others
           end
  end.

(** An element of the destructured array inside a template literal. *)
Definition part (parts : list string) (i : nat) : string := nth i parts "undefined"%string.

(** [UI.dateToDisplay(isoDate)] on a string. *)
Definition dateToDisplay (isoDate : string) : string :=
  match isoDate with
  | EmptyString => EmptyString
  | _ =>
      let parts := splitOn "-"%char isoDate in
      (part parts 2 ++ "/" ++ part parts 1 ++ "/" ++ part parts 0)%string
  end.

(** ** Grouping partners *)

(** The inner [partners.forEach] of [groupPartners]. *)
Definition joinPartners (people : list Person.t) (partners : list PersonId)
           (st : list Person.t * IdSet.t) : list Person.t * IdSet.t :=
  fold_left
    (fun st partnerId =>
       match personMap_get people partnerId with
       | Some partner =>
           if IdSet.has (snd st) partnerId then st
           else (fst st ++ [partner], IdSet.add (snd st) partnerId)
       | None => st
       end)
    partners st.

(** [TreeView.groupPartners(people, getPartnersFn)]; [None] is a call
    without the getter. *)
Definition groupPartners (people : list Person.t)
           (getPartnersFn : option (PersonId -> list PersonId)) : list (list Person.t) :=
  fst (fold_left
         (fun st p =>
            if IdSet.has (snd st) (Person.id p) then st
            else
              let partners := match getPartnersFn with
                              | Some get => get (Person.id p)
                              | None => listOf Partners p
                              end in
              let joined := joinPartners people partners
                                         ([p], IdSet.add (snd st) (Person.id p)) in
              (fst st ++ [fst joined], snd joined))
         people ([], [])).

(** [TreeView.arrangeWithPartners(genPeople, allPeople)] *)
Definition arrangeWithPartners (genPeople : list Person.t) : list Person.t :=
  concat (groupPartners genPeople None).

(** * The layout pass in binary64

    The numbers of the layout pass as JavaScript computes them: IEEE 754
    binary64 values, every operation rounded to nearest.  The module
    repeats the numeric part of [calculateLayout] (from [buildTree] to the
    placement loop) over primitive floats; the repair, the generations
    and the root clusters hold no numbers of this kind and are the
    definitions above. *)

Module Binary64.
Local Open Scope float_scope.

(** [Math.max] of two numbers. *)
Definition Math_max (a b : float) : float :=
  if PrimFloat.is_nan a || PrimFloat.is_nan b then nan
  else if a <? b then b
  else if b <? a then a
  else if PrimFloat.get_sign a then b else a.

(** An array length as a number. *)
Definition ofNat (n : nat) : float := of_uint63 (Uint63.of_Z (Z.of_nat n)).

Module TreeView.
Record t := mk {
    nodeWidth : float;
    nodeHeight : float;
    horizontalGap : float;
    generationGap : float }.

  (** The values the constructor assigns. *)
Definition new : t := mk 180 80 40 150.
End TreeView.

Module Pos.
Record t := mk { x : float; y : float }.
End Pos.

Module Node.
#[local] Unset Elimination Schemes.
Inductive t : Type :=
    mk (person : Person.t) (partners : list Person.t) (children : list t)
       (coupleWidth totalWidth : float).
#[local] Set Elimination Schemes.

Definition person (n : t) : Person.t := match n with mk p _ _ _ _ => p end.
Definition partners (n : t) : list Person.t := match n with mk _ ps _ _ _ => ps end.
Definition children (n : t) : list t := match n with mk _ _ cs _ _ => cs end.
Definition coupleWidth (n : t) : float := match n with mk _ _ _ cw _ => cw end.
Definition totalWidth (n : t) : float := match n with mk _ _ _ _ tw => tw end.
End Node.

(** [children.reduce((sum, c) => sum + c.totalWidth, 0)] *)
Definition sumWidths (children : list Node.t) : float :=
  fold_left (fun sum child => sum + Node.totalWidth child) children 0.

(** [sum + Math.max(0, children.length - 1) * this.horizontalGap] *)
Definition childrenBlockWidth (tv : TreeView.t) (children : list Node.t) : float :=
  sumWidths children
  + Math_max 0 (ofNat (length children) - 1) * TreeView.horizontalGap tv.

Definition coupleWidthOf (tv : TreeView.t) (partners : list Person.t) : float :=
  let couplesCount := 1 + ofNat (length partners) in
  couplesCount * TreeView.nodeWidth tv + (couplesCount - 1) * TreeView.horizontalGap tv.

Fixpoint buildChildren (build : IdSet.t -> PersonId -> option (IdSet.t * option Node.t))
         (cids : list PersonId) (visited : IdSet.t) (children : list Node.t)
  : option (IdSet.t * list Node.t) :=
  match cids with
  | [] => Some (visited, children)
  | cid :: rest =>
      match build visited cid with
      | None => None
      | Some (visited', None) => buildChildren build rest visited' children
      | Some (visited', Some childNode) =>
          buildChildren build rest visited' (children ++ [childNode])
      end
  end.

Section BuildTree.
Variable tv : TreeView.t.
Variable srt : Sorters.
Variable people : list Person.t.

Fixpoint buildTree (fuel : nat) (visited : IdSet.t) (personId : PersonId)
    : option (IdSet.t * option Node.t) :=
    match fuel with
    | O => None
    | S fuel' =>
        if IdSet.has visited personId then Some (visited, None)
        else
          let visited := IdSet.add visited personId in
          match personMap_get people personId with
          | None => Some (visited, None)
          | Some person =>
              let partners :=
                filter (fun p => negb (IdSet.has visited (Person.id p)))
                       (getFullPartners people person) in
              let visited :=
                fold_left (fun v p => IdSet.add v (Person.id p)) partners visited in
              let coupleWidth := coupleWidthOf tv partners in
              let sortedChildIds :=
                sortChildIds srt people (collectChildIds person partners) in
              match buildChildren (buildTree fuel') sortedChildIds visited [] with
              | None => None
              | Some (visited', children) =>
                  let childrenWidth := childrenBlockWidth tv children in
                  Some (visited',
                        Some (Node.mk person partners children coupleWidth
                                      (Math_max coupleWidth childrenWidth)))
              end
          end
    end.

Definition buildRoots (fuel : nat) (ps : list Person.t) (st : IdSet.t * list Node.t)
    : option (IdSet.t * list Node.t) :=
    fold_left
      (fun acc p =>
         match acc with
         | None => None
         | Some (visited, roots) =>
             if IdSet.has visited (Person.id p) then acc
             else
               match buildTree fuel visited (Person.id p) with
               | None => None
               | Some (visited', None) => Some (visited', roots)
               | Some (visited', Some node) => Some (visited', roots ++ [node])
               end
         end)
      ps (Some st).
End BuildTree.

Fixpoint layoutChildren (tv : TreeView.t)
         (place : Node.t -> float -> JsMap.t Pos.t -> JsMap.t Pos.t)
         (children : list Node.t) (childX : float) (rel : JsMap.t Pos.t) : JsMap.t Pos.t :=
  match children with
  | [] => rel
  | child :: rest =>
      layoutChildren tv place rest
                     (childX + (Node.totalWidth child + TreeView.horizontalGap tv))
                     (place child childX rel)
  end.

Fixpoint layoutPartners (tv : TreeView.t) (partners : list Person.t)
         (currentPartnerX y : float) (rel : JsMap.t Pos.t) : JsMap.t Pos.t :=
  match partners with
  | [] => rel
  | p :: rest =>
      layoutPartners tv rest
                     (currentPartnerX + (TreeView.nodeWidth tv + TreeView.horizontalGap tv)) y
                     (JsMap.set rel (Person.id p) (Pos.mk currentPartnerX y))
  end.

(** [calcRelative(node, x, y)] writing into [relativePositions]. *)
Fixpoint calcRelative (tv : TreeView.t) (node : Node.t) (x y : float)
         (relativePositions : JsMap.t Pos.t) {struct node} : JsMap.t Pos.t :=
  match node with
  | Node.mk person partners children coupleWidth totalWidth =>
      let coupleX := x + (totalWidth - coupleWidth) / 2 in
      let rel := JsMap.set relativePositions (Person.id person) (Pos.mk coupleX y) in
      let rel :=
        layoutPartners tv partners
                       (coupleX + TreeView.nodeWidth tv + TreeView.horizontalGap tv) y rel in
      let childX := x + (totalWidth - childrenBlockWidth tv children) / 2 in
      layoutChildren tv
        (fun child childX rel =>
           calcRelative tv child childX (y + TreeView.generationGap tv) rel)
        children childX rel
  end.

Module RootLayout.
Record t := mk {
    rootNode : Node.t;
    relativePositions : JsMap.t Pos.t;
    width : float;
    id : PersonId;
    placed : bool;
    finalX : float;
    anchors : list PersonId }.
End RootLayout.

Definition addAnchors (relativePositions : JsMap.t Pos.t) (anchors : list PersonId)
           (ids : list PersonId) : list PersonId :=
  fold_left
    (fun anchors cid =>
       if negb (JsMap.has relativePositions cid) && negb (IdSet.has anchors cid)
       then anchors ++ [cid] else anchors)
    ids anchors.

Definition findAnchors (people : list Person.t) (relativePositions : JsMap.t Pos.t)
  : list PersonId :=
  fold_left
    (fun anchors personId =>
       match personMap_get people personId with
       | None => anchors
       | Some person =>
           let anchors := addAnchors relativePositions anchors (listOf Children person) in
           let anchors := addAnchors relativePositions anchors (listOf Partners person) in
           addAnchors relativePositions anchors (listOf Parents person)
       end)
    (JsMap.keys relativePositions) [].

Definition makeLayout (tv : TreeView.t) (people : list Person.t) (root : Node.t)
  : RootLayout.t :=
  let relativePositions := calcRelative tv root 0 0 [] in
  RootLayout.mk root relativePositions (Node.totalWidth root)
                (Person.id (Node.person root)) false 0
                (findAnchors people relativePositions).

(** The collision test of [checkFit]:
    [Math.abs(placedPos.y - absY) < this.nodeHeight], then
    [absX < placedPos.x + this.nodeWidth + this.horizontalGap &&
     absX + this.nodeWidth + this.horizontalGap > placedPos.x]. *)
Definition collides (tv : TreeView.t) (absX absY : float) (placedPos : Pos.t) : bool :=
  (PrimFloat.abs (Pos.y placedPos - absY) <? TreeView.nodeHeight tv)
  && ((absX <? Pos.x placedPos + TreeView.nodeWidth tv + TreeView.horizontalGap tv)
      && (Pos.x placedPos <? absX + TreeView.nodeWidth tv + TreeView.horizontalGap tv)).

Record FitResult := { fits : bool; pushDir : Z }.

Definition checkFit (tv : TreeView.t) (placedPersonPositions : JsMap.t Pos.t)
           (layout : RootLayout.t) (targetX : float) : FitResult :=
  let r :=
    fold_left
      (fun acc entry =>
         let absX := targetX + Pos.x (snd entry) in
         let absY := 100 + Pos.y (snd entry) in
         fold_left
           (fun acc placedEntry =>
              let placedPos := snd placedEntry in
              if collides tv absX absY placedPos then
                let myCenter := absX + TreeView.nodeWidth tv / 2 in
                let obsCenter := Pos.x placedPos + TreeView.nodeWidth tv / 2 in
                (if obsCenter <? myCenter then (fst acc + 1)%Z else (fst acc - 1)%Z,
                 S (snd acc))
              else acc)
           placedPersonPositions acc)
      (RootLayout.relativePositions layout) (0%Z, O) in
  {| fits := Nat.eqb (snd r) 0; pushDir := fst r |}.

Record PlacerState := {
  rootLayouts : list RootLayout.t;
  placedPersonPositions : JsMap.t Pos.t;
  positions : JsMap.t Pos.t;
  safetyCounter : nat }.

Record Candidate := {
  candIndex : nat;
  candLayout : RootLayout.t;
  score : float;
  desiredX : option float }.

Definition scoreLayout (placedPersonPositions : JsMap.t Pos.t)
           (il : nat * RootLayout.t) : Candidate :=
  let layout := snd il in
  let placedAnchors :=
    flat_map (fun id => match JsMap.get placedPersonPositions id with
                        | Some pos => [pos]
                        | None => []
                        end)
             (RootLayout.anchors layout) in
  match placedAnchors with
  | _ :: _ =>
      let avgAnchorX :=
        fold_left (fun sum p => sum + Pos.x p) placedAnchors 0
        / ofNat (length placedAnchors) in
      {| candIndex := fst il; candLayout := layout; score := 10;
         desiredX := Some (avgAnchorX - RootLayout.width layout / 2) |}
  | [] =>
      match RootLayout.anchors layout with
      | _ :: _ => {| candIndex := fst il; candLayout := layout; score := -5;
                     desiredX := None |}
      | [] => {| candIndex := fst il; candLayout := layout; score := 1;
                 desiredX := None |}
      end
  end.

(** The comparator of [candidates.sort]. *)
Definition compareCandidates (a b : Candidate) : float :=
  if negb (score b =? score a) then score b - score a
  else
    match desiredX a, desiredX b with
    | Some xa, Some xb => xa - xb
    | _, _ => 0
    end.

(** The stable sort, as insertion from the right: [a] goes behind [b]
    when the comparator is positive. *)
Fixpoint insertSorted {A : Type} (cmp : A -> A -> float) (a : A) (l : list A) : list A :=
  match l with
  | [] => [a]
  | b :: l' => if 0 <? cmp a b then b :: insertSorted cmp a l' else a :: l
  end.

Definition stableSort {A : Type} (cmp : A -> A -> float) (l : list A) : list A :=
  fold_right (insertSorted cmp) [] l.

Definition scoreCandidates (st : PlacerState) : list Candidate :=
  map (scoreLayout (placedPersonPositions st))
      (filter (fun il => negb (RootLayout.placed (snd il)))
              (indexed 0 (rootLayouts st))).

(** [rootLayouts.filter(l => l.placed).reduce((max, l) => Math.max(max, l.finalX + l.width), 100)] *)
Definition maxPlacedX (layouts : list RootLayout.t) : float :=
  fold_left (fun max l => Math_max max (RootLayout.finalX l + RootLayout.width l))
            (filter RootLayout.placed layouts) 100.

Definition appendRight (tv : TreeView.t) (layouts : list RootLayout.t) : float :=
  maxPlacedX layouts + TreeView.horizontalGap tv * 1.5.

(** The [while (offset < 4000)] search; [steps] bounds the number of
    turns, which the loop condition limits to 4000 / 50 = 80. *)
Fixpoint searchFit (steps : nat) (fitsAt : float -> bool) (placeX preferredDir offset : float)
  : option float :=
  match steps with
  | O => None
  | S steps' =>
      if offset <? 4000 then
        let offset := offset + 50 in
        if fitsAt (placeX + offset * preferredDir)
        then Some (placeX + offset * preferredDir)
        else if (1500 <? offset) && fitsAt (placeX - offset * preferredDir)
             then Some (placeX - offset * preferredDir)
             else searchFit steps' fitsAt placeX preferredDir offset
      else None
  end.

Definition choosePlaceX (tv : TreeView.t) (st : PlacerState) (best : Candidate) : float :=
  let layout := candLayout best in
  match desiredX best with
  | Some desired =>
      let fitResult := checkFit tv (placedPersonPositions st) layout desired in
      if fits fitResult then desired
      else
        let preferredDir := if (0 <=? pushDir fitResult)%Z then 1 else -1 in
        match searchFit 80 (fun x => fits (checkFit tv (placedPersonPositions st) layout x))
                        desired preferredDir 0 with
        | Some placeX => placeX
        | None => appendRight tv (rootLayouts st)
        end
  | None => appendRight tv (rootLayouts st)
  end.

Definition markPlaced (placeX : float) (l : RootLayout.t) : RootLayout.t :=
  RootLayout.mk (RootLayout.rootNode l) (RootLayout.relativePositions l)
                (RootLayout.width l) (RootLayout.id l) true placeX
                (RootLayout.anchors l).

(** The absolute positions a layout writes when committed at [placeX]:
    [{ x: placeX + relPos.x, y: 100 + relPos.y }]. *)
Definition finalEntries (placeX : float) (layout : RootLayout.t) : list (PersonId * Pos.t) :=
  map (fun entry => (fst entry,
                     Pos.mk (placeX + Pos.x (snd entry)) (100 + Pos.y (snd entry))))
      (RootLayout.relativePositions layout).

Definition commit (placeX : float) (best : Candidate) (st : PlacerState) : PlacerState :=
  let written := finalEntries placeX (candLayout best) in
  {| rootLayouts := updateAt (candIndex best) (markPlaced placeX) (rootLayouts st);
     placedPersonPositions := JsMap.setAll (placedPersonPositions st) written;
     positions := JsMap.setAll (positions st) written;
     safetyCounter := S (safetyCounter st) |}.

Definition placeRound (tv : TreeView.t) (st : PlacerState) : option PlacerState :=
  match stableSort compareCandidates (scoreCandidates st) with
  | [] => None
  | best :: _ => Some (commit (choosePlaceX tv st best) best st)
  end.

Fixpoint placeLoop (tv : TreeView.t) (remaining : nat) (st : PlacerState)
  : option PlacerState :=
  match remaining with
  | O => Some st
  | S remaining' =>
      if existsb (fun l => negb (RootLayout.placed l)) (rootLayouts st) then
        match placeRound tv st with
        | None => None
        | Some st' => placeLoop tv remaining' st'
        end
      else Some st
  end.

Definition start (layouts : list RootLayout.t) : PlacerState :=
  {| rootLayouts := layouts; placedPersonPositions := [];
     positions := []; safetyCounter := 0 |}.

Definition placeComponents (tv : TreeView.t) (layouts : list RootLayout.t)
  : option PlacerState :=
  placeLoop tv 100 (start layouts).

Record Layout := {
  repaired : list Person.t;
  generations : Gens;
  roots : list Node.t;
  placer : PlacerState }.

Definition buildForest (tv : TreeView.t) (srt : Sorters) (fuel : nat)
           (people : list Person.t) (generations : Gens) : option (list Node.t) :=
  let potentialRoots :=
    filter (fun p => match JsMap.get generations (Person.id p) with
                     | Some g => (g =? 0)%Z
                     | None => false
                     end) people in
  match rootClusters srt fuel people potentialRoots with
  | None => None
  | Some clusters =>
      let sortedRoots := concat clusters in
      match buildRoots tv srt people fuel sortedRoots ([], []) with
      | None => None
      | Some st => option_map snd (buildRoots tv srt people fuel people st)
      end
  end.

Definition calculateLayout (tv : TreeView.t) (srt : Sorters) (fuel : nat)
           (people : list Person.t) : Outcome Layout :=
  match people with
  | [] => Returned {| repaired := []; generations := []; roots := [];
                      placer := start [] |}
  | _ :: _ =>
      let people := repairLinks people in
      match assignGenerations fuel people with
      | None => OutOfFuel
      | Some generations =>
          match buildForest tv srt fuel people generations with
          | None => OutOfFuel
          | Some roots =>
              match placeComponents tv (map (makeLayout tv people) roots) with
              | None => Thrown
              | Some st => Returned {| repaired := people; generations := generations;
                                       roots := roots; placer := st |}
              end
          end
      end
  end.

(** [TreeView.canSafelyShift] and [TreeView.applyShift].  The overlap
    test between a moving node taken to [(newX, newY)] and the static
    node at [pos]. *)
Definition shiftCollides (tv : TreeView.t) (newX newY : float) (pos : Pos.t) : bool :=
  let horizontalOverlap :=
    (newX <? Pos.x pos + TreeView.nodeWidth tv + TreeView.horizontalGap tv)
    && (Pos.x pos <? newX + TreeView.nodeWidth tv + TreeView.horizontalGap tv) in
  let verticalOverlap := PrimFloat.abs (newY - Pos.y pos) <? TreeView.nodeHeight tv in
  horizontalOverlap && verticalOverlap.

(** The inner loop of [canSafelyShift] against one static node: whether
    a moving node collides with it.  [None] is the [TypeError] of
    [movingPos.x] for a moving id without a position. *)
Fixpoint hitsStatic (tv : TreeView.t) (positions : JsMap.t Pos.t) (shiftX : float)
         (pos : Pos.t) (movingNodeIds : list PersonId) : option bool :=
  match movingNodeIds with
  | [] => Some false
  | movingId :: rest =>
      match JsMap.get positions movingId with
      | None => None
      | Some movingPos =>
          if shiftCollides tv (Pos.x movingPos + shiftX) (Pos.y movingPos) pos
          then Some true
          else hitsStatic tv positions shiftX pos rest
      end
  end.

Fixpoint canSafelyShiftFrom (tv : TreeView.t) (positions : JsMap.t Pos.t)
         (movingNodeIds : IdSet.t) (shiftX : float) (entries : list (PersonId * Pos.t))
  : option bool :=
  match entries with
  | [] => Some true
  | (id, pos) :: rest =>
      if IdSet.has movingNodeIds id
      then canSafelyShiftFrom tv positions movingNodeIds shiftX rest
      else match hitsStatic tv positions shiftX pos movingNodeIds with
           | None => None
           | Some true => Some false
           | Some false => canSafelyShiftFrom tv positions movingNodeIds shiftX rest
           end
  end.

(** [canSafelyShift(movingNodeIds, shiftX)] over [this.positions]. *)
Definition canSafelyShift (tv : TreeView.t) (positions : JsMap.t Pos.t)
           (movingNodeIds : IdSet.t) (shiftX : float) : option bool :=
  canSafelyShiftFrom tv positions movingNodeIds shiftX positions.

(** [applyShift(movingNodeIds, shiftX)]: [this.positions] afterwards;
    [None] is the [TypeError] of [pos.x] for an id without a position. *)
Definition applyShift (positions : JsMap.t Pos.t) (movingNodeIds : IdSet.t) (shiftX : float)
  : option (JsMap.t Pos.t) :=
  fold_left
    (fun acc id =>
       match acc with
       | None => None
       | Some positions =>
           match JsMap.get positions id with
           | None => None
           | Some pos => Some (JsMap.set positions id (Pos.mk (Pos.x pos + shiftX) (Pos.y pos)))
           end
       end)
    movingNodeIds (Some positions).

End Binary64.


(** * Properties *)

(** ** Arithmetic helpers *)

Ltac qnorm := unfold Qdiv in *; change (/ 2) with (1 # 2) in *.


Lemma Qlt_bool_false (a b : Q) : Qlt_bool a b = false <-> b <= a.
Proof.
  unfold Qlt_bool. rewrite negb_false_iff. apply Qle_bool_iff.
Qed.

Lemma Qmax_cases (a b : Q) : (a <= b /\ Qmax a b = b) \/ (b <= a /\ Qmax a b = a).
Proof.
  unfold Qmax, GenericMinMax.gmax.
  destruct (Qcompare_spec a b) as [H|H|H].
  - right. split; [rewrite H; apply Qle_refl | reflexivity].
  - left. split; [apply Qlt_le_weak; exact H | reflexivity].
  - right. split; [apply Qlt_le_weak; exact H | reflexivity].
Qed.

Lemma inject_nat_nonneg (n : nat) : 0 <= inject_Z (Z.of_nat n).
Proof. change 0 with (inject_Z 0). rewrite <- Zle_Qle. lia. Qed.

Lemma inject_nat_S (n : nat) : inject_Z (Z.of_nat (S n)) == inject_Z (Z.of_nat n) + 1.
Proof. rewrite Nat2Z.inj_succ. unfold Z.succ. rewrite inject_Z_plus. reflexivity. Qed.

(** ** Sets of ids *)

Lemma includes_In (l : list PersonId) (k : PersonId) : includes l k = true <-> In k l.
Proof.
  unfold includes. rewrite existsb_exists. split.
  - intros [x [Hin Heq]]. apply String.eqb_eq in Heq. subst. exact Hin.
  - intro Hin. exists k. split; [exact Hin | apply String.eqb_refl].
Qed.

Lemma includes_not_In (l : list PersonId) (k : PersonId) :
  includes l k = false <-> ~ In k l.
Proof.
  rewrite <- includes_In. destruct (includes l k); split; congruence.
Qed.

Lemma IdSet_add_In (s : IdSet.t) (k x : PersonId) :
  In x (IdSet.add s k) <-> In x s \/ x = k.
Proof.
  unfold IdSet.add, IdSet.has. destruct (includes s k) eqn:E.
  - apply includes_In in E. split; [tauto | intros [H | ->]; assumption].
  - rewrite in_app_iff. simpl. split; intros [H | H]; auto.
    + destruct H as [H | []]. auto.
Qed.

Lemma IdSet_add_NoDup (s : IdSet.t) (k : PersonId) : NoDup s -> NoDup (IdSet.add s k).
Proof.
  intro H. unfold IdSet.add, IdSet.has. destruct (includes s k) eqn:E; [exact H|].
  apply includes_not_In in E.
  apply NoDup_app; [exact H | constructor; [intros [] | constructor] |].
  intros x Hx [Hk | []]. subst. exact (E Hx).
Qed.

Lemma IdSet_addAll_In (ks : list PersonId) (s : IdSet.t) (x : PersonId) :
  In x (IdSet.addAll s ks) <-> In x s \/ In x ks.
Proof.
  unfold IdSet.addAll. revert s. induction ks as [|k ks IH]; intro s; simpl.
  - tauto.
  - rewrite IH, IdSet_add_In. intuition.
Qed.

Lemma IdSet_addAll_NoDup (ks : list PersonId) (s : IdSet.t) :
  NoDup s -> NoDup (IdSet.addAll s ks).
Proof.
  unfold IdSet.addAll. revert s. induction ks as [|k ks IH]; intros s H; simpl.
  - exact H.
  - apply IH, IdSet_add_NoDup, H.
Qed.

Lemma IdSet_ofList_In (ks : list PersonId) (x : PersonId) :
  In x (IdSet.ofList ks) <-> In x ks.
Proof. unfold IdSet.ofList. rewrite IdSet_addAll_In. simpl. tauto. Qed.

Lemma IdSet_ofList_NoDup (ks : list PersonId) : NoDup (IdSet.ofList ks).
Proof. apply IdSet_addAll_NoDup. constructor. Qed.

Lemma IdSet_addAll_fresh (ks : list PersonId) (s : IdSet.t) :
  NoDup (s ++ ks) -> IdSet.addAll s ks = s ++ ks.
Proof.
  unfold IdSet.addAll. revert s. induction ks as [|k ks IH]; intros s H; simpl.
  - now rewrite app_nil_r.
  - assert (Hk : includes s k = false).
    { apply includes_not_In. intro Hin. apply NoDup_remove_2 in H.
      apply H. apply in_or_app. auto. }
    unfold IdSet.add at 2, IdSet.has. rewrite Hk.
    rewrite IH; rewrite <- app_assoc; simpl; [reflexivity | exact H].
Qed.

Lemma IdSet_ofList_NoDup_id (ks : list PersonId) : NoDup ks -> IdSet.ofList ks = ks.
Proof. intro H. unfold IdSet.ofList. now rewrite IdSet_addAll_fresh. Qed.

(** ** Maps *)

Section JsMapFacts.
Context {V : Type}.
Implicit Types (m : JsMap.t V) (k : PersonId) (v : V).

Lemma JsMap_get_In m k v : JsMap.get m k = Some v -> In (k, v) m.
  Proof.
    induction m as [|[k' v'] m IH]; simpl; [discriminate|].
    destruct (String.eqb k' k) eqn:E.
    - apply String.eqb_eq in E. intros [= <-]. subst. auto.
    - auto.
  Qed.

Lemma JsMap_has_keys m k : JsMap.has m k = true <-> In k (JsMap.keys m).
  Proof.
    unfold JsMap.has, JsMap.keys. induction m as [|[k' v'] m IH]; simpl.
    - split; [discriminate | tauto].
    - destruct (String.eqb k' k) eqn:E.
      + apply String.eqb_eq in E. subst. tauto.
      + apply String.eqb_neq in E. rewrite IH. split; [tauto | intros [H|H]; congruence].
  Qed.

Lemma JsMap_get_None m k : JsMap.get m k = None <-> ~ In k (JsMap.keys m).
  Proof.
    rewrite <- JsMap_has_keys. unfold JsMap.has.
    destruct (JsMap.get m k); split; congruence.
  Qed.

Lemma JsMap_set_In m k v k' v' :
    In (k', v') (JsMap.set m k v) -> (k', v') = (k, v) \/ In (k', v') m.
  Proof.
    induction m as [|[k0 v0] m IH]; simpl.
    - intros [H | []]. auto.
    - destruct (String.eqb k0 k) eqn:E; simpl.
      + apply String.eqb_eq in E. subst. intros [H | H]; auto.
      + intros [H | H]; auto. destruct (IH H); auto.
  Qed.

Lemma JsMap_set_keys m k v k' :
    In k' (JsMap.keys (JsMap.set m k v)) <-> In k' (JsMap.keys m) \/ k' = k.
  Proof.
    unfold JsMap.keys. induction m as [|[k0 v0] m IH]; simpl.
    - intuition.
    - destruct (String.eqb k0 k) eqn:E; simpl.
      + apply String.eqb_eq in E. subst. intuition.
      + rewrite IH. intuition.
  Qed.

Lemma JsMap_get_set_same m k v : JsMap.get (JsMap.set m k v) k = Some v.
  Proof.
    induction m as [|[k0 v0] m IH]; simpl.
    - now rewrite String.eqb_refl.
    - destruct (String.eqb k0 k) eqn:E; simpl; rewrite E; auto.
  Qed.

Lemma JsMap_get_set_other m k v k' :
    k' <> k -> JsMap.get (JsMap.set m k v) k' = JsMap.get m k'.
  Proof.
    intro Hne. induction m as [|[k0 v0] m IH]; simpl.
    - destruct (String.eqb k k') eqn:E; [apply String.eqb_eq in E; congruence | reflexivity].
    - destruct (String.eqb k0 k) eqn:E; simpl.
      + apply String.eqb_eq in E. subst.
        destruct (String.eqb k k') eqn:E'; [apply String.eqb_eq in E'; congruence | reflexivity].
      + destruct (String.eqb k0 k'); auto.
  Qed.

Lemma JsMap_setAll_In (kvs : list (PersonId * V)) m k v :
    In (k, v) (JsMap.setAll m kvs) -> In (k, v) m \/ In (k, v) kvs.
  Proof.
    unfold JsMap.setAll. revert m. induction kvs as [|[k0 v0] kvs IH]; intro m; simpl.
    - auto.
    - intro H. destruct (IH _ H) as [H1 | H1]; auto.
      destruct (JsMap_set_In _ _ _ _ _ H1); auto.
  Qed.

Lemma JsMap_setAll_keys (kvs : list (PersonId * V)) m k :
    In k (JsMap.keys (JsMap.setAll m kvs)) <-> In k (JsMap.keys m) \/ In k (map fst kvs).
  Proof.
    unfold JsMap.setAll. revert m. induction kvs as [|[k0 v0] kvs IH]; intro m; simpl.
    - tauto.
    - rewrite IH, JsMap_set_keys. intuition.
  Qed.

Lemma JsMap_set_NoDup m k v : NoDup (JsMap.keys m) -> NoDup (JsMap.keys (JsMap.set m k v)).
Proof.
  unfold JsMap.keys. induction m as [|[k0 v0] m IH]; simpl; intro H.
  - constructor; [intros [] | constructor].
  - inversion H as [|? ? Hk Hm]; subst.
    destruct (String.eqb k0 k) eqn:E; simpl; [exact H|].
    constructor; [|auto]. intro Hin. apply String.eqb_neq in E.
    apply (JsMap_set_keys m k v k0) in Hin. destruct Hin as [Hin | Hin]; [auto | congruence].
Qed.

Lemma JsMap_setAll_NoDup (kvs : list (PersonId * V)) m :
  NoDup (JsMap.keys m) -> NoDup (JsMap.keys (JsMap.setAll m kvs)).
Proof.
  unfold JsMap.setAll. revert m. induction kvs as [|[k0 v0] kvs IH]; intros m H; simpl.
  - exact H.
  - apply IH, JsMap_set_NoDup, H.
Qed.

Lemma JsMap_NoDup_get m k v : NoDup (JsMap.keys m) -> In (k, v) m -> JsMap.get m k = Some v.
Proof.
  unfold JsMap.keys. induction m as [|[k0 v0] m IH]; simpl; intros H Hin; [destruct Hin|].
  inversion H as [|? ? Hk Hm]; subst. destruct Hin as [[= -> ->] | Hin].
  - now rewrite String.eqb_refl.
  - destruct (String.eqb k0 k) eqn:E; [|auto].
    apply String.eqb_eq in E. subst k0. exfalso. apply Hk.
    change k with (fst (k, v)). now apply in_map.
Qed.
End JsMapFacts.

(** ** Ghost positions *)

Lemma ghostCoordinates_parent tv pos :
  ghostCoordinates tv "parent" pos
  = (Some (Pos.x pos), Some (Pos.y pos + TreeView.generationGap tv)).
Proof. reflexivity. Qed.

Lemma ghostCoordinates_partner tv pos :
  ghostCoordinates tv "partner" pos
  = (Some (Pos.x pos + TreeView.nodeWidth tv + TreeView.horizontalGap tv),
     Some (Pos.y pos)).
Proof. reflexivity. Qed.

Lemma ghostCoordinates_child tv pos :
  ghostCoordinates tv "child" pos
  = (Some (Pos.x pos), Some (Pos.y pos - TreeView.generationGap tv)).
Proof. reflexivity. Qed.


(** ** Widths of the couple blocks *)

(** The width formulas of a node and of every node below it. *)
Inductive WidthsOk (tv : TreeView.t) : Node.t -> Prop :=
| WidthsOk_node person partners children coupleWidth totalWidth :
    coupleWidth
    == (1 + inject_Z (Z.of_nat (length partners))) * TreeView.nodeWidth tv
       + inject_Z (Z.of_nat (length partners)) * TreeView.horizontalGap tv ->
    totalWidth
    == Qmax coupleWidth
            (sumWidths children
             + (inject_Z (Z.of_nat (length children)) - 1) * TreeView.horizontalGap tv) ->
    Forall (WidthsOk tv) children ->
    WidthsOk tv (Node.mk person partners children coupleWidth totalWidth).

Lemma coupleWidthOf_formula tv partners :
  coupleWidthOf tv partners
  == (1 + inject_Z (Z.of_nat (length partners))) * TreeView.nodeWidth tv
     + inject_Z (Z.of_nat (length partners)) * TreeView.horizontalGap tv.
Proof. unfold coupleWidthOf. ring. Qed.

Lemma coupleWidthOf_ge_nodeWidth tv partners :
  0 <= TreeView.nodeWidth tv -> 0 <= TreeView.horizontalGap tv ->
  TreeView.nodeWidth tv <= coupleWidthOf tv partners.
Proof.
  intros Hw Hg. rewrite coupleWidthOf_formula.
  pose proof (inject_nat_nonneg (length partners)) as Hk.
  pose proof (Qmult_le_0_compat _ _ Hk Hw).
  pose proof (Qmult_le_0_compat _ _ Hk Hg).
  lra.
Qed.

Lemma childrenBlockWidth_nil tv : childrenBlockWidth tv [] == 0.
Proof.
  unfold childrenBlockWidth, sumWidths. simpl.
  destruct (Qmax_cases 0 (inject_Z 0 - 1)) as [[H E] | [H E]]; rewrite E.
  - exfalso. revert H. unfold Qle. simpl. lia.
  - ring.
Qed.

Lemma childrenBlockWidth_cons tv c cs :
  childrenBlockWidth tv (c :: cs)
  == sumWidths (c :: cs)
     + (inject_Z (Z.of_nat (length (c :: cs))) - 1) * TreeView.horizontalGap tv.
Proof.
  unfold childrenBlockWidth.
  pose proof (inject_nat_nonneg (length cs)) as Hn.
  pose proof (inject_nat_S (length cs)) as HS.
  change (length (c :: cs)) with (S (length cs)).
  set (n := inject_Z (Z.of_nat (S (length cs)))) in *.
  destruct (Qmax_cases 0 (n - 1)) as [[H E] | [H E]]; rewrite E.
  - reflexivity.
  - assert (Hz : n - 1 == 0) by lra. rewrite Hz. reflexivity.
Qed.

Lemma totalWidth_formula tv cw children :
  0 <= cw -> 0 <= TreeView.horizontalGap tv ->
  Qmax cw (childrenBlockWidth tv children)
  == Qmax cw (sumWidths children
              + (inject_Z (Z.of_nat (length children)) - 1) * TreeView.horizontalGap tv).
Proof.
  intros Hcw Hg. destruct children as [|c cs].
  - pose proof (childrenBlockWidth_nil tv) as Hnil.
    destruct (Qmax_cases cw (childrenBlockWidth tv [])) as [[H E] | [H E]]; rewrite E;
      destruct (Qmax_cases cw (sumWidths [] + (inject_Z (Z.of_nat (@length Node.t [])) - 1)
                                                * TreeView.horizontalGap tv))
        as [[H' E'] | [H' E']]; rewrite E'; revert H'; unfold sumWidths; simpl;
      change (inject_Z 0) with 0; intro H'; lra.
  - pose proof (childrenBlockWidth_cons tv c cs) as Hc.
    destruct (Qmax_cases cw (childrenBlockWidth tv (c :: cs))) as [[H E] | [H E]]; rewrite E;
      destruct (Qmax_cases cw (sumWidths (c :: cs)
                               + (inject_Z (Z.of_nat (length (c :: cs))) - 1)
                                 * TreeView.horizontalGap tv))
        as [[H' E'] | [H' E']]; rewrite E'; lra.
Qed.

Section BuildTreeWidths.
Variable tv : TreeView.t.
Variable srt : Sorters.
Variable people : list Person.t.
Hypothesis nodeWidth_nonneg : 0 <= TreeView.nodeWidth tv.
Hypothesis horizontalGap_nonneg : 0 <= TreeView.horizontalGap tv.

Lemma buildChildren_widths build cids :
  (forall v cid v' n, build v cid = Some (v', Some n) -> WidthsOk tv n) ->
  forall visited children visited' children',
    buildChildren build cids visited children = Some (visited', children') ->
    Forall (WidthsOk tv) children -> Forall (WidthsOk tv) children'.
Proof.
  intro Hb. induction cids as [|cid rest IH]; simpl; intros v cs v' cs' H Hcs.
  - injection H as <- <-. exact Hcs.
  - destruct (build v cid) as [[v1 [n|]]|] eqn:E; [| |discriminate].
    + apply (IH _ _ _ _ H). apply Forall_app. split; [exact Hcs|].
      constructor; [eapply Hb; eassumption | constructor].
    + apply (IH _ _ _ _ H Hcs).
Qed.

Lemma buildTree_widths fuel :
  forall visited personId visited' node,
    buildTree tv srt people fuel visited personId = Some (visited', Some node) ->
    WidthsOk tv node.
Proof.
  induction fuel as [|fuel IH]; simpl; intros v pid v' node H; [discriminate|].
  destruct (IdSet.has v pid); [discriminate|].
  destruct (personMap_get people pid) as [person|]; [|discriminate].
  match type of H with
  | match buildChildren _ ?c ?vis [] with _ => _ end = _ =>
      destruct (buildChildren (buildTree tv srt people fuel) c vis []) as [[v2 cs]|] eqn:E;
        [|discriminate]
  end.
  injection H as <- <-.
  constructor.
  - apply coupleWidthOf_formula.
  - apply totalWidth_formula; [|exact horizontalGap_nonneg].
    eapply Qle_trans; [exact nodeWidth_nonneg|].
    apply coupleWidthOf_ge_nodeWidth; assumption.
  - eapply buildChildren_widths; [exact IH | exact E | constructor].
Qed.
End BuildTreeWidths.

(** ** The person store *)

Lemma mirror_involutive k : mirror (mirror k) = k.
Proof. destruct k; reflexivity. Qed.

Lemma withList_id k l p : Person.id (withList k l p) = Person.id p.
Proof. reflexivity. Qed.

Lemma listOf_withList k k' l p :
  listOf k' (withList k l p) = if Kind_eqb k k' then l else listOf k' p.
Proof. destruct k, k'; reflexivity. Qed.

Lemma withList_same k p : withList k (listOf k p) p = p.
Proof. destruct p as [i g b [ps cs pts] sl], k; reflexivity. Qed.

Lemma personMap_get_Some people k p :
  personMap_get people k = Some p -> In p people /\ Person.id p = k.
Proof.
  induction people as [|q rest IH]; simpl; [discriminate|].
  destruct (personMap_get rest k) as [q'|].
  - intros [= <-]. destruct (IH eq_refl). auto.
  - destruct (String.eqb (Person.id q) k) eqn:E; [|discriminate].
    intros [= <-]. apply String.eqb_eq in E. auto.
Qed.

Lemma personMap_get_None people k :
  personMap_get people k = None <-> ~ In k (map Person.id people).
Proof.
  induction people as [|q rest IH]; simpl.
  - split; [tauto | reflexivity].
  - destruct (personMap_get rest k) as [q'|].
    + split; [discriminate|]. intro H. exfalso. apply H. right.
      assert (Hn : Some q' <> None) by discriminate.
      destruct (in_dec string_dec k (map Person.id rest)) as [i|n]; [exact i|].
      apply IH in n. congruence.
    + destruct (String.eqb (Person.id q) k) eqn:E.
      * apply String.eqb_eq in E. split; [discriminate | intro H; exfalso; auto].
      * apply String.eqb_neq in E. split; [|reflexivity].
        intros _ [H|H]; [auto|]. apply IH in H; auto.
Qed.

Lemma personMap_get_In_ids people k :
  In k (map Person.id people) -> exists p, personMap_get people k = Some p.
Proof.
  intro H. destruct (personMap_get people k) as [p|] eqn:E; [eauto|].
  apply personMap_get_None in E. contradiction.
Qed.

Lemma personMap_update_ids people k f :
  (forall p, Person.id (f p) = Person.id p) ->
  map Person.id (personMap_update people k f) = map Person.id people.
Proof.
  intro Hf. induction people as [|q rest IH]; simpl; [reflexivity|].
  destruct (personMap_get rest k).
  - simpl. now rewrite IH.
  - destruct (String.eqb (Person.id q) k); simpl; [now rewrite Hf | reflexivity].
Qed.

Lemma personMap_get_update people k f k' :
  (forall p, Person.id (f p) = Person.id p) ->
  personMap_get (personMap_update people k f) k'
  = if String.eqb k k' then option_map f (personMap_get people k)
    else personMap_get people k'.
Proof.
  intro Hf. induction people as [|q rest IH]; simpl.
  - now destruct (String.eqb k k').
  - destruct (personMap_get rest k) as [r|] eqn:Er; simpl.
    + rewrite IH. destruct (String.eqb k k') eqn:E; simpl; [reflexivity|].
      reflexivity.
    + destruct (String.eqb (Person.id q) k) eqn:Eq; simpl.
      * apply String.eqb_eq in Eq. subst k. rewrite Hf.
        destruct (String.eqb (Person.id q) k') eqn:E.
        -- apply String.eqb_eq in E. subst k'. now rewrite Er.
        -- reflexivity.
      * destruct (String.eqb k k') eqn:E.
        -- apply String.eqb_eq in E. subst k'. now rewrite Er, Eq.
        -- reflexivity.
Qed.

Lemma personMap_get_nth people i p :
  NoDup (map Person.id people) -> nth_error people i = Some p ->
  personMap_get people (Person.id p) = Some p.
Proof.
  revert i. induction people as [|q rest IH]; intros [|i] Hnd H; simpl in *;
    try discriminate; inversion Hnd as [|? ? Hq Hrest]; subst.
  - injection H as ->.
    destruct (personMap_get rest (Person.id p)) eqn:E.
    + apply personMap_get_Some in E. destruct E as [Hin Hid].
      exfalso. apply Hq. rewrite <- Hid. now apply in_map.
    + now rewrite String.eqb_refl.
  - now rewrite (IH _ Hrest H).
Qed.

Lemma setNth_personMap_update people i p f :
  NoDup (map Person.id people) -> nth_error people i = Some p ->
  setNth i f people = personMap_update people (Person.id p) f.
Proof.
  revert i. induction people as [|q rest IH]; intros [|i] Hnd H; simpl in *;
    try discriminate; inversion Hnd as [|? ? Hq Hrest]; subst.
  - injection H as ->.
    destruct (personMap_get rest (Person.id p)) eqn:E.
    + apply personMap_get_Some in E. destruct E as [Hin Hid].
      exfalso. apply Hq. rewrite <- Hid. now apply in_map.
    + now rewrite String.eqb_refl.
  - rewrite (personMap_get_nth _ _ _ Hrest H). f_equal. now apply IH.
Qed.

Lemma personMap_update_same people k f :
  (forall p, personMap_get people k = Some p -> f p = p) ->
  personMap_update people k f = people.
Proof.
  induction people as [|q rest IH]; simpl; intro Hf; [reflexivity|].
  destruct (personMap_get rest k) as [r|] eqn:Er.
  - f_equal. apply IH. intros p Hp. apply Hf. exact Hp.
  - destruct (String.eqb (Person.id q) k) eqn:Eq; [|reflexivity].
    f_equal. apply Hf. reflexivity.
Qed.

(** ** Relationship repair *)

(** [a] lists [b] in its [k] list. *)
Definition link (people : list Person.t) (k : Kind) (a b : PersonId) : Prop :=
  exists pa, personMap_get people a = Some pa /\ In b (listOf k pa).

Definition known (people : list Person.t) (b : PersonId) : Prop :=
  In b (map Person.id people).

(** Every link to a known person is listed back. *)
Definition Mirrored (people : list Person.t) : Prop :=
  forall k a b, link people k a b -> known people b -> link people (mirror k) b a.

Definition Deduplicated (people : list Person.t) : Prop :=
  forall k a pa, personMap_get people a = Some pa -> NoDup (listOf k pa).

(** What a step of a repair pass may do to the store: it keeps the ids
    and every link, it adds a link only where the reverse link is there,
    and it leaves duplicate-free lists duplicate-free. *)
Record Heals (s s' : list Person.t) : Prop := {
  heals_ids : map Person.id s' = map Person.id s;
  heals_keeps : forall k a b, link s k a b -> link s' k a b;
  heals_new : forall k a b, link s' k a b -> link s k a b \/ link s' (mirror k) b a;
  heals_nodup : forall k a pa pa',
      personMap_get s a = Some pa -> personMap_get s' a = Some pa' ->
      NoDup (listOf k pa) -> NoDup (listOf k pa') }.

Lemma Heals_refl s : Heals s s.
Proof.
  constructor; auto. intros k a pa pa' H H'. rewrite H in H'. now injection H' as <-.
Qed.

Lemma known_get s b : known s b <-> exists p, personMap_get s b = Some p.
Proof.
  split.
  - apply personMap_get_In_ids.
  - intros [p H]. destruct (personMap_get_Some _ _ _ H) as [Hin <-].
    now apply in_map.
Qed.

Lemma Heals_known s s' b : Heals s s' -> (known s' b <-> known s b).
Proof. intro H. unfold known. now rewrite (heals_ids _ _ H). Qed.

Lemma Heals_trans s1 s2 s3 : Heals s1 s2 -> Heals s2 s3 -> Heals s1 s3.
Proof.
  intros H12 H23. constructor.
  - rewrite (heals_ids _ _ H23). apply (heals_ids _ _ H12).
  - intros k a b H. apply (heals_keeps _ _ H23), (heals_keeps _ _ H12), H.
  - intros k a b H. destruct (heals_new _ _ H23 _ _ _ H) as [H2 | H3]; [|auto].
    destruct (heals_new _ _ H12 _ _ _ H2) as [H1 | H2']; [auto|].
    right. apply (heals_keeps _ _ H23), H2'.
  - intros k a pa pa' H1 H3 Hnd.
    assert (Hk : known s2 a).
    { apply (Heals_known _ _ _ H23). apply known_get. eauto. }
    apply known_get in Hk. destruct Hk as [p2 H2].
    apply (heals_nodup _ _ H23 k a p2 pa' H2 H3).
    apply (heals_nodup _ _ H12 k a pa p2 H1 H2 Hnd).
Qed.

(** Rewriting the [k] list of [target] with a list of the same members,
    or with one more member [who] that lists [target] back. *)
Lemma update_list_Heals s k target (g : list PersonId -> list PersonId) :
  (forall pt, personMap_get s target = Some pt ->
              forall b, In b (listOf k pt) -> In b (g (listOf k pt))) ->
  (forall pt, personMap_get s target = Some pt ->
              forall b, In b (g (listOf k pt)) ->
                        In b (listOf k pt) \/ link s (mirror k) b target) ->
  (forall pt, personMap_get s target = Some pt ->
              NoDup (listOf k pt) -> NoDup (g (listOf k pt))) ->
  Heals s (personMap_update s target (fun o => withList k (g (listOf k o)) o)).
Proof.
  intros Hkeep Hnew Hnd.
  set (f := fun o => withList k (g (listOf k o)) o).
  assert (Hf : forall p, Person.id (f p) = Person.id p) by reflexivity.
  assert (Hget : forall a, personMap_get (personMap_update s target f) a
                           = if String.eqb target a then option_map f (personMap_get s target)
                             else personMap_get s a).
  { intro a. apply personMap_get_update, Hf. }
  assert (Hmono : forall k' a b, link s k' a b -> link (personMap_update s target f) k' a b).
  { intros k' a b [pa [Ha Hb]]. unfold link. rewrite Hget.
    destruct (String.eqb target a) eqn:E.
    - apply String.eqb_eq in E. subst a. rewrite Ha. simpl.
      exists (f pa). split; [reflexivity|]. unfold f. rewrite listOf_withList.
      destruct (Kind_eqb k k') eqn:Ek; [|exact Hb].
      assert (k = k') by (destruct k, k'; simpl in Ek; congruence). subst k'.
      now apply Hkeep.
    - eauto. }
  constructor.
  - apply personMap_update_ids, Hf.
  - exact Hmono.
  - intros k' a b [pa [Ha Hb]]. rewrite Hget in Ha.
    destruct (String.eqb target a) eqn:E.
    + apply String.eqb_eq in E. subst a.
      destruct (personMap_get s target) as [pt|] eqn:Et; [|discriminate].
      simpl in Ha. injection Ha as <-. unfold f in Hb. rewrite listOf_withList in Hb.
      destruct (Kind_eqb k k') eqn:Ek.
      * assert (k = k') by (destruct k, k'; simpl in Ek; congruence). subst k'.
        destruct (Hnew _ eq_refl _ Hb) as [H | H].
        -- left. exists pt. auto.
        -- right. apply Hmono, H.
      * left. exists pt. auto.
    + left. exists pa. auto.
  - intros k' a pa pa' Ha Ha' Hn. rewrite Hget in Ha'.
    destruct (String.eqb target a) eqn:E.
    + apply String.eqb_eq in E. subst a. rewrite Ha in Ha'. simpl in Ha'.
      injection Ha' as <-. unfold f. rewrite listOf_withList.
      destruct (Kind_eqb k k') eqn:Ek; [|exact Hn].
      assert (k = k') by (destruct k, k'; simpl in Ek; congruence). subst k'.
      now apply Hnd.
    + rewrite Ha in Ha'. now injection Ha' as <-.
Qed.

Lemma ensureLink_Heals k who target s :
  link s (mirror k) who target -> Heals s (fst (ensureLink k who target s)).
Proof.
  intro Hl. unfold ensureLink.
  destruct (personMap_get s target) as [other|] eqn:Et; [|apply Heals_refl].
  destruct (includes (listOf k other) who) eqn:Ei; [apply Heals_refl|].
  simpl. apply (update_list_Heals s k target (fun l => l ++ [who])).
  - intros pt _ b Hb. apply in_or_app. auto.
  - intros pt _ b Hb. apply in_app_or in Hb. destruct Hb as [Hb | [<- | []]]; auto.
  - intros pt Hpt Hn. rewrite Et in Hpt. injection Hpt as <-.
    apply includes_not_In in Ei.
    apply NoDup_app; [exact Hn | constructor; [intros [] | constructor] |].
    intros x Hx [<- | []]. exact (Ei Hx).
Qed.

Lemma ensureLink_links k who target s :
  known s target -> link (fst (ensureLink k who target s)) k target who.
Proof.
  intro Hk. apply known_get in Hk. destruct Hk as [other Et].
  unfold ensureLink. rewrite Et.
  destruct (includes (listOf k other) who) eqn:Ei; simpl.
  - apply includes_In in Ei. exists other. auto.
  - unfold link. rewrite personMap_get_update by reflexivity.
    rewrite String.eqb_refl, Et. simpl. eexists. split; [reflexivity|].
    rewrite listOf_withList.
    replace (Kind_eqb k k) with true by (destruct k; reflexivity).
    apply in_or_app. right. left. reflexivity.
Qed.

Lemma ensureLink_unchanged k who target s :
  (known s target -> link s k target who) -> ensureLink k who target s = (s, false).
Proof.
  intro H. unfold ensureLink.
  destruct (personMap_get s target) as [other|] eqn:Et; [|reflexivity].
  destruct H as [p [Hp Hin]]; [apply known_get; eauto|].
  rewrite Et in Hp. injection Hp as <-. apply includes_In in Hin. now rewrite Hin.
Qed.

Lemma ensureLinks_Heals k who targets : forall s c,
  (forall t, In t targets -> link s (mirror k) who t) ->
  Heals s (fst (ensureLinks k who targets (s, c)))
  /\ (forall t, In t targets -> known s t ->
                link (fst (ensureLinks k who targets (s, c))) k t who).
Proof.
  unfold ensureLinks.
  induction targets as [|t targets IH]; intros s c Hl; simpl.
  - split; [apply Heals_refl | intros t []].
  - assert (H1 : Heals s (fst (ensureLink k who t s))).
    { apply ensureLink_Heals, Hl. now left. }
    destruct (IH (fst (ensureLink k who t s)) (c || snd (ensureLink k who t s))%bool) as [H2 H3].
    { intros t' Ht'. apply (heals_keeps _ _ H1), Hl. now right. }
    split; [eapply Heals_trans; eassumption|].
    intros t' [<- | Ht'] Hk.
    + apply (heals_keeps _ _ H2). now apply ensureLink_links.
    + apply H3; [exact Ht'|]. now apply (Heals_known _ _ _ H1).
Qed.

Lemma ensureLinks_unchanged k who targets : forall s c,
  (forall t, In t targets -> known s t -> link s k t who) ->
  ensureLinks k who targets (s, c) = (s, c).
Proof.
  unfold ensureLinks.
  induction targets as [|t targets IH]; intros s c H; simpl; [reflexivity|].
  rewrite ensureLink_unchanged by (apply H; now left). simpl.
  rewrite orb_false_r. apply IH. intros t' Ht'. apply H. now right.
Qed.

Lemma personMap_update_ext s k f g :
  (forall q, personMap_get s k = Some q -> f q = g q) ->
  personMap_update s k f = personMap_update s k g.
Proof.
  induction s as [|q rest IH]; simpl; intro H; [reflexivity|].
  destruct (personMap_get rest k) as [r|] eqn:Er.
  - f_equal. apply IH. intros q' Hq'. apply H. exact Hq'.
  - destruct (String.eqb (Person.id q) k) eqn:Eq; [|reflexivity].
    f_equal. apply H. reflexivity.
Qed.

Lemma nth_error_ids (s s' : list Person.t) i p :
  map Person.id s' = map Person.id s -> nth_error s i = Some p ->
  exists p', nth_error s' i = Some p' /\ Person.id p' = Person.id p.
Proof.
  intros Hids Hn. apply (map_nth_error Person.id) in Hn.
  rewrite <- Hids, nth_error_map in Hn.
  destruct (nth_error s' i) as [p'|]; [|discriminate].
  simpl in Hn. injection Hn as Hn. eauto.
Qed.

(** The [k] list of [a] is duplicate-free and every link in it is listed
    back. *)
Definition DoneKind (k : Kind) (a : PersonId) (s : list Person.t) : Prop :=
  (forall b, link s k a b -> known s b -> link s (mirror k) b a)
  /\ (forall pa, personMap_get s a = Some pa -> NoDup (listOf k pa)).

Lemma DoneKind_Heals k a s s' : Heals s s' -> DoneKind k a s -> DoneKind k a s'.
Proof.
  intros H [D1 D2]. split.
  - intros b Hl Hk. destruct (heals_new _ _ H _ _ _ Hl) as [Hl' | Hl']; [|exact Hl'].
    apply (heals_keeps _ _ H), D1; [exact Hl'|]. now apply (Heals_known _ _ _ H).
  - intros pa' Ha'.
    assert (Hk : known s a).
    { apply (Heals_known _ _ _ H). apply known_get. eauto. }
    apply known_get in Hk. destruct Hk as [pa Ha].
    apply (heals_nodup _ _ H k a pa pa' Ha Ha'), D2, Ha.
Qed.

Lemma repairKind_spec k i s c p :
  NoDup (map Person.id s) -> nth_error s i = Some p ->
  Heals s (fst (repairKind k i (s, c)))
  /\ DoneKind k (Person.id p) (fst (repairKind k i (s, c))).
Proof.
  intros Hnd Hn. unfold repairKind. simpl fst. simpl snd. rewrite Hn.
  pose proof (personMap_get_nth _ _ _ Hnd Hn) as Hp.
  rewrite (setNth_personMap_update _ _ _ _ Hnd Hn).
  rewrite (personMap_update_ext s (Person.id p) _
             (fun o => withList k (IdSet.ofList (listOf k o)) o)).
  2:{ intros q Hq. rewrite Hp in Hq. now injection Hq as <-. }
  set (s1 := personMap_update s (Person.id p) _).
  assert (H1 : Heals s s1).
  { apply (update_list_Heals s k (Person.id p) IdSet.ofList).
    - intros pt _ b Hb. now apply IdSet_ofList_In.
    - intros pt _ b Hb. left. now apply IdSet_ofList_In.
    - intros pt _ _. apply IdSet_ofList_NoDup. }
  assert (Hp1 : personMap_get s1 (Person.id p)
                = Some (withList k (IdSet.ofList (listOf k p)) p)).
  { unfold s1. rewrite personMap_get_update by reflexivity.
    now rewrite String.eqb_refl, Hp. }
  destruct (ensureLinks_Heals (mirror k) (Person.id p) (IdSet.ofList (listOf k p)) s1 c)
    as [H2 H3].
  { intros t Ht. rewrite mirror_involutive. eexists. split; [exact Hp1|].
    rewrite listOf_withList.
    replace (Kind_eqb k k) with true by (destruct k; reflexivity). exact Ht. }
  split; [eapply Heals_trans; eassumption|].
  split.
  - intros b Hl Hk. destruct (heals_new _ _ H2 _ _ _ Hl) as [Hl' | Hl']; [|exact Hl'].
    apply H3.
    + destruct Hl' as [pa [Ha Hb]]. rewrite Hp1 in Ha. injection Ha as <-.
      rewrite listOf_withList in Hb.
      replace (Kind_eqb k k) with true in Hb by (destruct k; reflexivity). exact Hb.
    + now apply (Heals_known _ _ _ H2).
  - intros pa' Ha'. apply (heals_nodup _ _ H2 k _ _ pa' Hp1 Ha').
    rewrite listOf_withList.
    replace (Kind_eqb k k) with true by (destruct k; reflexivity).
    apply IdSet_ofList_NoDup.
Qed.

Lemma repairEntry_spec i s c p :
  NoDup (map Person.id s) -> nth_error s i = Some p ->
  Heals s (fst (repairEntry (s, c) i))
  /\ forall k, DoneKind k (Person.id p) (fst (repairEntry (s, c) i)).
Proof.
  intros Hnd Hn. unfold repairEntry.
  destruct (repairKind Parents i (s, c)) as [s1 c1] eqn:E1.
  destruct (repairKind_spec Parents i s c p Hnd Hn) as [H1 D1]. rewrite E1 in H1, D1.
  simpl in H1, D1.
  destruct (nth_error_ids s s1 i p (heals_ids _ _ H1) Hn) as [p1 [Hn1 Hid1]].
  assert (Hnd1 : NoDup (map Person.id s1)) by (rewrite (heals_ids _ _ H1); exact Hnd).
  destruct (repairKind Children i (s1, c1)) as [s2 c2] eqn:E2.
  destruct (repairKind_spec Children i s1 c1 p1 Hnd1 Hn1) as [H2 D2]. rewrite E2 in H2, D2.
  simpl in H2, D2. rewrite Hid1 in D2.
  destruct (nth_error_ids s1 s2 i p1 (heals_ids _ _ H2) Hn1) as [p2 [Hn2 Hid2]].
  assert (Hnd2 : NoDup (map Person.id s2)) by (rewrite (heals_ids _ _ H2); exact Hnd1).
  destruct (repairKind_spec Partners i s2 c2 p2 Hnd2 Hn2) as [H3 D3].
  rewrite Hid2, Hid1 in D3.
  split; [eapply Heals_trans; [exact H1 | eapply Heals_trans; eassumption]|].
  intros [| |].
  - eapply DoneKind_Heals; [|exact D1]. eapply Heals_trans; eassumption.
  - eapply DoneKind_Heals; [exact H3 | exact D2].
  - exact D3.
Qed.

Lemma repairData_loop n : forall i s c,
  NoDup (map Person.id s) -> (i + n = length s)%nat ->
  (forall j p k, (j < i)%nat -> nth_error s j = Some p -> DoneKind k (Person.id p) s) ->
  Heals s (fst (fold_left repairEntry (seq i n) (s, c)))
  /\ (forall j p k, nth_error (fst (fold_left repairEntry (seq i n) (s, c))) j = Some p ->
                    DoneKind k (Person.id p) (fst (fold_left repairEntry (seq i n) (s, c)))).
Proof.
  induction n as [|n IH]; intros i s c Hnd Hlen Hdone; simpl.
  - split; [apply Heals_refl|]. intros j p k Hj. apply Hdone with j; [|exact Hj].
    assert (Hlt : (j < length s)%nat) by (apply nth_error_Some; congruence). lia.
  - destruct (nth_error s i) as [p|] eqn:Hn.
    2:{ apply nth_error_None in Hn. lia. }
    destruct (repairEntry_spec i s c p Hnd Hn) as [H1 D1].
    destruct (repairEntry (s, c) i) as [s1 c1] eqn:E. simpl in H1, D1.
    assert (Hnd1 : NoDup (map Person.id s1)) by (rewrite (heals_ids _ _ H1); exact Hnd).
    destruct (IH (S i) s1 c1 Hnd1) as [H2 D2].
    + rewrite <- (length_map Person.id s1), (heals_ids _ _ H1), length_map. lia.
    + intros j q k Hj Hq.
      destruct (nth_error_ids s1 s j q (eq_sym (heals_ids _ _ H1)) Hq) as [q0 [Hq0 Hid]].
      rewrite <- Hid.
      destruct (Nat.eq_dec j i) as [-> | Hne].
      * rewrite Hn in Hq0. injection Hq0 as <-. apply D1.
      * apply (DoneKind_Heals _ _ _ _ H1). apply Hdone with j; [lia | exact Hq0].
    + split; [eapply Heals_trans; eassumption | exact D2].
Qed.

Lemma repairData_unfold store :
  repairData store = fold_left repairEntry (seq 0 (length store)) (store, false).
Proof. reflexivity. Qed.

Lemma repairData_Heals store :
  NoDup (map Person.id store) ->
  Heals store (fst (repairData store))
  /\ Mirrored (fst (repairData store)) /\ Deduplicated (fst (repairData store)).
Proof.
  intro Hnd. rewrite repairData_unfold.
  destruct (repairData_loop (length store) 0 store false Hnd eq_refl) as [H D].
  { intros j p k Hj. lia. }
  split; [exact H|]. split.
  - intros k a b Hl Hk. destruct Hl as [pa [Ha Hb]].
    destruct (personMap_get_Some _ _ _ Ha) as [Hin <-].
    apply In_nth_error in Hin. destruct Hin as [j Hj].
    apply (proj1 (D j pa k Hj)); [|exact Hk]. exists pa. auto.
  - intros k a pa Ha.
    destruct (personMap_get_Some _ _ _ Ha) as [Hin <-].
    apply In_nth_error in Hin. destruct Hin as [j Hj].
    apply (proj2 (D j pa k Hj)), Ha.
Qed.

Lemma repairKind_fixpoint k i s c :
  NoDup (map Person.id s) -> Mirrored s -> Deduplicated s ->
  repairKind k i (s, c) = (s, c).
Proof.
  intros Hnd Hm Hd. unfold repairKind. simpl fst. simpl snd.
  destruct (nth_error s i) as [p|] eqn:Hn; [|reflexivity].
  pose proof (personMap_get_nth _ _ _ Hnd Hn) as Hp.
  rewrite (IdSet_ofList_NoDup_id (listOf k p)) by (eapply Hd; exact Hp).
  rewrite (setNth_personMap_update _ _ _ _ Hnd Hn).
  rewrite personMap_update_same.
  2:{ intros q Hq. rewrite Hp in Hq. injection Hq as <-. apply withList_same. }
  apply ensureLinks_unchanged. intros t Ht Hk.
  apply Hm; [|exact Hk]. exists p. auto.
Qed.

Lemma repairData_fixpoint s :
  NoDup (map Person.id s) -> Mirrored s -> Deduplicated s ->
  repairData s = (s, false).
Proof.
  intros Hnd Hm Hd. rewrite repairData_unfold.
  generalize (seq 0 (length s)). intro l. induction l as [|i l IH]; simpl; [reflexivity|].
  unfold repairEntry at 2. rewrite !repairKind_fixpoint by assumption. exact IH.
Qed.

(** C5.  Running [repairData] on the store a first run produced returns
    that store unchanged, with the [changed] flag false: no relationships
    array is written a second time. *)
Theorem repairData_idempotent (store : list Person.t) :
  NoDup (map Person.id store) ->
  repairData (fst (repairData store)) = (fst (repairData store), false).
Proof.
  intro Hnd. destruct (repairData_Heals store Hnd) as [H [Hm Hd]].
  apply repairData_fixpoint; [|exact Hm | exact Hd].
  rewrite (heals_ids _ _ H). exact Hnd.
Qed.

(** *** The pre-processing loop of the layout pass

    [calculateLayout] repeats the parent and child part of the repair on
    the list it is given; it neither touches partner links nor removes
    duplicates.  On a store [repairData] has repaired it changes nothing. *)

(** Every [k] link of [a] to a known person is listed back. *)
Definition MirroredKind (k : Kind) (a : PersonId) (s : list Person.t) : Prop :=
  forall b, link s k a b -> known s b -> link s (mirror k) b a.

Lemma MirroredKind_Heals k a s s' : Heals s s' -> MirroredKind k a s -> MirroredKind k a s'.
Proof.
  intros H D b Hl Hk. destruct (heals_new _ _ H _ _ _ Hl) as [Hl' | Hl']; [|exact Hl'].
  apply (heals_keeps _ _ H), D; [exact Hl'|]. now apply (Heals_known _ _ _ H).
Qed.

Lemma ensureLinks_mirrors k s p :
  personMap_get s (Person.id p) = Some p ->
  Heals s (fst (ensureLinks (mirror k) (Person.id p) (listOf k p) (s, false)))
  /\ MirroredKind k (Person.id p)
                  (fst (ensureLinks (mirror k) (Person.id p) (listOf k p) (s, false))).
Proof.
  intro Hp.
  destruct (ensureLinks_Heals (mirror k) (Person.id p) (listOf k p) s false) as [H1 H2].
  { intros t Ht. rewrite mirror_involutive. exists p. auto. }
  split; [exact H1|]. intros b Hl Hk.
  destruct (heals_new _ _ H1 _ _ _ Hl) as [Hl' | Hl']; [|exact Hl'].
  destruct Hl' as [pa [Ha Hb]]. rewrite Hp in Ha. injection Ha as <-.
  apply H2; [exact Hb|]. now apply (Heals_known _ _ _ H1).
Qed.

Lemma repairLinksAt_spec s i p :
  NoDup (map Person.id s) -> nth_error s i = Some p ->
  Heals s (repairLinksAt s i)
  /\ MirroredKind Children (Person.id p) (repairLinksAt s i)
  /\ MirroredKind Parents (Person.id p) (repairLinksAt s i).
Proof.
  intros Hnd Hn. unfold repairLinksAt. rewrite Hn.
  pose proof (personMap_get_nth _ _ _ Hnd Hn) as Hp.
  destruct (ensureLinks_mirrors Children s p Hp) as [H1 M1]. simpl mirror in H1, M1.
  set (s1 := fst (ensureLinks Parents (Person.id p) (listOf Children p) (s, false))) in *.
  destruct (nth_error_ids s s1 i p (heals_ids _ _ H1) Hn) as [p1 [Hn1 Hid1]].
  rewrite Hn1.
  assert (Hnd1 : NoDup (map Person.id s1)) by (rewrite (heals_ids _ _ H1); exact Hnd).
  pose proof (personMap_get_nth _ _ _ Hnd1 Hn1) as Hp1.
  destruct (ensureLinks_mirrors Parents s1 p1 Hp1) as [H2 M2]. simpl mirror in H2, M2.
  rewrite Hid1 in H2, M2.
  split; [eapply Heals_trans; eassumption|]. split; [|exact M2].
  eapply MirroredKind_Heals; eassumption.
Qed.

Lemma repairLinks_loop l : forall s (done : list nat),
  NoDup (map Person.id s) ->
  (forall j p, In j done -> nth_error s j = Some p ->
               MirroredKind Children (Person.id p) s /\ MirroredKind Parents (Person.id p) s) ->
  Heals s (fold_left repairLinksAt l s)
  /\ (forall j p, In j (done ++ l) -> nth_error (fold_left repairLinksAt l s) j = Some p ->
                  MirroredKind Children (Person.id p) (fold_left repairLinksAt l s)
                  /\ MirroredKind Parents (Person.id p) (fold_left repairLinksAt l s)).
Proof.
  induction l as [|i l IH]; intros s done Hnd Hdone; simpl.
  - split; [apply Heals_refl|]. intros j p Hj. rewrite app_nil_r in Hj. now apply Hdone.
  - assert (H1 : Heals s (repairLinksAt s i)
                 /\ forall p, nth_error s i = Some p ->
                              MirroredKind Children (Person.id p) (repairLinksAt s i)
                              /\ MirroredKind Parents (Person.id p) (repairLinksAt s i)).
    { destruct (nth_error s i) as [p|] eqn:Hn.
      - destruct (repairLinksAt_spec s i p Hnd Hn) as [A [B C]].
        split; [exact A|]. intros q [= <-]. auto.
      - unfold repairLinksAt. rewrite Hn. split; [apply Heals_refl | discriminate]. }
    destruct H1 as [H1 M1].
    assert (Hnd1 : NoDup (map Person.id (repairLinksAt s i)))
      by (rewrite (heals_ids _ _ H1); exact Hnd).
    destruct (IH (repairLinksAt s i) (done ++ [i]) Hnd1) as [H2 M2].
    + intros j q Hj Hq.
      destruct (nth_error_ids _ s j q (eq_sym (heals_ids _ _ H1)) Hq) as [q0 [Hq0 Hid]].
      rewrite <- Hid. apply in_app_or in Hj. destruct Hj as [Hj | [<- | []]].
      * destruct (Hdone j q0 Hj Hq0). split; eapply MirroredKind_Heals; eassumption.
      * exact (M1 q0 Hq0).
    + split; [eapply Heals_trans; eassumption|].
      intros j q Hj. apply M2. rewrite <- app_assoc. exact Hj.
Qed.

(** The pre-processing loop keeps the ids and every link and leaves every
    parent link to a known person listed back as a child link, and every
    child link as a parent link. *)
Lemma repairLinks_mirrors_parent_child people :
  NoDup (map Person.id people) ->
  Heals people (repairLinks people)
  /\ forall a b, known people b ->
        (link (repairLinks people) Parents a b -> link (repairLinks people) Children b a)
        /\ (link (repairLinks people) Children a b -> link (repairLinks people) Parents b a).
Proof.
  intro Hnd. unfold repairLinks.
  destruct (repairLinks_loop (seq 0 (length people)) people [] Hnd) as [H M].
  { intros j p []. }
  split; [exact H|]. intros a b Hk. apply (Heals_known _ _ _ H) in Hk.
  assert (Hall : forall pa, personMap_get (fold_left repairLinksAt (seq 0 (length people)) people) a
                            = Some pa ->
                            MirroredKind Children a
                              (fold_left repairLinksAt (seq 0 (length people)) people)
                            /\ MirroredKind Parents a
                                 (fold_left repairLinksAt (seq 0 (length people)) people)).
  { intros pa Ha. destruct (personMap_get_Some _ _ _ Ha) as [Hin <-].
    apply In_nth_error in Hin. destruct Hin as [j Hj]. apply (M j pa); [|exact Hj].
    simpl. apply in_seq.
    assert (Hlt : (j < length (fold_left repairLinksAt (seq 0 (length people)) people))%nat)
      by (apply nth_error_Some; congruence).
    rewrite <- (length_map Person.id), (heals_ids _ _ H), length_map in Hlt. lia. }
  split; intros [pa [Ha Hb]]; destruct (Hall pa Ha) as [MC MP].
  - apply (MP b); [exists pa; auto | exact Hk].
  - apply (MC b); [exists pa; auto | exact Hk].
Qed.

(** On consistent data the pre-processing loop writes nothing. *)
Lemma repairLinks_fixpoint people :
  NoDup (map Person.id people) ->
  (forall a b, known people b ->
     (link people Parents a b -> link people Children b a)
     /\ (link people Children a b -> link people Parents b a)) ->
  repairLinks people = people.
Proof.
  intros Hnd Hm. unfold repairLinks. generalize (seq 0 (length people)). intro l.
  induction l as [|i l IH]; simpl; [reflexivity|].
  assert (Hi : repairLinksAt people i = people).
  { unfold repairLinksAt. destruct (nth_error people i) as [p|] eqn:Hn; [|reflexivity].
    pose proof (personMap_get_nth _ _ _ Hnd Hn) as Hp.
    rewrite ensureLinks_unchanged.
    2:{ intros t Ht Hk. apply (Hm (Person.id p) t Hk). exists p. auto. }
    simpl. rewrite Hn. rewrite ensureLinks_unchanged; [reflexivity|].
    intros t Ht Hk. apply (Hm (Person.id p) t Hk). exists p. auto. }
  rewrite Hi. exact IH.
Qed.

(** The layout pass leaves a store repaired by [repairData] as it is,
    and a second run of its own loop changes nothing either. *)
Lemma repairLinks_after_repairData store :
  NoDup (map Person.id store) ->
  repairLinks (fst (repairData store)) = fst (repairData store).
Proof.
  intro Hnd. destruct (repairData_Heals store Hnd) as [H [Hm _]].
  apply repairLinks_fixpoint.
  - rewrite (heals_ids _ _ H). exact Hnd.
  - intros a b Hk. split; intro Hl.
    + exact (Hm Parents a b Hl Hk).
    + exact (Hm Children a b Hl Hk).
Qed.

Lemma repairLinks_idempotent people :
  NoDup (map Person.id people) ->
  repairLinks (repairLinks people) = repairLinks people.
Proof.
  intro Hnd. destruct (repairLinks_mirrors_parent_child people Hnd) as [H Hm].
  apply repairLinks_fixpoint.
  - rewrite (heals_ids _ _ H). exact Hnd.
  - intros a b Hk. apply Hm. now apply (Heals_known _ _ _ H).
Qed.

(** ** Generation assignment *)

(** Every id the wave can meet: the ids of the people and the ids their
    relationship lists name. *)
Definition idsMentioned (people : list Person.t) : list PersonId :=
  flat_map (fun p => Person.id p
                     :: listOf Parents p ++ listOf Children p ++ listOf Partners p)
           people.

Definition unassigned (U : list PersonId) (gens : Gens) : nat :=
  length (filter (fun k => negb (JsMap.has gens k)) U).

Lemma JsMap_has_set {V : Type} (m : JsMap.t V) k v k' :
  JsMap.has (JsMap.set m k v) k' = (String.eqb k k' || JsMap.has m k')%bool.
Proof.
  unfold JsMap.has. destruct (String.eqb k k') eqn:E.
  - apply String.eqb_eq in E. subst. now rewrite JsMap_get_set_same.
  - apply String.eqb_neq in E. rewrite JsMap_get_set_other by congruence. reflexivity.
Qed.

Lemma unassigned_set_le U gens k v :
  (unassigned U (JsMap.set gens k v) <= unassigned U gens)%nat.
Proof.
  unfold unassigned. induction U as [|u U IH]; simpl; [lia|].
  rewrite JsMap_has_set.
  destruct (String.eqb k u); destruct (JsMap.has gens u); simpl; lia.
Qed.

Lemma unassigned_set_lt U gens k v :
  In k U -> JsMap.has gens k = false ->
  (unassigned U (JsMap.set gens k v) < unassigned U gens)%nat.
Proof.
  intros Hin Hk. unfold unassigned. induction U as [|u U IH]; simpl; [destruct Hin|].
  rewrite JsMap_has_set.
  pose proof (unassigned_set_le U gens k v) as Hle. unfold unassigned in Hle.
  destruct Hin as [-> | Hin].
  - rewrite String.eqb_refl, Hk. simpl. lia.
  - specialize (IH Hin).
    destruct (String.eqb k u); destruct (JsMap.has gens u); simpl; lia.
Qed.

Definition waveMeasure (U : list PersonId) (st : Gens * Queue) : nat :=
  length (snd st) + unassigned U (fst st).

Lemma visit_measure U g st pid :
  In pid U -> (waveMeasure U (visit g st pid) <= waveMeasure U st)%nat.
Proof.
  destruct st as [gens q]. intro Hin. unfold visit, waveMeasure. simpl.
  destruct (JsMap.has gens pid) eqn:E; [simpl; lia|]. simpl.
  pose proof (unassigned_set_lt U gens pid g Hin E).
  rewrite length_app. simpl. lia.
Qed.

Lemma visit_keeps g st pid k :
  JsMap.has (fst st) k = true -> JsMap.has (fst (visit g st pid)) k = true.
Proof.
  destruct st as [gens q]. simpl. intro H. unfold visit. simpl.
  destruct (JsMap.has gens pid); [exact H|].
  simpl. rewrite JsMap_has_set, H. apply orb_true_r.
Qed.

Lemma visits_measure U g ids : forall st,
  (forall pid, In pid ids -> In pid U) ->
  (waveMeasure U (fold_left (visit g) ids st) <= waveMeasure U st)%nat.
Proof.
  induction ids as [|pid ids IH]; intros st H; simpl; [lia|].
  etransitivity; [apply IH; intros; apply H; now right|].
  apply visit_measure, H. now left.
Qed.

Lemma visits_keep g ids k : forall st,
  JsMap.has (fst st) k = true -> JsMap.has (fst (fold_left (visit g) ids st)) k = true.
Proof.
  induction ids as [|pid ids IH]; intros st H; simpl; [exact H|].
  apply IH, visit_keeps, H.
Qed.

Lemma idsMentioned_id people p : In p people -> In (Person.id p) (idsMentioned people).
Proof.
  intro H. unfold idsMentioned. apply in_flat_map. exists p. split; [exact H|]. now left.
Qed.

Lemma idsMentioned_list people p k x :
  In p people -> In x (listOf k p) -> In x (idsMentioned people).
Proof.
  intros H Hx. unfold idsMentioned. apply in_flat_map. exists p. split; [exact H|].
  right. destruct k; rewrite !in_app_iff; auto.
Qed.

Lemma fullPartnerIds_In people self person x :
  In x (fullPartnerIds people self person) ->
  In x (listOf Partners person)
  \/ exists cid child, In cid (listOf Children person)
                       /\ personMap_get people cid = Some child
                       /\ In x (listOf Parents child) /\ x <> self.
Proof.
  unfold fullPartnerIds.
  assert (Hgen : forall cids acc,
             In x (fold_left
                     (fun acc cid =>
                        match personMap_get people cid with
                        | Some child =>
                            fold_left (fun acc pid => if String.eqb pid self then acc
                                                      else IdSet.add acc pid)
                                      (listOf Parents child) acc
                        | None => acc
                        end) cids acc) ->
             In x acc
             \/ exists cid child, In cid cids /\ personMap_get people cid = Some child
                                  /\ In x (listOf Parents child) /\ x <> self).
  { induction cids as [|cid cids IH]; intros acc H; simpl in H; [auto|].
    destruct (IH _ H) as [Hacc | [c [ch [Hc [Hg Hx]]]]].
    - destruct (personMap_get people cid) as [child|] eqn:Ec; [|auto].
      assert (Hin : forall pids acc0,
                 In x (fold_left (fun acc pid => if String.eqb pid self then acc
                                                 else IdSet.add acc pid) pids acc0) ->
                 In x acc0 \/ (In x pids /\ x <> self)).
      { induction pids as [|pid pids IHp]; intros acc0 H0; simpl in H0; [auto|].
        destruct (IHp _ H0) as [H1 | [H1 H2]]; [|right; split; [now right | exact H2]].
        destruct (String.eqb pid self) eqn:Es; [auto|].
        apply IdSet_add_In in H1. destruct H1 as [H1 | ->]; [auto|].
        right. split; [now left|]. apply String.eqb_neq in Es. exact Es. }
      destruct (Hin _ _ Hacc) as [H1 | [H1 H2]]; [auto|].
      right. exists cid, child. simpl. auto.
    - right. exists c, ch. simpl. auto. }
  intro H. destruct (Hgen _ _ H) as [H1 | H1]; [|auto].
  left. now apply IdSet_ofList_In.
Qed.

Lemma expand_measure people id gen person st :
  In person people ->
  (waveMeasure (idsMentioned people) (expand people id gen person st)
   <= waveMeasure (idsMentioned people) st)%nat.
Proof.
  intro Hin. unfold expand.
  etransitivity; [apply visits_measure|].
  { intros pid Hp. eapply idsMentioned_list; eassumption. }
  etransitivity; [apply visits_measure|].
  { intros pid Hp. eapply idsMentioned_list; eassumption. }
  apply visits_measure. intros pid Hp.
  destruct (fullPartnerIds_In _ _ _ _ Hp) as [H | [cid [child [Hc [Hg [Hx _]]]]]].
  - eapply idsMentioned_list; eassumption.
  - apply personMap_get_Some in Hg. destruct Hg as [Hg _].
    eapply idsMentioned_list; eassumption.
Qed.

Lemma expand_keeps people id gen person st k :
  JsMap.has (fst st) k = true ->
  JsMap.has (fst (expand people id gen person st)) k = true.
Proof. intro H. unfold expand. now do 3 apply visits_keep. Qed.

Lemma wave_terminates people fuel : forall gens queue,
  (waveMeasure (idsMentioned people) (gens, queue) <= fuel)%nat ->
  exists g, wave fuel people gens queue = Some g
            /\ forall k, JsMap.has gens k = true -> JsMap.has g k = true.
Proof.
  induction fuel as [|fuel IH]; intros gens queue Hm.
  - destruct queue as [|[id gen] rest]; [|unfold waveMeasure in Hm; simpl in Hm; lia].
    simpl. eauto.
  - destruct queue as [|[id gen] rest]; simpl; [eauto|].
    unfold waveMeasure in Hm. simpl in Hm.
    destruct (personMap_get people id) as [person|] eqn:Ep.
    + pose proof (expand_measure people id gen person (gens, rest)
                                 (proj1 (personMap_get_Some _ _ _ Ep))) as He.
      destruct (IH (fst (expand people id gen person (gens, rest)))
                   (snd (expand people id gen person (gens, rest)))) as [g [Hg Hk]].
      { unfold waveMeasure in *. simpl in *. lia. }
      exists g. split; [exact Hg|]. intros k H. apply Hk.
      now apply (expand_keeps people id gen person (gens, rest)).
    + apply IH. unfold waveMeasure. simpl. lia.
Qed.

Lemma unassigned_le_length U gens : (unassigned U gens <= length U)%nat.
Proof. unfold unassigned. apply filter_length_le. Qed.

Lemma seedWaves_from people fuel (seeds : list Person.t) : forall gens0,
  (length (idsMentioned people) <= fuel)%nat ->
  (forall s, In s seeds -> In s people) ->
  exists gens,
    fold_left (seedStep fuel people) seeds (Some gens0) = Some gens
    /\ (forall k, JsMap.has gens0 k = true -> JsMap.has gens k = true)
    /\ (forall s, In s seeds -> JsMap.has gens (Person.id s) = true).
Proof.
  intros gens0 Hfuel. revert gens0.
  induction seeds as [|seed seeds IH]; intros gens0 Hsub; simpl.
  - exists gens0. split; [reflexivity|]. split; [auto | intros s []].
  - destruct (JsMap.has gens0 (Person.id seed)) eqn:Eh.
    + destruct (IH gens0) as [g [Hg [Hk Hs]]]; [intros; apply Hsub; now right|].
      exists g. repeat split; auto. intros s [<- | Hin]; auto.
    + destruct (wave_terminates people fuel (JsMap.set gens0 (Person.id seed) 0%Z)
                                [(Person.id seed, 0%Z)]) as [g1 [Hg1 Hk1]].
      { unfold waveMeasure. simpl.
        pose proof (unassigned_set_lt (idsMentioned people) gens0 (Person.id seed) 0%Z
                      (idsMentioned_id _ _ (Hsub _ (or_introl eq_refl))) Eh).
        pose proof (unassigned_le_length (idsMentioned people) gens0). lia. }
      rewrite Hg1.
      destruct (IH g1) as [g [Hg [Hk Hs]]]; [intros; apply Hsub; now right|].
      exists g. split; [exact Hg|]. split.
      * intros k H. apply Hk, Hk1. rewrite JsMap_has_set, H. apply orb_true_r.
      * intros s [<- | Hin]; [|auto].
        apply Hk, Hk1. rewrite JsMap_has_set, String.eqb_refl. reflexivity.
Qed.

Lemma minGen_from (gens : Gens) : forall z,
  exists m,
    fold_left (fun m kv => match m with
                           | None => Some (snd kv)
                           | Some z => Some (Z.min z (snd kv))
                           end) gens (Some z) = Some m
    /\ (m <= z)%Z
    /\ (forall kv, In kv gens -> (m <= snd kv)%Z)
    /\ (m = z \/ exists kv, In kv gens /\ snd kv = m).
Proof.
  induction gens as [|kv gens IH]; intro z; simpl.
  - exists z. split; [reflexivity|]. split; [lia|]. split; [intros kv [] | auto].
  - destruct (IH (Z.min z (snd kv))) as [m [Hm [Hle [Hall Hex]]]].
    exists m. split; [exact Hm|]. split; [lia|]. split.
    + intros kv' [<- | Hin]; [lia | auto].
    + destruct Hex as [-> | [kv' [Hin He]]].
      * destruct (Z.min_spec z (snd kv)) as [[_ E] | [_ E]]; rewrite E; eauto.
      * eauto.
Qed.

Lemma minGen_spec (gens : Gens) :
  gens <> [] ->
  exists m, minGen gens = Some m
            /\ (forall kv, In kv gens -> (m <= snd kv)%Z)
            /\ (exists kv, In kv gens /\ snd kv = m).
Proof.
  destruct gens as [|kv gens]; [congruence|]. intros _.
  unfold minGen. simpl.
  destruct (minGen_from gens (snd kv)) as [m [Hm [Hle [Hall Hex]]]].
  exists m. split; [exact Hm|]. split.
  - intros kv' [<- | Hin]; auto.
  - destruct Hex as [-> | [kv' [Hin He]]]; eauto.
Qed.

Lemma normalize_spec (gens : Gens) :
  gens <> [] ->
  JsMap.keys (normalize gens) = JsMap.keys gens
  /\ (forall k g, In (k, g) (normalize gens) -> (0 <= g)%Z)
  /\ (exists k, In (k, 0%Z) (normalize gens)).
Proof.
  intro Hne. destruct (minGen_spec gens Hne) as [m [Hm [Hall [[k0 g0] [Hin He]]]]].
  simpl in He. subst g0. unfold normalize. rewrite Hm.
  destruct (m =? 0)%Z eqn:E.
  - apply Z.eqb_eq in E. subst m. split; [reflexivity|]. split.
    + intros k g H. apply (Hall _ H).
    + eauto.
  - split; [|split].
    + unfold JsMap.keys. rewrite map_map. reflexivity.
    + intros k g H. apply in_map_iff in H. destruct H as [[k' g'] [Heq H]].
      injection Heq as <- <-. specialize (Hall _ H). simpl in *. lia.
    + exists k0. apply in_map_iff. exists (k0, m). split; [|exact Hin].
      simpl. f_equal. lia.
Qed.

(** With fuel for every id the people mention, the waves run to the end:
    the assignment returns the normalised map of the waves, which has
    reached every person of the list. *)
Lemma assignGenerations_returns (people : list Person.t) (fuel : nat) :
  (length (idsMentioned people) <= fuel)%nat ->
  exists g,
    assignGenerations fuel people = Some (normalize g)
    /\ (forall p, In p people -> JsMap.has g (Person.id p) = true).
Proof.
  intro Hfuel.
  destruct (seedWaves_from people fuel people [] Hfuel (fun s H => H))
    as [g [Hg [_ Hs]]].
  assert (Hg' : seedWaves fuel people = Some g) by exact Hg.
  exists g. unfold assignGenerations. rewrite Hg'. split; [reflexivity | exact Hs].
Qed.

(** C6.  On a non-empty list of people the generation assignment returns
    (any fuel of at least the number of ids the people mention is enough
    for the waves to run to the end) a map that gives every person of the
    list an integer generation, in which no generation is negative and
    some generation is 0. *)
Theorem generations_total_and_normalized (people : list Person.t) (fuel : nat) :
  people <> [] ->
  (length (idsMentioned people) <= fuel)%nat ->
  exists gens,
    assignGenerations fuel people = Some gens
    /\ (forall p, In p people -> exists g, JsMap.get gens (Person.id p) = Some g)
    /\ (forall k g, In (k, g) gens -> (0 <= g)%Z)
    /\ (exists k, In (k, 0%Z) gens).
Proof.
  intros Hne Hfuel.
  destruct (assignGenerations_returns people fuel Hfuel) as [g [Hg Hs]].
  assert (Hgne : g <> []).
  { destruct people as [|p people]; [congruence|].
    specialize (Hs p (or_introl eq_refl)). intros ->. discriminate. }
  destruct (normalize_spec g Hgne) as [Hkeys [Hpos Hzero]].
  exists (normalize g). split; [exact Hg|]. split; [|split; assumption].
  intros p Hp. specialize (Hs p Hp).
  apply JsMap_has_keys in Hs. rewrite <- Hkeys in Hs. apply JsMap_has_keys in Hs.
  unfold JsMap.has in Hs. destruct (JsMap.get (normalize g) (Person.id p)); [eauto|discriminate].
Qed.

(** ** Subtree construction: who is consumed by which tree *)

(** The ids placed by a node: the person, the partners, the subtrees. *)
Fixpoint nodeIds (n : Node.t) : list PersonId :=
  match n with
  | Node.mk person partners children _ _ =>
      Person.id person :: map Person.id partners ++ flat_map nodeIds children
  end.

Definition forestIds (nodes : list Node.t) : list PersonId := flat_map nodeIds nodes.

Definition resultIds (r : option Node.t) : list PersonId :=
  match r with Some n => nodeIds n | None => [] end.

(** What one call of [buildTree] does to the visited set. *)
Definition Consumes (people : list Person.t) (visited : IdSet.t) (personId : PersonId)
           (visited' : IdSet.t) (r : option Node.t) : Prop :=
  (forall k, In k visited -> In k visited')
  /\ In personId visited'
  /\ (forall k, In k visited' -> In k visited \/ In k (resultIds r) \/ ~ known people k)
  /\ (forall k, In k (resultIds r) -> ~ In k visited /\ In k visited' /\ known people k)
  /\ NoDup (resultIds r).

(** The state of a loop that collects nodes, started with [visited0]. *)
Definition Collected (people : list Person.t) (visited0 visited : IdSet.t)
           (nodes : list Node.t) : Prop :=
  (forall k, In k visited0 -> In k visited)
  /\ (forall k, In k visited -> In k visited0 \/ In k (forestIds nodes) \/ ~ known people k)
  /\ (forall k, In k (forestIds nodes) -> ~ In k visited0 /\ In k visited /\ known people k)
  /\ NoDup (forestIds nodes).

Lemma forestIds_app a b : forestIds (a ++ b) = forestIds a ++ forestIds b.
Proof. unfold forestIds. apply flat_map_app. Qed.

Lemma Collected_start people visited : Collected people visited visited [].
Proof.
  unfold Collected. simpl. split; [auto|]. split; [auto|].
  split; [intros k [] | constructor].
Qed.

Lemma Collected_step people v0 v nodes pid v' r :
  Collected people v0 v nodes -> Consumes people v pid v' r ->
  Collected people v0 v'
            (match r with Some n => nodes ++ [n] | None => nodes end).
Proof.
  intros [C1 [C2 [C3 C4]]] [B1 [B2 [B3 [B4 B5]]]].
  assert (Hids : forall k, In k (forestIds (match r with Some n => nodes ++ [n]
                                                   | None => nodes end))
                           <-> In k (forestIds nodes) \/ In k (resultIds r)).
  { intro k. destruct r as [n|]; simpl.
    - rewrite forestIds_app, in_app_iff. unfold forestIds at 2. simpl.
      rewrite app_nil_r. tauto.
    - tauto. }
  split; [auto|]. split; [|split].
  - intros k Hk. rewrite Hids.
    destruct (B3 k Hk) as [H | [H | H]]; [|tauto|tauto].
    destruct (C2 k H) as [H' | [H' | H']]; tauto.
  - intros k Hk. apply Hids in Hk. destruct Hk as [Hk | Hk].
    + destruct (C3 k Hk) as [H1 [H2 H3]]. auto.
    + destruct (B4 k Hk) as [H1 [H2 H3]]. split; [|auto]. intro H. apply H1, C1, H.
  - destruct r as [n|]; [|exact C4]. rewrite forestIds_app.
    unfold forestIds at 2. simpl. rewrite app_nil_r.
    apply NoDup_app; [exact C4 | exact B5 |].
    intros k Hk Hk'. destruct (C3 k Hk) as [_ [H2 _]].
    destruct (B4 k Hk') as [H1 _]. exact (H1 H2).
Qed.

Lemma buildChildren_Collected people build cids :
  (forall v c v' r, build v c = Some (v', r) -> Consumes people v c v' r) ->
  forall v0 visited children visited' children',
    buildChildren build cids visited children = Some (visited', children') ->
    Collected people v0 visited children -> Collected people v0 visited' children'.
Proof.
  intro Hb. induction cids as [|cid rest IH]; simpl; intros v0 v cs v' cs' H Hc.
  - injection H as <- <-. exact Hc.
  - destruct (build v cid) as [[v1 r]|] eqn:E; [|discriminate].
    pose proof (Collected_step _ _ _ _ _ _ _ Hc (Hb _ _ _ _ E)) as Hc1.
    destruct r as [n|]; apply (IH _ _ _ _ _ H Hc1).
Qed.

Lemma fold_add_ids_In (ps : list Person.t) : forall (v : IdSet.t) k,
  In k (fold_left (fun v p => IdSet.add v (Person.id p)) ps v)
  <-> In k v \/ In k (map Person.id ps).
Proof.
  induction ps as [|p ps IH]; intros v k; simpl; [tauto|].
  rewrite IH, IdSet_add_In. intuition.
Qed.

Lemma fullPartnerIds_NoDup people self person :
  NoDup (fullPartnerIds people self person).
Proof.
  unfold fullPartnerIds.
  assert (Hin : forall pids acc,
             NoDup acc ->
             NoDup (fold_left (fun acc pid => if String.eqb pid self then acc
                                              else IdSet.add acc pid) pids acc)).
  { induction pids as [|pid pids IHp]; intros acc H; simpl; [exact H|].
    apply IHp. destruct (String.eqb pid self); [exact H | now apply IdSet_add_NoDup]. }
  generalize (IdSet_ofList_NoDup (listOf Partners person)).
  generalize (IdSet.ofList (listOf Partners person)).
  induction (listOf Children person) as [|cid cids IH]; intros acc H; simpl; [exact H|].
  apply IH. destruct (personMap_get people cid); [now apply Hin | exact H].
Qed.

Lemma lookups_ids people (ids : list PersonId) :
  NoDup ids ->
  NoDup (map Person.id
             (flat_map (fun id => match personMap_get people id with
                                  | Some q => [q]
                                  | None => []
                                  end) ids))
  /\ forall q, In q (flat_map (fun id => match personMap_get people id with
                                         | Some q => [q]
                                         | None => []
                                         end) ids) ->
               In (Person.id q) ids /\ personMap_get people (Person.id q) = Some q.
Proof.
  induction ids as [|i ids IH]; intro Hnd; simpl.
  - split; [constructor | intros q []].
  - inversion Hnd as [|? ? Hi Hids]; subst. destruct (IH Hids) as [IH1 IH2].
    destruct (personMap_get people i) as [p|] eqn:E; simpl.
    + destruct (personMap_get_Some _ _ _ E) as [_ Hid]. split.
      * constructor; [|exact IH1]. rewrite Hid. intro H.
        apply in_map_iff in H. destruct H as [q [Hq Hin]].
        destruct (IH2 q Hin) as [H1 _]. rewrite Hq in H1. exact (Hi H1).
      * intros q [<- | Hin]; [rewrite Hid; auto|]. destruct (IH2 q Hin); auto.
    + split; [exact IH1|]. intros q Hin. destruct (IH2 q Hin); auto.
Qed.

Lemma getFullPartners_spec people p :
  NoDup (map Person.id (getFullPartners people p))
  /\ forall q, In q (getFullPartners people p) ->
               personMap_get people (Person.id q) = Some q.
Proof.
  unfold getFullPartners.
  destruct (lookups_ids people _ (fullPartnerIds_NoDup people (Person.id p) p)) as [H1 H2].
  split; [exact H1|]. intros q Hq. apply (H2 q Hq).
Qed.

Lemma NoDup_map_filter {A B : Type} (f : A -> B) (g : A -> bool) (l : list A) :
  NoDup (map f l) -> NoDup (map f (filter g l)).
Proof.
  induction l as [|a l IH]; simpl; intro H; [constructor|].
  inversion H as [|? ? Ha Hl]; subst. destruct (g a); simpl; [|auto].
  constructor; [|auto]. intro Hin. apply Ha.
  apply in_map_iff in Hin. destruct Hin as [x [Hx Hin]].
  apply filter_In in Hin. rewrite <- Hx. apply in_map. tauto.
Qed.

Lemma buildTree_Consumes tv srt people fuel : forall visited personId visited' r,
  buildTree tv srt people fuel visited personId = Some (visited', r) ->
  Consumes people visited personId visited' r.
Proof.
  induction fuel as [|fuel IH]; simpl; intros v pid v' r H; [discriminate|].
  destruct (IdSet.has v pid) eqn:Ev.
  { injection H as <- <-. apply includes_In in Ev.
    unfold Consumes. simpl. split; [auto|]. split; [exact Ev|]. split; [auto|].
    split; [intros k [] | constructor]. }
  apply includes_not_In in Ev.
  destruct (personMap_get people pid) as [person|] eqn:Ep.
  2:{ injection H as <- <-. unfold Consumes. simpl.
      split; [intros k Hk; apply IdSet_add_In; auto|].
      split; [apply IdSet_add_In; auto|].
      split; [|split; [intros k [] | constructor]].
      intros k Hk. apply IdSet_add_In in Hk. destruct Hk as [Hk | ->]; [auto|].
      right. right. apply personMap_get_None, Ep. }
  destruct (personMap_get_Some _ _ _ Ep) as [Hperson Hid].
  set (v1 := IdSet.add v pid) in *.
  set (partners := filter (fun p => negb (IdSet.has v1 (Person.id p)))
                          (getFullPartners people person)) in *.
  set (v2 := fold_left (fun v p => IdSet.add v (Person.id p)) partners v1) in *.
  destruct (buildChildren (buildTree tv srt people fuel)
                          (sortChildIds srt people (collectChildIds person partners))
                          v2 []) as [[v3 cs]|] eqn:E; [|discriminate].
  injection H as <- <-.
  destruct (buildChildren_Collected people _ _ IH v2 _ _ _ _ E (Collected_start _ _))
    as [C1 [C2 [C3 C4]]].
  destruct (getFullPartners_spec people person) as [P1 P2].
  assert (Hv1 : forall k, In k v1 <-> In k v \/ k = pid) by (intro k; apply IdSet_add_In).
  assert (Hv2 : forall k, In k v2 <-> In k v1 \/ In k (map Person.id partners))
    by (intro k; apply fold_add_ids_In).
  assert (Hpart : forall k, In k (map Person.id partners) -> ~ In k v1 /\ known people k).
  { intros k Hk. apply in_map_iff in Hk. destruct Hk as [q [<- Hq]].
    apply filter_In in Hq. destruct Hq as [Hq Hn]. apply negb_true_iff in Hn.
    apply includes_not_In in Hn. split; [exact Hn|].
    apply known_get. exists q. apply P2, Hq. }
  unfold Consumes. simpl. rewrite Hid.
  split; [intros k Hk; apply C1, Hv2; left; apply Hv1; auto|].
  split; [apply C1, Hv2; left; apply Hv1; auto|].
  split; [|split].
  - intros k Hk. destruct (C2 k Hk) as [H | [H | H]].
    + apply Hv2 in H. destruct H as [H | H].
      * apply Hv1 in H. destruct H as [H | ->]; auto.
      * right. left. right. apply in_or_app. auto.
    + right. left. right. apply in_or_app. auto.
    + auto.
  - intros k [<- | Hk].
    + split; [exact Ev|]. split; [apply C1, Hv2; left; apply Hv1; auto|].
      apply known_get. eauto.
    + apply in_app_or in Hk. destruct Hk as [Hk | Hk].
      * destruct (Hpart k Hk) as [H1 H2]. split; [intro H; apply H1, Hv1; auto|].
        split; [apply C1, Hv2; auto | exact H2].
      * destruct (C3 k Hk) as [H1 [H2 H3]]. split; [|auto].
        intro H. apply H1, Hv2. left. apply Hv1. auto.
  - constructor.
    + intro Hk. apply in_app_or in Hk. destruct Hk as [Hk | Hk].
      * destruct (Hpart pid Hk) as [H1 _]. apply H1, Hv1. auto.
      * destruct (C3 pid Hk) as [H1 _]. apply H1, Hv2. left. apply Hv1. auto.
    + apply NoDup_app; [apply NoDup_map_filter, P1 | exact C4 |].
      intros k Hk Hk'. destruct (C3 k Hk') as [H1 _]. apply H1, Hv2. auto.
Qed.

Lemma buildRoots_Collected tv srt people fuel ps : forall v0 visited roots visited' roots',
  buildRoots tv srt people fuel ps (visited, roots) = Some (visited', roots') ->
  Collected people v0 visited roots ->
  Collected people v0 visited' roots'
  /\ (forall k, In k visited -> In k visited')
  /\ (forall p, In p ps -> In (Person.id p) visited').
Proof.
  unfold buildRoots.
  induction ps as [|p ps IH]; simpl; intros v0 v rs v' rs' H Hc.
  - injection H as <- <-. split; [exact Hc|]. split; [auto | intros p []].
  - destruct (IdSet.has v (Person.id p)) eqn:Ev.
    + destruct (IH _ _ _ _ _ H Hc) as [H1 [H2 H3]]. split; [exact H1|].
      split; [exact H2|]. intros q [<- | Hq]; [|auto].
      apply H2. now apply includes_In.
    + destruct (buildTree tv srt people fuel v (Person.id p)) as [[v1 r]|] eqn:E.
      2:{ exfalso. clear -H. induction ps as [|q ps IHp]; simpl in H; [discriminate|auto]. }
      pose proof (buildTree_Consumes _ _ _ _ _ _ _ _ E) as Hb.
      pose proof (Collected_step _ _ _ _ _ _ _ Hc Hb) as Hc1.
      destruct Hb as [B1 [B2 _]].
      destruct r as [n|]; destruct (IH _ _ _ _ _ H Hc1) as [H1 [H2 H3]];
        (split; [exact H1|]; split; [auto|]; intros q [<- | Hq]; auto).
Qed.

(** Every person of the list is consumed by exactly one tree of the
    forest, and the forest holds nobody else. *)
Lemma buildForest_covers tv srt fuel people generations roots :
  buildForest tv srt fuel people generations = Some roots ->
  (forall p, In p people -> In (Person.id p) (forestIds roots))
  /\ NoDup (forestIds roots)
  /\ (forall k, In k (forestIds roots) -> known people k).
Proof.
  unfold buildForest.
  destruct (rootClusters srt fuel people _) as [clusters|]; [|discriminate].
  destruct (buildRoots tv srt people fuel (concat clusters) ([], [])) as [[v1 rs1]|] eqn:E1;
    [|discriminate].
  destruct (buildRoots tv srt people fuel people (v1, rs1)) as [[v2 rs2]|] eqn:E2;
    [|discriminate].
  simpl. intros [= <-].
  destruct (buildRoots_Collected _ _ _ _ _ [] _ _ _ _ E1 (Collected_start _ _)) as [C1 _].
  destruct (buildRoots_Collected _ _ _ _ _ [] _ _ _ _ E2 C1) as [[_ [D2 [D3 D4]]] [_ D5]].
  split; [|split; [exact D4 | intros k Hk; apply (D3 k Hk)]].
  intros p Hp. destruct (D2 _ (D5 p Hp)) as [[] | [H | H]]; [exact H|].
  exfalso. apply H. unfold known. now apply in_map.
Qed.

(** ** Enough fuel *)

Definition unvisited (people : list Person.t) (visited : IdSet.t) : nat :=
  length (filter (fun p => negb (IdSet.has visited (Person.id p))) people).

Lemma unvisited_mono people v v' :
  (forall k, In k v -> In k v') -> (unvisited people v' <= unvisited people v)%nat.
Proof.
  intro H. unfold unvisited. induction people as [|p people IH]; simpl; [lia|].
  destruct (IdSet.has v (Person.id p)) eqn:E.
  - apply includes_In, H, includes_In in E. unfold IdSet.has. rewrite E. simpl. exact IH.
  - simpl. destruct (IdSet.has v' (Person.id p)); simpl; lia.
Qed.

Lemma unvisited_lt people v v' k0 :
  (forall k, In k v -> In k v') -> known people k0 -> ~ In k0 v -> In k0 v' ->
  (unvisited people v' < unvisited people v)%nat.
Proof.
  intros H Hk Hn Hin. unfold known in Hk.
  induction people as [|p people IH]; [destruct Hk|].
  pose proof (unvisited_mono people v v' H) as Hm.
  unfold unvisited, IdSet.has in *. simpl in *.
  destruct Hk as [<- | Hk].
  - apply includes_not_In in Hn. apply includes_In in Hin.
    rewrite Hn, Hin. simpl. lia.
  - specialize (IH Hk).
    destruct (includes v (Person.id p)) eqn:E.
    + apply includes_In, H, includes_In in E. rewrite E. simpl. exact IH.
    + simpl. destruct (includes v' (Person.id p)); simpl; lia.
Qed.

Lemma unvisited_le_length people v : (unvisited people v <= length people)%nat.
Proof. unfold unvisited. apply filter_length_le. Qed.

Lemma buildChildren_terminates people build (bound : nat) cids :
  (forall v c v' r, build v c = Some (v', r) -> Consumes people v c v' r) ->
  (forall v c, (unvisited people v <= bound)%nat -> exists v' r, build v c = Some (v', r)) ->
  forall visited children,
    (unvisited people visited <= bound)%nat ->
    exists visited' children', buildChildren build cids visited children
                               = Some (visited', children').
Proof.
  intros Hc Hb. induction cids as [|cid rest IH]; simpl; intros v cs Hv; [eauto|].
  destruct (Hb v cid Hv) as [v1 [r E]]. rewrite E.
  destruct (Hc _ _ _ _ E) as [B1 _].
  pose proof (unvisited_mono people v v1 B1).
  destruct r; apply IH; lia.
Qed.

Lemma buildTree_terminates tv srt people fuel : forall visited personId,
  (unvisited people visited < fuel)%nat ->
  exists visited' r, buildTree tv srt people fuel visited personId = Some (visited', r).
Proof.
  induction fuel as [|fuel IH]; intros v pid Hf; [lia|]. simpl.
  destruct (IdSet.has v pid) eqn:Ev; [eauto|].
  destruct (personMap_get people pid) as [person|] eqn:Ep; [|eauto].
  apply includes_not_In in Ev.
  set (v1 := IdSet.add v pid).
  set (partners := filter (fun p => negb (IdSet.has v1 (Person.id p)))
                          (getFullPartners people person)).
  set (v2 := fold_left (fun v p => IdSet.add v (Person.id p)) partners v1).
  assert (H1 : (unvisited people v1 < unvisited people v)%nat).
  { apply unvisited_lt with pid.
    - intros k Hk. apply IdSet_add_In. auto.
    - apply known_get. eauto.
    - exact Ev.
    - apply IdSet_add_In. auto. }
  assert (H2 : (unvisited people v2 <= unvisited people v1)%nat).
  { apply unvisited_mono. intros k Hk. apply fold_add_ids_In. auto. }
  destruct (buildChildren_terminates people (buildTree tv srt people fuel) (fuel - 1)
              (sortChildIds srt people (collectChildIds person partners))
              (buildTree_Consumes tv srt people fuel)) with (visited := v2)
                                                            (children := @nil Node.t)
    as [v3 [cs E]].
  - intros v' c Hv'. apply IH. lia.
  - lia.
  - rewrite E. eauto.
Qed.

Lemma getDescendants_terminates people fuel : forall personId visited,
  (unvisited people visited < fuel)%nat ->
  exists visited', getDescendants fuel people personId visited = Some visited'
                   /\ forall k, In k visited -> In k visited'.
Proof.
  induction fuel as [|fuel IH]; intros pid v Hf; [lia|]. simpl.
  destruct (IdSet.has v pid) eqn:Ev; [eauto|].
  apply includes_not_In in Ev.
  destruct (personMap_get people pid) as [person|] eqn:Ep.
  2:{ eexists. split; [reflexivity|]. intros k Hk. apply IdSet_add_In. auto. }
  assert (H1 : (unvisited people (IdSet.add v pid) < unvisited people v)%nat).
  { apply unvisited_lt with pid.
    - intros k Hk. apply IdSet_add_In. auto.
    - apply known_get. eauto.
    - exact Ev.
    - apply IdSet_add_In. auto. }
  assert (Hall : forall cids v1,
             (unvisited people v1 < fuel)%nat ->
             exists v', fold_left (fun acc cid =>
                                     match acc with
                                     | None => None
                                     | Some v => getDescendants fuel people cid v
                                     end) cids (Some v1) = Some v'
                        /\ forall k, In k v1 -> In k v').
  { induction cids as [|cid cids IHc]; intros v1 Hv1; simpl; [eauto|].
    destruct (IH cid v1 Hv1) as [v2 [E2 M2]]. rewrite E2.
    pose proof (unvisited_mono people v1 v2 M2).
    destruct (IHc v2) as [v3 [E3 M3]]; [lia|]. eauto. }
  destruct (Hall (listOf Children person) (IdSet.add v pid)) as [v' [E M]]; [lia|].
  exists v'. split; [exact E|]. intros k Hk. apply M, IdSet_add_In. auto.
Qed.

Lemma getDescendants_root people fuel personId :
  (length people < fuel)%nat ->
  exists d, getDescendants fuel people personId [] = Some d.
Proof.
  intro Hf. destruct (getDescendants_terminates people fuel personId []) as [d [E _]].
  - pose proof (unvisited_le_length people []). lia.
  - eauto.
Qed.

Lemma gatherCluster_terminates people fuel potentialRoots rootDescendants :
  (length people < fuel)%nat ->
  forall st, exists st',
      gatherCluster fuel people potentialRoots rootDescendants st = Some st'.
Proof.
  intro Hf. unfold gatherCluster.
  induction potentialRoots as [|other rest IH]; intros [cluster assigned]; simpl; [eauto|].
  destruct (IdSet.has assigned (Person.id other)); [apply IH|].
  destruct (getDescendants_root people fuel (Person.id other) Hf) as [d E]. rewrite E.
  destruct (existsb (IdSet.has d) rootDescendants); apply IH.
Qed.

Lemma rootClusters_terminates srt people fuel potentialRoots :
  (length people < fuel)%nat ->
  exists clusters, rootClusters srt fuel people potentialRoots = Some clusters.
Proof.
  intro Hf. unfold rootClusters.
  generalize potentialRoots at 1. intro all.
  generalize (@nil (list Person.t), @nil PersonId).
  induction potentialRoots as [|root rest IH]; intros [clusters assigned]; simpl; [eauto|].
  destruct (IdSet.has assigned (Person.id root)); [apply IH|].
  destruct (getDescendants_root people fuel (Person.id root) Hf) as [d E]. rewrite E.
  destruct (gatherCluster_terminates people fuel all d Hf
              ([root], IdSet.add assigned (Person.id root))) as [[cluster assigned'] Eg].
  rewrite Eg. apply IH.
Qed.

Lemma buildRoots_terminates tv srt people fuel ps :
  (length people < fuel)%nat ->
  forall st, exists st', buildRoots tv srt people fuel ps st = Some st'.
Proof.
  intro Hf. unfold buildRoots.
  induction ps as [|p ps IH]; intros [v rs]; simpl; [eauto|].
  destruct (IdSet.has v (Person.id p)); [apply IH|].
  destruct (buildTree_terminates tv srt people fuel v (Person.id p)) as [v1 [r E]].
  - pose proof (unvisited_le_length people v). lia.
  - rewrite E. destruct r; apply IH.
Qed.

Lemma buildForest_terminates tv srt fuel people generations :
  (length people < fuel)%nat ->
  exists roots, buildForest tv srt fuel people generations = Some roots.
Proof.
  intro Hf. unfold buildForest.
  destruct (rootClusters_terminates srt people fuel
              (filter (fun p => match JsMap.get generations (Person.id p) with
                                | Some g => (g =? 0)%Z
                                | None => false
                                end) people) Hf) as [clusters E].
  rewrite E.
  destruct (buildRoots_terminates tv srt people fuel (concat clusters) Hf ([], []))
    as [[v1 rs1] E1].
  rewrite E1.
  destruct (buildRoots_terminates tv srt people fuel people Hf (v1, rs1)) as [[v2 rs2] E2].
  rewrite E2. simpl. eauto.
Qed.

(** ** Geometry of one tree *)

(** Induction on nodes with the hypothesis on every child. *)
Fixpoint Node_induction (P : Node.t -> Prop)
         (step : forall person partners children coupleWidth totalWidth,
             Forall P children ->
             P (Node.mk person partners children coupleWidth totalWidth))
         (n : Node.t) {struct n} : P n :=
  match n with
  | Node.mk person partners children coupleWidth totalWidth =>
      step person partners children coupleWidth totalWidth
           ((fix all (cs : list Node.t) : Forall P cs :=
               match cs with
               | [] => Forall_nil P
               | c :: cs' => Forall_cons c (Node_induction P step c) (all cs')
               end) children)
  end.

(** The entries [calcRelative] writes, in the order it writes them. *)
Fixpoint partnerEntries (tv : TreeView.t) (partners : list Person.t)
         (currentPartnerX y : Q) : list (PersonId * Pos.t) :=
  match partners with
  | [] => []
  | p :: rest =>
      (Person.id p, Pos.mk currentPartnerX y)
        :: partnerEntries tv rest
             (currentPartnerX + TreeView.nodeWidth tv + TreeView.horizontalGap tv) y
  end.

Fixpoint childEntries (tv : TreeView.t) (entriesOf : Node.t -> Q -> list (PersonId * Pos.t))
         (children : list Node.t) (childX : Q) : list (PersonId * Pos.t) :=
  match children with
  | [] => []
  | child :: rest =>
      entriesOf child childX
      ++ childEntries tv entriesOf rest
           (childX + Node.totalWidth child + TreeView.horizontalGap tv)
  end.

Fixpoint relEntries (tv : TreeView.t) (node : Node.t) (x y : Q) {struct node}
  : list (PersonId * Pos.t) :=
  match node with
  | Node.mk person partners children coupleWidth totalWidth =>
      let coupleX := x + (totalWidth - coupleWidth) / 2 in
      (Person.id person, Pos.mk coupleX y)
        :: partnerEntries tv partners
             (coupleX + TreeView.nodeWidth tv + TreeView.horizontalGap tv) y
        ++ childEntries tv
             (fun child childX => relEntries tv child childX (y + TreeView.generationGap tv))
             children (x + (totalWidth - childrenBlockWidth tv children) / 2)
  end.

Lemma JsMap_setAll_app {V : Type} (m : JsMap.t V) a b :
  JsMap.setAll m (a ++ b) = JsMap.setAll (JsMap.setAll m a) b.
Proof. unfold JsMap.setAll. apply fold_left_app. Qed.

Lemma layoutPartners_setAll tv partners : forall cx y rel,
  layoutPartners tv partners cx y rel = JsMap.setAll rel (partnerEntries tv partners cx y).
Proof.
  induction partners as [|p ps IH]; intros cx y rel; simpl; [reflexivity|].
  rewrite IH. reflexivity.
Qed.

Lemma calcRelative_setAll tv node : forall x y rel,
  calcRelative tv node x y rel = JsMap.setAll rel (relEntries tv node x y).
Proof.
  induction node as [person partners children cw tw IH] using Node_induction.
  intros x y rel. simpl.
  rewrite layoutPartners_setAll.
  change (JsMap.setAll rel ((Person.id person, Pos.mk (x + (tw - cw) / 2) y) :: ?l))
    with (JsMap.setAll (JsMap.set rel (Person.id person) (Pos.mk (x + (tw - cw) / 2) y)) l).
  rewrite JsMap_setAll_app.
  generalize (JsMap.setAll
                (JsMap.set rel (Person.id person) (Pos.mk (x + (tw - cw) / 2) y))
                (partnerEntries tv partners
                   (x + (tw - cw) / 2 + TreeView.nodeWidth tv + TreeView.horizontalGap tv) y)).
  generalize (x + (tw - childrenBlockWidth tv children) / 2).
  induction IH as [|c cs Hc _ IHcs]; intros cx m; simpl; [reflexivity|].
  rewrite JsMap_setAll_app, <- Hc. apply IHcs.
Qed.

Lemma partnerEntries_keys tv partners : forall cx y,
  map fst (partnerEntries tv partners cx y) = map Person.id partners.
Proof.
  induction partners as [|p ps IH]; intros cx y; simpl; [reflexivity|].
  now rewrite IH.
Qed.

Lemma relEntries_keys tv node : forall x y,
  map fst (relEntries tv node x y) = nodeIds node.
Proof.
  induction node as [person partners children cw tw IH] using Node_induction.
  intros x y. simpl. f_equal. rewrite map_app, partnerEntries_keys. f_equal.
  generalize (x + (tw - childrenBlockWidth tv children) / 2).
  induction IH as [|c cs Hc _ IHcs]; intro cx; simpl; [reflexivity|].
  now rewrite map_app, Hc, IHcs.
Qed.

(** The keys of [relativePositions] are the ids the tree places. *)
Lemma makeLayout_keys tv people root k :
  In k (JsMap.keys (RootLayout.relativePositions (makeLayout tv people root)))
  <-> In k (nodeIds root).
Proof.
  unfold makeLayout. simpl. rewrite calcRelative_setAll, JsMap_setAll_keys.
  rewrite relEntries_keys. simpl. tauto.
Qed.

Lemma makeLayout_entries tv people root k r :
  In (k, r) (RootLayout.relativePositions (makeLayout tv people root)) ->
  In (k, r) (relEntries tv root 0 0).
Proof.
  unfold makeLayout. simpl. rewrite calcRelative_setAll. intro H.
  destruct (JsMap_setAll_In _ _ _ _ H) as [[] | H']. exact H'.
Qed.

(** The sizes [buildTree] gives a node and every node below it. *)
Inductive Sized (tv : TreeView.t) : Node.t -> Prop :=
| Sized_node person partners children coupleWidth totalWidth :
    coupleWidth == coupleWidthOf tv partners ->
    coupleWidth <= totalWidth ->
    childrenBlockWidth tv children <= totalWidth ->
    Forall (Sized tv) children ->
    Sized tv (Node.mk person partners children coupleWidth totalWidth).

Lemma buildChildren_Sized tv build cids :
  (forall v cid v' n, build v cid = Some (v', Some n) -> Sized tv n) ->
  forall visited children visited' children',
    buildChildren build cids visited children = Some (visited', children') ->
    Forall (Sized tv) children -> Forall (Sized tv) children'.
Proof.
  intro Hb. induction cids as [|cid rest IH]; simpl; intros v cs v' cs' H Hcs.
  - injection H as <- <-. exact Hcs.
  - destruct (build v cid) as [[v1 [n|]]|] eqn:E; [| |discriminate].
    + apply (IH _ _ _ _ H). apply Forall_app. split; [exact Hcs|].
      constructor; [eapply Hb; eassumption | constructor].
    + apply (IH _ _ _ _ H Hcs).
Qed.

Lemma buildTree_Sized tv srt people fuel : forall visited personId visited' node,
  buildTree tv srt people fuel visited personId = Some (visited', Some node) ->
  Sized tv node.
Proof.
  induction fuel as [|fuel IH]; simpl; intros v pid v' node H; [discriminate|].
  destruct (IdSet.has v pid); [discriminate|].
  destruct (personMap_get people pid) as [person|]; [|discriminate].
  match type of H with
  | match buildChildren _ ?c ?vis [] with _ => _ end = _ =>
      destruct (buildChildren (buildTree tv srt people fuel) c vis []) as [[v2 cs]|] eqn:E;
        [|discriminate]
  end.
  injection H as <- <-.
  constructor.
  - reflexivity.
  - apply Q.le_max_l.
  - apply Q.le_max_r.
  - eapply buildChildren_Sized; [exact IH | exact E | constructor].
Qed.

Lemma buildRoots_Sized tv srt people fuel ps : forall visited roots visited' roots',
  buildRoots tv srt people fuel ps (visited, roots) = Some (visited', roots') ->
  Forall (Sized tv) roots -> Forall (Sized tv) roots'.
Proof.
  unfold buildRoots.
  induction ps as [|p ps IH]; simpl; intros v rs v' rs' H Hrs.
  - injection H as <- <-. exact Hrs.
  - destruct (IdSet.has v (Person.id p)); [apply (IH _ _ _ _ H Hrs)|].
    destruct (buildTree tv srt people fuel v (Person.id p)) as [[v1 [n|]]|] eqn:E.
    + apply (IH _ _ _ _ H). apply Forall_app. split; [exact Hrs|].
      constructor; [eapply buildTree_Sized; eassumption | constructor].
    + apply (IH _ _ _ _ H Hrs).
    + exfalso. clear -H. induction ps as [|q ps IHp]; simpl in H; [discriminate|auto].
Qed.

Lemma buildForest_Sized tv srt fuel people generations roots :
  buildForest tv srt fuel people generations = Some roots -> Forall (Sized tv) roots.
Proof.
  unfold buildForest.
  destruct (rootClusters srt fuel people _) as [clusters|]; [|discriminate].
  destruct (buildRoots tv srt people fuel (concat clusters) ([], [])) as [[v1 rs1]|] eqn:E1;
    [|discriminate].
  destruct (buildRoots tv srt people fuel people (v1, rs1)) as [[v2 rs2]|] eqn:E2;
    [|discriminate].
  simpl. intros [= <-].
  eapply buildRoots_Sized; [exact E2|]. eapply buildRoots_Sized; [exact E1 | constructor].
Qed.

(** Two nodes are on the same row, and their x-ranges, each extended by
    the horizontal gap, meet: the test of [checkFit]. *)
Definition sameRow (tv : TreeView.t) (p q : Pos.t) : Prop :=
  Qabs (Pos.y p - Pos.y q) < TreeView.nodeHeight tv.

Definition xRangesIntersect (tv : TreeView.t) (p q : Pos.t) : Prop :=
  Pos.x p < Pos.x q + TreeView.nodeWidth tv + TreeView.horizontalGap tv
  /\ Pos.x q < Pos.x p + TreeView.nodeWidth tv + TreeView.horizontalGap tv.

Definition Apart (tv : TreeView.t) (e1 e2 : PersonId * Pos.t) : Prop :=
  sameRow tv (snd e1) (snd e2) -> ~ xRangesIntersect tv (snd e1) (snd e2).

Lemma sameRow_bounds tv p q :
  sameRow tv p q <->
  - TreeView.nodeHeight tv < Pos.y p - Pos.y q /\ Pos.y p - Pos.y q < TreeView.nodeHeight tv.
Proof. unfold sameRow. apply Qabs_Qlt_condition. Qed.

Lemma Apart_sym tv e1 e2 : Apart tv e1 e2 -> Apart tv e2 e1.
Proof.
  unfold Apart, xRangesIntersect. rewrite !sameRow_bounds. intros H Hr Hx.
  apply H; [lra | tauto].
Qed.


Lemma ForallOrdPairs_app {A : Type} (R : A -> A -> Prop) (a b : list A) :
  ForallOrdPairs R a -> ForallOrdPairs R b ->
  (forall x y, In x a -> In y b -> R x y) ->
  ForallOrdPairs R (a ++ b).
Proof.
  intros Ha Hb Hab. induction Ha as [|x a Hx Ha IH]; simpl; [exact Hb|].
  constructor.
  - apply Forall_app. split; [exact Hx|]. apply Forall_forall. intros y Hy.
    apply Hab; [now left | exact Hy].
  - apply IH. intros x' y Hx' Hy. apply Hab; [now right | exact Hy].
Qed.

(** Width taken by a row of partners, and by a row of sibling subtrees,
    counting one gap after each. *)
Fixpoint rowSpan (tv : TreeView.t) (partners : list Person.t) : Q :=
  match partners with
  | [] => 0
  | _ :: rest => TreeView.nodeWidth tv + TreeView.horizontalGap tv + rowSpan tv rest
  end.

Fixpoint spanOf (tv : TreeView.t) (children : list Node.t) : Q :=
  match children with
  | [] => 0
  | c :: rest => Node.totalWidth c + TreeView.horizontalGap tv + spanOf tv rest
  end.

Lemma coupleWidthOf_rowSpan tv partners :
  coupleWidthOf tv partners + TreeView.horizontalGap tv
  == TreeView.nodeWidth tv + TreeView.horizontalGap tv + rowSpan tv partners.
Proof.
  rewrite coupleWidthOf_formula. induction partners as [|p ps IH].
  - simpl. change (inject_Z 0) with 0. ring.
  - change (length (p :: ps)) with (S (length ps)). rewrite inject_nat_S.
    simpl rowSpan. rewrite <- IH. ring.
Qed.

Lemma sumWidths_from (children : list Node.t) : forall a,
  fold_left (fun sum child => sum + Node.totalWidth child) children a
  == a + sumWidths children.
Proof.
  unfold sumWidths. induction children as [|c cs IH]; intro a; simpl; [ring|].
  rewrite (IH (a + Node.totalWidth c)), (IH (0 + Node.totalWidth c)). ring.
Qed.

Lemma childrenBlockWidth_spanOf tv c cs :
  childrenBlockWidth tv (c :: cs) + TreeView.horizontalGap tv == spanOf tv (c :: cs).
Proof.
  rewrite childrenBlockWidth_cons.
  assert (H : forall l, sumWidths l + inject_Z (Z.of_nat (length l)) * TreeView.horizontalGap tv
                        == spanOf tv l).
  { induction l as [|d l IH].
    - unfold sumWidths. simpl. change (inject_Z 0) with 0. ring.
    - change (length (d :: l)) with (S (length l)). rewrite inject_nat_S.
      unfold sumWidths. simpl. rewrite sumWidths_from. rewrite <- IH. ring. }
  rewrite <- H. ring.
Qed.

Section TreeGeometry.
Variable tv : TreeView.t.
Hypothesis nodeWidth_nonneg : 0 <= TreeView.nodeWidth tv.
Hypothesis horizontalGap_nonneg : 0 <= TreeView.horizontalGap tv.
Hypothesis generationGap_nonneg : 0 <= TreeView.generationGap tv.
Hypothesis rows_apart : TreeView.nodeHeight tv <= TreeView.generationGap tv.

Lemma rowSpan_nonneg partners : 0 <= rowSpan tv partners.
Proof. induction partners as [|p ps IH]; simpl; lra. Qed.

Lemma Sized_totalWidth node : Sized tv node -> TreeView.nodeWidth tv <= Node.totalWidth node.
Proof.
  intros [person partners children cw tw Hcw Hle _ _]. simpl.
  pose proof (coupleWidthOf_ge_nodeWidth tv partners nodeWidth_nonneg horizontalGap_nonneg).
  lra.
Qed.

Lemma spanOf_nonneg children : Forall (Sized tv) children -> 0 <= spanOf tv children.
Proof.
  induction 1 as [|c cs Hc _ IH]; simpl; [lra|].
  pose proof (Sized_totalWidth c Hc). lra.
Qed.

Lemma partnerEntries_span partners : forall cx y e,
  In e (partnerEntries tv partners cx y) ->
  cx <= Pos.x (snd e)
  /\ Pos.x (snd e) + TreeView.nodeWidth tv + TreeView.horizontalGap tv
     <= cx + rowSpan tv partners
  /\ Pos.y (snd e) = y.
Proof.
  induction partners as [|p ps IH]; intros cx y e; simpl; [intros []|].
  pose proof (rowSpan_nonneg ps).
  intros [<- | Hin]; simpl.
  - repeat split; lra.
  - destruct (IH _ _ _ Hin) as [H1 [H2 H3]]. repeat split; [lra | lra | exact H3].
Qed.

Lemma partnerEntries_apart partners : forall cx y,
  ForallOrdPairs (Apart tv) (partnerEntries tv partners cx y).
Proof.
  induction partners as [|p ps IH]; intros cx y; simpl; constructor; [|apply IH].
  apply Forall_forall. intros e He _ [_ Hx]. simpl in Hx.
  destruct (partnerEntries_span _ _ _ _ He) as [H1 _]. lra.
Qed.

(** Where the entries of a subtree placed at [(x, y)] lie. *)
Definition Within (node : Node.t) (x y : Q) (e : PersonId * Pos.t) : Prop :=
  x <= Pos.x (snd e)
  /\ Pos.x (snd e) + TreeView.nodeWidth tv <= x + Node.totalWidth node
  /\ y <= Pos.y (snd e).

Lemma childEntries_span entriesOf y' children :
  Forall (Sized tv) children ->
  Forall (fun c => forall cx e, In e (entriesOf c cx) -> Within c cx y' e) children ->
  forall cx e,
    In e (childEntries tv entriesOf children cx) ->
    cx <= Pos.x (snd e)
    /\ Pos.x (snd e) + TreeView.nodeWidth tv + TreeView.horizontalGap tv
       <= cx + spanOf tv children
    /\ y' <= Pos.y (snd e).
Proof.
  intros Hs Hw. induction Hw as [|c cs Hc _ IH]; intros cx e; simpl; [intros []|].
  inversion Hs as [|? ? Hsc Hscs]; subst.
  pose proof (Sized_totalWidth c Hsc). pose proof (spanOf_nonneg cs Hscs).
  intro Hin. apply in_app_or in Hin. destruct Hin as [Hin | Hin].
  - destruct (Hc _ _ Hin) as [H1 [H2 H3]]. repeat split; lra.
  - destruct (IH Hscs _ _ Hin) as [H1 [H2 H3]]. repeat split; lra.
Qed.

Lemma childEntries_apart entriesOf y' children :
  Forall (Sized tv) children ->
  Forall (fun c => forall cx e, In e (entriesOf c cx) -> Within c cx y' e) children ->
  Forall (fun c => forall cx, ForallOrdPairs (Apart tv) (entriesOf c cx)) children ->
  forall cx, ForallOrdPairs (Apart tv) (childEntries tv entriesOf children cx).
Proof.
  intros Hs Hw Ha. induction Ha as [|c cs Hc _ IH]; intro cx; simpl; [constructor|].
  inversion Hs as [|? ? Hsc Hscs]; subst. inversion Hw as [|? ? Hwc Hwcs]; subst.
  apply ForallOrdPairs_app; [apply Hc | apply IH; assumption |].
  intros e1 e2 H1 H2 _ [_ Hx].
  destruct (Hwc _ _ H1) as [_ [Hb _]].
  destruct (childEntries_span entriesOf y' cs Hscs Hwcs _ _ H2) as [Ha' _]. lra.
Qed.

Lemma relEntries_within node :
  Sized tv node -> forall x y e, In e (relEntries tv node x y) -> Within node x y e.
Proof.
  induction node as [person partners children cw tw IH] using Node_induction.
  intros Hs x y e. inversion Hs as [? ? ? ? ? Hcw Hle Hcb Hcs]; subst.
  pose proof (coupleWidthOf_ge_nodeWidth tv partners nodeWidth_nonneg horizontalGap_nonneg)
    as Hnw.
  pose proof (coupleWidthOf_rowSpan tv partners) as Hrow.
  pose proof (rowSpan_nonneg partners) as Hrs.
  unfold Within. simpl. intros [<- | Hin]; simpl.
  - qnorm. repeat split; lra.
  - apply in_app_or in Hin. destruct Hin as [Hin | Hin].
    + destruct (partnerEntries_span _ _ _ _ Hin) as [H1 [H2 H3]]. rewrite H3.
      qnorm. repeat split; lra.
    + assert (Hw : Forall (fun c => forall cx e0,
                               In e0 (relEntries tv c cx (y + TreeView.generationGap tv)) ->
                               Within c cx (y + TreeView.generationGap tv) e0) children).
      { apply Forall_forall. intros c Hc cx e0 He0.
        rewrite Forall_forall in IH, Hcs. apply (IH c Hc (Hcs c Hc)), He0. }
      destruct children as [|c cs]; [destruct Hin|].
      destruct (childEntries_span _ _ _ Hcs Hw _ _ Hin) as [H1 [H2 H3]].
      pose proof (childrenBlockWidth_spanOf tv c cs) as Hspan.
      qnorm. repeat split; lra.
Qed.

Lemma relEntries_apart node :
  Sized tv node -> forall x y, ForallOrdPairs (Apart tv) (relEntries tv node x y).
Proof.
  induction node as [person partners children cw tw IH] using Node_induction.
  intros Hs x y. inversion Hs as [? ? ? ? ? Hcw Hle Hcb Hcs]; subst.
  assert (Hw : Forall (fun c => forall cx e0,
                           In e0 (relEntries tv c cx (y + TreeView.generationGap tv)) ->
                           Within c cx (y + TreeView.generationGap tv) e0) children).
  { apply Forall_forall. intros c Hc cx e0 He0.
    rewrite Forall_forall in Hcs. apply (relEntries_within c (Hcs c Hc)), He0. }
  assert (Ha : Forall (fun c => forall cx,
                           ForallOrdPairs (Apart tv)
                             (relEntries tv c cx (y + TreeView.generationGap tv))) children).
  { apply Forall_forall. intros c Hc cx.
    rewrite Forall_forall in IH, Hcs. apply (IH c Hc (Hcs c Hc)). }
  assert (Hrows : forall e0, In e0 (childEntries tv
                     (fun child childX =>
                        relEntries tv child childX (y + TreeView.generationGap tv))
                     children (x + (tw - childrenBlockWidth tv children) / 2)) ->
                  forall p, Pos.y p = y -> ~ sameRow tv p (snd e0)).
  { intros e0 He0 p Hp Hr. apply sameRow_bounds in Hr. rewrite Hp in Hr.
    destruct children as [|c cs]; [destruct He0|].
    destruct (childEntries_span _ _ _ Hcs Hw _ _ He0) as [_ [_ H3]]. lra. }
  simpl. constructor.
  - apply Forall_forall. intros e He. apply in_app_or in He. destruct He as [He | He].
    + intros _ [_ Hx]. simpl in Hx.
      destruct (partnerEntries_span _ _ _ _ He) as [H1 _]. lra.
    + intros Hr _. simpl in Hr.
      exact (Hrows e He (Pos.mk (x + (tw - cw) / 2) y) eq_refl Hr).
  - apply ForallOrdPairs_app.
    + apply partnerEntries_apart.
    + apply (childEntries_apart _ (y + TreeView.generationGap tv)); assumption.
    + intros e1 e2 H1 H2 Hr _.
      destruct (partnerEntries_span _ _ _ _ H1) as [_ [_ Hy]].
      exact (Hrows e2 H2 _ Hy Hr).
Qed.

(** Two entries of a tree with different ids never overlap. *)
Lemma relEntries_no_overlap node x y k1 p1 k2 p2 :
  Sized tv node ->
  In (k1, p1) (relEntries tv node x y) -> In (k2, p2) (relEntries tv node x y) ->
  k1 <> k2 -> sameRow tv p1 p2 -> ~ xRangesIntersect tv p1 p2.
Proof.
  intros Hs H1 H2 Hne.
  destruct (ForallOrdPairs_In (relEntries_apart node Hs x y) _ _ H1 H2) as [E | [H | H]].
  - congruence.
  - exact H.
  - apply Apart_sym in H. exact H.
Qed.
End TreeGeometry.

(** ** The placement loop *)

Lemma insertSorted_In {A : Type} (cmp : A -> A -> Q) a l x :
  In x (insertSorted cmp a l) <-> x = a \/ In x l.
Proof.
  induction l as [|b l IH]; simpl.
  - intuition.
  - destruct (Qlt_bool 0 (cmp a b)); simpl; [rewrite IH|]; intuition.
Qed.

Lemma stableSort_In {A : Type} (cmp : A -> A -> Q) l x :
  In x (stableSort cmp l) <-> In x l.
Proof.
  unfold stableSort. induction l as [|a l IH]; simpl; [tauto|].
  rewrite insertSorted_In, IH. intuition.
Qed.

Lemma indexed_In {A : Type} (l : list A) : forall n i a,
  In (i, a) (indexed n l) -> (n <= i)%nat /\ nth_error l (i - n) = Some a.
Proof.
  induction l as [|b l IH]; intros n i a; simpl; [intros []|].
  intros [[= <- <-] | H].
  - rewrite Nat.sub_diag. split; [lia | reflexivity].
  - destruct (IH _ _ _ H) as [H1 H2]. split; [lia|].
    replace (i - n)%nat with (S (i - S n)) by lia. exact H2.
Qed.

Lemma indexed_nth {A : Type} (l : list A) : forall n i a,
  nth_error l i = Some a -> In ((n + i)%nat, a) (indexed n l).
Proof.
  induction l as [|b l IH]; intros n [|i] a H; simpl in *; try discriminate.
  - injection H as ->. rewrite Nat.add_0_r. now left.
  - right. replace (n + S i)%nat with (S n + i)%nat by lia. now apply IH.
Qed.

Lemma scoreLayout_layout placed il :
  candIndex (scoreLayout placed il) = fst il /\ candLayout (scoreLayout placed il) = snd il.
Proof.
  unfold scoreLayout. destruct (flat_map _ _); [destruct (RootLayout.anchors _)|]; auto.
Qed.

Lemma scoreCandidates_In st best :
  In best (scoreCandidates st) ->
  nth_error (rootLayouts st) (candIndex best) = Some (candLayout best)
  /\ RootLayout.placed (candLayout best) = false.
Proof.
  unfold scoreCandidates. intro H. apply in_map_iff in H. destruct H as [[i l] [<- H]].
  apply filter_In in H. destruct H as [H Hp]. apply negb_true_iff in Hp.
  destruct (scoreLayout_layout (placedPersonPositions st) (i, l)) as [-> ->]. simpl in *.
  apply indexed_In in H. destruct H as [_ H]. rewrite Nat.sub_0_r in H. auto.
Qed.

Lemma scoreCandidates_nonempty st :
  existsb (fun l => negb (RootLayout.placed l)) (rootLayouts st) = true ->
  scoreCandidates st <> [].
Proof.
  intro H. apply existsb_exists in H. destruct H as [l [Hl Hp]].
  apply In_nth_error in Hl. destruct Hl as [i Hi].
  assert (Hin : In (scoreLayout (placedPersonPositions st) (i, l)) (scoreCandidates st)).
  { unfold scoreCandidates. apply in_map. apply filter_In. split; [|exact Hp].
    apply (indexed_nth _ 0%nat), Hi. }
  intro E. rewrite E in Hin. destruct Hin.
Qed.

(** A round of the loop entered with an unplaced layout commits one
    unplaced layout and raises nothing. *)
Lemma placeRound_commits tv st :
  existsb (fun l => negb (RootLayout.placed l)) (rootLayouts st) = true ->
  exists best,
    placeRound tv st = Some (commit (choosePlaceX tv st best) best st)
    /\ In best (scoreCandidates st).
Proof.
  intro H. unfold placeRound.
  destruct (stableSort compareCandidates (scoreCandidates st)) as [|best rest] eqn:E.
  - exfalso. apply (scoreCandidates_nonempty st H).
    destruct (scoreCandidates st) as [|c cs] eqn:Ec; [reflexivity|].
    assert (Hin : In c (stableSort compareCandidates (c :: cs)))
      by (apply stableSort_In; now left).
    rewrite E in Hin. destruct Hin.
  - exists best. split; [reflexivity|].
    apply (stableSort_In compareCandidates). rewrite E. now left.
Qed.

Definition placedCount (layouts : list RootLayout.t) : nat :=
  length (filter RootLayout.placed layouts).

Lemma updateAt_In {A : Type} (f : A -> A) (l : list A) : forall i a,
  nth_error l i = Some a ->
  In (f a) (updateAt i f l)
  /\ (forall b, In b (updateAt i f l) -> b = f a \/ In b l)
  /\ (forall j, j <> i -> nth_error (updateAt i f l) j = nth_error l j)
  /\ nth_error (updateAt i f l) i = Some (f a)
  /\ length (updateAt i f l) = length l.
Proof.
  induction l as [|c l IH]; intros [|i] a H; simpl in *; try discriminate.
  - injection H as ->. split; [now left|]. split; [intros b [<- | Hb]; auto|].
    split; [|auto]. intros [|j] Hj; [congruence | reflexivity].
  - destruct (IH _ _ H) as [H1 [H2 [H3 [H4 H5]]]].
    split; [now right|]. split; [intros b [<- | Hb]; auto; destruct (H2 b Hb); auto|].
    split; [|split; [exact H4 | now rewrite H5]].
    intros [|j] Hj; [reflexivity|]. apply (H3 j). congruence.
Qed.

Lemma placedCount_markPlaced x (l : list RootLayout.t) : forall i a,
  nth_error l i = Some a -> RootLayout.placed a = false ->
  placedCount (updateAt i (markPlaced x) l) = S (placedCount l).
Proof.
  unfold placedCount.
  induction l as [|c l IH]; intros [|i] a H Hp; simpl in *; try discriminate.
  - injection H as ->. now rewrite Hp.
  - destruct (RootLayout.placed c); simpl; now rewrite (IH _ _ H Hp).
Qed.

Definition layoutKeys (l : RootLayout.t) : list PersonId :=
  JsMap.keys (RootLayout.relativePositions l).

Definition somePending (st : PlacerState) : bool :=
  existsb (fun l => negb (RootLayout.placed l)) (rootLayouts st).

(** A property of the placer state that every commit of an unplaced
    layout keeps holds when the loop stops; the loop stops with nothing
    pending or with its rounds used up. *)
Lemma placeLoop_invariant tv (Inv : PlacerState -> Prop) :
  (forall st best,
      Inv st -> In best (scoreCandidates st) ->
      Inv (commit (choosePlaceX tv st best) best st)) ->
  forall remaining st,
    Inv st ->
    exists st', placeLoop tv remaining st = Some st'
                /\ Inv st'
                /\ (safetyCounter st <= safetyCounter st' <= safetyCounter st + remaining)%nat
                /\ (somePending st' = false
                    \/ safetyCounter st' = (safetyCounter st + remaining)%nat).
Proof.
  intros Hstep. induction remaining as [|n IH]; intros st Hinv; simpl.
  - exists st. repeat split; auto; lia.
  - destruct (existsb _ (rootLayouts st)) eqn:E.
    + destruct (placeRound_commits tv st E) as [best [Hr Hb]]. rewrite Hr.
      destruct (IH _ (Hstep st best Hinv Hb)) as [st' [Hl [Hi [Hc Hx]]]].
      exists st'. simpl in Hc, Hx. repeat split; auto; try lia.
      destruct Hx as [Hx | Hx]; [auto | right; lia].
    + exists st. repeat split; auto; lia.
Qed.

(** Book-keeping of the loop: which layouts are placed and which ids have
    a position. *)
Record Tracks (keys : list (list PersonId)) (st : PlacerState) : Prop := {
  tracks_keys : map layoutKeys (rootLayouts st) = keys;
  tracks_count : placedCount (rootLayouts st) = safetyCounter st;
  tracks_same : positions st = placedPersonPositions st;
  tracks_nodup : NoDup (JsMap.keys (positions st));
  tracks_written : forall k,
      In k (JsMap.keys (positions st))
      <-> exists l, In l (rootLayouts st) /\ RootLayout.placed l = true
                    /\ In k (layoutKeys l) }.

Lemma finalEntries_keys x l : map fst (finalEntries x l) = layoutKeys l.
Proof. unfold finalEntries, layoutKeys, JsMap.keys. rewrite map_map. reflexivity. Qed.

Lemma updateAt_map {A B : Type} (g : A -> B) (f : A -> A) (l : list A) i :
  (forall a, g (f a) = g a) -> map g (updateAt i f l) = map g l.
Proof.
  intro H. revert i. induction l as [|c l IH]; intros [|i]; simpl; try reflexivity.
  - now rewrite H.
  - now rewrite IH.
Qed.

Lemma Tracks_commit keys st best x :
  Tracks keys st ->
  nth_error (rootLayouts st) (candIndex best) = Some (candLayout best) ->
  RootLayout.placed (candLayout best) = false ->
  Tracks keys (commit x best st).
Proof.
  intros [T1 T2 T3 T5 T4] Hn Hp.
  destruct (updateAt_In (markPlaced x) _ _ _ Hn) as [U1 [U2 [U3 [U4 U5]]]].
  constructor; simpl.
  - rewrite updateAt_map; [exact T1 | reflexivity].
  - rewrite (placedCount_markPlaced x _ _ _ Hn Hp). now rewrite T2.
  - now rewrite T3.
  - apply JsMap_setAll_NoDup, T5.
  - intro k. rewrite JsMap_setAll_keys, finalEntries_keys, T4. split.
    + intros [[l [Hl [Hpl Hk]]] | Hk].
      * exists l. split; [|auto]. apply In_nth_error in Hl. destruct Hl as [j Hj].
        assert (Hne : j <> candIndex best).
        { intros ->. rewrite Hn in Hj. injection Hj as <-. congruence. }
        apply nth_error_In with j. rewrite (U3 j Hne). exact Hj.
      * exists (markPlaced x (candLayout best)). auto.
    + intros [l [Hl [Hpl Hk]]]. destruct (U2 l Hl) as [-> | Hl'].
      * right. exact Hk.
      * left. eauto.
Qed.

Lemma Tracks_start layouts :
  Forall (fun l => RootLayout.placed l = false) layouts ->
  Tracks (map layoutKeys layouts)
         {| rootLayouts := layouts; placedPersonPositions := [];
            positions := []; safetyCounter := 0 |}.
Proof.
  intro H. constructor; simpl; auto.
  - unfold placedCount. induction H as [|l ls Hl _ IH]; simpl; [reflexivity|].
    now rewrite Hl.
  - constructor.
  - intro k. split; [intros []|]. intros [l [Hl [Hp _]]].
    rewrite Forall_forall in H. rewrite (H l Hl) in Hp. discriminate.
Qed.

(** The scheduler returns, raises nothing, runs at most 100 rounds and
    commits one layout per round. *)
Lemma placeComponents_total tv layouts :
  Forall (fun l => RootLayout.placed l = false) layouts ->
  exists st,
    placeComponents tv layouts = Some st
    /\ Tracks (map layoutKeys layouts) st
    /\ (safetyCounter st <= 100)%nat
    /\ (somePending st = false \/ safetyCounter st = 100%nat).
Proof.
  intro H. unfold placeComponents.
  destruct (placeLoop_invariant tv (Tracks (map layoutKeys layouts))
              (fun st best Hi Hb =>
                 Tracks_commit _ st best _ Hi (proj1 (scoreCandidates_In st best Hb))
                               (proj2 (scoreCandidates_In st best Hb)))
              100 _ (Tracks_start layouts H)) as [st [Hl [Hi [Hc Hx]]]].
  exists st. simpl in Hc, Hx. split; [exact Hl|]. split; [exact Hi|].
  split; [lia | exact Hx].
Qed.

(** ** The collision probe and the chosen offset *)




(** The bound of 80 turns does not cut the search short: once the offset
    has reached 4000 the loop condition fails, so more turns find nothing
    more. *)
Lemma searchFit_turns fitsAt placeX preferredDir steps : forall extra offset,
  4000 <= offset + 50 * inject_Z (Z.of_nat steps) ->
  searchFit (steps + extra) fitsAt placeX preferredDir offset
  = searchFit steps fitsAt placeX preferredDir offset.
Proof.
  induction steps as [|n IH]; intros extra offset Hb.
  - change (inject_Z (Z.of_nat 0)) with 0 in Hb.
    simpl. destruct extra as [|e]; [reflexivity|]. simpl.
    assert (E : Qlt_bool offset 4000 = false) by (apply Qlt_bool_false; lra).
    now rewrite E.
  - simpl. destruct (Qlt_bool offset 4000); [|reflexivity].
    destruct (fitsAt (placeX + (offset + 50) * preferredDir)); [reflexivity|].
    assert (Hb' : 4000 <= offset + 50 + 50 * inject_Z (Z.of_nat n)).
    { pose proof (inject_nat_S n) as HS. rewrite HS in Hb. lra. }
    destruct (Qlt_bool 1500 (offset + 50) && fitsAt (placeX - (offset + 50) * preferredDir));
      [reflexivity | apply IH; exact Hb'].
Qed.

Lemma searchFit_80 fitsAt placeX preferredDir extra :
  searchFit (80 + extra) fitsAt placeX preferredDir 0
  = searchFit 80 fitsAt placeX preferredDir 0.
Proof. apply searchFit_turns. vm_compute. discriminate. Qed.


Lemma maxPlacedX_from (ls : list RootLayout.t) : forall a,
  let m := fold_left (fun max l => Qmax max (RootLayout.finalX l + RootLayout.width l)) ls a in
  a <= m
  /\ (forall l, In l ls -> RootLayout.finalX l + RootLayout.width l <= m)
  /\ (m = a \/ exists l, In l ls /\ m = RootLayout.finalX l + RootLayout.width l).
Proof.
  induction ls as [|l ls IH]; intro a; simpl.
  - split; [lra|]. split; [intros l [] | now left].
  - destruct (IH (Qmax a (RootLayout.finalX l + RootLayout.width l))) as [H1 [H2 H3]].
    simpl in H1, H2, H3.
    destruct (Qmax_cases a (RootLayout.finalX l + RootLayout.width l)) as [[Hle E] | [Hle E]];
      rewrite E in *.
    + split; [lra|]. split.
      * intros l' [<- | Hl']; [exact H1 | auto].
      * right. destruct H3 as [-> | [l' [Hl' ->]]]; eauto.
    + split; [exact H1|]. split.
      * intros l' [<- | Hl']; [lra | auto].
      * destruct H3 as [-> | [l' [Hl' ->]]]; eauto.
Qed.

Lemma maxPlacedX_spec layouts :
  100 <= maxPlacedX layouts
  /\ (forall l, In l layouts -> RootLayout.placed l = true ->
                RootLayout.finalX l + RootLayout.width l <= maxPlacedX layouts)
  /\ (maxPlacedX layouts = 100
      \/ exists l, In l layouts /\ RootLayout.placed l = true
                   /\ maxPlacedX layouts = RootLayout.finalX l + RootLayout.width l).
Proof.
  unfold maxPlacedX.
  destruct (maxPlacedX_from (filter RootLayout.placed layouts) 100) as [H1 [H2 H3]].
  split; [exact H1|]. split.
  - intros l Hl Hp. apply H2. apply filter_In. auto.
  - destruct H3 as [H3 | [l [Hl H3]]]; [now left|].
    right. apply filter_In in Hl. exists l. tauto.
Qed.

Lemma maxPlacedX_commit layouts i l x :
  nth_error layouts i = Some l -> RootLayout.placed l = false ->
  maxPlacedX layouts <= maxPlacedX (updateAt i (markPlaced x) layouts)
  /\ x + RootLayout.width l <= maxPlacedX (updateAt i (markPlaced x) layouts).
Proof.
  intros Hn Hp.
  destruct (updateAt_In (markPlaced x) _ _ _ Hn) as [U1 [U2 [U3 [U4 U5]]]].
  destruct (maxPlacedX_spec layouts) as [_ [_ A3]].
  destruct (maxPlacedX_spec (updateAt i (markPlaced x) layouts)) as [B1 [B2 _]].
  split.
  - destruct A3 as [-> | [l0 [Hl0 [Hp0 ->]]]]; [exact B1|].
    apply B2; [|exact Hp0]. apply In_nth_error in Hl0. destruct Hl0 as [j Hj].
    assert (Hne : j <> i).
    { intros ->. rewrite Hn in Hj. injection Hj as <-. congruence. }
    apply nth_error_In with j. rewrite (U3 j Hne). exact Hj.
  - apply (B2 _ U1 eq_refl).
Qed.

(** ** No two placed nodes overlap *)

Definition NoOverlap (tv : TreeView.t) (positions : JsMap.t Pos.t) : Prop :=
  forall k1 p1 k2 p2,
    In (k1, p1) positions -> In (k2, p2) positions -> k1 <> k2 ->
    sameRow tv p1 p2 -> ~ xRangesIntersect tv p1 p2.

(** What the placement needs from a layout: its nodes lie between 0 and
    its width, on rows at or below 0, and do not overlap each other. *)
Definition LayoutBounds (tv : TreeView.t) (l : RootLayout.t) : Prop :=
  forall k r, In (k, r) (RootLayout.relativePositions l) ->
              0 <= Pos.x r
              /\ Pos.x r + TreeView.nodeWidth tv <= RootLayout.width l
              /\ 0 <= Pos.y r.

Definition LayoutOk (tv : TreeView.t) (l : RootLayout.t) : Prop :=
  LayoutBounds tv l /\ NoOverlap tv (RootLayout.relativePositions l).

(** The position a committed layout gives the node at [r]. *)
Definition absolute (l : RootLayout.t) (r : Pos.t) : Pos.t :=
  Pos.mk (RootLayout.finalX l + Pos.x r) (100 + Pos.y r).

(** Every position was written by a placed layout, and a layout without
    anchors was appended on the right. *)
Record Placed (tv : TreeView.t) (st : PlacerState) : Prop := {
  placed_from : forall k p,
      In (k, p) (placedPersonPositions st) ->
      exists l r, In l (rootLayouts st) /\ RootLayout.placed l = true
                  /\ In (k, r) (RootLayout.relativePositions l) /\ p = absolute l r;
  placed_free : forall l,
      In l (rootLayouts st) -> RootLayout.placed l = true -> RootLayout.anchors l = [] ->
      100 + TreeView.horizontalGap tv * 1.5 <= RootLayout.finalX l;
  placed_layouts : Forall (LayoutBounds tv) (rootLayouts st) }.



Lemma scoreLayout_free placed il :
  RootLayout.anchors (snd il) = [] -> desiredX (scoreLayout placed il) = None.
Proof. unfold scoreLayout. intros ->. reflexivity. Qed.

Lemma scoreCandidates_free st best :
  In best (scoreCandidates st) -> RootLayout.anchors (candLayout best) = [] ->
  desiredX best = None.
Proof.
  unfold scoreCandidates. intro H. apply in_map_iff in H. destruct H as [il [<- _]].
  destruct (scoreLayout_layout (placedPersonPositions st) il) as [_ ->].
  apply scoreLayout_free.
Qed.


Lemma commit_old_layouts st best x l0 :
  nth_error (rootLayouts st) (candIndex best) = Some (candLayout best) ->
  RootLayout.placed (candLayout best) = false ->
  In l0 (rootLayouts st) -> RootLayout.placed l0 = true ->
  In l0 (rootLayouts (commit x best st)).
Proof.
  intros Hn Hunp Hl0 Hp0. simpl.
  destruct (updateAt_In (markPlaced x) _ _ _ Hn) as [_ [_ [U3 _]]].
  apply In_nth_error in Hl0. destruct Hl0 as [j Hj].
  assert (Hne : j <> candIndex best).
  { intros ->. rewrite Hn in Hj. injection Hj as <-. congruence. }
  apply nth_error_In with j. rewrite (U3 j Hne). exact Hj.
Qed.

Lemma finalEntries_In x l k p :
  In (k, p) (finalEntries x l) ->
  exists r, In (k, r) (RootLayout.relativePositions l)
            /\ p = Pos.mk (x + Pos.x r) (100 + Pos.y r).
Proof.
  intro H. unfold finalEntries in H. apply in_map_iff in H.
  destruct H as [[k' r] [[= <- <-] H]]. eauto.
Qed.

Lemma Placed_commit tv st best :
  Placed tv st -> In best (scoreCandidates st) ->
  Placed tv (commit (choosePlaceX tv st best) best st).
Proof.
  intros HP Hb. destruct (scoreCandidates_In st best Hb) as [Hn Hunp].
  set (x := choosePlaceX tv st best). set (l := candLayout best) in *.
  destruct (updateAt_In (markPlaced x) _ _ _ Hn) as [U1 [U2 [U3 [U4 U5]]]].
  pose proof (placed_layouts _ _ HP) as Hok. rewrite Forall_forall in Hok.
  constructor.
  - intros k p H. simpl in H. destruct (JsMap_setAll_In _ _ _ _ H) as [O | N].
    + destruct (placed_from _ _ HP k p O) as [l0 [r [Hl0 [Hp0 [Hr ->]]]]].
      exists l0, r. split; [|auto]. now apply commit_old_layouts.
    + destruct (finalEntries_In _ _ _ _ N) as [r [Hr ->]].
      exists (markPlaced x l), r. simpl. auto.
  - intros l0 Hl0 Hp0 Ha. destruct (U2 l0 Hl0) as [-> | Hl0'].
    + simpl. simpl in Ha. unfold x, choosePlaceX.
      rewrite (scoreCandidates_free st best Hb Ha). unfold appendRight.
      destruct (maxPlacedX_spec (rootLayouts st)) as [M _]. lra.
    + apply (placed_free _ _ HP l0 Hl0' Hp0 Ha).
  - apply Forall_forall. intros l0 Hl0. destruct (U2 l0 Hl0) as [-> | Hl0'].
    + exact (Hok l (nth_error_In _ _ Hn)).
    + exact (Hok l0 Hl0').
Qed.


Lemma Placed_start tv layouts :
  Forall (LayoutBounds tv) layouts ->
  Forall (fun l => RootLayout.placed l = false) layouts ->
  Placed tv {| rootLayouts := layouts; placedPersonPositions := [];
               positions := []; safetyCounter := 0 |}.
Proof.
  intros H Hu. constructor; simpl; auto.
  - intros k p [].
  - intros l Hl Hp _. rewrite Forall_forall in Hu. rewrite (Hu l Hl) in Hp. discriminate.
Qed.

(** The scheduler on layouts whose nodes lie within their width. *)
Lemma placeComponents_Placed tv layouts :
  Forall (LayoutBounds tv) layouts ->
  Forall (fun l => RootLayout.placed l = false) layouts ->
  exists st, placeComponents tv layouts = Some st /\ Placed tv st.
Proof.
  intros Hok Hu. unfold placeComponents.
  destruct (placeLoop_invariant tv (Placed tv) (Placed_commit tv) 100%nat _
              (Placed_start tv layouts Hok Hu)) as [st [Hl [Hp _]]].
  eauto.
Qed.

Section Placement.
Variable tv : TreeView.t.
Hypothesis horizontalGap_nonneg : 0 <= TreeView.horizontalGap tv.


End Placement.

(** ** The layout pass as a whole *)

Lemma ensureLink_ids k who target people :
  map Person.id (fst (ensureLink k who target people)) = map Person.id people.
Proof.
  unfold ensureLink. destruct (personMap_get people target); [|reflexivity].
  destruct (includes _ who); [reflexivity|]. simpl.
  apply personMap_update_ids. reflexivity.
Qed.

Lemma ensureLinks_ids k who targets : forall st,
  map Person.id (fst (ensureLinks k who targets st)) = map Person.id (fst st).
Proof.
  unfold ensureLinks. induction targets as [|t ts IH]; intro st; simpl; [reflexivity|].
  rewrite IH. simpl. apply ensureLink_ids.
Qed.

Lemma repairLinksAt_ids people i :
  map Person.id (repairLinksAt people i) = map Person.id people.
Proof.
  unfold repairLinksAt. destruct (nth_error people i) as [p|]; [|reflexivity].
  destruct (nth_error _ i) as [p1|]; [rewrite ensureLinks_ids|]; simpl;
    apply (ensureLinks_ids Parents (Person.id p) (listOf Children p) (people, false)).
Qed.

Lemma repairLinks_ids people :
  map Person.id (repairLinks people) = map Person.id people.
Proof.
  unfold repairLinks. generalize (seq 0 (length people)). intro l.
  revert people. induction l as [|i l IH]; intro people; simpl; [reflexivity|].
  rewrite IH. apply repairLinksAt_ids.
Qed.

Lemma known_repairLinks people k : known (repairLinks people) k <-> known people k.
Proof. unfold known. now rewrite repairLinks_ids. Qed.

(** What a returning call of [calculateLayout] on a non-empty list ran. *)
Definition Ran (tv : TreeView.t) (srt : Sorters) (fuel : nat) (people : list Person.t)
           (r : Layout) : Prop :=
  repaired r = repairLinks people
  /\ assignGenerations fuel (repaired r) = Some (generations r)
  /\ buildForest tv srt fuel (repaired r) (generations r) = Some (roots r)
  /\ placeComponents tv (map (makeLayout tv (repaired r)) (roots r)) = Some (placer r).

Definition emptyLayout : Layout :=
  {| repaired := []; generations := []; roots := [];
     placer := {| rootLayouts := []; placedPersonPositions := [];
                  positions := []; safetyCounter := 0 |} |}.

Lemma calculateLayout_Returned tv srt fuel people r :
  calculateLayout tv srt fuel people = Returned r ->
  (people = [] /\ r = emptyLayout) \/ (people <> [] /\ Ran tv srt fuel people r).
Proof.
  unfold calculateLayout. destruct people as [|p ps].
  - intros [= <-]. now left.
  - destruct (assignGenerations fuel (repairLinks (p :: ps))) as [gens|] eqn:Eg;
      [|discriminate].
    destruct (buildForest tv srt fuel (repairLinks (p :: ps)) gens) as [rs|] eqn:Ef;
      [|discriminate].
    destruct (placeComponents tv _) as [st|] eqn:Ep; [|discriminate].
    intros [= <-]. right. split; [discriminate|]. unfold Ran. simpl. auto.
Qed.

Lemma makeLayouts_unplaced tv people roots :
  Forall (fun l => RootLayout.placed l = false) (map (makeLayout tv people) roots).
Proof. apply Forall_forall. intros l H. apply in_map_iff in H. destruct H as [n [<- _]]. reflexivity. Qed.

(** The book-keeping facts of a returning call. *)
Lemma calculateLayout_tracks tv srt fuel people r :
  calculateLayout tv srt fuel people = Returned r ->
  Tracks (map layoutKeys (map (makeLayout tv (repaired r)) (roots r))) (placer r)
  /\ (safetyCounter (placer r) <= 100)%nat
  /\ (somePending (placer r) = false \/ safetyCounter (placer r) = 100%nat)
  /\ (forall p, In p people -> In (Person.id p) (forestIds (roots r)))
  /\ NoDup (forestIds (roots r))
  /\ (forall k, In k (forestIds (roots r)) -> known people k).
Proof.
  intro H. destruct (calculateLayout_Returned _ _ _ _ _ H) as [[-> ->] | [Hne [R1 [R2 [R3 R4]]]]].
  - simpl. split; [apply (Tracks_start []); constructor|].
    split; [lia|]. split; [now left|]. split; [intros p []|]. split; [constructor | intros k []].
  - destruct (placeComponents_total tv _ (makeLayouts_unplaced tv (repaired r) (roots r)))
      as [st [Hs [Ht [Hc Hx]]]].
    rewrite R4 in Hs. injection Hs as <-.
    destruct (buildForest_covers _ _ _ _ _ _ R3) as [C1 [C2 C3]].
    split; [exact Ht|]. split; [exact Hc|]. split; [exact Hx|].
    split; [|split; [exact C2|]].
    + intros p Hp. rewrite R1 in C1.
      assert (Hk : known (repairLinks people) (Person.id p)).
      { apply known_repairLinks. unfold known. now apply in_map. }
      apply known_get in Hk. destruct Hk as [q Hq].
      destruct (personMap_get_Some _ _ _ Hq) as [Hin Hid]. rewrite <- Hid. apply C1, Hin.
    + intros k Hk. rewrite R1 in C3. apply known_repairLinks, C3, Hk.
Qed.

Section LayoutGeometry.
Variable tv : TreeView.t.
Hypothesis nodeWidth_nonneg : 0 <= TreeView.nodeWidth tv.
Hypothesis horizontalGap_nonneg : 0 <= TreeView.horizontalGap tv.
Hypothesis generationGap_nonneg : 0 <= TreeView.generationGap tv.

Lemma makeLayout_bounds people root :
  Sized tv root -> LayoutBounds tv (makeLayout tv people root).
Proof.
  intros Hs k r H. apply makeLayout_entries in H.
  destruct (relEntries_within tv nodeWidth_nonneg horizontalGap_nonneg
              generationGap_nonneg root Hs 0 0 _ H) as [H1 [H2 H3]].
  simpl in *. repeat split; lra.
Qed.

Lemma calculateLayout_placed srt fuel people r :
  calculateLayout tv srt fuel people = Returned r -> Placed tv (placer r).
Proof.
  intro H. destruct (calculateLayout_Returned _ _ _ _ _ H) as [[-> ->] | [Hne [R1 [R2 [R3 R4]]]]].
  - apply (Placed_start tv []); constructor.
  - destruct (placeComponents_Placed tv (map (makeLayout tv (repaired r)) (roots r)))
      as [st [Hs Hp]].
    + apply Forall_forall. intros l Hl. apply in_map_iff in Hl. destruct Hl as [n [<- Hn]].
      apply makeLayout_bounds. pose proof (buildForest_Sized _ _ _ _ _ _ R3) as Hsz.
      rewrite Forall_forall in Hsz. exact (Hsz n Hn).
    + apply makeLayouts_unplaced.
    + rewrite R4 in Hs. injection Hs as <-. exact Hp.
Qed.

Hypothesis rows_apart : TreeView.nodeHeight tv <= TreeView.generationGap tv.

Lemma makeLayout_ok people root : Sized tv root -> LayoutOk tv (makeLayout tv people root).
Proof.
  intro Hs. split; [now apply makeLayout_bounds|].
  intros k1 r1 k2 r2 H1 H2. apply makeLayout_entries in H1, H2.
  apply (relEntries_no_overlap tv nodeWidth_nonneg horizontalGap_nonneg
           generationGap_nonneg rows_apart root 0 0 k1 r1 k2 r2 Hs H1 H2).
Qed.

End LayoutGeometry.

(** Fuel that lets every guarded recursion of the pass run to its end. *)
Definition fuelFor (people : list Person.t) : nat :=
  S (length (idsMentioned (repairLinks people))).

Lemma idsMentioned_length people : (length people <= length (idsMentioned people))%nat.
Proof.
  unfold idsMentioned. induction people as [|p ps IH]; simpl; [lia|].
  rewrite length_app. simpl in *. lia.
Qed.

(** With enough fuel [calculateLayout] returns: it neither runs out of
    fuel nor raises. *)
Lemma calculateLayout_returns tv srt fuel people :
  (fuelFor people <= fuel)%nat ->
  exists r, calculateLayout tv srt fuel people = Returned r.
Proof.
  unfold fuelFor. intro Hf. unfold calculateLayout. destruct people as [|p ps]; [eauto|].
  set (people := repairLinks (p :: ps)) in *.
  assert (Hne : people <> []).
  { intro E. pose proof (repairLinks_ids (p :: ps)) as Hi. fold people in Hi.
    rewrite E in Hi. discriminate. }
  destruct (assignGenerations_returns people fuel ltac:(lia)) as [g0 [Eg _]].
  rewrite Eg.
  pose proof (idsMentioned_length people) as Hlen.
  destruct (buildForest_terminates tv srt fuel people (normalize g0) ltac:(lia))
    as [rs Er]. rewrite Er.
  destruct (placeComponents_total tv _ (makeLayouts_unplaced tv people rs)) as [st [Es _]].
  rewrite Es. eauto.
Qed.

(** ** The claims about the layout pass *)

(** The round cap is exhausted when the loop stops with a layout still
    unplaced. *)
Definition capNotExhausted (st : PlacerState) : Prop := somePending st = false.

Lemma placedCount_le layouts : (placedCount layouts <= length layouts)%nat.
Proof. unfold placedCount. apply filter_length_le. Qed.

Lemma placedCount_all layouts :
  placedCount layouts = length layouts ->
  existsb (fun l => negb (RootLayout.placed l)) layouts = false.
Proof.
  unfold placedCount. induction layouts as [|l ls IH]; simpl; [reflexivity|].
  pose proof (filter_length_le RootLayout.placed ls) as Hle.
  destruct (RootLayout.placed l); simpl; intro Hc; [apply IH; lia | lia].
Qed.

Lemma somePending_false st l :
  somePending st = false -> In l (rootLayouts st) -> RootLayout.placed l = true.
Proof.
  unfold somePending. intros H Hl.
  destruct (RootLayout.placed l) eqn:E; [reflexivity|].
  assert (Ht : existsb (fun l => negb (RootLayout.placed l)) (rootLayouts st) = true).
  { apply existsb_exists. exists l. rewrite E. auto. }
  congruence.
Qed.

(** Layouts of the final state and trees of the forest correspond
    position by position and place the same ids. *)
Lemma Tracks_layout_of_root tv people roots st i :
  Tracks (map layoutKeys (map (makeLayout tv people) roots)) st ->
  (forall l, nth_error (rootLayouts st) i = Some l ->
             exists root, nth_error roots i = Some root
                          /\ forall k, In k (layoutKeys l) <-> In k (nodeIds root))
  /\ (forall root, nth_error roots i = Some root ->
                   exists l, nth_error (rootLayouts st) i = Some l
                             /\ forall k, In k (layoutKeys l) <-> In k (nodeIds root)).
Proof.
  intros [T _ _ _ _].
  assert (Hi : option_map layoutKeys (nth_error (rootLayouts st) i)
               = option_map (fun root => layoutKeys (makeLayout tv people root))
                            (nth_error roots i)).
  { rewrite <- !nth_error_map, T, map_map. reflexivity. }
  split.
  - intros l Hl. rewrite Hl in Hi. simpl in Hi.
    destruct (nth_error roots i) as [root|]; [|discriminate].
    simpl in Hi. injection Hi as Hi. exists root. split; [reflexivity|].
    intro k. rewrite Hi. apply makeLayout_keys.
  - intros root Hr. rewrite Hr in Hi. simpl in Hi.
    destruct (nth_error (rootLayouts st) i) as [l|]; [|discriminate].
    simpl in Hi. injection Hi as Hi. exists l. split; [reflexivity|].
    intro k. rewrite Hi. apply makeLayout_keys.
Qed.

Lemma NoDup_app_disjoint {A : Type} (l1 l2 : list A) a :
  NoDup (l1 ++ l2) -> In a l1 -> ~ In a l2.
Proof.
  induction l1 as [|x l1 IH]; simpl; intros H Hin Hin2; [destruct Hin|].
  inversion H as [|? ? Hx Hl]; subst. destruct Hin as [<- | Hin].
  - apply Hx, in_or_app. now right.
  - exact (IH Hl Hin Hin2).
Qed.

Lemma forestIds_disjoint (roots : list Node.t) : forall i j a b k,
  NoDup (forestIds roots) -> i <> j ->
  nth_error roots i = Some a -> nth_error roots j = Some b ->
  In k (nodeIds a) -> ~ In k (nodeIds b).
Proof.
  unfold forestIds.
  induction roots as [|c roots IH]; intros [|i] [|j] a b k Hnd Hne Ha Hb Hk Hk';
    simpl in *; try discriminate; try congruence;
    pose proof (NoDup_app_remove_l _ _ Hnd) as Hnd';
    pose proof (NoDup_app_disjoint _ _ k Hnd) as Hdis.
  - injection Ha as ->. apply (Hdis Hk).
    apply in_flat_map. exists b. split; [eapply nth_error_In; eassumption | exact Hk'].
  - injection Hb as ->. apply (Hdis Hk').
    apply in_flat_map. exists a. split; [eapply nth_error_In; eassumption | exact Hk].
  - apply (IH i j a b k Hnd'); auto.
Qed.


(** Every id with a position is the id of a person of the list. *)
Lemma calculateLayout_positions_known tv srt fuel people r k :
  calculateLayout tv srt fuel people = Returned r ->
  In k (JsMap.keys (positions (placer r))) -> known people k.
Proof.
  intros H Hk.
  destruct (calculateLayout_tracks _ _ _ _ _ H) as [T [_ [_ [_ [_ Hknown]]]]].
  apply (tracks_written _ _ T) in Hk. destruct Hk as [l [Hl [_ Hkl]]].
  apply In_nth_error in Hl. destruct Hl as [i Hi].
  destruct (proj1 (Tracks_layout_of_root _ _ _ _ i T) l Hi) as [root [Hr Hkeys]].
  apply Hknown. unfold forestIds. apply in_flat_map. exists root.
  split; [eapply nth_error_In; eassumption | now apply Hkeys].
Qed.

(** C7.  Every node [buildTree] returns, and every node below it, has
    [coupleWidth = (1 + k) * nodeWidth + k * horizontalGap] for its [k]
    partners and [totalWidth] the larger of [coupleWidth] and the sum of
    the total widths of its [n] children plus [(n - 1) * horizontalGap],
    for a non-negative node width and gap. *)
Theorem nodes_have_couple_and_total_width tv srt people fuel visited personId visited' node :
  0 <= TreeView.nodeWidth tv -> 0 <= TreeView.horizontalGap tv ->
  buildTree tv srt people fuel visited personId = Some (visited', Some node) ->
  WidthsOk tv node.
Proof.
  intros Hw Hg H. exact (buildTree_widths tv srt people Hw Hg fuel _ _ _ _ H).
Qed.


(** C2, as the code has it.  With enough fuel the pass returns; when the
    round cap is not exhausted, which is the case whenever the forest has
    at most 100 trees, every person of the input list has exactly one
    entry in the position map; and [renderGhostNodes] hands the position
    map back as it received it, the ghosts being kept in an array of
    their own. *)
Theorem every_person_positioned_within_cap tv srt fuel people :
  (fuelFor people <= fuel)%nat ->
  exists r,
    calculateLayout tv srt fuel people = Returned r
    /\ ((length (roots r) <= 100)%nat -> capNotExhausted (placer r))
    /\ (capNotExhausted (placer r) ->
        forall p, In p people ->
          exists pos,
            JsMap.get (positions (placer r)) (Person.id p) = Some pos
            /\ forall pos', In (Person.id p, pos') (positions (placer r)) -> pos' = pos)
    /\ snd (renderGhostNodes tv (repaired r) (positions (placer r)))
       = positions (placer r).
Proof.
  intro Hf. destruct (calculateLayout_returns tv srt fuel people Hf) as [r H].
  exists r. split; [exact H|].
  destruct (calculateLayout_tracks _ _ _ _ _ H) as [T [Hc [Hx [Hcov _]]]].
  split; [|split; [|reflexivity]].
  - intro Hlen. destruct Hx as [Hx | Hx]; [exact Hx|].
    apply placedCount_all.
    pose proof (placedCount_le (rootLayouts (placer r))) as Hle.
    pose proof (tracks_count _ _ T) as Hcount.
    pose proof (f_equal (@length _) (tracks_keys _ _ T)) as Hk.
    rewrite !length_map in Hk. lia.
  - intros Hcap p Hp.
    specialize (Hcov p Hp). unfold forestIds in Hcov. apply in_flat_map in Hcov.
    destruct Hcov as [root [Hroot Hid]].
    apply In_nth_error in Hroot. destruct Hroot as [i Hi].
    destruct (proj2 (Tracks_layout_of_root _ _ _ _ i T) root Hi) as [l [Hl Hkeys]].
    assert (Hin : In (Person.id p) (JsMap.keys (positions (placer r)))).
    { apply (tracks_written _ _ T). exists l.
      split; [eapply nth_error_In; eassumption|].
      split; [|now apply Hkeys].
      apply (somePending_false _ _ Hcap). eapply nth_error_In; eassumption. }
    apply JsMap_has_keys in Hin. unfold JsMap.has in Hin.
    destruct (JsMap.get (positions (placer r)) (Person.id p)) as [pos|] eqn:E;
      [|discriminate].
    exists pos. split; [reflexivity|]. intros pos' Hpos'.
    apply (JsMap_NoDup_get _ _ _ (tracks_nodup _ _ T)) in Hpos'. congruence.
Qed.

(** C10, as the code has it.  Every entry of the position map lies on or
    below the base row, [y >= 100]; it was written by a placed layout,
    and when that layout has no anchors it lies right of the base margin,
    [x >= 100 + 1.5 * horizontalGap].  A layout with anchors is centred
    on them or moved by the collision search, and its x may be negative. *)
Theorem positions_on_or_below_base_row tv srt fuel people r :
  0 <= TreeView.nodeWidth tv -> 0 <= TreeView.horizontalGap tv ->
  0 <= TreeView.generationGap tv ->
  calculateLayout tv srt fuel people = Returned r ->
  forall k pos,
    JsMap.get (positions (placer r)) k = Some pos ->
    100 <= Pos.y pos
    /\ exists l,
        In l (rootLayouts (placer r)) /\ RootLayout.placed l = true
        /\ In k (layoutKeys l)
        /\ (RootLayout.anchors l = [] ->
            100 + TreeView.horizontalGap tv * 1.5 <= Pos.x pos).
Proof.
  intros Hw Hg HG H k pos Hpos.
  destruct (calculateLayout_tracks _ _ _ _ _ H) as [T _].
  pose proof (calculateLayout_placed tv Hw Hg HG srt fuel people r H) as HP.
  apply JsMap_get_In in Hpos. rewrite (tracks_same _ _ T) in Hpos.
  destruct (placed_from _ _ HP k pos Hpos) as [l [rel [Hl [Hp [Hr ->]]]]].
  pose proof (placed_layouts _ _ HP) as Hb. rewrite Forall_forall in Hb.
  destruct (Hb l Hl k rel Hr) as [B1 [B2 B3]].
  unfold absolute. simpl. split; [lra|].
  exists l. split; [exact Hl|]. split; [exact Hp|]. split.
  - unfold layoutKeys, JsMap.keys. change k with (fst (k, rel)). now apply in_map.
  - intro Ha. pose proof (placed_free _ _ HP l Hl Hp Ha). lra.
Qed.

(** ** A single person *)

(** What [Array.prototype.sort] guarantees whatever the comparator: the
    result is a rearrangement of the argument. *)
Definition SortsInPlace (srt : Sorters) : Prop :=
  (forall l, Permutation (sortCluster srt l) l)
  /\ (forall people ids, Permutation (sortChildIds srt people ids) ids).

Lemma buildRoots_None tv srt people fuel ps :
  fold_left
    (fun acc p =>
       match acc with
       | None => None
       | Some (visited, roots) =>
           if IdSet.has visited (Person.id p) then acc
           else
             match buildTree tv srt people fuel visited (Person.id p) with
             | None => None
             | Some (visited', None) => Some (visited', roots)
             | Some (visited', Some node) => Some (visited', roots ++ [node])
             end
       end) ps None = None.
Proof. induction ps as [|q ps IH]; simpl; auto. Qed.

Lemma buildRoots_cons tv srt people fuel p ps (visited : list PersonId) roots :
  buildRoots tv srt people fuel (p :: ps) (visited, roots)
  = if IdSet.has visited (Person.id p) then buildRoots tv srt people fuel ps (visited, roots)
    else
      match buildTree tv srt people fuel visited (Person.id p) with
      | None => None
      | Some (visited', None) => buildRoots tv srt people fuel ps (visited', roots)
      | Some (visited', Some node) =>
          buildRoots tv srt people fuel ps (visited', roots ++ [node])
      end.
Proof.
  unfold buildRoots. simpl. destruct (IdSet.has visited (Person.id p)); [reflexivity|].
  destruct (buildTree tv srt people fuel visited (Person.id p)) as [[v' [n|]]|];
    try reflexivity.
  apply buildRoots_None.
Qed.

Section SinglePerson.
Variable tv : TreeView.t.
Variable srt : Sorters.
Variable fuel : nat.
Variables (i : PersonId) (g b : string) (sl : list Split.t).
Hypothesis sorts : SortsInPlace srt.

Let p : Person.t := Person.mk i g b (Rel.mk [] [] []) sl.
Let node : Node.t :=
  Node.mk p [] [] (coupleWidthOf tv [])
          (Qmax (coupleWidthOf tv []) (childrenBlockWidth tv [])).

Lemma single_eqb : String.eqb i i = true.
Proof. apply String.eqb_refl. Qed.

Lemma single_generations : assignGenerations (S fuel) [p] = Some [(i, 0%Z)].
Proof.
  unfold assignGenerations, seedWaves. simpl. rewrite ?single_eqb. simpl.
  destruct fuel; reflexivity.
Qed.

Lemma single_tree : buildTree tv srt [p] (S fuel) [] i = Some ([i], Some node).
Proof.
  destruct sorts as [_ Hs].
  assert (Hs0 : sortChildIds srt [p] [] = []).
  { apply Permutation_nil. apply Permutation_sym, Hs. }
  simpl. rewrite ?single_eqb. simpl.
  unfold getFullPartners, fullPartnerIds. simpl. unfold collectChildIds. simpl.
  fold p. rewrite Hs0. reflexivity.
Qed.

Lemma single_clusters : rootClusters srt (S fuel) [p] [p] = Some [[p]].
Proof.
  destruct sorts as [Hc _].
  assert (Hc1 : sortCluster srt [p] = [p]).
  { apply Permutation_length_1_inv. apply Permutation_sym, Hc. }
  unfold rootClusters. simpl. rewrite ?single_eqb. simpl.
  unfold gatherCluster. simpl. unfold IdSet.has, IdSet.add, IdSet.has. simpl.
  rewrite ?single_eqb. simpl. fold p. rewrite Hc1. reflexivity.
Qed.

Lemma single_forest : buildForest tv srt (S fuel) [p] [(i, 0%Z)] = Some [node].
Proof.
  unfold buildForest.
  assert (Hf : filter (fun q => match JsMap.get [(i, 0%Z)] (Person.id q) with
                                | Some g0 => (g0 =? 0)%Z
                                | None => false
                                end) [p] = [p]).
  { simpl. rewrite single_eqb. reflexivity. }
  rewrite Hf, single_clusters. change (concat [[p]]) with [p].
  rewrite (buildRoots_cons tv srt [p] (S fuel) p [] [] []).
  change (IdSet.has [] (Person.id p)) with false. cbv iota.
  change (Person.id p) with i. rewrite single_tree.
  change (buildRoots tv srt [p] (S fuel) [] ([i], [] ++ [node])) with (Some ([i], [node])).
  cbv iota beta.
  rewrite (buildRoots_cons tv srt [p] (S fuel) p [] [i] [node]).
  replace (IdSet.has [i] (Person.id p)) with true
    by (unfold IdSet.has; simpl; now rewrite single_eqb).
  reflexivity.
Qed.
Let pos0 : Pos.t :=
  Pos.mk (0 + (Node.totalWidth node - Node.coupleWidth node) / 2) 0.

Let layout0 : RootLayout.t :=
  RootLayout.mk node [(i, pos0)] (Node.totalWidth node) i false 0 [].

Lemma single_layout : makeLayout tv [p] node = layout0.
Proof.
  unfold makeLayout, findAnchors. simpl. rewrite single_eqb. reflexivity.
Qed.

Lemma single_placement :
  placeComponents tv [layout0]
  = Some {| rootLayouts := [markPlaced (100 + TreeView.horizontalGap tv * 1.5) layout0];
            placedPersonPositions :=
              [(i, Pos.mk (100 + TreeView.horizontalGap tv * 1.5 + Pos.x pos0)
                          (100 + Pos.y pos0))];
            positions :=
              [(i, Pos.mk (100 + TreeView.horizontalGap tv * 1.5 + Pos.x pos0)
                          (100 + Pos.y pos0))];
            safetyCounter := 1 |}.
Proof. reflexivity. Qed.

Lemma single_widths :
  0 <= TreeView.nodeWidth tv ->
  Node.coupleWidth node == TreeView.nodeWidth tv
  /\ Node.totalWidth node == TreeView.nodeWidth tv.
Proof.
  intro Hw. unfold node. simpl.
  assert (Hcw : coupleWidthOf tv [] == TreeView.nodeWidth tv).
  { unfold coupleWidthOf. simpl. change (inject_Z 0) with 0. ring. }
  split; [exact Hcw|].
  pose proof (childrenBlockWidth_nil tv) as Hnil.
  destruct (Qmax_cases (coupleWidthOf tv []) (childrenBlockWidth tv [])) as [[H E] | [H E]];
    rewrite E; lra.
Qed.

Lemma single_layout_result :
  calculateLayout tv srt (S fuel) [p]
  = Returned
      {| repaired := [p]; generations := [(i, 0%Z)]; roots := [node];
         placer :=
           {| rootLayouts := [markPlaced (100 + TreeView.horizontalGap tv * 1.5) layout0];
              placedPersonPositions :=
                [(i, Pos.mk (100 + TreeView.horizontalGap tv * 1.5 + Pos.x pos0)
                            (100 + Pos.y pos0))];
              positions :=
                [(i, Pos.mk (100 + TreeView.horizontalGap tv * 1.5 + Pos.x pos0)
                            (100 + Pos.y pos0))];
              safetyCounter := 1 |} |}.
Proof.
  unfold calculateLayout.
  change (repairLinks [p]) with [p].
  rewrite single_generations, single_forest.
  change (map (makeLayout tv [p]) [node]) with [makeLayout tv [p] node].
  rewrite single_layout, single_placement. reflexivity.
Qed.
End SinglePerson.

(** C8, as the code has it.  A single person without relationships gives
    one root, a single node without partners or children whose total
    width is [nodeWidth], and the position
    [(100 + 1.5 * horizontalGap, 100)]: the rightmost-append rule starts
    from the base 100 and adds one and a half gaps, also for the first
    component.  With the constructor's gap of 40 that is [(160, 100)]. *)
Theorem single_person_layout tv srt fuel i g b sl :
  0 <= TreeView.nodeWidth tv -> SortsInPlace srt -> (1 <= fuel)%nat ->
  exists r node pos,
    calculateLayout tv srt fuel [Person.mk i g b (Rel.mk [] [] []) sl] = Returned r
    /\ roots r = [node]
    /\ Node.partners node = [] /\ Node.children node = []
    /\ Node.totalWidth node == TreeView.nodeWidth tv
    /\ positions (placer r) = [(i, pos)]
    /\ Pos.x pos == 100 + TreeView.horizontalGap tv * 1.5
    /\ Pos.y pos == 100.
Proof.
  intros Hw Hs Hf. destruct fuel as [|fuel]; [lia|].
  destruct (single_widths tv i g b sl Hw) as [Hcw Htw].
  eexists. eexists. eexists.
  split; [apply (single_layout_result tv srt fuel i g b sl Hs)|].
  simpl. split; [reflexivity|]. split; [reflexivity|]. split; [reflexivity|].
  split; [exact Htw|]. split; [reflexivity|].
  simpl in Hcw, Htw. simpl. qnorm. split; lra.
Qed.

(** * The data store's operations *)

Lemma Kind_eqb_eq k k' : Kind_eqb k k' = true <-> k = k'.
Proof. destruct k, k'; simpl; split; congruence. Qed.

Lemma Kind_eqb_refl k : Kind_eqb k k = true.
Proof. now destruct k. Qed.

(** Two stores with the same distinct ids and the same lookups are the
    same list. *)
Lemma store_ext s : forall s',
  NoDup (map Person.id s) -> map Person.id s' = map Person.id s ->
  (forall k, personMap_get s k = personMap_get s' k) -> s = s'.
Proof.
  induction s as [|p rest IH]; intros [|p' rest'] Hnd Hids Hget; simpl in Hids;
    try discriminate; [reflexivity|].
  injection Hids as Hid Hrest.
  assert (Hnd' : NoDup (map Person.id (p' :: rest'))) by (simpl; rewrite Hid, Hrest; exact Hnd).
  pose proof (personMap_get_nth (p :: rest) 0 p Hnd eq_refl) as H1.
  pose proof (personMap_get_nth (p' :: rest') 0 p' Hnd' eq_refl) as H2.
  rewrite Hid, <- Hget, H1 in H2. injection H2 as <-.
  f_equal. inversion Hnd as [|? ? Hp Hr]; subst. apply IH; [exact Hr | exact Hrest |].
  intro k. specialize (Hget k). simpl in Hget.
  destruct (personMap_get rest k) as [q|] eqn:E1, (personMap_get rest' k) as [q'|] eqn:E2;
    try reflexivity.
  - exact Hget.
  - exfalso. apply personMap_get_None in E2. apply E2. rewrite Hrest.
    apply personMap_get_Some in E1. destruct E1 as [Hin <-]. now apply in_map.
  - exfalso. apply personMap_get_None in E1. apply E1. rewrite <- Hrest.
    apply personMap_get_Some in E2. destruct E2 as [Hin <-]. now apply in_map.
Qed.

(** Pushing [who] onto the [k] list unless it is there. *)
Definition pushUnique (k : Kind) (who : PersonId) (o : Person.t) : Person.t :=
  if includes (listOf k o) who then o else withList k (listOf k o ++ [who]) o.

Definition without (k : Kind) (who : PersonId) (o : Person.t) : Person.t :=
  withList k (filter (fun id => negb (String.eqb id who)) (listOf k o)) o.

Lemma pushUnique_id k who o : Person.id (pushUnique k who o) = Person.id o.
Proof. unfold pushUnique. now destruct (includes _ who). Qed.

Lemma ensureLink_get k who target s x :
  personMap_get (fst (ensureLink k who target s)) x
  = if String.eqb target x then option_map (pushUnique k who) (personMap_get s x)
    else personMap_get s x.
Proof.
  unfold ensureLink. destruct (personMap_get s target) as [other|] eqn:Et.
  - destruct (includes (listOf k other) who) eqn:Ei; simpl.
    + destruct (String.eqb target x) eqn:E; [|reflexivity].
      apply String.eqb_eq in E. subst x. rewrite Et. simpl. unfold pushUnique. now rewrite Ei.
    + rewrite personMap_get_update by reflexivity.
      destruct (String.eqb target x) eqn:E; [|reflexivity].
      apply String.eqb_eq in E. subst x. rewrite Et. simpl. unfold pushUnique. now rewrite Ei.
  - simpl. destruct (String.eqb target x) eqn:E; [|reflexivity].
    apply String.eqb_eq in E. subst x. now rewrite Et.
Qed.

Lemma dropLink_get k who target s x :
  personMap_get (dropLink k who target s) x
  = if String.eqb target x then option_map (without k who) (personMap_get s x)
    else personMap_get s x.
Proof.
  unfold dropLink. rewrite personMap_get_update by reflexivity.
  destruct (String.eqb target x) eqn:E; [|reflexivity].
  apply String.eqb_eq in E. now subst x.
Qed.

Lemma dropLink_ids k who target s :
  map Person.id (dropLink k who target s) = map Person.id s.
Proof. apply personMap_update_ids. reflexivity. Qed.

Lemma listOf_pushUnique k who k' o b :
  In b (listOf k' (pushUnique k who o)) <-> In b (listOf k' o) \/ (k' = k /\ b = who).
Proof.
  unfold pushUnique. destruct (includes (listOf k o) who) eqn:Ei.
  - apply includes_In in Ei. split; [auto|]. intros [H | [-> ->]]; assumption.
  - rewrite listOf_withList. destruct (Kind_eqb k k') eqn:Ek.
    + apply Kind_eqb_eq in Ek. subst k'. rewrite in_app_iff. simpl. intuition.
    + split; [auto|]. intros [H | [-> _]]; [exact H|]. now rewrite Kind_eqb_refl in Ek.
Qed.

Lemma listOf_without k who k' o b :
  In b (listOf k' (without k who o)) <-> In b (listOf k' o) /\ ~ (k' = k /\ b = who).
Proof.
  unfold without. rewrite listOf_withList. destruct (Kind_eqb k k') eqn:Ek.
  - apply Kind_eqb_eq in Ek. subst k'. rewrite filter_In, negb_true_iff, String.eqb_neq.
    intuition.
  - split; [|tauto]. intro H. split; [exact H|]. intros [-> _]. now rewrite Kind_eqb_refl in Ek.
Qed.

(** The links after one guarded push. *)
Lemma ensureLink_link k who target s k' a b :
  link (fst (ensureLink k who target s)) k' a b
  <-> link s k' a b \/ (k' = k /\ a = target /\ b = who /\ known s target).
Proof.
  unfold link. rewrite ensureLink_get. destruct (String.eqb target a) eqn:E.
  - apply String.eqb_eq in E. subst a. split.
    + intros [pa [Hpa Hb]]. destruct (personMap_get s target) as [o|] eqn:Et; [|discriminate].
      injection Hpa as <-. apply listOf_pushUnique in Hb. destruct Hb as [Hb | [-> ->]].
      * left. eauto.
      * right. repeat split; auto. apply known_get. eauto.
    + intros [[pa [Hpa Hb]] | [-> [_ [-> Hk]]]].
      * rewrite Hpa. simpl. eexists. split; [reflexivity|]. apply listOf_pushUnique. auto.
      * apply known_get in Hk. destruct Hk as [o Ho]. rewrite Ho. simpl.
        eexists. split; [reflexivity|]. apply listOf_pushUnique. auto.
  - apply String.eqb_neq in E. split; [auto|]. intros [H | [_ [-> _]]]; [exact H | congruence].
Qed.

(** The links after one filter. *)
Lemma dropLink_link k who target s k' a b :
  link (dropLink k who target s) k' a b
  <-> link s k' a b /\ ~ (k' = k /\ a = target /\ b = who).
Proof.
  unfold link. rewrite dropLink_get. destruct (String.eqb target a) eqn:E.
  - apply String.eqb_eq in E. subst a. split.
    + intros [pa [Hpa Hb]]. destruct (personMap_get s target) as [o|] eqn:Et; [|discriminate].
      injection Hpa as <-. apply listOf_without in Hb. destruct Hb as [Hb Hn].
      split; [eauto | tauto].
    + intros [[pa [Hpa Hb]] Hn]. rewrite Hpa. simpl. eexists. split; [reflexivity|].
      apply listOf_without. tauto.
  - apply String.eqb_neq in E. split; [|tauto]. intro H. split; [exact H|].
    intros [_ [-> _]]. congruence.
Qed.

Lemma ensureLink_known k who target s b :
  known (fst (ensureLink k who target s)) b <-> known s b.
Proof. unfold known. now rewrite ensureLink_ids. Qed.

Lemma dropLink_known k who target s b : known (dropLink k who target s) b <-> known s b.
Proof. unfold known. now rewrite dropLink_ids. Qed.

Lemma ensureLink_Deduplicated k who target s :
  Deduplicated s -> Deduplicated (fst (ensureLink k who target s)).
Proof.
  intros Hd k' a pa. rewrite ensureLink_get. destruct (String.eqb target a); [|apply Hd].
  destruct (personMap_get s a) as [o|] eqn:Ea; [|discriminate]. simpl. intros [= <-].
  unfold pushUnique. destruct (includes (listOf k o) who) eqn:Ei; [eapply Hd; eassumption|].
  rewrite listOf_withList. destruct (Kind_eqb k k'); [|eapply Hd; eassumption].
  apply includes_not_In in Ei.
  apply NoDup_app; [eapply Hd; eassumption | constructor; [intros [] | constructor] |].
  intros x Hx [<- | []]. exact (Ei Hx).
Qed.

Lemma dropLink_Deduplicated k who target s :
  Deduplicated s -> Deduplicated (dropLink k who target s).
Proof.
  intros Hd k' a pa. rewrite dropLink_get. destruct (String.eqb target a); [|apply Hd].
  destruct (personMap_get s a) as [o|] eqn:Ea; [|discriminate]. simpl. intros [= <-].
  unfold without. rewrite listOf_withList.
  destruct (Kind_eqb k k'); [|eapply Hd; eassumption].
  apply NoDup_filter. eapply Hd; eassumption.
Qed.

(** The pair of pushes every two-person case of [addRelationship] makes. *)
Lemma ensureBoth_link k1 who1 t1 k2 who2 t2 s k a b :
  link (fst (ensureLink k2 who2 t2 (fst (ensureLink k1 who1 t1 s)))) k a b
  <-> link s k a b
      \/ (k = k1 /\ a = t1 /\ b = who1 /\ known s t1)
      \/ (k = k2 /\ a = t2 /\ b = who2 /\ known s t2).
Proof. rewrite ensureLink_link, ensureLink_link, ensureLink_known. tauto. Qed.

Lemma dropBoth_link k1 who1 t1 k2 who2 t2 s k a b :
  link (dropLink k2 who2 t2 (dropLink k1 who1 t1 s)) k a b
  <-> link s k a b
      /\ ~ (k = k1 /\ a = t1 /\ b = who1)
      /\ ~ (k = k2 /\ a = t2 /\ b = who2).
Proof. rewrite dropLink_link, dropLink_link. tauto. Qed.

Lemma shareParents_ids relatedId parents : forall s,
  map Person.id (shareParents relatedId parents s) = map Person.id s.
Proof.
  unfold shareParents. induction parents as [|p ps IH]; intro s; simpl; [reflexivity|].
  now rewrite IH, !ensureLink_ids.
Qed.

Lemma shareParents_link relatedId parents k a b : forall s,
  link (shareParents relatedId parents s) k a b
  <-> link s k a b
      \/ (k = Parents /\ a = relatedId /\ In b parents /\ known s relatedId)
      \/ (k = Children /\ b = relatedId /\ In a parents /\ known s a).
Proof.
  unfold shareParents. induction parents as [|p ps IH]; intro s; simpl.
  - tauto.
  - rewrite IH, ensureBoth_link. unfold known. rewrite !ensureLink_ids. fold (known s relatedId).
    fold (known s a). fold (known s p).
    split.
    + intros [[H | [[-> [-> [-> Hk]]] | [-> [-> [-> Hk]]]]] | [[-> [-> [Hin Hk]]] | [-> [-> [Hin Hk]]]]];
        auto 10.
    + intros [H | [[-> [-> [[<- | Hin] Hk]]] | [-> [-> [[<- | Hin] Hk]]]]]; auto 10.
Qed.

Lemma shareParents_Deduplicated relatedId parents : forall s,
  Deduplicated s -> Deduplicated (shareParents relatedId parents s).
Proof.
  unfold shareParents. induction parents as [|p ps IH]; intros s Hd; simpl; [exact Hd|].
  apply IH. now repeat apply ensureLink_Deduplicated.
Qed.

(** Which links [addRelationship] adds, by type. *)
Definition addedBy (store : list Person.t) (personId relatedId : PersonId) (type : string)
           (k : Kind) (a b : PersonId) : Prop :=
  (type = "parent"%string
   /\ ((k = Parents /\ a = personId /\ b = relatedId)
       \/ (k = Children /\ a = relatedId /\ b = personId)))
  \/ (type = "child"%string
      /\ ((k = Children /\ a = personId /\ b = relatedId)
          \/ (k = Parents /\ a = relatedId /\ b = personId)))
  \/ (type = "partner"%string
      /\ ((k = Partners /\ a = personId /\ b = relatedId)
          \/ (k = Partners /\ a = relatedId /\ b = personId)))
  \/ (type = "sibling"%string
      /\ ((k = Parents /\ a = relatedId /\ link store Parents personId b)
          \/ (k = Children /\ b = relatedId /\ link store Parents personId a
              /\ known store a))).

Lemma addRelationship_ids store personId relatedId type :
  map Person.id (fst (addRelationship store personId relatedId type)) = map Person.id store.
Proof.
  unfold addRelationship.
  destruct (personMap_get store personId) as [person|]; [|reflexivity].
  destruct (personMap_get store relatedId) as [related|]; [|reflexivity]. simpl.
  destruct (String.eqb type "parent"); [now rewrite !ensureLink_ids|].
  destruct (String.eqb type "child"); [now rewrite !ensureLink_ids|].
  destruct (String.eqb type "partner"); [now rewrite !ensureLink_ids|].
  destruct (String.eqb type "sibling"); [apply shareParents_ids | reflexivity].
Qed.

Lemma addRelationship_link store personId relatedId type k a b :
  known store personId -> known store relatedId ->
  link (fst (addRelationship store personId relatedId type)) k a b
  <-> link store k a b \/ addedBy store personId relatedId type k a b.
Proof.
  intros Hp Hr. unfold addRelationship, addedBy.
  destruct (proj1 (known_get _ _) Hp) as [person Ep].
  destruct (proj1 (known_get _ _) Hr) as [related Er]. rewrite Ep, Er. simpl.
  destruct (String.eqb type "parent") eqn:E1.
  { apply String.eqb_eq in E1. subst type. rewrite ensureBoth_link.
    split; [intros [H | [H | H]]; [auto | right; left; tauto | right; left; tauto]|].
    intros [H | [[_ [H | H]] | [[H _] | [[H _] | [H _]]]]]; try discriminate; tauto. }
  destruct (String.eqb type "child") eqn:E2.
  { apply String.eqb_eq in E2. subst type. rewrite ensureBoth_link.
    split; [intros [H | [H | H]]; [auto | right; right; left; tauto | right; right; left; tauto]|].
    intros [H | [[H _] | [[_ [H | H]] | [[H _] | [H _]]]]]; try discriminate; tauto. }
  destruct (String.eqb type "partner") eqn:E3.
  { apply String.eqb_eq in E3. subst type. rewrite ensureBoth_link.
    split; [intros [H | [H | H]]; [auto | right; right; right; left; tauto
                                   | right; right; right; left; tauto]|].
    intros [H | [[H _] | [[H _] | [[_ [H | H]] | [H _]]]]]; try discriminate; tauto. }
  destruct (String.eqb type "sibling") eqn:E4.
  { apply String.eqb_eq in E4. subst type.
    change (Rel.parents (Person.relationships person)) with (listOf Parents person).
    rewrite shareParents_link.
    assert (Hl : forall x, In x (listOf Parents person) <-> link store Parents personId x).
    { intro x. unfold link. split; [eauto|]. intros [pa [Hpa Hx]]. rewrite Ep in Hpa.
      now injection Hpa as <-. }
    split.
    - intros [H | [[-> [-> [Hin _]]] | [-> [-> [Hin Hk]]]]]; [auto | |].
      + right. right. right. right. split; [reflexivity|]. left. rewrite <- Hl. auto.
      + right. right. right. right. split; [reflexivity|]. right. rewrite <- Hl. auto.
    - intros [H | [[H _] | [[H _] | [[H _] | [_ [[-> [-> Hin]] | [-> [-> [Hin Hk]]]]]]]]];
        try discriminate; [auto | |].
      + right. left. rewrite Hl. auto.
      + right. right. rewrite Hl. auto. }
  apply String.eqb_neq in E1, E2, E3, E4. split; [auto|].
  intros [H | [[H _] | [[H _] | [[H _] | [H _]]]]]; [exact H | congruence..].
Qed.

Lemma addRelationship_Deduplicated store personId relatedId type :
  Deduplicated store -> Deduplicated (fst (addRelationship store personId relatedId type)).
Proof.
  intro Hd. unfold addRelationship.
  destruct (personMap_get store personId) as [person|]; [|exact Hd].
  destruct (personMap_get store relatedId) as [related|]; [|exact Hd]. simpl.
  destruct (String.eqb type "parent"); [now repeat apply ensureLink_Deduplicated|].
  destruct (String.eqb type "child"); [now repeat apply ensureLink_Deduplicated|].
  destruct (String.eqb type "partner"); [now repeat apply ensureLink_Deduplicated|].
  destruct (String.eqb type "sibling"); [now apply shareParents_Deduplicated | exact Hd].
Qed.

Lemma addRelationship_unknown store personId relatedId type :
  ~ (known store personId /\ known store relatedId) ->
  addRelationship store personId relatedId type = (store, false).
Proof.
  intro H. unfold addRelationship.
  destruct (personMap_get store personId) as [person|] eqn:Ep; [|reflexivity].
  destruct (personMap_get store relatedId) as [related|] eqn:Er; [|reflexivity].
  exfalso. apply H. split; apply known_get; eauto.
Qed.

Lemma addRelationship_known_true store personId relatedId type :
  known store personId -> known store relatedId ->
  snd (addRelationship store personId relatedId type) = true.
Proof.
  intros Hp Hr. unfold addRelationship.
  destruct (proj1 (known_get _ _) Hp) as [person Ep].
  destruct (proj1 (known_get _ _) Hr) as [related Er]. now rewrite Ep, Er.
Qed.

Lemma known_dec_both store a b :
  (known store a /\ known store b) \/ ~ (known store a /\ known store b).
Proof.
  unfold known.
  destruct (in_dec string_dec a (map Person.id store)),
           (in_dec string_dec b (map Person.id store)); tauto.
Qed.

Lemma addRelationship_Mirrored store personId relatedId type :
  Mirrored store -> Mirrored (fst (addRelationship store personId relatedId type)).
Proof.
  intro Hm.
  destruct (known_dec_both store personId relatedId) as [[Hp Hr] | Hn].
  2:{ now rewrite addRelationship_unknown. }
  intros k a b Hl Hk. unfold known in Hk. rewrite addRelationship_ids in Hk.
  apply (addRelationship_link _ _ _ _ _ _ _ Hp Hr) in Hl.
  apply (addRelationship_link _ _ _ _ _ _ _ Hp Hr).
  destruct Hl as [Hl | Hl]; [left; now apply Hm|]. right. unfold addedBy in *.
  destruct Hl as [[-> [[-> [-> ->]] | [-> [-> ->]]]]
                 | [[-> [[-> [-> ->]] | [-> [-> ->]]]]
                   | [[-> [[-> [-> ->]] | [-> [-> ->]]]]
                     | [-> [[-> [-> Hl]] | [-> [-> [Hl Hka]]]]]]]]; simpl.
  - left. auto.
  - left. auto.
  - right. left. auto.
  - right. left. auto.
  - right. right. left. auto.
  - right. right. left. auto.
  - right. right. right. split; [reflexivity|]. right. auto.
  - right. right. right. split; [reflexivity|]. left. auto.
Qed.

Lemma shareParents_unchanged relatedId parents s :
  (forall p, In p parents ->
             link s Parents relatedId p /\ (known s p -> link s Children p relatedId)) ->
  shareParents relatedId parents s = s.
Proof.
  unfold shareParents. induction parents as [|p ps IH]; intro H; simpl; [reflexivity|].
  destruct (H p (or_introl eq_refl)) as [H1 H2].
  rewrite (ensureLink_unchanged Parents p relatedId s) by (intros _; exact H1). simpl.
  rewrite (ensureLink_unchanged Children relatedId p s) by exact H2. simpl.
  apply IH. intros q Hq. apply H. now right.
Qed.

(** Case analysis on the membership tests of two guarded pushes. *)
Ltac person_cases ps cs pts w w' :=
  destruct (includes ps w) eqn:?, (includes ps w') eqn:?,
           (includes cs w) eqn:?, (includes cs w') eqn:?,
           (includes pts w) eqn:?, (includes pts w') eqn:?;
  cbn -[includes];
  repeat match goal with
         | H : includes _ _ = _ |- _ => rewrite H; cbn -[includes]
         end;
  reflexivity.

Lemma pushUnique_comm k k' w w' o :
  k <> k' -> pushUnique k w (pushUnique k' w' o) = pushUnique k' w' (pushUnique k w o).
Proof.
  intro Hne. destruct o as [i g bd [ps cs pts] sl].
  destruct k, k'; try congruence; unfold pushUnique, listOf, withList;
    person_cases ps cs pts w w'.
Qed.

Lemma pushUnique_twice k w o : pushUnique k w (pushUnique k w o) = pushUnique k w o.
Proof.
  assert (Hi : includes (listOf k o ++ [w]) w = true).
  { apply includes_In. apply in_or_app. right. now left. }
  unfold pushUnique. destruct (includes (listOf k o) w) eqn:E; [now rewrite E|].
  now rewrite listOf_withList, Kind_eqb_refl, Hi.
Qed.

Lemma filter_absent (w : PersonId) (l : list PersonId) :
  ~ In w l -> filter (fun id => negb (String.eqb id w)) l = l.
Proof.
  induction l as [|x l IH]; simpl; intro H; [reflexivity|].
  destruct (String.eqb x w) eqn:E.
  - apply String.eqb_eq in E. exfalso. auto.
  - simpl. f_equal. apply IH. tauto.
Qed.

Lemma without_absent k w o : ~ In w (listOf k o) -> without k w o = o.
Proof. intro H. unfold without. rewrite filter_absent by exact H. apply withList_same. Qed.

Lemma withList_twice k l l' o : withList k l (withList k l' o) = withList k l o.
Proof. destruct o as [i g bd [ps cs pts] sl], k; reflexivity. Qed.

Lemma without_pushUnique k w o : ~ In w (listOf k o) -> without k w (pushUnique k w o) = o.
Proof.
  intro H. unfold pushUnique.
  assert (E : includes (listOf k o) w = false) by now apply includes_not_In.
  rewrite E. unfold without. rewrite listOf_withList, Kind_eqb_refl, withList_twice.
  rewrite filter_app, filter_absent by exact H. simpl. rewrite String.eqb_refl. simpl.
  rewrite app_nil_r. apply withList_same.
Qed.

Lemma without_pushUnique_comm k k' w w' o :
  k <> k' -> without k w (pushUnique k' w' o) = pushUnique k' w' (without k w o).
Proof.
  intro Hne. destruct o as [i g bd [ps cs pts] sl].
  destruct k, k'; try congruence; unfold pushUnique, without, listOf, withList;
    person_cases ps cs pts w w'.
Qed.

(** The kind of list a two-person relationship type names on [personId]. *)
Definition kindOfType (type : string) : option Kind :=
  if String.eqb type "parent" then Some Parents
  else if String.eqb type "child" then Some Children
  else if String.eqb type "partner" then Some Partners
  else None.

Lemma kindOfType_cases type k :
  kindOfType type = Some k ->
  (type = "parent"%string /\ k = Parents)
  \/ (type = "child"%string /\ k = Children)
  \/ (type = "partner"%string /\ k = Partners).
Proof.
  unfold kindOfType.
  destruct (String.eqb type "parent") eqn:E1; [apply String.eqb_eq in E1; intros [= <-]; auto|].
  destruct (String.eqb type "child") eqn:E2; [apply String.eqb_eq in E2; intros [= <-]; auto|].
  destruct (String.eqb type "partner") eqn:E3; [apply String.eqb_eq in E3; intros [= <-]; auto|].
  discriminate.
Qed.

Lemma addRelationship_kind store personId relatedId type k person related :
  kindOfType type = Some k ->
  personMap_get store personId = Some person ->
  personMap_get store relatedId = Some related ->
  addRelationship store personId relatedId type
  = (fst (ensureLink (mirror k) personId relatedId
            (fst (ensureLink k relatedId personId store))), true).
Proof.
  unfold kindOfType, addRelationship. intros Hk -> ->.
  destruct (String.eqb type "parent"); [injection Hk as <-; reflexivity|].
  destruct (String.eqb type "child"); [injection Hk as <-; reflexivity|].
  destruct (String.eqb type "partner"); [injection Hk as <-; reflexivity | discriminate].
Qed.

Lemma removeRelationship_kind store personId relatedId type k person related :
  kindOfType type = Some k ->
  personMap_get store personId = Some person ->
  personMap_get store relatedId = Some related ->
  removeRelationship store personId relatedId type
  = (dropLink (mirror k) personId relatedId (dropLink k relatedId personId store), true).
Proof.
  unfold kindOfType, removeRelationship. intros Hk -> ->.
  destruct (String.eqb type "parent"); [injection Hk as <-; reflexivity|].
  destruct (String.eqb type "child"); [injection Hk as <-; reflexivity|].
  destruct (String.eqb type "partner"); [injection Hk as <-; reflexivity | discriminate].
Qed.

(** Removing a relationship that was just added to a store that had
    neither direction of it gives the store back. *)
Lemma remove_after_add store a b k :
  NoDup (map Person.id store) ->
  known store a -> known store b ->
  ~ link store k a b -> ~ link store (mirror k) b a ->
  dropLink (mirror k) a b
    (dropLink k b a
       (fst (ensureLink (mirror k) a b (fst (ensureLink k b a store)))))
  = store.
Proof.
  intros Hnd Ha Hb Hn1 Hn2. symmetry. apply store_ext; [exact Hnd | |].
  { now rewrite !dropLink_ids, !ensureLink_ids. }
  intro x. rewrite !dropLink_get, !ensureLink_get.
  destruct (proj1 (known_get _ _) Ha) as [pa Epa].
  destruct (proj1 (known_get _ _) Hb) as [pb Epb].
  assert (Ia : ~ In b (listOf k pa)) by (intro H; apply Hn1; exists pa; auto).
  assert (Ib : ~ In a (listOf (mirror k) pb)) by (intro H; apply Hn2; exists pb; auto).
  destruct (String.eqb a x) eqn:Eax, (String.eqb b x) eqn:Ebx;
    try apply String.eqb_eq in Eax; try apply String.eqb_eq in Ebx; subst.
  - (* one person on both ends *)
    rewrite Epa in Epb. injection Epb as <-. rewrite Epa. simpl. f_equal.
    destruct (Kind_eqb k (mirror k)) eqn:Ek.
    + apply Kind_eqb_eq in Ek. rewrite <- Ek in *.
      rewrite pushUnique_twice, without_pushUnique by exact Ia.
      symmetry. now apply without_absent.
    + assert (Hne : k <> mirror k) by (intro E; rewrite <- E, Kind_eqb_refl in Ek; discriminate).
      rewrite (without_pushUnique_comm k (mirror k)) by exact Hne.
      rewrite (without_pushUnique k) by exact Ia.
      now rewrite without_pushUnique by exact Ib.
  - rewrite Epa. simpl. now rewrite without_pushUnique.
  - rewrite Epb. simpl. now rewrite without_pushUnique.
  - reflexivity.
Qed.

Lemma removeRelationship_ids store personId relatedId type :
  map Person.id (fst (removeRelationship store personId relatedId type))
  = map Person.id store.
Proof.
  unfold removeRelationship.
  destruct (personMap_get store personId); [|reflexivity].
  destruct (personMap_get store relatedId); [|reflexivity]. simpl.
  destruct (String.eqb type "parent"); [now rewrite !dropLink_ids|].
  destruct (String.eqb type "child"); [now rewrite !dropLink_ids|].
  destruct (String.eqb type "partner"); [now rewrite !dropLink_ids | reflexivity].
Qed.

Lemma mirror_eq k k' : mirror k = k' <-> k = mirror k'.
Proof. destruct k, k'; simpl; split; congruence. Qed.

(** ** Deleting a person *)

Lemma dropLinks_ids k who targets : forall s,
  map Person.id (dropLinks k who targets s) = map Person.id s.
Proof.
  unfold dropLinks. induction targets as [|t ts IH]; intro s; simpl; [reflexivity|].
  now rewrite IH, dropLink_ids.
Qed.

Lemma dropLinks_link k who targets k' a b : forall s,
  link (dropLinks k who targets s) k' a b
  <-> link s k' a b /\ ~ (k' = k /\ b = who /\ In a targets).
Proof.
  unfold dropLinks. induction targets as [|t ts IH]; intro s; simpl.
  - tauto.
  - rewrite IH, dropLink_link. split.
    + intros [[Hl H1] H2]. split; [exact Hl|]. intros [-> [-> [<- | Hin]]]; [apply H1 | apply H2]; auto.
    + intros [Hl Hn]. repeat split; auto.
      * intros [-> [-> ->]]. apply Hn. auto.
      * intros [-> [-> Hin]]. apply Hn. auto.
Qed.

Lemma dropLinks_Deduplicated k who targets : forall s,
  Deduplicated s -> Deduplicated (dropLinks k who targets s).
Proof.
  unfold dropLinks. induction targets as [|t ts IH]; intros s Hd; simpl; [exact Hd|].
  apply IH. now apply dropLink_Deduplicated.
Qed.

Lemma currentList_link k id s a : In a (currentList k id s) <-> link s k id a.
Proof.
  unfold currentList, link. destruct (personMap_get s id) as [p|].
  - split; [eauto|]. now intros [pa [[= <-] H]].
  - split; [intros [] | now intros [pa [H _]]].
Qed.

Lemma removeEntry_get id s x :
  personMap_get (removeEntry id s) x
  = if String.eqb id x then None else personMap_get s x.
Proof.
  unfold removeEntry. induction s as [|p rest IH]; simpl.
  - now destruct (String.eqb id x).
  - destruct (String.eqb (Person.id p) id) eqn:Ep; simpl.
    + apply String.eqb_eq in Ep. rewrite IH. rewrite Ep.
      destruct (String.eqb id x); [reflexivity|]. now destruct (personMap_get rest x).
    + rewrite IH. destruct (String.eqb id x) eqn:Ex.
      * apply String.eqb_eq in Ex. subst x. now rewrite Ep.
      * reflexivity.
Qed.

Lemma removeEntry_known id s x : known (removeEntry id s) x <-> known s x /\ x <> id.
Proof.
  rewrite !known_get, removeEntry_get. destruct (String.eqb id x) eqn:E.
  - apply String.eqb_eq in E. split; [intros [p H]; discriminate | intros [_ H]; congruence].
  - apply String.eqb_neq in E. split; [intro H; split; [exact H | congruence] | tauto].
Qed.

Lemma removeEntry_link id s k a b : link (removeEntry id s) k a b <-> link s k a b /\ a <> id.
Proof.
  unfold link. rewrite removeEntry_get. destruct (String.eqb id a) eqn:E.
  - apply String.eqb_eq in E. split; [intros [p [H _]]; discriminate | intros [_ H]; congruence].
  - apply String.eqb_neq in E. split; [intro H; split; [exact H | congruence] | tauto].
Qed.

Lemma deletePerson_unfold store id person :
  personMap_get store id = Some person ->
  deletePerson store id
  = (removeEntry id
       (dropLinks Partners id
          (currentList Partners id
             (dropLinks Parents id
                (currentList Children id
                   (dropLinks Children id (listOf Parents person) store))
                (dropLinks Children id (listOf Parents person) store)))
          (dropLinks Parents id
             (currentList Children id
                (dropLinks Children id (listOf Parents person) store))
             (dropLinks Children id (listOf Parents person) store))), true).
Proof. intro H. unfold deletePerson. now rewrite H. Qed.

(** The links that remain after [deletePerson]. *)
Lemma deletePerson_link store id k a b :
  known store id ->
  link (fst (deletePerson store id)) k a b
  <-> link store k a b /\ a <> id
      /\ ~ (b = id /\ link store (mirror k) id a).
Proof.
  intro Hk. apply known_get in Hk. destruct Hk as [person Ep].
  rewrite (deletePerson_unfold _ _ _ Ep). cbn [fst].
  assert (Hp : forall x, In x (listOf Parents person) <-> link store Parents id x).
  { intro x. unfold link. rewrite Ep. split; [eauto|]. now intros [pa [[= <-] H]]. }
  set (s1 := dropLinks Children id (listOf Parents person) store).
  set (s2 := dropLinks Parents id (currentList Children id s1) s1).
  assert (L1 : forall k a b, link s1 k a b
                             <-> link store k a b
                                 /\ ~ (k = Children /\ b = id /\ link store Parents id a)).
  { intros k0 a0 b0. unfold s1. rewrite dropLinks_link, Hp. tauto. }
  assert (L2 : forall k a b, link s2 k a b
                             <-> link s1 k a b
                                 /\ ~ (k = Parents /\ b = id /\ link s1 Children id a)).
  { intros k0 a0 b0. unfold s2. rewrite dropLinks_link, currentList_link. tauto. }
  rewrite removeEntry_link, dropLinks_link, currentList_link.
  split.
  - intros [[Hl2 H3] Hne]. pose proof (proj1 (L2 _ _ _) Hl2) as [Hl1 H2].
    pose proof (proj1 (L1 _ _ _) Hl1) as [Hl H1].
    split; [exact Hl|]. split; [exact Hne|].
    intros [-> Hm]. destruct k; simpl in Hm.
    + apply H2. split; [reflexivity|]. split; [reflexivity|]. apply L1.
      split; [exact Hm|]. intros [_ [E _]]. congruence.
    + apply H1. auto.
    + apply H3. split; [reflexivity|]. split; [reflexivity|]. apply L2.
      split; [|intros [E _]; discriminate]. apply L1.
      split; [exact Hm | intros [E _]; discriminate].
  - intros [Hl [Hne Hn]]. split; [|exact Hne]. split.
    + apply L2. split.
      * apply L1. split; [exact Hl|]. intros [-> [-> H]]. apply Hn. auto.
      * intros [-> [-> H]]. apply L1 in H. apply Hn. split; [reflexivity | apply H].
    + intros [-> [-> H]]. apply L2 in H. destruct H as [H _]. apply L1 in H.
      apply Hn. split; [reflexivity | apply H].
Qed.

Lemma deletePerson_known store id x :
  known store id ->
  known (fst (deletePerson store id)) x <-> known store x /\ x <> id.
Proof.
  intro Hk. apply known_get in Hk. destruct Hk as [person Ep].
  rewrite (deletePerson_unfold _ _ _ Ep). cbn [fst]. rewrite removeEntry_known.
  unfold known. now rewrite !dropLinks_ids.
Qed.

Lemma deletePerson_Deduplicated store id :
  Deduplicated store -> Deduplicated (fst (deletePerson store id)).
Proof.
  intro Hd. destruct (personMap_get store id) as [person|] eqn:Ep.
  - rewrite (deletePerson_unfold _ _ _ Ep). cbn [fst]. intros k a pa.
    rewrite removeEntry_get. destruct (String.eqb id a); [discriminate|].
    now repeat apply dropLinks_Deduplicated.
  - unfold deletePerson. now rewrite Ep.
Qed.

Lemma deletePerson_NoDup store id :
  NoDup (map Person.id store) -> NoDup (map Person.id (fst (deletePerson store id))).
Proof.
  intro Hnd. destruct (personMap_get store id) as [person|] eqn:Ep.
  - rewrite (deletePerson_unfold _ _ _ Ep). cbn [fst]. unfold removeEntry.
    apply NoDup_map_filter. now rewrite !dropLinks_ids.
  - unfold deletePerson. now rewrite Ep.
Qed.

(** ** Siblings and partners *)

Lemma lookupAll_In store ids q :
  In q (lookupAll store ids) <-> exists id, In id ids /\ personMap_get store id = Some q.
Proof.
  unfold lookupAll. rewrite in_flat_map. split; intros [id [Hin H]]; exists id; split; auto.
  - destruct (personMap_get store id) as [p|]; [|destruct H]. destruct H as [<- | []]. reflexivity.
  - rewrite H. now left.
Qed.

Lemma siblingIds_spec store personId person :
  NoDup (siblingIds store personId person)
  /\ forall x, In x (siblingIds store personId person)
               <-> x <> personId
                   /\ exists parentId parent,
                       In parentId (listOf Parents person)
                       /\ personMap_get store parentId = Some parent
                       /\ In x (listOf Children parent).
Proof.
  unfold siblingIds.
  set (inner := fun siblings childId =>
                  if String.eqb childId personId then siblings
                  else IdSet.add siblings childId).
  assert (Hin : forall cs acc,
             (NoDup acc -> NoDup (fold_left inner cs acc))
             /\ forall x, In x (fold_left inner cs acc)
                          <-> In x acc \/ (x <> personId /\ In x cs)).
  { induction cs as [|c cs IH]; intro acc; simpl.
    - split; [auto|]. intro x. tauto.
    - destruct (IH (inner acc c)) as [IH1 IH2]. split.
      + intro Hn. apply IH1. unfold inner. destruct (String.eqb c personId); [exact Hn|].
        now apply IdSet_add_NoDup.
      + intro x. rewrite IH2. unfold inner. destruct (String.eqb c personId) eqn:E.
        * apply String.eqb_eq in E. subst c. intuition congruence.
        * apply String.eqb_neq in E. rewrite IdSet_add_In. intuition congruence. }
  assert (Hout : forall ps acc,
             let r := fold_left
                        (fun siblings parentId =>
                           match personMap_get store parentId with
                           | Some parent => fold_left inner (listOf Children parent) siblings
                           | None => siblings
                           end) ps acc in
             (NoDup acc -> NoDup r)
             /\ forall x, In x r
                          <-> In x acc
                              \/ (x <> personId
                                  /\ exists parentId parent,
                                      In parentId ps
                                      /\ personMap_get store parentId = Some parent
                                      /\ In x (listOf Children parent))).
  { induction ps as [|p ps IH]; intro acc; simpl.
    - split; [auto|]. intro x. split; [auto|]. intros [H | [_ [? [? [[] _]]]]]. exact H.
    - destruct (personMap_get store p) as [parent|] eqn:Ep.
      + destruct (IH (fold_left inner (listOf Children parent) acc)) as [IH1 IH2].
        destruct (Hin (listOf Children parent) acc) as [Hi1 Hi2]. split; [auto|].
        intro x. rewrite IH2, Hi2. split.
        * intros [[H | [Hne Hx]] | [Hne [pid [par [Hp [Hg Hx]]]]]]; [auto | |].
          -- right. split; [exact Hne|]. exists p, parent. auto.
          -- right. split; [exact Hne|]. exists pid, par. auto.
        * intros [H | [Hne [pid [par [[<- | Hp] [Hg Hx]]]]]]; [auto | |].
          -- rewrite Ep in Hg. injection Hg as <-. auto.
          -- right. split; [exact Hne|]. exists pid, par. auto.
      + destruct (IH acc) as [IH1 IH2]. split; [auto|]. intro x. rewrite IH2. split.
        * intros [H | [Hne [pid [par [Hp [Hg Hx]]]]]]; [auto|].
          right. split; [exact Hne|]. exists pid, par. auto.
        * intros [H | [Hne [pid [par [[<- | Hp] [Hg Hx]]]]]]; [auto | congruence |].
          right. split; [exact Hne|]. exists pid, par. auto. }
  destruct (Hout (listOf Parents person) []) as [H1 H2]. split; [apply H1; constructor|].
  intro x. rewrite H2. simpl. tauto.
Qed.

(** Who [getSiblings] returns. *)
Lemma getSiblings_In store personId q :
  In q (getSiblings store personId)
  <-> personMap_get store (Person.id q) = Some q
      /\ Person.id q <> personId
      /\ exists parentId, link store Parents personId parentId
                          /\ link store Children parentId (Person.id q).
Proof.
  unfold getSiblings. destruct (personMap_get store personId) as [person|] eqn:Ep.
  2:{ split; [intros [] | intros [_ [_ [pid [[pa [H _]] _]]]]; congruence]. }
  assert (Hmain : In q (lookupAll store (siblingIds store personId person))
                  <-> personMap_get store (Person.id q) = Some q
                      /\ Person.id q <> personId
                      /\ exists parentId, link store Parents personId parentId
                                          /\ link store Children parentId (Person.id q)).
  { rewrite lookupAll_In. destruct (siblingIds_spec store personId person) as [_ Hs]. split.
    - intros [id [Hid Hq]]. destruct (personMap_get_Some _ _ _ Hq) as [_ <-].
      apply Hs in Hid. destruct Hid as [Hne [pid [par [Hp [Hg Hx]]]]].
      split; [exact Hq|]. split; [exact Hne|]. exists pid. split; [exists person; auto|].
      exists par. auto.
    - intros [Hq [Hne [pid [[pa [Hpa Hp]] [par [Hg Hx]]]]]]. exists (Person.id q).
      split; [|exact Hq]. apply Hs. split; [exact Hne|]. exists pid, par.
      rewrite Ep in Hpa. injection Hpa as <-. auto. }
  destruct (listOf Parents person) eqn:El; [|exact Hmain].
  split; [intros []|]. intros [_ [_ [pid [[pa [Hpa Hp]] _]]]].
  rewrite Ep in Hpa. injection Hpa as <-. rewrite El in Hp. destruct Hp.
Qed.

Lemma getSiblings_NoDup store personId :
  NoDup (map Person.id (getSiblings store personId)).
Proof.
  unfold getSiblings. destruct (personMap_get store personId) as [person|]; [|constructor].
  destruct (listOf Parents person); [constructor|].
  destruct (siblingIds_spec store personId person) as [Hn _].
  exact (proj1 (lookups_ids store _ Hn)).
Qed.

Lemma fullPartnerIds_spec people self person x :
  In x (fullPartnerIds people self person)
  <-> In x (listOf Partners person)
      \/ exists cid child, In cid (listOf Children person)
                           /\ personMap_get people cid = Some child
                           /\ In x (listOf Parents child) /\ x <> self.
Proof.
  split; [apply fullPartnerIds_In|]. unfold fullPartnerIds.
  set (inner := fun acc pid => if String.eqb pid self then acc else IdSet.add acc pid).
  assert (Hin : forall ps acc, (In x acc \/ (In x ps /\ x <> self))
                               -> In x (fold_left inner ps acc)).
  { induction ps as [|p ps IH]; intros acc; simpl.
    - intros [H | [[] _]]. exact H.
    - intros [H | [[<- | H] Hne]]; apply IH.
      + left. unfold inner. destruct (String.eqb p self); [exact H|]. apply IdSet_add_In. auto.
      + left. unfold inner. destruct (String.eqb p self) eqn:E.
        * apply String.eqb_eq in E. congruence.
        * apply IdSet_add_In. auto.
      + right. auto. }
  assert (Hout : forall cs acc,
             (In x acc
              \/ exists cid child, In cid cs /\ personMap_get people cid = Some child
                                   /\ In x (listOf Parents child) /\ x <> self)
             -> In x (fold_left
                        (fun acc cid =>
                           match personMap_get people cid with
                           | Some child => fold_left inner (listOf Parents child) acc
                           | None => acc
                           end) cs acc)).
  { induction cs as [|c cs IH]; intros acc; simpl.
    - intros [H | [? [? [[] _]]]]. exact H.
    - intros [H | [cid [child [[<- | Hc] [Hg [Hx Hne]]]]]]; apply IH.
      + left. destruct (personMap_get people c); [apply Hin|]; auto.
      + left. rewrite Hg. apply Hin. auto.
      + right. exists cid, child. auto. }
  intros [H | H]; apply Hout; [left; now apply IdSet_ofList_In | right; exact H].
Qed.

(** Who [getPartners] returns. *)
Lemma getPartners_In store personId q :
  In q (getPartners store personId)
  <-> personMap_get store (Person.id q) = Some q
      /\ (link store Partners personId (Person.id q)
          \/ (Person.id q <> personId
              /\ exists cid, link store Children personId cid
                             /\ link store Parents cid (Person.id q))).
Proof.
  unfold getPartners. destruct (personMap_get store personId) as [person|] eqn:Ep.
  2:{ split; [intros []|]. intros [_ [[pa [H _]] | [_ [cid [[pa [H _]] _]]]]]; congruence. }
  rewrite lookupAll_In. split.
  - intros [id [Hid Hq]]. destruct (personMap_get_Some _ _ _ Hq) as [_ <-].
    split; [exact Hq|]. apply fullPartnerIds_spec in Hid.
    destruct Hid as [H | [cid [child [Hc [Hg [Hx Hne]]]]]].
    + left. exists person. auto.
    + right. split; [exact Hne|]. exists cid. split; [exists person | exists child]; auto.
  - intros [Hq H]. exists (Person.id q). split; [|exact Hq]. apply fullPartnerIds_spec.
    destruct H as [[pa [Hpa H]] | [Hne [cid [[pa [Hpa Hc]] [child [Hg Hx]]]]]];
      rewrite Ep in Hpa; injection Hpa as <-.
    + left. exact H.
    + right. exists cid, child. auto.
Qed.

(** X1.  [addRelationship] between two people of the store returns
    [true], keeps the ids, and adds exactly the links of its type: for
    [parent], [child] and [partner] the link and its reverse, for
    [sibling] the parents of the person as parents of the other with
    their child links.  Every other link is as before. *)
Theorem addRelationship_adds_the_link_and_its_reverse store personId relatedId type :
  known store personId -> known store relatedId ->
  snd (addRelationship store personId relatedId type) = true
  /\ map Person.id (fst (addRelationship store personId relatedId type))
     = map Person.id store
  /\ (forall k a b,
         link (fst (addRelationship store personId relatedId type)) k a b
         <-> link store k a b \/ addedBy store personId relatedId type k a b)
  /\ (forall k, kindOfType type = Some k ->
                link (fst (addRelationship store personId relatedId type)) k
                     personId relatedId
                /\ link (fst (addRelationship store personId relatedId type)) (mirror k)
                        relatedId personId).
Proof.
  intros Hp Hr. split; [now apply addRelationship_known_true|].
  split; [apply addRelationship_ids|].
  split; [intros k a b; now apply addRelationship_link|].
  intros k Hk.
  destruct (kindOfType_cases type k Hk) as [[-> ->] | [[-> ->] | [-> ->]]];
    split; apply addRelationship_link; auto; right; unfold addedBy; simpl; auto 10.
Qed.

(** X2.  On a store with distinct ids whose links are mirrored and whose
    lists are duplicate-free, [addRelationship] of any type leaves the
    store mirrored and duplicate-free: [repairData] and the repair loop
    of the layout find nothing to change afterwards. *)
Theorem addRelationship_keeps_the_store_consistent store personId relatedId type :
  NoDup (map Person.id store) -> Mirrored store -> Deduplicated store ->
  Mirrored (fst (addRelationship store personId relatedId type))
  /\ Deduplicated (fst (addRelationship store personId relatedId type))
  /\ repairData (fst (addRelationship store personId relatedId type))
     = (fst (addRelationship store personId relatedId type), false)
  /\ repairLinks (fst (addRelationship store personId relatedId type))
     = fst (addRelationship store personId relatedId type).
Proof.
  intros Hnd Hm Hd.
  pose proof (addRelationship_Mirrored store personId relatedId type Hm) as Hm'.
  pose proof (addRelationship_Deduplicated store personId relatedId type Hd) as Hd'.
  assert (Hnd' : NoDup (map Person.id (fst (addRelationship store personId relatedId type))))
    by (rewrite addRelationship_ids; exact Hnd).
  split; [exact Hm'|]. split; [exact Hd'|].
  split; [now apply repairData_fixpoint|].
  apply repairLinks_fixpoint; [exact Hnd'|].
  intros a b Hk. split; intro Hl; [exact (Hm' Parents a b Hl Hk) | exact (Hm' Children a b Hl Hk)].
Qed.

(** X3.  Making [b] a parent of [a] and making [a] a child of [b] are the
    same operation: the two calls return the same store. *)
Theorem addRelationship_parent_is_child_reversed store a b :
  NoDup (map Person.id store) ->
  addRelationship store a b "parent" = addRelationship store b a "child".
Proof.
  intro Hnd. unfold addRelationship.
  destruct (personMap_get store a) as [pa|] eqn:Ea, (personMap_get store b) as [pb|] eqn:Eb;
    try reflexivity.
  simpl. f_equal. apply store_ext.
  - now rewrite !ensureLink_ids.
  - now rewrite !ensureLink_ids.
  - intro x. rewrite !ensureLink_get.
    destruct (String.eqb a x) eqn:Eax, (String.eqb b x) eqn:Ebx; try reflexivity.
    destruct (personMap_get store x) as [o|]; [|reflexivity]. simpl. f_equal.
    apply pushUnique_comm. discriminate.
Qed.

(** X4.  [addRelationship] is idempotent: a second call with the same
    arguments returns the same value and changes nothing. *)
Theorem addRelationship_twice store personId relatedId type :
  addRelationship (fst (addRelationship store personId relatedId type))
                  personId relatedId type
  = addRelationship store personId relatedId type.
Proof.
  destruct (known_dec_both store personId relatedId) as [[Hp Hr] | Hn].
  2:{ now rewrite (addRelationship_unknown _ _ _ _ Hn), (addRelationship_unknown _ _ _ _ Hn). }
  set (s' := fst (addRelationship store personId relatedId type)).
  assert (Hl : forall k a b, link s' k a b
                             <-> link store k a b \/ addedBy store personId relatedId type k a b)
    by (intros; now apply addRelationship_link).
  assert (Hs : addRelationship store personId relatedId type = (s', true)).
  { unfold s'. rewrite (surjective_pairing (addRelationship store personId relatedId type)) at 1.
    now rewrite addRelationship_known_true. }
  rewrite Hs.
  assert (Hp' : known s' personId) by (unfold known, s'; now rewrite addRelationship_ids).
  assert (Hr' : known s' relatedId) by (unfold known, s'; now rewrite addRelationship_ids).
  destruct (proj1 (known_get _ _) Hp') as [person' Ep'].
  destruct (proj1 (known_get _ _) Hr') as [related' Er'].
  unfold addRelationship at 1. rewrite Ep', Er'. f_equal.
  assert (Hadd : forall k a b, addedBy store personId relatedId type k a b -> link s' k a b)
    by (intros; apply Hl; now right).
  destruct (String.eqb type "parent") eqn:E1.
  { apply String.eqb_eq in E1.
    rewrite (ensureLink_unchanged Parents relatedId personId s'); simpl.
    - rewrite (ensureLink_unchanged Children personId relatedId s'); [reflexivity|].
      intros _. apply Hadd. left. auto.
    - intros _. apply Hadd. left. auto. }
  destruct (String.eqb type "child") eqn:E2.
  { apply String.eqb_eq in E2.
    rewrite (ensureLink_unchanged Children relatedId personId s'); simpl.
    - rewrite (ensureLink_unchanged Parents personId relatedId s'); [reflexivity|].
      intros _. apply Hadd. right. left. auto.
    - intros _. apply Hadd. right. left. auto. }
  destruct (String.eqb type "partner") eqn:E3.
  { apply String.eqb_eq in E3.
    rewrite (ensureLink_unchanged Partners relatedId personId s'); simpl.
    - rewrite (ensureLink_unchanged Partners personId relatedId s'); [reflexivity|].
      intros _. apply Hadd. right. right. left. auto.
    - intros _. apply Hadd. right. right. left. auto. }
  destruct (String.eqb type "sibling") eqn:E4; [|reflexivity].
  apply String.eqb_eq in E4. apply shareParents_unchanged. intros p Hin.
  assert (Hold : link store Parents personId p).
  { assert (H : link s' Parents personId p) by (exists person'; auto).
    apply Hl in H. destruct H as [H | H]; [exact H|]. unfold addedBy in H.
    destruct H as [[E _] | [[E _] | [[E _] | [_ [[_ [-> H]] | [E _]]]]]];
      try (rewrite E4 in E; discriminate); [exact H | discriminate]. }
  split.
  - apply Hadd. right. right. right. auto.
  - intro Hk. apply Hadd. right. right. right. split; [exact E4|]. right.
    repeat split; auto. unfold known, s' in Hk. now rewrite addRelationship_ids in Hk.
Qed.

(** X5.  Removing a [parent], [child] or [partner] relationship that was
    just added gives the store back, when the store has distinct ids and
    had neither direction of the relationship before. *)
Theorem removeRelationship_undoes_addRelationship store a b type k :
  NoDup (map Person.id store) ->
  known store a -> known store b ->
  kindOfType type = Some k ->
  ~ link store k a b -> ~ link store (mirror k) b a ->
  removeRelationship (fst (addRelationship store a b type)) a b type = (store, true).
Proof.
  intros Hnd Ha Hb Hk Hn1 Hn2.
  destruct (proj1 (known_get _ _) Ha) as [pa Ea].
  destruct (proj1 (known_get _ _) Hb) as [pb Eb].
  rewrite (addRelationship_kind _ _ _ _ _ _ _ Hk Ea Eb). cbn [fst].
  set (s' := fst (ensureLink (mirror k) a b (fst (ensureLink k b a store)))).
  assert (Hids : map Person.id s' = map Person.id store)
    by (unfold s'; now rewrite !ensureLink_ids).
  assert (Ha' : known s' a) by (unfold known; now rewrite Hids).
  assert (Hb' : known s' b) by (unfold known; now rewrite Hids).
  destruct (proj1 (known_get _ _) Ha') as [ra Era].
  destruct (proj1 (known_get _ _) Hb') as [rb Erb].
  rewrite (removeRelationship_kind _ _ _ _ _ _ _ Hk Era Erb). f_equal.
  now apply remove_after_add.
Qed.

(** X6.  [removeRelationship] between two people of the store returns
    [true]; for [parent], [child] and [partner] it removes the link and
    its reverse and nothing else, and keeps a mirrored store mirrored and
    duplicate-free lists duplicate-free; for any other type, [sibling]
    included, it leaves the store as it is. *)
Theorem removeRelationship_removes_the_link_and_its_reverse store personId relatedId type :
  known store personId -> known store relatedId ->
  snd (removeRelationship store personId relatedId type) = true
  /\ map Person.id (fst (removeRelationship store personId relatedId type))
     = map Person.id store
  /\ (forall k, kindOfType type = Some k ->
        (forall k' a b,
            link (fst (removeRelationship store personId relatedId type)) k' a b
            <-> link store k' a b
                /\ ~ (k' = k /\ a = personId /\ b = relatedId)
                /\ ~ (k' = mirror k /\ a = relatedId /\ b = personId))
        /\ (Mirrored store ->
            Mirrored (fst (removeRelationship store personId relatedId type)))
        /\ (Deduplicated store ->
            Deduplicated (fst (removeRelationship store personId relatedId type))))
  /\ (kindOfType type = None ->
      fst (removeRelationship store personId relatedId type) = store).
Proof.
  intros Hp Hr.
  destruct (proj1 (known_get _ _) Hp) as [person Ep].
  destruct (proj1 (known_get _ _) Hr) as [related Er].
  split; [unfold removeRelationship; now rewrite Ep, Er|].
  split; [apply removeRelationship_ids|]. split.
  - intros k Hk. rewrite (removeRelationship_kind _ _ _ _ _ _ _ Hk Ep Er). cbn [fst].
    assert (Hl : forall k' a b,
               link (dropLink (mirror k) personId relatedId
                       (dropLink k relatedId personId store)) k' a b
               <-> link store k' a b
                   /\ ~ (k' = k /\ a = personId /\ b = relatedId)
                   /\ ~ (k' = mirror k /\ a = relatedId /\ b = personId))
      by (intros; apply dropBoth_link).
    split; [exact Hl|]. split.
    + intros Hm k' a b H Hk'. apply Hl in H. destruct H as [H [N1 N2]].
      apply Hl. split; [apply Hm; [exact H|]|].
      * unfold known in *. now rewrite !dropLink_ids in Hk'.
      * split.
        -- intros [E [-> ->]]. apply N2. apply mirror_eq in E. auto.
        -- intros [E [-> ->]]. apply N1. split; [|auto].
           destruct k, k'; simpl in E; congruence.
    + intro Hd. now repeat apply dropLink_Deduplicated.
  - unfold kindOfType, removeRelationship. rewrite Ep, Er.
    destruct (String.eqb type "parent"); [discriminate|].
    destruct (String.eqb type "child"); [discriminate|].
    destruct (String.eqb type "partner"); [discriminate | reflexivity].
Qed.

(** X7.  An id that is not in the store: [addRelationship] and
    [removeRelationship] with it on either side and [deletePerson] return
    [false] and leave the store as it is; it has no siblings and no
    partners. *)
Theorem operations_on_a_missing_person store id other type :
  ~ known store id ->
  addRelationship store id other type = (store, false)
  /\ addRelationship store other id type = (store, false)
  /\ removeRelationship store id other type = (store, false)
  /\ removeRelationship store other id type = (store, false)
  /\ deletePerson store id = (store, false)
  /\ getSiblings store id = []
  /\ getPartners store id = [].
Proof.
  intro Hn. assert (E : personMap_get store id = None) by now apply personMap_get_None.
  unfold addRelationship, removeRelationship, deletePerson, getSiblings, getPartners.
  rewrite E. repeat split; try reflexivity; now destruct (personMap_get store other).
Qed.

(** X8.  [deletePerson] on a store whose links are mirrored removes the
    person and every link to it: the links left are exactly the links
    between the other people, so nobody refers to the deleted id, the
    store is still mirrored and duplicate-free, and [repairData] has
    nothing to repair. *)
Theorem deletePerson_leaves_no_reference store id :
  NoDup (map Person.id store) -> Mirrored store -> Deduplicated store ->
  known store id ->
  snd (deletePerson store id) = true
  /\ (forall x, known (fst (deletePerson store id)) x <-> known store x /\ x <> id)
  /\ (forall k a b, link (fst (deletePerson store id)) k a b
                    <-> link store k a b /\ a <> id /\ b <> id)
  /\ Mirrored (fst (deletePerson store id))
  /\ Deduplicated (fst (deletePerson store id))
  /\ repairData (fst (deletePerson store id)) = (fst (deletePerson store id), false).
Proof.
  intros Hnd Hm Hd Hk.
  assert (Hl : forall k a b, link (fst (deletePerson store id)) k a b
                             <-> link store k a b /\ a <> id /\ b <> id).
  { intros k a b. rewrite (deletePerson_link store id k a b Hk). split.
    - intros [H [Hne Hn]]. repeat split; auto. intros ->. apply Hn. split; [reflexivity|].
      now apply Hm.
    - intros [H [Hne Hb]]. repeat split; auto. intros [E _]. congruence. }
  assert (Hm' : Mirrored (fst (deletePerson store id))).
  { intros k a b H Hb. apply Hl in H. destruct H as [H [Ha Hbn]]. apply Hl.
    apply (deletePerson_known store id b Hk) in Hb. destruct Hb as [Hb _].
    repeat split; auto. }
  pose proof (deletePerson_Deduplicated store id Hd) as Hd'.
  split.
  - destruct (proj1 (known_get _ _) Hk) as [person Ep]. unfold deletePerson. now rewrite Ep.
  - split; [intro x; now apply deletePerson_known|]. split; [exact Hl|].
    split; [exact Hm'|]. split; [exact Hd'|].
    apply repairData_fixpoint; auto. now apply deletePerson_NoDup.
Qed.

(** X9.  [getSiblings] returns nobody twice and never the person itself;
    on a store whose links are mirrored it is symmetric: the person is
    among the siblings of each of its siblings. *)
Theorem getSiblings_is_symmetric store personId p :
  Mirrored store ->
  personMap_get store personId = Some p ->
  NoDup (map Person.id (getSiblings store personId))
  /\ ~ In p (getSiblings store personId)
  /\ forall q, In q (getSiblings store personId) ->
               In p (getSiblings store (Person.id q)).
Proof.
  intros Hm Hp. destruct (personMap_get_Some _ _ _ Hp) as [_ Hid].
  split; [apply getSiblings_NoDup|]. split.
  - intro H. apply getSiblings_In in H. tauto.
  - intros q Hq. apply getSiblings_In in Hq. destruct Hq as [Hq [Hne [pid [H1 H2]]]].
    apply getSiblings_In. rewrite Hid. split; [exact Hp|]. split; [congruence|].
    exists pid. split.
    + apply (Hm Children pid (Person.id q) H2). apply known_get. eauto.
    + apply (Hm Parents personId pid H1). destruct H2 as [par [Hpar _]].
      apply known_get. eauto.
Qed.

(** X10.  On a store whose links are mirrored [getPartners] is symmetric:
    a person is among the partners of each of its partners, listed or
    found through a common child. *)
Theorem getPartners_is_symmetric store personId p :
  Mirrored store ->
  personMap_get store personId = Some p ->
  forall q, In q (getPartners store personId) ->
            In p (getPartners store (Person.id q)).
Proof.
  intros Hm Hp q Hq. destruct (personMap_get_Some _ _ _ Hp) as [_ Hid].
  apply getPartners_In in Hq. destruct Hq as [Hq H].
  apply getPartners_In. rewrite Hid. split; [exact Hp|].
  assert (Hkp : known store personId) by (apply known_get; eauto).
  destruct H as [H | [Hne [cid [H1 H2]]]].
  - left. exact (Hm Partners personId (Person.id q) H ltac:(apply known_get; eauto)).
  - right. split; [congruence|]. exists cid.
    assert (Hkc : known store cid) by (destruct H2 as [c [Hc _]]; apply known_get; eauto).
    split.
    + apply (Hm Parents cid (Person.id q) H2). apply known_get. eauto.
    + exact (Hm Children personId cid H1 Hkc).
Qed.

(** ** Split links *)

Lemma isLinkSplit_update store personId f a type linked :
  (forall o, Person.id (f o) = Person.id o) ->
  isLinkSplit (personMap_update store personId f) a type linked
  = match personMap_get store a with
    | None => false
    | Some person =>
        existsb (sameSplit type linked)
                (Person.splitLinks (if String.eqb personId a then f person else person))
    end.
Proof.
  intro Hf. unfold isLinkSplit. rewrite personMap_get_update by exact Hf.
  destruct (String.eqb personId a) eqn:E.
  - apply String.eqb_eq in E. subst a. now destruct (personMap_get store personId).
  - reflexivity.
Qed.

Lemma sameSplit_pair type linked type' linked' ghostContext :
  sameSplit type' linked' (Split.mk type linked ghostContext) = true
  <-> type = type' /\ linked = linked'.
Proof.
  unfold sameSplit. simpl. rewrite andb_true_iff, !String.eqb_eq. tauto.
Qed.

Lemma existsb_filter_out {A : Type} (f g : A -> bool) (l : list A) :
  existsb f (filter (fun x => negb (g x)) l)
  = existsb (fun x => f x && negb (g x)) l.
Proof.
  induction l as [|x l IH]; simpl; [reflexivity|].
  destruct (g x); simpl; rewrite IH; [now rewrite andb_false_r | now rewrite andb_true_r].
Qed.

Lemma existsb_same {A : Type} (f g : A -> bool) (l : list A) :
  (forall x, f x = g x) -> existsb f l = existsb g l.
Proof. intro H. induction l as [|x l IH]; simpl; [reflexivity | now rewrite H, IH]. Qed.

Lemma filter_length_lt {A : Type} (f : A -> bool) (l : list A) :
  Nat.ltb (length (filter f l)) (length l) = existsb (fun x => negb (f x)) l.
Proof.
  pose proof (filter_length_le f l) as Hle.
  destruct (existsb (fun x => negb (f x)) l) eqn:E.
  - apply Nat.ltb_lt. apply existsb_exists in E. destruct E as [x [Hin Hx]].
    apply negb_true_iff in Hx. clear Hle. induction l as [|y l IH]; [destruct Hin|]. simpl.
    pose proof (filter_length_le f l) as Hle.
    destruct Hin as [-> | Hin].
    + rewrite Hx. lia.
    + specialize (IH Hin). destruct (f y); simpl; lia.
  - apply Nat.ltb_ge.
    assert (Hall : forall x, In x l -> f x = true).
    { intros x Hin. destruct (f x) eqn:Ex; [reflexivity|].
      assert (existsb (fun x => negb (f x)) l = true)
        by (apply existsb_exists; exists x; rewrite Ex; auto). congruence. }
    clear E Hle. induction l as [|y l IH]; simpl; [lia|].
    rewrite (Hall y (or_introl eq_refl)). simpl.
    assert (length l <= length (filter f l))%nat by (apply IH; intros; apply Hall; now right).
    lia.
Qed.

(** X11.  Split links of a person of the store.  [splitLink] returns
    [true] exactly when the link was not split before, and the link is
    split afterwards; a second [splitLink] returns [false] and changes
    nothing; [unsplitLink] returns [true] exactly when the link was
    split, and the link is not split afterwards; neither changes whether
    any other link is split, and undoing a fresh split gives the person's
    split links back. *)
Theorem splitLink_and_unsplitLink store personId type linked ghostContext :
  known store personId ->
  snd (splitLink store personId type linked ghostContext)
  = negb (isLinkSplit store personId type linked)
  /\ isLinkSplit (fst (splitLink store personId type linked ghostContext))
                 personId type linked = true
  /\ splitLink (fst (splitLink store personId type linked ghostContext))
               personId type linked ghostContext
     = (fst (splitLink store personId type linked ghostContext), false)
  /\ snd (unsplitLink store personId type linked) = isLinkSplit store personId type linked
  /\ isLinkSplit (fst (unsplitLink store personId type linked)) personId type linked = false
  /\ (forall a type' linked',
         (a, type', linked') <> (personId, type, linked) ->
         isLinkSplit (fst (splitLink store personId type linked ghostContext))
                     a type' linked'
         = isLinkSplit store a type' linked'
         /\ isLinkSplit (fst (unsplitLink store personId type linked)) a type' linked'
            = isLinkSplit store a type' linked')
  /\ (isLinkSplit store personId type linked = false ->
      getSplitLinks
        (fst (unsplitLink (fst (splitLink store personId type linked ghostContext))
                          personId type linked))
        personId
      = getSplitLinks store personId).
Proof.
  intro Hk. apply known_get in Hk. destruct Hk as [person Ep].
  assert (Hf : forall l o, Person.id (withSplitLinks l o) = Person.id o) by reflexivity.
  set (added := fun o => withSplitLinks
                           (Person.splitLinks o ++ [Split.mk type linked ghostContext]) o).
  assert (Hs : splitLink store personId type linked ghostContext
               = if existsb (sameSplit type linked) (Person.splitLinks person)
                 then (store, false)
                 else (personMap_update store personId added, true)).
  { unfold splitLink. now rewrite Ep. }
  assert (Hu : unsplitLink store personId type linked
               = (personMap_update store personId
                    (withSplitLinks (filter (fun s => negb (sameSplit type linked s))
                                            (Person.splitLinks person))),
                  Nat.ltb (length (filter (fun s => negb (sameSplit type linked s))
                                          (Person.splitLinks person)))
                          (length (Person.splitLinks person)))).
  { unfold unsplitLink. now rewrite Ep. }
  assert (Hi : isLinkSplit store personId type linked
               = existsb (sameSplit type linked) (Person.splitLinks person)).
  { unfold isLinkSplit. now rewrite Ep. }
  assert (Hself : sameSplit type linked (Split.mk type linked ghostContext) = true)
    by (apply sameSplit_pair; auto).
  assert (Hafter : isLinkSplit (fst (splitLink store personId type linked ghostContext))
                               personId type linked = true).
  { rewrite Hs. destruct (existsb _ (Person.splitLinks person)) eqn:E; cbn [fst].
    - now rewrite Hi.
    - rewrite isLinkSplit_update by reflexivity. rewrite Ep, String.eqb_refl.
      unfold added. simpl. rewrite existsb_app. simpl. rewrite Hself. now rewrite orb_true_r. }
  split; [rewrite Hs, Hi; now destruct (existsb _ (Person.splitLinks person))|].
  split; [exact Hafter|]. split.
  { unfold splitLink at 1. unfold isLinkSplit in Hafter.
    destruct (personMap_get (fst (splitLink store personId type linked ghostContext)) personId);
      [|reflexivity]. now rewrite Hafter. }
  split.
  { rewrite Hu, Hi. cbn [snd]. rewrite filter_length_lt.
    apply existsb_same. intros s. now rewrite negb_involutive. }
  split.
  { rewrite Hu. cbn [fst]. rewrite isLinkSplit_update by reflexivity.
    rewrite Ep, String.eqb_refl. simpl. rewrite existsb_filter_out.
    apply not_true_is_false. intro H. apply existsb_exists in H.
    destruct H as [s [_ H]]. now destruct (sameSplit type linked s). }
  split.
  { intros a type' linked' Hne. split.
    - rewrite Hs. destruct (existsb _ (Person.splitLinks person)); cbn [fst]; [reflexivity|].
      rewrite isLinkSplit_update by reflexivity. unfold isLinkSplit.
      destruct (personMap_get store a) as [pa|] eqn:Ea; [|reflexivity].
      destruct (String.eqb personId a) eqn:E; [|reflexivity].
      apply String.eqb_eq in E. subst a. unfold added. simpl. rewrite existsb_app. simpl.
      destruct (sameSplit type' linked' (Split.mk type linked ghostContext)) eqn:Es.
      + apply sameSplit_pair in Es. destruct Es as [-> ->]. congruence.
      + now rewrite !orb_false_r.
    - rewrite Hu. cbn [fst]. rewrite isLinkSplit_update by reflexivity. unfold isLinkSplit.
      destruct (personMap_get store a) as [pa|] eqn:Ea; [|reflexivity].
      destruct (String.eqb personId a) eqn:E; [|reflexivity].
      apply String.eqb_eq in E. subst a. rewrite Ep in Ea. injection Ea as <-. simpl.
      rewrite existsb_filter_out. apply existsb_same. intro s.
      destruct (sameSplit type linked s) eqn:Es; simpl; [|now rewrite andb_true_r].
      rewrite andb_false_r. unfold sameSplit in *.
      apply andb_true_iff in Es. destruct Es as [E1 E2].
      apply String.eqb_eq in E1, E2.
      destruct (String.eqb (Split.type s) type') eqn:E3; [|reflexivity].
      destruct (String.eqb (Split.linkedPersonId s) linked') eqn:E4; [|reflexivity].
      apply String.eqb_eq in E3, E4. congruence. }
  intro Hno. rewrite Hi in Hno. rewrite Hs, Hno. cbn [fst].
  unfold unsplitLink, getSplitLinks. rewrite personMap_get_update by reflexivity.
  rewrite String.eqb_refl, Ep. cbn [option_map fst].
  rewrite personMap_get_update by reflexivity. rewrite String.eqb_refl.
  rewrite personMap_get_update by reflexivity. rewrite String.eqb_refl, Ep. simpl.
  rewrite filter_app. simpl. rewrite Hself. simpl. rewrite app_nil_r.
  clear -Hno. induction (Person.splitLinks person) as [|s l IH]; [reflexivity|].
  simpl in *. apply orb_false_iff in Hno. destruct Hno as [H1 H2]. rewrite H1. simpl.
  now rewrite IH.
Qed.

(** ** Date fields *)

Lemma isDigit_not_dash c : isDigit c = true -> Ascii.eqb c "-"%char = false.
Proof.
  destruct c as [[] [] [] [] [] [] [] []]; vm_compute; congruence.
Qed.

(** What [dateToISO] accepts and what it returns. *)
Lemma dateToISO_Some displayDate iso :
  dateToISO displayDate = Some iso ->
  exists d1 d2 m1 m2 y1 y2 y3 y4,
    (isDigit d1 = true /\ isDigit d2 = true /\ isDigit m1 = true /\ isDigit m2 = true
     /\ isDigit y1 = true /\ isDigit y2 = true /\ isDigit y3 = true /\ isDigit y4 = true)
    /\ displayDate
       = String d1 (String d2 (String "/" (String m1 (String m2 (String "/"
           (String y1 (String y2 (String y3 (String y4 EmptyString)))))))))
    /\ iso
       = String y1 (String y2 (String y3 (String y4 (String "-"
           (String m1 (String m2 (String "-" (String d1 (String d2 EmptyString))))))))).
Proof.
  destruct displayDate as [|d1 [|d2 [|s1 [|m1 [|m2 [|s2 [|y1 [|y2 [|y3 [|y4 [|c rest]]]]]]]]]]];
    try discriminate.
  unfold dateToISO.
  destruct (isDigit d1 && isDigit d2 && Ascii.eqb s1 "/" && isDigit m1 && isDigit m2
            && Ascii.eqb s2 "/" && isDigit y1 && isDigit y2 && isDigit y3 && isDigit y4)
    eqn:E; [|discriminate].
  intros [= <-].
  do 9 (apply andb_true_iff in E; let H := fresh "H" in destruct E as [E H]).
  repeat match goal with
         | H : Ascii.eqb _ _ = true |- _ => apply Ascii.eqb_eq in H; subst
         end.
  exists d1, d2, m1, m2, y1, y2, y3, y4. repeat split; assumption.
Qed.

Lemma dateToDisplay_iso d1 d2 m1 m2 y1 y2 y3 y4 :
  isDigit d1 = true -> isDigit d2 = true -> isDigit m1 = true -> isDigit m2 = true ->
  isDigit y1 = true -> isDigit y2 = true -> isDigit y3 = true -> isDigit y4 = true ->
  dateToDisplay
    (String y1 (String y2 (String y3 (String y4 (String "-"
       (String m1 (String m2 (String "-" (String d1 (String d2 EmptyString))))))))))
  = String d1 (String d2 (String "/" (String m1 (String m2 (String "/"
      (String y1 (String y2 (String y3 (String y4 EmptyString))))))))).
Proof.
  intros D1 D2 M1 M2 Y1 Y2 Y3 Y4.
  unfold dateToDisplay. cbn [splitOn].
  rewrite (isDigit_not_dash _ D1), (isDigit_not_dash _ D2), (isDigit_not_dash _ M1),
    (isDigit_not_dash _ M2), (isDigit_not_dash _ Y1), (isDigit_not_dash _ Y2),
    (isDigit_not_dash _ Y3), (isDigit_not_dash _ Y4).
  reflexivity.
Qed.

Lemma dateToISO_display d1 d2 m1 m2 y1 y2 y3 y4 :
  isDigit d1 = true -> isDigit d2 = true -> isDigit m1 = true -> isDigit m2 = true ->
  isDigit y1 = true -> isDigit y2 = true -> isDigit y3 = true -> isDigit y4 = true ->
  dateToISO
    (String d1 (String d2 (String "/" (String m1 (String m2 (String "/"
       (String y1 (String y2 (String y3 (String y4 EmptyString))))))))))
  = Some (String y1 (String y2 (String y3 (String y4 (String "-"
            (String m1 (String m2 (String "-" (String d1 (String d2 EmptyString)))))))))).
Proof.
  intros D1 D2 M1 M2 Y1 Y2 Y3 Y4. unfold dateToISO.
  now rewrite D1, D2, M1, M2, Y1, Y2, Y3, Y4.
Qed.

(** X12.  The two date helpers of the form are inverse to each other on
    the dates [dateToISO] accepts: when it turns a display date
    [dd/mm/yyyy] into an ISO date, [dateToDisplay] of that ISO date is
    the display date again, and [dateToISO] of it is the ISO date. *)
Theorem dateToDisplay_inverts_dateToISO displayDate iso :
  dateToISO displayDate = Some iso ->
  dateToDisplay iso = displayDate
  /\ dateToISO (dateToDisplay iso) = Some iso.
Proof.
  intro H. pose proof H as H0. apply dateToISO_Some in H.
  destruct H as [d1 [d2 [m1 [m2 [y1 [y2 [y3 [y4 [[D1 [D2 [M1 [M2 [Y1 [Y2 [Y3 Y4]]]]]]] [-> ->]]]]]]]]]].
  assert (E : dateToDisplay
                (String y1 (String y2 (String y3 (String y4 (String "-"
                   (String m1 (String m2 (String "-" (String d1 (String d2 EmptyString))))))))))
              = String d1 (String d2 (String "/" (String m1 (String m2 (String "/"
                  (String y1 (String y2 (String y3 (String y4 EmptyString))))))))))
    by now apply dateToDisplay_iso.
  split; [exact E | now rewrite E].
Qed.

(** X13.  A stored date survives the form (shown with [dateToDisplay],
    read back with [dateToISO]) exactly when it is written [yyyy-mm-dd]
    with four, two and two digits. *)
Theorem stored_date_survives_the_form_iff iso :
  dateToISO (dateToDisplay iso) = Some iso
  <-> exists y1 y2 y3 y4 m1 m2 d1 d2,
       (isDigit d1 = true /\ isDigit d2 = true /\ isDigit m1 = true /\ isDigit m2 = true
        /\ isDigit y1 = true /\ isDigit y2 = true /\ isDigit y3 = true
        /\ isDigit y4 = true)
       /\ iso = String y1 (String y2 (String y3 (String y4 (String "-"
                  (String m1 (String m2 (String "-"
                     (String d1 (String d2 EmptyString))))))))).
Proof.
  split.
  - intro H. apply dateToISO_Some in H.
    destruct H as [d1 [d2 [m1 [m2 [y1 [y2 [y3 [y4 [Hd [_ ->]]]]]]]]]].
    exists y1, y2, y3, y4, m1, m2, d1, d2. auto.
  - intros [y1 [y2 [y3 [y4 [m1 [m2 [d1 [d2 [[D1 [D2 [M1 [M2 [Y1 [Y2 [Y3 Y4]]]]]]] ->]]]]]]]]].
    rewrite dateToDisplay_iso by assumption. now apply dateToISO_display.
Qed.

(** * More on the layout pass *)

(** ** Anchors *)

Lemma addAnchors_spec rel ids : forall anchors,
  (NoDup anchors -> NoDup (addAnchors rel anchors ids))
  /\ forall a, In a (addAnchors rel anchors ids)
               <-> In a anchors \/ (In a ids /\ JsMap.has rel a = false).
Proof.
  induction ids as [|c cs IH]; intro anchors.
  - simpl. split; [auto|]. intro a. tauto.
  - change (addAnchors rel anchors (c :: cs))
      with (addAnchors rel (if negb (JsMap.has rel c) && negb (IdSet.has anchors c)
                            then anchors ++ [c] else anchors) cs).
    set (next := if negb (JsMap.has rel c) && negb (IdSet.has anchors c)
                 then anchors ++ [c] else anchors).
    destruct (IH next) as [IH1 IH2]. split.
    + intro Hn. apply IH1. unfold next.
      destruct (JsMap.has rel c); simpl; [exact Hn|].
      destruct (IdSet.has anchors c) eqn:E; simpl; [exact Hn|].
      apply IdSet_add_NoDup with (k := c) in Hn. unfold IdSet.add in Hn. now rewrite E in Hn.
    + intro a. rewrite IH2. unfold next.
      destruct (JsMap.has rel c) eqn:Er; simpl.
      * split; [intros [H | [H1 H2]]; auto|].
        intros [H | [[<- | H1] H2]]; [auto | congruence | auto].
      * destruct (IdSet.has anchors c) eqn:E; simpl.
        -- apply includes_In in E. split; [intros [H | [H1 H2]]; auto|].
           intros [H | [[<- | H1] H2]]; auto.
        -- rewrite in_app_iff. simpl. split.
           ++ intros [[H | [<- | []]] | [H1 H2]]; auto.
           ++ intros [H | [[<- | H1] H2]]; auto.
Qed.

Lemma findAnchors_spec people rel :
  NoDup (findAnchors people rel)
  /\ forall a, In a (findAnchors people rel)
               <-> JsMap.has rel a = false
                   /\ exists personId person k,
                       In personId (JsMap.keys rel)
                       /\ personMap_get people personId = Some person
                       /\ In a (listOf k person).
Proof.
  unfold findAnchors.
  set (step := fun anchors personId =>
                 match personMap_get people personId with
                 | None => anchors
                 | Some person =>
                     addAnchors rel
                       (addAnchors rel
                          (addAnchors rel anchors (listOf Children person))
                          (listOf Partners person))
                       (listOf Parents person)
                 end).
  assert (Hstep : forall anchors key,
             (NoDup anchors -> NoDup (step anchors key))
             /\ forall a, In a (step anchors key)
                          <-> In a anchors
                              \/ (JsMap.has rel a = false
                                  /\ exists person k,
                                      personMap_get people key = Some person
                                      /\ In a (listOf k person))).
  { intros anchors key. unfold step. destruct (personMap_get people key) as [person|] eqn:Ep.
    - destruct (addAnchors_spec rel (listOf Children person) anchors) as [N1 S1].
      destruct (addAnchors_spec rel (listOf Partners person)
                  (addAnchors rel anchors (listOf Children person))) as [N2 S2].
      destruct (addAnchors_spec rel (listOf Parents person)
                  (addAnchors rel (addAnchors rel anchors (listOf Children person))
                     (listOf Partners person))) as [N3 S3].
      split; [intro Hn; apply N3, N2, N1, Hn|].
      intro a. rewrite S3, S2, S1. split.
      + intros [[[H | [H1 H2]] | [H1 H2]] | [H1 H2]]; [auto | right .. ];
          (split; [assumption|]); exists person; eauto.
      + intros [H | [H1 [per [k [[= <-] Hl]]]]]; [auto 10|]. destruct k; auto 10.
    - split; [auto|]. intro a. split; [auto|].
      intros [H | [_ [per [k [Hg _]]]]]; [exact H | discriminate]. }
  assert (Hgen : forall keys anchors,
             (NoDup anchors -> NoDup (fold_left step keys anchors))
             /\ forall a, In a (fold_left step keys anchors)
                          <-> In a anchors
                              \/ (JsMap.has rel a = false
                                  /\ exists personId person k,
                                      In personId keys
                                      /\ personMap_get people personId = Some person
                                      /\ In a (listOf k person))).
  { induction keys as [|key keys IH]; intro anchors; cbn [fold_left].
    - split; [auto|]. intro a. split; [auto|]. intros [H | [_ [? [? [? [[] _]]]]]]. exact H.
    - destruct (IH (step anchors key)) as [IH1 IH2].
      destruct (Hstep anchors key) as [S1 S2].
      split; [intro Hn; apply IH1, S1, Hn|].
      intro a. rewrite IH2, S2. split.
      + intros [[H | [H1 [per [k [Hg Hl]]]]] | [H1 [pid [per [k [Hin [Hg Hl]]]]]]]; [auto | |].
        * right. split; [exact H1|]. exists key, per, k. simpl. auto.
        * right. split; [exact H1|]. exists pid, per, k. simpl. auto.
      + intros [H | [H1 [pid [per [k [[<- | Hin] [Hg Hl]]]]]]]; [auto | |].
        * left. right. split; [exact H1|]. exists per, k. auto.
        * right. split; [exact H1|]. exists pid, per, k. auto. }
  destruct (Hgen (JsMap.keys rel) []) as [H1 H2]. split; [apply H1; constructor|].
  intro a. rewrite H2. simpl. tauto.
Qed.

(** X16.  The anchors of a tree are exactly the ids outside the tree
    that a person placed by the tree lists as a child, a partner or a
    parent, each of them once. *)
Theorem anchors_are_the_links_leaving_the_tree tv people root :
  NoDup (RootLayout.anchors (makeLayout tv people root))
  /\ forall a, In a (RootLayout.anchors (makeLayout tv people root))
               <-> ~ In a (nodeIds root)
                   /\ exists personId k, In personId (nodeIds root)
                                         /\ link people k personId a.
Proof.
  unfold makeLayout. cbn [RootLayout.anchors].
  destruct (findAnchors_spec people (calcRelative tv root 0 0 [])) as [Hn Hs].
  split; [exact Hn|]. intro a. rewrite Hs.
  assert (Hk : forall k, In k (JsMap.keys (calcRelative tv root 0 0 [])) <-> In k (nodeIds root)).
  { intro k. apply (makeLayout_keys tv people root k). }
  split.
  - intros [Hh [pid [per [k [Hin [Hg Hl]]]]]]. split.
    + intro H. apply Hk, JsMap_has_keys in H. congruence.
    + exists pid, k. split; [now apply Hk | exists per; auto].
  - intros [Hn' [pid [k [Hin [per [Hg Hl]]]]]]. split.
    + destruct (JsMap.has (calcRelative tv root 0 0 []) a) eqn:E; [|reflexivity].
      apply JsMap_has_keys, Hk in E. contradiction.
    + exists pid, per, k. split; [now apply Hk | auto].
Qed.

(** X17.  The relative layout of a tree that [buildTree] returns is
    compact and free of overlaps: it gives a position to exactly the
    people of the tree, every node lies between 0 and the width of the
    tree and on a row at or below 0, and no two nodes overlap (constants:
    widths and gaps not negative, rows at least a node's height apart). *)
Theorem tree_layout_is_compact tv srt people fuel visited personId visited' node :
  0 <= TreeView.nodeWidth tv -> 0 <= TreeView.horizontalGap tv ->
  0 <= TreeView.generationGap tv ->
  TreeView.nodeHeight tv <= TreeView.generationGap tv ->
  buildTree tv srt people fuel visited personId = Some (visited', Some node) ->
  (forall k, In k (JsMap.keys (RootLayout.relativePositions (makeLayout tv people node)))
             <-> In k (nodeIds node))
  /\ RootLayout.width (makeLayout tv people node) = Node.totalWidth node
  /\ (forall k r, In (k, r) (RootLayout.relativePositions (makeLayout tv people node)) ->
                  0 <= Pos.x r
                  /\ Pos.x r + TreeView.nodeWidth tv <= Node.totalWidth node
                  /\ 0 <= Pos.y r)
  /\ NoOverlap tv (RootLayout.relativePositions (makeLayout tv people node)).
Proof.
  intros Hw Hg HG Hrow H.
  pose proof (buildTree_Sized _ _ _ _ _ _ _ _ H) as Hs.
  destruct (makeLayout_ok tv Hw Hg HG Hrow people node Hs) as [Hb Hno].
  split; [intro k; apply makeLayout_keys|]. split; [reflexivity|].
  split; [exact Hb | exact Hno].
Qed.

(** X18.  [calculateLayout] gives positions only to people of the list:
    an id that is only referred to by a relationship list gets none, and
    no id has two entries. *)
Theorem only_people_of_the_list_are_positioned tv srt fuel people r :
  calculateLayout tv srt fuel people = Returned r ->
  NoDup (JsMap.keys (positions (placer r)))
  /\ forall k pos, JsMap.get (positions (placer r)) k = Some pos ->
                   exists p, In p people /\ Person.id p = k.
Proof.
  intro H. destruct (calculateLayout_tracks _ _ _ _ _ H) as [T _].
  split; [exact (tracks_nodup _ _ T)|]. intros k pos Hg.
  assert (Hk : known people k).
  { apply (calculateLayout_positions_known _ _ _ _ _ _ H).
    apply JsMap_has_keys. unfold JsMap.has. now rewrite Hg. }
  unfold known in Hk. apply in_map_iff in Hk. destruct Hk as [p [Hid Hin]]. eauto.
Qed.

(** ** The two repair passes *)







(** X19.  The repair loop at the start of [calculateLayout], on a list
    with distinct ids: it keeps the ids and every link; afterwards every
    parent link to a person of the list is listed back as a child link,
    and every child link as a parent link; a second run changes nothing;
    and a list that [repairData] has repaired is left as it is. *)
Theorem layout_repair_loop_mirrors_parents_and_children people :
  NoDup (map Person.id people) ->
  map Person.id (repairLinks people) = map Person.id people
  /\ (forall k a b, link people k a b -> link (repairLinks people) k a b)
  /\ (forall a b, known people b ->
        (link (repairLinks people) Parents a b -> link (repairLinks people) Children b a)
        /\ (link (repairLinks people) Children a b
            -> link (repairLinks people) Parents b a))
  /\ repairLinks (repairLinks people) = repairLinks people
  /\ repairLinks (fst (repairData people)) = fst (repairData people).
Proof.
  intro Hnd. destruct (repairLinks_mirrors_parent_child people Hnd) as [Hh Hm].
  split; [apply (heals_ids _ _ Hh)|]. split; [apply (heals_keeps _ _ Hh)|].
  split; [exact Hm|]. split.
  - now apply repairLinks_idempotent.
  - now apply repairLinks_after_repairData.
Qed.

(** ** Rows *)

(** [y] is on the [n]-th row below [y0]. *)
Definition onRow (tv : TreeView.t) (y0 : Q) (y : Q) : Prop :=
  exists n : nat, y == y0 + inject_Z (Z.of_nat n) * TreeView.generationGap tv.

Lemma partnerEntries_row tv partners : forall x y e,
  In e (partnerEntries tv partners x y) -> Pos.y (snd e) = y.
Proof.
  induction partners as [|p ps IH]; intros x y e; simpl; [intros []|].
  intros [<- | H]; [reflexivity | exact (IH _ _ _ H)].
Qed.

Lemma relEntries_rows tv node : forall x y e,
  In e (relEntries tv node x y) -> onRow tv y (Pos.y (snd e)).
Proof.
  induction node as [person partners children cw tw IH] using Node_induction.
  intros x y e. simpl. intros [<- | Hin].
  - exists 0%nat. simpl. ring.
  - apply in_app_or in Hin. destruct Hin as [Hin | Hin].
    + rewrite (partnerEntries_row _ _ _ _ _ Hin). exists 0%nat. simpl. ring.
    + revert Hin. generalize (x + (tw - childrenBlockWidth tv children) / 2).
      induction IH as [|c cs Hc _ IHcs]; intro cx; simpl; [intros []|].
      intro Hin. apply in_app_or in Hin. destruct Hin as [Hin | Hin].
      * destruct (Hc _ _ _ Hin) as [n Hn]. exists (S n). rewrite Hn, inject_nat_S. ring.
      * exact (IHcs _ Hin).
Qed.

Definition RowsOnGrid (tv : TreeView.t) (l : RootLayout.t) : Prop :=
  forall k r, In (k, r) (RootLayout.relativePositions l) -> onRow tv 0 (Pos.y r).

Lemma makeLayout_rows tv people root : RowsOnGrid tv (makeLayout tv people root).
Proof.
  intros k r H. apply makeLayout_entries in H. exact (relEntries_rows tv root 0 0 _ H).
Qed.

Definition RowsKept (tv : TreeView.t) (st : PlacerState) : Prop :=
  Forall (RowsOnGrid tv) (rootLayouts st)
  /\ forall k p, In (k, p) (positions st) -> onRow tv 100 (Pos.y p).

Lemma RowsKept_commit tv st best x :
  RowsKept tv st -> In best (scoreCandidates st) -> RowsKept tv (commit x best st).
Proof.
  intros [Hl Hp] Hb. destruct (scoreCandidates_In st best Hb) as [Hn _].
  rewrite Forall_forall in Hl.
  pose proof (Hl _ (nth_error_In _ _ Hn)) as Hbest. split.
  - apply Forall_forall. intros l Hin. simpl in Hin.
    destruct (updateAt_In (markPlaced x) _ _ _ Hn) as [_ [Hu _]].
    destruct (Hu l Hin) as [-> | Hold]; [exact Hbest | exact (Hl l Hold)].
  - intros k p Hin. simpl in Hin. apply JsMap_setAll_In in Hin.
    destruct Hin as [Hin | Hin]; [exact (Hp k p Hin)|].
    unfold finalEntries in Hin. apply in_map_iff in Hin.
    destruct Hin as [[k0 r] [[= <- <-] Hr]]. simpl.
    destruct (Hbest k0 r Hr) as [n Hn']. exists n. rewrite Hn'. ring.
Qed.

(** X20.  Every position [calculateLayout] assigns is on a generation
    row: its [y] is 100 plus a whole number of generation gaps (the depth
    of the person in its tree). *)
Theorem positions_are_on_generation_rows tv srt fuel people r :
  calculateLayout tv srt fuel people = Returned r ->
  forall k pos, JsMap.get (positions (placer r)) k = Some pos ->
                exists n : nat,
                  Pos.y pos == 100 + inject_Z (Z.of_nat n) * TreeView.generationGap tv.
Proof.
  intros H k pos Hg. apply JsMap_get_In in Hg.
  destruct (calculateLayout_Returned _ _ _ _ _ H) as [[-> ->] | [Hne [R1 [R2 [R3 R4]]]]].
  - destruct Hg.
  - unfold placeComponents in R4.
    destruct (placeLoop_invariant tv (RowsKept tv)
                (fun st best Hi Hb => RowsKept_commit tv st best _ Hi Hb) 100
                {| rootLayouts := map (makeLayout tv (repaired r)) (roots r);
                   placedPersonPositions := []; positions := []; safetyCounter := 0 |})
      as [st [Hs [[_ Hp] _]]].
    + split; [|intros ? ? []]. apply Forall_forall. intros l Hl. simpl in Hl.
      apply in_map_iff in Hl. destruct Hl as [n [<- _]]. apply makeLayout_rows.
    + rewrite R4 in Hs. injection Hs as <-. exact (Hp k pos Hg).
Qed.

(** ** Relationships as the queries see them *)

Lemma addRelationship_known store personId relatedId type x :
  known (fst (addRelationship store personId relatedId type)) x <-> known store x.
Proof. unfold known. now rewrite addRelationship_ids. Qed.

(** X21.  Adding [b] as a sibling of [a] shares the parents of [a]: on a
    store whose links are mirrored, when [a] has a parent in the store,
    [b] is among the siblings of [a] afterwards and [a] among those of
    [b]; when [a] has no parents, the call returns [true] and changes
    nothing. *)
Theorem addRelationship_sibling_shares_the_parents store a b pa :
  Mirrored store ->
  personMap_get store a = Some pa -> known store b -> a <> b ->
  ((exists p, In p (listOf Parents pa) /\ known store p) ->
   exists qa qb,
     personMap_get (fst (addRelationship store a b "sibling")) a = Some qa
     /\ personMap_get (fst (addRelationship store a b "sibling")) b = Some qb
     /\ In qb (getSiblings (fst (addRelationship store a b "sibling")) a)
     /\ In qa (getSiblings (fst (addRelationship store a b "sibling")) b))
  /\ (listOf Parents pa = [] -> addRelationship store a b "sibling" = (store, true)).
Proof.
  intros Hm Ha Hb Hne.
  assert (Hka : known store a) by (apply known_get; eauto).
  split.
  - intros [p [Hp Hkp]].
    set (s' := fst (addRelationship store a b "sibling")).
    assert (Hl : forall k x y, link s' k x y
                               <-> link store k x y \/ addedBy store a b "sibling" k x y)
      by (intros; now apply addRelationship_link).
    destruct (proj1 (known_get s' a) (proj2 (addRelationship_known _ _ _ _ _) Hka)) as [qa Eqa].
    destruct (proj1 (known_get s' b) (proj2 (addRelationship_known _ _ _ _ _) Hb)) as [qb Eqb].
    destruct (personMap_get_Some _ _ _ Eqa) as [_ Ida].
    destruct (personMap_get_Some _ _ _ Eqb) as [_ Idb].
    assert (L0 : link store Parents a p) by (exists pa; auto).
    assert (L1 : link s' Parents a p) by (apply Hl; now left).
    assert (L2 : link s' Parents b p).
    { apply Hl. right. unfold addedBy. right. right. right. split; [reflexivity|]. auto. }
    assert (L3 : link s' Children p b).
    { apply Hl. right. unfold addedBy. right. right. right. split; [reflexivity|]. auto. }
    assert (L4 : link s' Children p a) by (apply Hl; left; exact (Hm Parents a p L0 Hkp)).
    exists qa, qb. split; [exact Eqa|]. split; [exact Eqb|]. split.
    + apply getSiblings_In. rewrite Idb. split; [exact Eqb|]. split; [congruence|].
      exists p. auto.
    + apply getSiblings_In. rewrite Ida. split; [exact Eqa|]. split; [congruence|].
      exists p. auto.
  - intro Hnil. unfold addRelationship. rewrite Ha.
    destruct (proj1 (known_get _ _) Hb) as [pb Epb]. rewrite Epb. simpl.
    unfold listOf in Hnil. simpl in Hnil. rewrite Hnil. reflexivity.
Qed.

(** X22.  Two people who are given a common child are partners of each
    other for [getPartners] (and for the layout, which computes its
    couples the same way), whether or not they list each other. *)
Theorem parents_of_a_common_child_are_partners store p1 p2 child :
  known store p1 -> known store p2 -> known store child -> p1 <> p2 ->
  exists q1 q2,
    personMap_get
      (fst (addRelationship (fst (addRelationship store p1 child "child")) p2 child "child"))
      p1 = Some q1
    /\ personMap_get
         (fst (addRelationship (fst (addRelationship store p1 child "child")) p2 child "child"))
         p2 = Some q2
    /\ In q2 (getPartners
                (fst (addRelationship (fst (addRelationship store p1 child "child"))
                                      p2 child "child")) p1)
    /\ In q1 (getPartners
                (fst (addRelationship (fst (addRelationship store p1 child "child"))
                                      p2 child "child")) p2)
    /\ getFullPartners
         (fst (addRelationship (fst (addRelationship store p1 child "child")) p2 child "child"))
         q1
       = getPartners
           (fst (addRelationship (fst (addRelationship store p1 child "child"))
                                 p2 child "child")) p1.
Proof.
  intros H1 H2 Hc Hne.
  set (s1 := fst (addRelationship store p1 child "child")).
  set (s2 := fst (addRelationship s1 p2 child "child")).
  assert (K1 : forall x, known s1 x <-> known store x)
    by (intro; apply addRelationship_known).
  assert (K2 : forall x, known s2 x <-> known store x).
  { intro x. unfold s2. rewrite addRelationship_known. apply K1. }
  assert (Hl1 : forall k x y, link s1 k x y
                              <-> link store k x y \/ addedBy store p1 child "child" k x y)
    by (intros; now apply addRelationship_link).
  assert (Hl2 : forall k x y, link s2 k x y
                              <-> link s1 k x y \/ addedBy s1 p2 child "child" k x y).
  { intros. apply addRelationship_link; now apply K1. }
  destruct (proj1 (known_get s2 p1) (proj2 (K2 _) H1)) as [q1 E1].
  destruct (proj1 (known_get s2 p2) (proj2 (K2 _) H2)) as [q2 E2].
  destruct (personMap_get_Some _ _ _ E1) as [_ I1].
  destruct (personMap_get_Some _ _ _ E2) as [_ I2].
  assert (A1 : link s2 Children p1 child).
  { apply Hl2. left. apply Hl1. right. unfold addedBy. right. left. auto. }
  assert (A2 : link s2 Parents child p1).
  { apply Hl2. left. apply Hl1. right. unfold addedBy. right. left. auto. }
  assert (B1 : link s2 Children p2 child).
  { apply Hl2. right. unfold addedBy. right. left. auto. }
  assert (B2 : link s2 Parents child p2).
  { apply Hl2. right. unfold addedBy. right. left. auto. }
  exists q1, q2. split; [exact E1|]. split; [exact E2|]. split; [|split].
  - apply getPartners_In. rewrite I2. split; [exact E2|]. right. split; [congruence|].
    exists child. auto.
  - apply getPartners_In. rewrite I1. split; [exact E1|]. right. split; [congruence|].
    exists child. auto.
  - unfold getPartners, getFullPartners, lookupAll. rewrite E1, I1. reflexivity.
Qed.

(** * Groups of roots and of partners *)

(** Members of a list with distinct ids are told apart by their ids. *)
Lemma same_id_same_person (all : list Person.t) p q :
  NoDup (map Person.id all) -> In p all -> In q all -> Person.id p = Person.id q -> p = q.
Proof.
  induction all as [|a all IH]; simpl; intros Hnd Hp Hq Hid; [destruct Hp|].
  inversion Hnd as [|? ? Ha Hall]; subst.
  destruct Hp as [-> | Hp], Hq as [-> | Hq]; auto.
  - exfalso. apply Ha. rewrite Hid. now apply in_map.
  - exfalso. apply Ha. rewrite <- Hid. now apply in_map.
Qed.

(** A rearrangement: a list that holds every member of [all] once and
    nothing else, told by the ids. *)
Lemma Permutation_by_ids (all l : list Person.t) :
  NoDup (map Person.id all) -> NoDup (map Person.id l) ->
  (forall q, In q l -> In q all) ->
  (forall p, In p all -> In (Person.id p) (map Person.id l)) ->
  Permutation l all.
Proof.
  intros Hall Hl Hsub Hsup. apply NoDup_Permutation.
  - eapply NoDup_map_inv. exact Hl.
  - eapply NoDup_map_inv. exact Hall.
  - intro x. split; [apply Hsub|]. intro Hx.
    destruct (proj1 (in_map_iff _ _ _) (Hsup x Hx)) as [q [Hid Hq]].
    rewrite <- (same_id_same_person all q x Hall (Hsub q Hq) Hx Hid). exact Hq.
Qed.

(** What a grouping pass keeps: the ids of the members gathered so far,
    up to order, are the assigned ids, which are distinct, and the
    members come from [all]. *)
Definition Gathered (all : list Person.t) (members : list Person.t) (assigned : IdSet.t)
  : Prop :=
  Permutation (map Person.id members) assigned
  /\ NoDup assigned
  /\ forall q, In q members -> In q all.

Lemma Gathered_add all members assigned q :
  Gathered all members assigned -> In q all -> IdSet.has assigned (Person.id q) = false ->
  Gathered all (members ++ [q]) (IdSet.add assigned (Person.id q)).
Proof.
  intros [Hp [Hn Hs]] Hq Hf. unfold IdSet.add. rewrite Hf. split; [|split].
  - rewrite map_app. simpl. now apply Permutation_app_tail.
  - apply includes_not_In in Hf. apply NoDup_app; [exact Hn | repeat constructor; intros [] |].
    intros x Hx [<- | []]. exact (Hf Hx).
  - intros x Hx. apply in_app_or in Hx. destruct Hx as [Hx | [<- | []]]; auto.
Qed.

Lemma gatherCluster_Gathered fuel people all rootDescendants others :
  forall before cluster assigned cluster' assigned',
    (forall q, In q others -> In q all) ->
    Gathered all (before ++ cluster) assigned ->
    gatherCluster fuel people others rootDescendants (cluster, assigned)
    = Some (cluster', assigned') ->
    Gathered all (before ++ cluster') assigned'
    /\ (forall k, In k assigned -> In k assigned')
    /\ (cluster <> [] -> cluster' <> []).
Proof.
  unfold gatherCluster. induction others as [|o os IH];
    intros before cluster assigned cluster' assigned' Hsub Hg; simpl.
  - intros [= <- <-]. auto.
  - assert (Hos : forall q, In q os -> In q all) by (intros q Hq; apply Hsub; now right).
    destruct (IdSet.has assigned (Person.id o)) eqn:Eh; [now apply IH|].
    destruct (getDescendants fuel people (Person.id o) []) as [d|].
    2:{ intro H. exfalso. clear -H. induction os as [|x xs IHx]; simpl in H; [discriminate | auto]. }
    destruct (existsb (IdSet.has d) rootDescendants); [|now apply IH].
    intro H. destruct (IH before (cluster ++ [o]) (IdSet.add assigned (Person.id o))
                          cluster' assigned' Hos) as [G [K N]].
    + rewrite app_assoc. apply Gathered_add; auto. apply Hsub. now left.
    + exact H.
    + split; [exact G|]. split.
      * intros k Hk. apply K, IdSet_add_In. auto.
      * intros _. apply N. now destruct cluster.
Qed.

Lemma rootClusters_Gathered srt fuel people all :
  (forall l, Permutation (sortCluster srt l) l) ->
  forall rs clusters assigned clusters' assigned',
    (forall q, In q rs -> In q all) ->
    Gathered all (concat clusters) assigned ->
    Forall (fun c => c <> []) clusters ->
    fold_left
      (fun acc root =>
         match acc with
         | None => None
         | Some (clusters, assignedRoots) =>
             if IdSet.has assignedRoots (Person.id root) then acc
             else
               match getDescendants fuel people (Person.id root) [] with
               | None => None
               | Some rootDescendants =>
                   match gatherCluster fuel people all rootDescendants
                                       ([root], IdSet.add assignedRoots (Person.id root)) with
                   | None => None
                   | Some (cluster, assignedRoots') =>
                       Some (clusters ++ [sortCluster srt cluster], assignedRoots')
                   end
               end
         end)
      rs (Some (clusters, assigned)) = Some (clusters', assigned') ->
    Gathered all (concat clusters') assigned'
    /\ Forall (fun c => c <> []) clusters'
    /\ (forall k, In k assigned -> In k assigned')
    /\ (forall q, In q rs -> In (Person.id q) assigned').
Proof.
  intro Hsort. induction rs as [|r rs IH];
    intros clusters assigned clusters' assigned' Hsub Hg Hne; simpl.
  - intros [= <- <-]. split; [exact Hg|]. split; [exact Hne|]. split; [auto|]. intros q [].
  - assert (Hrs : forall q, In q rs -> In q all) by (intros q Hq; apply Hsub; now right).
    assert (Hnone : forall xs,
               fold_left
                 (fun acc root =>
                    match acc with
                    | None => None
                    | Some (clusters, assignedRoots) =>
                        if IdSet.has assignedRoots (Person.id root) then acc
                        else
                          match getDescendants fuel people (Person.id root) [] with
                          | None => None
                          | Some rootDescendants =>
                              match gatherCluster fuel people all rootDescendants
                                      ([root], IdSet.add assignedRoots (Person.id root)) with
                              | None => None
                              | Some (cluster, assignedRoots') =>
                                  Some (clusters ++ [sortCluster srt cluster], assignedRoots')
                              end
                          end
                    end) xs None = Some (clusters', assigned') -> False).
    { induction xs as [|x xs IHx]; simpl; [discriminate | exact IHx]. }
    destruct (IdSet.has assigned (Person.id r)) eqn:Eh.
    + intro H. destruct (IH _ _ _ _ Hrs Hg Hne H) as [G [N [K A]]].
      split; [exact G|]. split; [exact N|]. split; [exact K|].
      intros q [<- | Hq]; [|now apply A].
      apply K. now apply includes_In.
    + destruct (getDescendants fuel people (Person.id r) []) as [d|];
        [|intro H; exfalso; exact (Hnone _ H)].
      destruct (gatherCluster fuel people all d ([r], IdSet.add assigned (Person.id r)))
        as [[cluster assigned1]|] eqn:Eg; [|intro H; exfalso; exact (Hnone _ H)].
      destruct (gatherCluster_Gathered fuel people all d all (concat clusters) [r]
                  (IdSet.add assigned (Person.id r)) cluster assigned1 (fun q H => H))
        as [G1 [K1 N1]]; [|exact Eg|].
      { apply Gathered_add; auto. apply Hsub. now left. }
      intro H.
      assert (G2 : Gathered all (concat (clusters ++ [sortCluster srt cluster])) assigned1).
      { rewrite concat_app. simpl. rewrite app_nil_r.
        destruct G1 as [P1 [D1 S1]]. split; [|split; [exact D1|]].
        - rewrite <- P1, !map_app. apply Permutation_app_head, Permutation_map, Hsort.
        - intros q Hq. apply S1. apply in_app_or in Hq. apply in_or_app.
          destruct Hq as [Hq | Hq]; [auto|]. right.
          exact (Permutation_in _ (Hsort cluster) Hq). }
      assert (N2 : Forall (fun c => c <> []) (clusters ++ [sortCluster srt cluster])).
      { apply Forall_app. split; [exact Hne|]. constructor; [|constructor].
        intro E. apply N1; [discriminate|].
        apply Permutation_nil. rewrite <- E. apply Hsort. }
      destruct (IH _ _ _ _ Hrs G2 N2 H) as [G [N [K A]]].
      split; [exact G|]. split; [exact N|]. split.
      * intros k Hk. apply K, K1, IdSet_add_In. auto.
      * intros q [<- | Hq]; [|now apply A]. apply K, K1, IdSet_add_In. auto.
Qed.

(** X25.  The clustering of the roots loses and repeats nobody: when the
    roots at generation 0 have distinct ids and the sort of a cluster
    rearranges it, the clusters are non-empty and, put one after the
    other, they are a rearrangement of the roots. *)
Theorem rootClusters_partition_the_roots srt fuel people potentialRoots clusters :
  NoDup (map Person.id potentialRoots) ->
  (forall l, Permutation (sortCluster srt l) l) ->
  rootClusters srt fuel people potentialRoots = Some clusters ->
  Permutation (concat clusters) potentialRoots
  /\ Forall (fun cluster => cluster <> []) clusters.
Proof.
  intros Hnd Hsort H. unfold rootClusters in H.
  match type of H with
  | option_map fst ?f = _ => destruct f as [[cs assigned]|] eqn:E; [|discriminate]
  end.
  simpl in H. injection H as <-.
  destruct (rootClusters_Gathered srt fuel people potentialRoots Hsort potentialRoots
              [] [] cs assigned (fun q H => H)) as [[P [D S]] [N [_ A]]].
  - split; [constructor | split; [constructor | intros q []]].
  - constructor.
  - exact E.
  - split; [|exact N]. apply Permutation_by_ids; auto.
    + apply (Permutation_NoDup (Permutation_sym P) D).
    + intros p Hp. apply (Permutation_in _ (Permutation_sym P)). now apply A.
Qed.

Lemma joinPartners_Gathered people partners : forall before group visited,
  Gathered people (before ++ group) visited ->
  Gathered people (before ++ fst (joinPartners people partners (group, visited)))
           (snd (joinPartners people partners (group, visited)))
  /\ (forall k, In k visited -> In k (snd (joinPartners people partners (group, visited))))
  /\ (group <> [] -> fst (joinPartners people partners (group, visited)) <> []).
Proof.
  unfold joinPartners. induction partners as [|pid pids IH]; intros before group visited Hg;
    cbn [fold_left].
  - simpl. auto.
  - destruct (personMap_get people pid) as [partner|] eqn:Ep; [|now apply IH].
    cbn [fst snd]. destruct (IdSet.has visited pid) eqn:Eh; [now apply IH|].
    destruct (personMap_get_Some _ _ _ Ep) as [Hin Hid].
    destruct (IH before (group ++ [partner]) (IdSet.add visited pid)) as [G [K N]].
    + rewrite app_assoc, <- Hid. apply Gathered_add; auto. now rewrite Hid.
    + split; [exact G|]. split.
      * intros k Hk. apply K, IdSet_add_In. auto.
      * intros _. apply N. now destruct group.
Qed.

Lemma groupPartners_Gathered people getPartnersFn : forall ps groups visited,
  (forall q, In q ps -> In q people) ->
  Gathered people (concat groups) visited ->
  Forall (fun g => g <> []) groups ->
  let r := fold_left
             (fun st p =>
                if IdSet.has (snd st) (Person.id p) then st
                else
                  let partners := match getPartnersFn with
                                  | Some get => get (Person.id p)
                                  | None => listOf Partners p
                                  end in
                  let joined := joinPartners people partners
                                             ([p], IdSet.add (snd st) (Person.id p)) in
                  (fst st ++ [fst joined], snd joined))
             ps (groups, visited) in
  Gathered people (concat (fst r)) (snd r)
  /\ Forall (fun g => g <> []) (fst r)
  /\ (forall k, In k visited -> In k (snd r))
  /\ (forall q, In q ps -> In (Person.id q) (snd r)).
Proof.
  induction ps as [|p ps IH]; intros groups visited Hsub Hg Hne; cbn [fold_left].
  - simpl. split; [exact Hg|]. split; [exact Hne|]. split; [auto | intros q []].
  - assert (Hps : forall q, In q ps -> In q people) by (intros q Hq; apply Hsub; now right).
    cbn [fst snd]. destruct (IdSet.has visited (Person.id p)) eqn:Eh.
    + destruct (IH groups visited Hps Hg Hne) as [G [N [K A]]].
      split; [exact G|]. split; [exact N|]. split; [exact K|].
      intros q [<- | Hq]; [|now apply A]. apply K. now apply includes_In.
    + set (partners := match getPartnersFn with
                       | Some get => get (Person.id p)
                       | None => listOf Partners p
                       end).
      destruct (joinPartners_Gathered people partners (concat groups) [p]
                  (IdSet.add visited (Person.id p))) as [G1 [K1 N1]].
      { apply Gathered_add; auto. apply Hsub. now left. }
      set (joined := joinPartners people partners ([p], IdSet.add visited (Person.id p))) in *.
      destruct (IH (groups ++ [fst joined]) (snd joined) Hps) as [G [N [K A]]].
      * rewrite concat_app. simpl. now rewrite app_nil_r.
      * apply Forall_app. split; [exact Hne|]. constructor; [|constructor].
        apply N1. discriminate.
      * split; [exact G|]. split; [exact N|]. split.
        -- intros k Hk. apply K, K1, IdSet_add_In. auto.
        -- intros q [<- | Hq]; [|now apply A]. apply K, K1, IdSet_add_In. auto.
Qed.

(** X26.  [groupPartners] loses and repeats nobody: for people with
    distinct ids, with or without a getter for the partners, the groups
    are non-empty and, put one after the other, a rearrangement of the
    people; so [arrangeWithPartners] returns a rearrangement of its
    argument. *)
Theorem groupPartners_rearranges_the_people people getPartnersFn :
  NoDup (map Person.id people) ->
  Permutation (concat (groupPartners people getPartnersFn)) people
  /\ Forall (fun group => group <> []) (groupPartners people getPartnersFn)
  /\ Permutation (arrangeWithPartners people) people.
Proof.
  intro Hnd.
  assert (Hgen : forall fn,
             Permutation (concat (groupPartners people fn)) people
             /\ Forall (fun group => group <> []) (groupPartners people fn)).
  { intro fn. unfold groupPartners.
    destruct (groupPartners_Gathered people fn people [] [] (fun q H => H))
      as [[P [D S]] [N [_ A]]].
    - split; [constructor | split; [constructor | intros q []]].
    - constructor.
    - split; [|exact N]. apply Permutation_by_ids; auto.
      + apply (Permutation_NoDup (Permutation_sym P) D).
      + intros p Hp. apply (Permutation_in _ (Permutation_sym P)). now apply A. }
  destruct (Hgen getPartnersFn) as [H1 H2]. split; [exact H1|]. split; [exact H2|].
  unfold arrangeWithPartners. apply Hgen.
Qed.

(** * The placement loop in binary64 *)

(** ** Writing a list of entries into a map *)

Lemma JsMap_setAll_get_other {V : Type} (kvs : list (PersonId * V)) : forall m k,
  ~ In k (map fst kvs) -> JsMap.get (JsMap.setAll m kvs) k = JsMap.get m k.
Proof.
  unfold JsMap.setAll. induction kvs as [|[k0 v0] kvs IH]; intros m k H; simpl in *.
  - reflexivity.
  - rewrite IH by tauto. apply JsMap_get_set_other. intro E. apply H. now left.
Qed.

Lemma JsMap_setAll_get_new {V : Type} (kvs : list (PersonId * V)) : forall m k v,
  NoDup (map fst kvs) -> In (k, v) kvs -> JsMap.get (JsMap.setAll m kvs) k = Some v.
Proof.
  induction kvs as [|[k0 v0] kvs IH]; intros m k v Hnd Hin; [destruct Hin|].
  simpl in Hnd. inversion Hnd as [|? ? Hk Hrest]; subst.
  change (JsMap.setAll m ((k0, v0) :: kvs)) with (JsMap.setAll (JsMap.set m k0 v0) kvs).
  destruct Hin as [[= -> ->] | Hin].
  - rewrite JsMap_setAll_get_other by exact Hk. apply JsMap_get_set_same.
  - now apply IH.
Qed.

Lemma JsMap_set_keys_add {V : Type} (m : JsMap.t V) k v :
  JsMap.keys (JsMap.set m k v) = IdSet.add (JsMap.keys m) k.
Proof.
  unfold IdSet.add, IdSet.has, includes, JsMap.keys.
  induction m as [|[k0 v0] m IH]; simpl; [reflexivity|].
  rewrite (String.eqb_sym k k0). destruct (String.eqb k0 k) eqn:E; simpl; [reflexivity|].
  rewrite IH. destruct (existsb (String.eqb k) (map fst m)); reflexivity.
Qed.

(** Lists of keys that share no id. *)
Lemma concat_NoDup_part {A : Type} (ls : list (list A)) : forall i a,
  NoDup (concat ls) -> nth_error ls i = Some a -> NoDup a.
Proof.
  induction ls as [|l ls IH]; intros [|i] a H Ha; simpl in *; try discriminate.
  - injection Ha as ->. exact (NoDup_app_remove_r _ _ H).
  - exact (IH i a (NoDup_app_remove_l _ _ H) Ha).
Qed.

Lemma concat_NoDup_apart {A : Type} (ls : list (list A)) : forall i j a b k,
  NoDup (concat ls) -> i <> j ->
  nth_error ls i = Some a -> nth_error ls j = Some b -> In k a -> ~ In k b.
Proof.
  induction ls as [|l ls IH]; intros [|i] [|j] a b k Hnd Hne Ha Hb Hk Hk';
    simpl in *; try discriminate; try congruence;
    pose proof (NoDup_app_remove_l _ _ Hnd) as Hnd';
    pose proof (NoDup_app_disjoint _ _ k Hnd) as Hdis.
  - injection Ha as ->. apply (Hdis Hk).
    apply in_concat. exists b. split; [eapply nth_error_In; eassumption | exact Hk'].
  - injection Hb as ->. apply (Hdis Hk').
    apply in_concat. exists a. split; [eapply nth_error_In; eassumption | exact Hk].
  - apply (IH i j a b k Hnd'); auto.
Qed.

Section Placement64.
Import Binary64.
Local Open Scope float_scope.

Lemma insertSorted_In64 {A : Type} (cmp : A -> A -> float) a l x :
  In x (insertSorted cmp a l) <-> x = a \/ In x l.
Proof.
  induction l as [|b l IH]; simpl.
  - intuition.
  - destruct (0 <? cmp a b); simpl; [rewrite IH|]; intuition.
Qed.

Lemma stableSort_In64 {A : Type} (cmp : A -> A -> float) l x :
  In x (stableSort cmp l) <-> In x l.
Proof.
  unfold stableSort. induction l as [|a l IH]; simpl; [tauto|].
  rewrite insertSorted_In64, IH. intuition.
Qed.

Lemma scoreLayout_layout64 placed il :
  candIndex (scoreLayout placed il) = fst il /\ candLayout (scoreLayout placed il) = snd il.
Proof.
  unfold scoreLayout. destruct (flat_map _ _); [destruct (RootLayout.anchors _)|]; auto.
Qed.

Lemma scoreCandidates_In64 st best :
  In best (scoreCandidates st) ->
  nth_error (rootLayouts st) (candIndex best) = Some (candLayout best)
  /\ RootLayout.placed (candLayout best) = false.
Proof.
  unfold scoreCandidates. intro H. apply in_map_iff in H. destruct H as [[i l] [<- H]].
  apply filter_In in H. destruct H as [H Hp]. apply negb_true_iff in Hp.
  destruct (scoreLayout_layout64 (placedPersonPositions st) (i, l)) as [-> ->]. simpl in *.
  apply indexed_In in H. destruct H as [_ H]. rewrite Nat.sub_0_r in H. auto.
Qed.

Lemma scoreCandidates_nonempty64 st :
  existsb (fun l => negb (RootLayout.placed l)) (rootLayouts st) = true ->
  scoreCandidates st <> [].
Proof.
  intro H. apply existsb_exists in H. destruct H as [l [Hl Hp]].
  apply In_nth_error in Hl. destruct Hl as [i Hi].
  assert (Hin : In (scoreLayout (placedPersonPositions st) (i, l)) (scoreCandidates st)).
  { unfold scoreCandidates. apply in_map. apply filter_In. split; [|exact Hp].
    apply (indexed_nth _ 0%nat), Hi. }
  intro E. rewrite E in Hin. destruct Hin.
Qed.

(** The candidate a round picks is one of the scored candidates, and a
    round entered with an unplaced layout picks one. *)
Lemma sorted_first64 st best rest :
  stableSort compareCandidates (scoreCandidates st) = best :: rest ->
  In best (scoreCandidates st).
Proof.
  intro E. apply (stableSort_In64 compareCandidates). rewrite E. now left.
Qed.

Lemma placeRound_commits64 tv st :
  existsb (fun l => negb (RootLayout.placed l)) (rootLayouts st) = true ->
  exists best,
    placeRound tv st = Some (commit (choosePlaceX tv st best) best st)
    /\ In best (scoreCandidates st).
Proof.
  intro H. unfold placeRound.
  destruct (stableSort compareCandidates (scoreCandidates st)) as [|best rest] eqn:E.
  - exfalso. apply (scoreCandidates_nonempty64 st H).
    destruct (scoreCandidates st) as [|c cs] eqn:Ec; [reflexivity|].
    assert (Hin : In c (stableSort compareCandidates (c :: cs)))
      by (apply stableSort_In64; now left).
    rewrite E in Hin. destruct Hin.
  - exists best. split; [reflexivity|]. exact (sorted_first64 st best rest E).
Qed.

Definition placedCount64 (layouts : list RootLayout.t) : nat :=
  length (filter RootLayout.placed layouts).

Lemma placedCount_markPlaced64 x (l : list RootLayout.t) : forall i a,
  nth_error l i = Some a -> RootLayout.placed a = false ->
  placedCount64 (updateAt i (markPlaced x) l) = S (placedCount64 l).
Proof.
  unfold placedCount64.
  induction l as [|c l IH]; intros [|i] a H Hp; simpl in *; try discriminate.
  - injection H as ->. now rewrite Hp.
  - destruct (RootLayout.placed c); simpl; now rewrite (IH _ _ H Hp).
Qed.

Definition layoutKeys64 (l : RootLayout.t) : list PersonId :=
  JsMap.keys (RootLayout.relativePositions l).

Definition somePending64 (st : PlacerState) : bool :=
  existsb (fun l => negb (RootLayout.placed l)) (rootLayouts st).



Lemma placeLoop_invariant64 tv (Inv : PlacerState -> Prop) :
  (forall st best,
      Inv st -> In best (scoreCandidates st) ->
      Inv (commit (choosePlaceX tv st best) best st)) ->
  forall remaining st,
    Inv st ->
    exists st', placeLoop tv remaining st = Some st'
                /\ Inv st'
                /\ (safetyCounter st <= safetyCounter st' <= safetyCounter st + remaining)%nat
                /\ (somePending64 st' = false
                    \/ safetyCounter st' = (safetyCounter st + remaining)%nat).
Proof.
  intros Hstep. induction remaining as [|n IH]; intros st Hinv; simpl.
  - exists st. repeat split; auto; lia.
  - destruct (existsb _ (rootLayouts st)) eqn:E.
    + destruct (placeRound_commits64 tv st E) as [best [Hr Hb]]. rewrite Hr.
      destruct (IH _ (Hstep st best Hinv Hb)) as [st' [Hl [Hi [Hc Hx]]]].
      exists st'. simpl in Hc, Hx. repeat split; auto; try lia.
      destruct Hx as [Hx | Hx]; [auto | right; lia].
    + exists st. repeat split; auto; lia.
Qed.

(** Book-keeping of the loop: which layouts are placed, which ids have a
    position, and which position each placed layout wrote. *)
Record Tracks64 (keys : list (list PersonId)) (st : PlacerState) : Prop := {
  tracks_keys64 : map layoutKeys64 (rootLayouts st) = keys;
  tracks_count64 : placedCount64 (rootLayouts st) = safetyCounter st;
  tracks_same64 : positions st = placedPersonPositions st;
  tracks_written64 : forall k,
      In k (JsMap.keys (positions st))
      <-> exists l, In l (rootLayouts st) /\ RootLayout.placed l = true
                    /\ In k (layoutKeys64 l);
  tracks_values64 : forall l k rel,
      In l (rootLayouts st) -> RootLayout.placed l = true ->
      In (k, rel) (RootLayout.relativePositions l) ->
      JsMap.get (positions st) k
      = Some (Pos.mk (RootLayout.finalX l + Pos.x rel) (100 + Pos.y rel)) }.

Lemma finalEntries_keys64 x l : map fst (finalEntries x l) = layoutKeys64 l.
Proof. unfold finalEntries, layoutKeys64, JsMap.keys. rewrite map_map. reflexivity. Qed.

(** The keys of an unplaced layout have no position yet. *)
Lemma Tracks_fresh64 keys st i l k :
  NoDup (concat keys) -> Tracks64 keys st ->
  nth_error (rootLayouts st) i = Some l -> RootLayout.placed l = false ->
  In k (layoutKeys64 l) -> ~ In k (JsMap.keys (positions st)).
Proof.
  intros Hnd T Hi Hp Hk Hin.
  apply (tracks_written64 _ _ T) in Hin. destruct Hin as [l' [Hl' [Hp' Hk']]].
  apply In_nth_error in Hl'. destruct Hl' as [j Hj].
  assert (Hne : i <> j).
  { intros ->. rewrite Hi in Hj. injection Hj as <-. congruence. }
  apply (concat_NoDup_apart keys i j (layoutKeys64 l) (layoutKeys64 l') k Hnd Hne); auto.
  - rewrite <- (tracks_keys64 _ _ T), nth_error_map, Hi. reflexivity.
  - rewrite <- (tracks_keys64 _ _ T), nth_error_map, Hj. reflexivity.
Qed.

(** A commit leaves every position written before as it is. *)
Lemma commit_keeps64 keys st best x k p :
  NoDup (concat keys) -> Tracks64 keys st ->
  nth_error (rootLayouts st) (candIndex best) = Some (candLayout best) ->
  RootLayout.placed (candLayout best) = false ->
  JsMap.get (positions st) k = Some p ->
  JsMap.get (positions (commit x best st)) k = Some p.
Proof.
  intros Hnd T Hn Hp Hk. simpl. rewrite JsMap_setAll_get_other; [exact Hk|].
  rewrite finalEntries_keys64. intro Hin.
  apply (Tracks_fresh64 keys st _ _ k Hnd T Hn Hp Hin).
  apply JsMap_has_keys. unfold JsMap.has. now rewrite Hk.
Qed.

Lemma Tracks_commit64 keys st best x :
  NoDup (concat keys) -> Tracks64 keys st ->
  nth_error (rootLayouts st) (candIndex best) = Some (candLayout best) ->
  RootLayout.placed (candLayout best) = false ->
  Tracks64 keys (commit x best st).
Proof.
  intros Hnd T Hn Hp. pose proof T as [T1 T2 T3 T4 T5].
  destruct (updateAt_In (markPlaced x) _ _ _ Hn) as [U1 [U2 [U3 [U4 U5]]]].
  constructor.
  - simpl. rewrite updateAt_map; [exact T1 | reflexivity].
  - simpl. rewrite (placedCount_markPlaced64 x _ _ _ Hn Hp). now rewrite T2.
  - simpl. now rewrite T3.
  - intro k. simpl. rewrite JsMap_setAll_keys, finalEntries_keys64, T4. split.
    + intros [[l [Hl [Hpl Hk]]] | Hk].
      * exists l. split; [|auto]. apply In_nth_error in Hl. destruct Hl as [j Hj].
        assert (Hne : j <> candIndex best).
        { intros ->. rewrite Hn in Hj. injection Hj as <-. congruence. }
        apply nth_error_In with j. rewrite (U3 j Hne). exact Hj.
      * exists (markPlaced x (candLayout best)). auto.
    + intros [l [Hl [Hpl Hk]]]. destruct (U2 l Hl) as [-> | Hl'].
      * right. exact Hk.
      * left. eauto.
  - intros l k rel Hl Hpl Hrel.
    unfold commit in Hl |- *. cbn [rootLayouts positions] in Hl |- *.
    assert (Hkeys : NoDup (layoutKeys64 (candLayout best))).
    { apply (concat_NoDup_part keys (candIndex best)); [exact Hnd|].
      rewrite <- T1, nth_error_map, Hn. reflexivity. }
    apply In_nth_error in Hl. destruct Hl as [j Hj].
    destruct (Nat.eq_dec j (candIndex best)) as [-> | Hne].
    + rewrite U4 in Hj. injection Hj as <-. simpl in *.
      apply JsMap_setAll_get_new.
      * rewrite finalEntries_keys64. exact Hkeys.
      * unfold finalEntries. apply in_map_iff. exists (k, rel). auto.
    + rewrite (U3 j Hne) in Hj.
      change (JsMap.get (positions (commit x best st)) k
              = Some (Pos.mk (RootLayout.finalX l + Pos.x rel) (100 + Pos.y rel))).
      apply (commit_keeps64 keys st best x k _ Hnd T Hn Hp).
      apply T5; [eapply nth_error_In; eassumption | exact Hpl | exact Hrel].
Qed.

Lemma Tracks_start64 layouts :
  Forall (fun l => RootLayout.placed l = false) layouts ->
  Tracks64 (map layoutKeys64 layouts) (start layouts).
Proof.
  intro H. rewrite Forall_forall in H. constructor; simpl; auto.
  - unfold placedCount64. induction layouts as [|l ls IH]; simpl; [reflexivity|].
    rewrite (H l) by now left. apply IH. intros l' Hl'. apply H. now right.
  - intro k. split; [intros []|]. intros [l [Hl [Hp _]]].
    rewrite (H l Hl) in Hp. discriminate.
  - intros l k rel Hl Hp. rewrite (H l Hl) in Hp. discriminate.
Qed.

(** The loop returns from every state, after at most [remaining] more
    rounds. *)
Lemma placeLoop_total64 tv remaining st :
  exists st', placeLoop tv remaining st = Some st'
              /\ (safetyCounter st' <= safetyCounter st + remaining)%nat.
Proof.
  destruct (placeLoop_invariant64 tv (fun _ => True) (fun _ _ _ _ => I) remaining st I)
    as [st' [Hl [_ [Hc _]]]].
  exists st'. split; [exact Hl | lia].
Qed.

(** The book-keeping holds after any number of rounds. *)
Lemma placeLoop_Tracks64 tv layouts remaining :
  Forall (fun l => RootLayout.placed l = false) layouts ->
  NoDup (concat (map layoutKeys64 layouts)) ->
  exists st,
    placeLoop tv remaining (start layouts) = Some st
    /\ Tracks64 (map layoutKeys64 layouts) st
    /\ (safetyCounter st <= remaining)%nat
    /\ (somePending64 st = false \/ safetyCounter st = remaining).
Proof.
  intros Hun Hnd.
  destruct (placeLoop_invariant64 tv (Tracks64 (map layoutKeys64 layouts))
              (fun st best Hi Hb =>
                 Tracks_commit64 _ st best _ Hnd Hi
                                 (proj1 (scoreCandidates_In64 st best Hb))
                                 (proj2 (scoreCandidates_In64 st best Hb)))
              remaining _ (Tracks_start64 layouts Hun)) as [st [Hl [Hi [Hc Hx]]]].
  exists st. simpl in Hc, Hx. split; [exact Hl|]. split; [exact Hi|].
  split; [lia | exact Hx].
Qed.


(** ** The collision probe *)





End Placement64.

(** ** The trees of the two models

    [buildTree] decides who goes where from the visited set and the
    relationship lists alone; the widths it records play no part in it.
    The binary64 pass therefore builds the trees of the exact pass, with
    other numbers in them. *)

Fixpoint Node_induction64 (P : Binary64.Node.t -> Prop)
         (step : forall person partners children coupleWidth totalWidth,
             Forall P children ->
             P (Binary64.Node.mk person partners children coupleWidth totalWidth))
         (n : Binary64.Node.t) {struct n} : P n :=
  match n with
  | Binary64.Node.mk person partners children coupleWidth totalWidth =>
      step person partners children coupleWidth totalWidth
           ((fix all (cs : list Binary64.Node.t) : Forall P cs :=
               match cs with
               | [] => Forall_nil P
               | c :: cs' => Forall_cons c (Node_induction64 P step c) (all cs')
               end) children)
  end.

(** The ids placed by a node: the person, the partners, the subtrees. *)
Fixpoint nodeIds64 (n : Binary64.Node.t) : list PersonId :=
  match n with
  | Binary64.Node.mk person partners children _ _ =>
      Person.id person :: map Person.id partners ++ flat_map nodeIds64 children
  end.

Inductive SameTree : Binary64.Node.t -> Node.t -> Prop :=
| SameTree_node person partners children children' cw tw cw' tw' :
    Forall2 SameTree children children' ->
    SameTree (Binary64.Node.mk person partners children cw tw)
             (Node.mk person partners children' cw' tw').

Lemma SameTree_ids n : forall n', SameTree n n' -> nodeIds64 n = nodeIds n'.
Proof.
  induction n as [person partners children cw tw IH] using Node_induction64.
  intros n' H. inversion H as [? ? ? children' ? ? cw' tw' Hc]; subst. simpl.
  f_equal. f_equal. clear H. induction Hc as [|c c' cs cs' Hcc' _ IHc]; simpl; [reflexivity|].
  inversion IH as [|? ? Hhead Htail]; subst. rewrite (Hhead c' Hcc'). f_equal. now apply IHc.
Qed.

Lemma SameTree_forest roots : forall roots',
  Forall2 SameTree roots roots' -> flat_map nodeIds64 roots = forestIds roots'.
Proof.
  unfold forestIds. induction roots as [|n ns IH]; intros roots' H; inversion H; subst; simpl.
  - reflexivity.
  - f_equal; [now apply SameTree_ids | now apply IH].
Qed.

Definition SameResult (r64 : option (IdSet.t * option Binary64.Node.t))
           (r : option (IdSet.t * option Node.t)) : Prop :=
  match r64, r with
  | None, None => True
  | Some (v, None), Some (v', None) => v = v'
  | Some (v, Some n), Some (v', Some n') => v = v' /\ SameTree n n'
  | _, _ => False
  end.

Definition SameNodes (r64 : option (IdSet.t * list Binary64.Node.t))
           (r : option (IdSet.t * list Node.t)) : Prop :=
  match r64, r with
  | None, None => True
  | Some (v, ns), Some (v', ns') => v = v' /\ Forall2 SameTree ns ns'
  | _, _ => False
  end.

Lemma buildChildren_same build64 build :
  (forall visited personId, SameResult (build64 visited personId) (build visited personId)) ->
  forall cids visited children children',
    Forall2 SameTree children children' ->
    SameNodes (Binary64.buildChildren build64 cids visited children)
              (buildChildren build cids visited children').
Proof.
  intro Hb. induction cids as [|cid rest IH]; intros visited children children' Hc; simpl.
  - auto.
  - specialize (Hb visited cid). unfold SameResult in Hb.
    destruct (build64 visited cid) as [[v [n|]]|], (build visited cid) as [[v' [n'|]]|];
      try contradiction.
    + destruct Hb as [<- Hn]. apply IH. apply Forall2_app; [exact Hc | now constructor].
    + subst v'. now apply IH.
    + exact I.
Qed.

Lemma buildTree_same tv64 tv srt people fuel : forall visited personId,
  SameResult (Binary64.buildTree tv64 srt people fuel visited personId)
             (buildTree tv srt people fuel visited personId).
Proof.
  induction fuel as [|fuel IH]; intros visited personId; simpl; [exact I|].
  destruct (IdSet.has visited personId); [reflexivity|].
  destruct (personMap_get people personId) as [person|]; [|reflexivity].
  set (partners := filter _ (getFullPartners people person)).
  set (visited1 := fold_left _ partners _).
  pose proof (buildChildren_same _ _ IH
                (sortChildIds srt people (collectChildIds person partners))
                visited1 [] [] (Forall2_nil _)) as H.
  unfold SameNodes in H.
  destruct (Binary64.buildChildren _ _ visited1 []) as [[v cs]|],
           (buildChildren _ _ visited1 []) as [[v' cs']|]; try contradiction; [|exact I].
  destruct H as [<- Hc]. split; [reflexivity|]. now constructor.
Qed.

Lemma buildRoots_same tv64 tv srt people fuel ps : forall visited roots roots',
  Forall2 SameTree roots roots' ->
  SameNodes (Binary64.buildRoots tv64 srt people fuel ps (visited, roots))
            (buildRoots tv srt people fuel ps (visited, roots')).
Proof.
  unfold Binary64.buildRoots, buildRoots.
  assert (Hnone : forall qs,
             fold_left
               (fun acc p =>
                  match acc with
                  | None => None
                  | Some (visited, roots) =>
                      if IdSet.has visited (Person.id p) then acc
                      else
                        match Binary64.buildTree tv64 srt people fuel visited (Person.id p) with
                        | None => None
                        | Some (visited', None) => Some (visited', roots)
                        | Some (visited', Some node) => Some (visited', roots ++ [node])
                        end
                  end) qs None = None).
  { induction qs as [|q qs IHq]; simpl; auto. }
  induction ps as [|p ps IH]; intros visited roots roots' Hr; simpl.
  - auto.
  - destruct (IdSet.has visited (Person.id p)); [now apply IH|].
    pose proof (buildTree_same tv64 tv srt people fuel visited (Person.id p)) as H.
    unfold SameResult in H.
    destruct (Binary64.buildTree tv64 srt people fuel visited (Person.id p)) as [[v [n|]]|],
             (buildTree tv srt people fuel visited (Person.id p)) as [[v' [n'|]]|];
      try contradiction.
    + destruct H as [<- Hn]. apply IH. apply Forall2_app; [exact Hr | now constructor].
    + subst v'. now apply IH.
    + rewrite Hnone, buildRoots_None. exact I.
Qed.

Lemma SameNodes_inv r64 r :
  SameNodes r64 r ->
  (r64 = None /\ r = None)
  \/ exists v ns ns', r64 = Some (v, ns) /\ r = Some (v, ns') /\ Forall2 SameTree ns ns'.
Proof.
  unfold SameNodes. destruct r64 as [[v ns]|], r as [[v' ns']|]; try contradiction.
  - intros [<- H]. right. exists v, ns, ns'. auto.
  - now left.
Qed.

Lemma buildForest_same tv64 tv srt fuel people generations :
  match Binary64.buildForest tv64 srt fuel people generations,
        buildForest tv srt fuel people generations with
  | Some roots, Some roots' => Forall2 SameTree roots roots'
  | None, None => True
  | _, _ => False
  end.
Proof.
  unfold Binary64.buildForest, buildForest.
  destruct (rootClusters srt fuel people _) as [clusters|]; [|exact I].
  assert (Hgen : forall r64 r,
             SameNodes r64 r ->
             match match r64 with
                   | Some st => option_map snd (Binary64.buildRoots tv64 srt people fuel people st)
                   | None => None
                   end,
                   match r with
                   | Some st => option_map snd (buildRoots tv srt people fuel people st)
                   | None => None
                   end with
             | Some roots, Some roots' => Forall2 SameTree roots roots'
             | None, None => True
             | _, _ => False
             end).
  { intros r64 r H. destruct (SameNodes_inv _ _ H) as [[-> ->] | [v [ns [ns' [-> [-> Hr]]]]]];
      [exact I|].
    destruct (SameNodes_inv _ _ (buildRoots_same tv64 tv srt people fuel people v ns ns' Hr))
      as [[E E'] | [v2 [ms [ms' [E [E' Hm]]]]]]; rewrite E, E'; simpl; auto. }
  apply Hgen. apply buildRoots_same. constructor.
Qed.

(** Every person of the list is in exactly one tree of the forest. *)
Lemma buildForest_covers64 tv64 srt fuel people generations roots :
  Binary64.buildForest tv64 srt fuel people generations = Some roots ->
  (forall p, In p people -> In (Person.id p) (flat_map nodeIds64 roots))
  /\ NoDup (flat_map nodeIds64 roots)
  /\ (forall k, In k (flat_map nodeIds64 roots) -> known people k).
Proof.
  intro E. pose proof (buildForest_same tv64 TreeView.new srt fuel people generations) as H.
  rewrite E in H.
  destruct (buildForest TreeView.new srt fuel people generations) as [roots'|] eqn:E';
    [|contradiction].
  rewrite (SameTree_forest _ _ H). exact (buildForest_covers _ _ _ _ _ _ E').
Qed.

Lemma buildForest_terminates64 tv64 srt fuel people generations :
  (length people < fuel)%nat ->
  exists roots, Binary64.buildForest tv64 srt fuel people generations = Some roots.
Proof.
  intro Hf. pose proof (buildForest_same tv64 TreeView.new srt fuel people generations) as H.
  destruct (buildForest_terminates TreeView.new srt fuel people generations Hf) as [roots' E'].
  rewrite E' in H.
  destruct (Binary64.buildForest tv64 srt fuel people generations) as [roots|];
    [eauto | contradiction].
Qed.

(** ** The keys of a relative layout *)

Lemma IdSet_addAll_app (s : IdSet.t) (a b : list PersonId) :
  IdSet.addAll s (a ++ b) = IdSet.addAll (IdSet.addAll s a) b.
Proof. unfold IdSet.addAll. apply fold_left_app. Qed.

Lemma layoutPartners_keys64 tv partners : forall cx y rel,
  JsMap.keys (Binary64.layoutPartners tv partners cx y rel)
  = IdSet.addAll (JsMap.keys rel) (map Person.id partners).
Proof.
  induction partners as [|p ps IH]; intros cx y rel; simpl; [reflexivity|].
  rewrite IH, JsMap_set_keys_add. reflexivity.
Qed.

Lemma layoutChildren_keys64 tv y' children :
  Forall (fun c => forall x y rel,
              JsMap.keys (Binary64.calcRelative tv c x y rel)
              = IdSet.addAll (JsMap.keys rel) (nodeIds64 c)) children ->
  forall childX rel,
    JsMap.keys (Binary64.layoutChildren tv
                  (fun child childX rel => Binary64.calcRelative tv child childX y' rel)
                  children childX rel)
    = IdSet.addAll (JsMap.keys rel) (flat_map nodeIds64 children).
Proof.
  induction 1 as [|c cs Hc _ IH]; intros childX rel; simpl; [reflexivity|].
  rewrite IH, Hc, IdSet_addAll_app. reflexivity.
Qed.

Lemma calcRelative_keys64 tv node : forall x y rel,
  JsMap.keys (Binary64.calcRelative tv node x y rel)
  = IdSet.addAll (JsMap.keys rel) (nodeIds64 node).
Proof.
  induction node as [person partners children cw tw IH] using Node_induction64.
  intros x y rel. cbn [Binary64.calcRelative nodeIds64].
  rewrite (layoutChildren_keys64 tv _ children IH), layoutPartners_keys64,
    JsMap_set_keys_add.
  change (IdSet.addAll (JsMap.keys rel)
            (Person.id person :: map Person.id partners ++ flat_map nodeIds64 children))
    with (IdSet.addAll (IdSet.add (JsMap.keys rel) (Person.id person))
            (map Person.id partners ++ flat_map nodeIds64 children)).
  now rewrite IdSet_addAll_app.
Qed.

Lemma makeLayout_keys64 tv people root :
  NoDup (nodeIds64 root) ->
  layoutKeys64 (Binary64.makeLayout tv people root) = nodeIds64 root.
Proof.
  intro H. unfold layoutKeys64, Binary64.makeLayout. simpl.
  rewrite calcRelative_keys64. apply (IdSet_ofList_NoDup_id _ H).
Qed.

Lemma flat_map_NoDup_each {A B : Type} (f : A -> list B) (l : list A) a :
  NoDup (flat_map f l) -> In a l -> NoDup (f a).
Proof.
  induction l as [|b l IH]; simpl; intros H Hin; [destruct Hin|].
  destruct Hin as [-> | Hin].
  - exact (NoDup_app_remove_r _ _ H).
  - apply IH; [|exact Hin]. exact (NoDup_app_remove_l _ _ H).
Qed.

(** ** The binary64 pass as a whole *)

Definition emptyLayout64 : Binary64.Layout :=
  {| Binary64.repaired := []; Binary64.generations := []; Binary64.roots := [];
     Binary64.placer := Binary64.start [] |}.

(** The layouts the placement loop of a call starts from. *)
Definition layoutsOf (tv : Binary64.TreeView.t) (r : Binary64.Layout)
  : list Binary64.RootLayout.t :=
  map (Binary64.makeLayout tv (Binary64.repaired r)) (Binary64.roots r).

Lemma calculateLayout_Returned64 tv srt fuel people r :
  Binary64.calculateLayout tv srt fuel people = Returned r ->
  (people = [] /\ r = emptyLayout64)
  \/ (people <> []
      /\ Binary64.repaired r = repairLinks people
      /\ assignGenerations fuel (Binary64.repaired r) = Some (Binary64.generations r)
      /\ Binary64.buildForest tv srt fuel (Binary64.repaired r) (Binary64.generations r)
         = Some (Binary64.roots r)
      /\ Binary64.placeComponents tv (layoutsOf tv r) = Some (Binary64.placer r)).
Proof.
  unfold Binary64.calculateLayout, layoutsOf. destruct people as [|p ps].
  - intros [= <-]. now left.
  - destruct (assignGenerations fuel (repairLinks (p :: ps))) as [gens|] eqn:Eg;
      [|discriminate].
    destruct (Binary64.buildForest tv srt fuel (repairLinks (p :: ps)) gens) as [rs|] eqn:Ef;
      [|discriminate].
    destruct (Binary64.placeComponents tv _) as [st|] eqn:Ep; [|discriminate].
    intros [= <-]. right. split; [discriminate|]. simpl. auto.
Qed.

Lemma makeLayouts_unplaced64 tv people roots :
  Forall (fun l => Binary64.RootLayout.placed l = false)
         (map (Binary64.makeLayout tv people) roots).
Proof.
  apply Forall_forall. intros l H. apply in_map_iff in H. destruct H as [n [<- _]].
  reflexivity.
Qed.

Lemma makeLayouts_keys64 tv people roots :
  NoDup (flat_map nodeIds64 roots) ->
  map layoutKeys64 (map (Binary64.makeLayout tv people) roots) = map nodeIds64 roots.
Proof.
  intro H. rewrite map_map. apply map_ext_in. intros root Hr.
  apply makeLayout_keys64. exact (flat_map_NoDup_each nodeIds64 roots root H Hr).
Qed.

(** The book-keeping facts of a returning call: the layouts hold the ids
    of the trees, no id twice, and the final state is the state of the
    loop after its 100 rounds. *)
Lemma calculateLayout_tracks64 tv srt fuel people r :
  Binary64.calculateLayout tv srt fuel people = Returned r ->
  map layoutKeys64 (layoutsOf tv r) = map nodeIds64 (Binary64.roots r)
  /\ NoDup (concat (map layoutKeys64 (layoutsOf tv r)))
  /\ Binary64.placeLoop tv 100 (Binary64.start (layoutsOf tv r)) = Some (Binary64.placer r)
  /\ (forall p, In p people -> In (Person.id p) (flat_map nodeIds64 (Binary64.roots r))).
Proof.
  intro H.
  destruct (calculateLayout_Returned64 _ _ _ _ _ H) as [[-> ->] | [Hne [R1 [R2 [R3 R4]]]]].
  - simpl. repeat split; try constructor. intros p [].
  - destruct (buildForest_covers64 _ _ _ _ _ _ R3) as [C1 [C2 C3]].
    assert (Hk : map layoutKeys64 (layoutsOf tv r) = map nodeIds64 (Binary64.roots r))
      by (apply makeLayouts_keys64, C2).
    split; [exact Hk|]. split; [|split; [exact R4|]].
    + rewrite Hk, <- flat_map_concat_map. exact C2.
    + intros p Hp. rewrite R1 in C1.
      assert (Hkn : known (repairLinks people) (Person.id p)).
      { apply known_repairLinks. unfold known. now apply in_map. }
      apply known_get in Hkn. destruct Hkn as [q Hq].
      destruct (personMap_get_Some _ _ _ Hq) as [Hin Hid]. rewrite <- Hid. apply C1, Hin.
Qed.

(** With enough fuel the binary64 pass returns. *)
Lemma calculateLayout_returns64 tv srt fuel people :
  (fuelFor people <= fuel)%nat ->
  exists r, Binary64.calculateLayout tv srt fuel people = Returned r.
Proof.
  unfold fuelFor. intro Hf. unfold Binary64.calculateLayout.
  destruct people as [|p ps]; [eauto|].
  set (people := repairLinks (p :: ps)) in *.
  destruct (assignGenerations_returns people fuel ltac:(lia)) as [g0 [Eg _]].
  rewrite Eg.
  pose proof (idsMentioned_length people) as Hlen.
  destruct (buildForest_terminates64 tv srt fuel people (normalize g0) ltac:(lia))
    as [rs Er]. rewrite Er.
  destruct (placeLoop_total64 tv 100 (Binary64.start (map (Binary64.makeLayout tv people) rs)))
    as [st [Es _]].
  unfold Binary64.placeComponents. rewrite Es. eauto.
Qed.

(** ** Reading binary64 positions as real numbers *)






(** C3.  The placement never raises and, with enough fuel for the
    recursion of the model, the pass returns; the scheduler returns on
    every list of layouts after at most 100 rounds; a returning call ran
    at most 100 rounds and committed exactly one layout in each; it
    stopped before the hundredth round only with every layout placed;
    the layouts are those of the trees, one per tree, with the ids of the
    tree; the people of a layout left unplaced have no entry in the
    position map; and every person of a committed layout has the entry
    the commit wrote: [(finalX + rel.x, 100 + rel.y)], in binary64. *)
Theorem placement_stops_within_cap tv srt fuel people :
  Binary64.calculateLayout tv srt fuel people <> Thrown
  /\ ((fuelFor people <= fuel)%nat ->
      exists r, Binary64.calculateLayout tv srt fuel people = Returned r)
  /\ (forall layouts,
        exists st, Binary64.placeComponents tv layouts = Some st
                   /\ (Binary64.safetyCounter st <= 100)%nat)
  /\ forall r,
      Binary64.calculateLayout tv srt fuel people = Returned r ->
      let st := Binary64.placer r in
      (Binary64.safetyCounter st <= 100)%nat
      /\ placedCount64 (Binary64.rootLayouts st) = Binary64.safetyCounter st
      /\ (somePending64 st = false \/ Binary64.safetyCounter st = 100%nat)
      /\ map layoutKeys64 (Binary64.rootLayouts st) = map nodeIds64 (Binary64.roots r)
      /\ (forall l k,
             In l (Binary64.rootLayouts st) -> Binary64.RootLayout.placed l = false ->
             In k (layoutKeys64 l) -> JsMap.get (Binary64.positions st) k = None)
      /\ (forall l k rel,
             In l (Binary64.rootLayouts st) -> Binary64.RootLayout.placed l = true ->
             In (k, rel) (Binary64.RootLayout.relativePositions l) ->
             JsMap.get (Binary64.positions st) k
             = Some (Binary64.Pos.mk
                       (PrimFloat.add (Binary64.RootLayout.finalX l) (Binary64.Pos.x rel))
                       (PrimFloat.add 100 (Binary64.Pos.y rel)))).
Proof.
  split.
  - unfold Binary64.calculateLayout. destruct people as [|p ps]; [discriminate|].
    destruct (assignGenerations fuel _) as [gens|]; [|discriminate].
    destruct (Binary64.buildForest tv srt fuel _ gens) as [rs|]; [|discriminate].
    destruct (placeLoop_total64 tv 100
                (Binary64.start (map (Binary64.makeLayout tv (repairLinks (p :: ps))) rs)))
      as [st [Es _]].
    unfold Binary64.placeComponents. rewrite Es. discriminate.
  - split; [apply calculateLayout_returns64|]. split.
    { intro layouts. destruct (placeLoop_total64 tv 100 (Binary64.start layouts))
        as [st [Es Hc]].
      exists st. split; [exact Es | exact Hc]. }
    intros r H st.
    destruct (calculateLayout_tracks64 _ _ _ _ _ H) as [Hkeys [Hnd [Hfinal _]]].
    pose proof (makeLayouts_unplaced64 tv (Binary64.repaired r) (Binary64.roots r)) as Hun.
    fold (layoutsOf tv r) in Hun.
    destruct (placeLoop_Tracks64 tv (layoutsOf tv r) 100 Hun Hnd) as [st0 [Hst0 [T [Hc Hx]]]].
    rewrite Hfinal in Hst0. injection Hst0 as <-. fold st in T, Hc, Hx.
    split; [exact Hc|]. split; [apply (tracks_count64 _ _ T)|]. split; [exact Hx|].
    split; [rewrite (tracks_keys64 _ _ T); exact Hkeys|]. split.
    + intros l k Hl Hunp Hk. apply JsMap_get_None.
      apply In_nth_error in Hl. destruct Hl as [i Hi].
      exact (Tracks_fresh64 _ st i l k Hnd T Hi Hunp Hk).
    + intros l k rel Hl Hp Hrel. exact (tracks_values64 _ _ T l k rel Hl Hp Hrel).
Qed.

(** * Shifting placed nodes *)

Section Shift64.
Import Binary64.
Local Open Scope float_scope.

Lemma hitsStatic_clear64 tv positions shiftX pos moving :
  hitsStatic tv positions shiftX pos moving = Some false ->
  forall m mp, In m moving -> JsMap.get positions m = Some mp ->
               shiftCollides tv (Pos.x mp + shiftX) (Pos.y mp) pos = false.
Proof.
  induction moving as [|m0 rest IH]; simpl; intros H m mp Hin Hg; [destruct Hin|].
  destruct (JsMap.get positions m0) as [mp0|] eqn:E0; [|discriminate].
  destruct (shiftCollides tv (Pos.x mp0 + shiftX) (Pos.y mp0) pos) eqn:Ec; [discriminate|].
  destruct Hin as [<- | Hin].
  - rewrite E0 in Hg. injection Hg as <-. exact Ec.
  - now apply IH with m.
Qed.

Lemma canSafelyShiftFrom_clear64 tv positions moving shiftX entries :
  canSafelyShiftFrom tv positions moving shiftX entries = Some true ->
  forall id pos m mp,
    In (id, pos) entries -> ~ In id moving ->
    In m moving -> JsMap.get positions m = Some mp ->
    shiftCollides tv (Pos.x mp + shiftX) (Pos.y mp) pos = false.
Proof.
  induction entries as [|[id0 pos0] rest IH]; simpl; intros H id pos m mp Hin Hn Hm Hg;
    [destruct Hin|].
  destruct (IdSet.has moving id0) eqn:Eh.
  - destruct Hin as [[= -> ->] | Hin]; [|now apply IH with id m].
    apply includes_In in Eh. contradiction.
  - destruct (hitsStatic tv positions shiftX pos0 moving) as [[|]|] eqn:Es; try discriminate.
    destruct Hin as [[= -> ->] | Hin]; [|now apply IH with id m].
    now apply (hitsStatic_clear64 _ _ _ _ _ Es m mp).
Qed.

Lemma JsMap_set_keys_same {V : Type} (m : JsMap.t V) k v :
  In k (JsMap.keys m) -> JsMap.keys (JsMap.set m k v) = JsMap.keys m.
Proof.
  unfold JsMap.keys. induction m as [|[k0 v0] m IH]; simpl; [intros []|].
  destruct (String.eqb k0 k) eqn:E; simpl; [reflexivity|].
  apply String.eqb_neq in E. intros [H | H]; [congruence|]. now rewrite IH.
Qed.

(** The position [applyShift] gives a node: [{ x: pos.x + shiftX, y: pos.y }]. *)
Definition shifted64 (shiftX : float) (pos : Pos.t) : Pos.t :=
  Pos.mk (Pos.x pos + shiftX) (Pos.y pos).

(** [applyShift] moves every id of the set once and nothing else. *)
Lemma applyShift_spec64 shiftX moving : forall positions,
  NoDup moving ->
  (forall id, In id moving -> In id (JsMap.keys positions)) ->
  exists positions',
    applyShift positions moving shiftX = Some positions'
    /\ JsMap.keys positions' = JsMap.keys positions
    /\ forall k, JsMap.get positions' k
                 = if includes moving k
                   then option_map (shifted64 shiftX) (JsMap.get positions k)
                   else JsMap.get positions k.
Proof.
  unfold applyShift. induction moving as [|m rest IH]; intros positions Hnd Hall; simpl.
  - exists positions. auto.
  - inversion Hnd as [|? ? Hm Hrest]; subst.
    destruct (JsMap.get positions m) as [pos|] eqn:Eg.
    2:{ apply JsMap_get_None in Eg. exfalso. apply Eg, Hall. now left. }
    destruct (IH (JsMap.set positions m (Pos.mk (Pos.x pos + shiftX) (Pos.y pos))) Hrest)
      as [positions' [E [Hk Hg]]].
    + intros id Hid. apply JsMap_set_keys. left. apply Hall. now right.
    + exists positions'. split; [exact E|]. split.
      * rewrite Hk. apply JsMap_set_keys_same. apply Hall. now left.
      * intro k. rewrite Hg. destruct (String.eqb k m) eqn:Ekm.
        -- apply String.eqb_eq in Ekm. subst k.
           assert (Ei : includes rest m = false) by now apply includes_not_In.
           rewrite Ei, JsMap_get_set_same, Eg. reflexivity.
        -- apply String.eqb_neq in Ekm. rewrite JsMap_get_set_other by exact Ekm.
           reflexivity.
Qed.

(** X14.  A shift that [canSafelyShift] accepts, for a set of moving ids
    that all have positions: [applyShift] returns without error, keeps
    the keys, gives every moving node [(x + shiftX, y)], computed in
    binary64, and leaves every other position as it is; and afterwards
    the overlap test of [canSafelyShift] (x-ranges, extended by the gap,
    that meet, on rows less than [nodeHeight] apart) is false between
    every node that moved and every node that stayed. *)
Theorem accepted_shift_clears_the_nodes_that_stay tv positions movingNodeIds shiftX :
  NoDup movingNodeIds ->
  (forall id, In id movingNodeIds -> In id (JsMap.keys positions)) ->
  canSafelyShift tv positions movingNodeIds shiftX = Some true ->
  exists positions',
    applyShift positions movingNodeIds shiftX = Some positions'
    /\ JsMap.keys positions' = JsMap.keys positions
    /\ (forall k, JsMap.get positions' k
                  = if includes movingNodeIds k
                    then option_map (shifted64 shiftX) (JsMap.get positions k)
                    else JsMap.get positions k)
    /\ forall movedId movedPos stayedId stayedPos,
        In movedId movingNodeIds -> ~ In stayedId movingNodeIds ->
        JsMap.get positions' movedId = Some movedPos ->
        JsMap.get positions' stayedId = Some stayedPos ->
        ((Pos.x movedPos <? Pos.x stayedPos + TreeView.nodeWidth tv + TreeView.horizontalGap tv)
         && (Pos.x stayedPos
             <? Pos.x movedPos + TreeView.nodeWidth tv + TreeView.horizontalGap tv))
        && (PrimFloat.abs (Pos.y movedPos - Pos.y stayedPos) <? TreeView.nodeHeight tv)
        = false.
Proof.
  intros Hnd Hall Hsafe.
  destruct (applyShift_spec64 shiftX movingNodeIds positions Hnd Hall) as [positions' [E [Hk Hg]]].
  exists positions'. split; [exact E|]. split; [exact Hk|]. split; [exact Hg|].
  intros m mp s sp Hm Hs Hgm Hgs.
  rewrite Hg in Hgm, Hgs.
  rewrite (proj2 (includes_In _ _) Hm) in Hgm.
  rewrite (proj2 (includes_not_In _ _) Hs) in Hgs.
  destruct (JsMap.get positions m) as [mp0|] eqn:Em; [|discriminate].
  injection Hgm as <-.
  change (shiftCollides tv (Pos.x mp0 + shiftX) (Pos.y mp0) sp = false).
  apply (canSafelyShiftFrom_clear64 tv positions movingNodeIds shiftX positions Hsafe
           s sp m mp0); auto.
  now apply JsMap_get_In.
Qed.

End Shift64.

(** * Worked inputs *)

Local Open Scope string_scope.

Definition member (id : PersonId) (parents children partners : list PersonId) : Person.t :=
  Person.mk id EmptyString EmptyString (Rel.mk parents children partners) [].

Definition soloPerson (id : PersonId) : Person.t := member id [] [] [].

(** Zoe and Quinn are partners; Ben is the child of Quinn and Pat; Pat
    and Sam are partners.  The relationships are consistent: [repairData]
    leaves them as they are. *)
Definition blendedFamily : list Person.t :=
  [ member "zoe" [] [] ["quinn"];
    member "quinn" [] ["ben"] ["zoe"];
    member "ben" ["quinn"; "pat"] [] [];
    member "pat" [] ["ben"] ["sam"];
    member "sam" [] [] ["pat"] ].

(** [n] people without any relationship, with ids of one character. *)
Definition crowd (n : nat) : list Person.t :=
  map (fun k => soloPerson (String (Ascii.ascii_of_nat k) EmptyString)) (seq 1 n).

(** A store in need of repair: a duplicated parent link that is not
    listed back, and a partner link that is not listed back. *)
Definition tornStore : list Person.t :=
  [ member "ann" ["bob"; "bob"] [] ["cy"];
    member "bob" [] [] [];
    member "cy" [] [] [] ].


Lemma inputOrder_SortsInPlace : SortsInPlace inputOrder.
Proof. split; intros; apply Permutation_refl. Qed.

Local Close Scope string_scope.

(** C2, counterexample.  101 people without relationships are 101 trees;
    the loop places 100 of them, and the last person, although consumed
    by a tree of the forest, has no entry in the position map. *)
Lemma crowd_of_101_leaves_one_out :
  exists r,
    calculateLayout TreeView.new inputOrder 102 (crowd 101) = Returned r
    /\ includes (forestIds (roots r)) (String (Ascii.ascii_of_nat 101) EmptyString) = true
    /\ JsMap.has (positions (placer r)) (String (Ascii.ascii_of_nat 101) EmptyString) = false
    /\ safetyCounter (placer r) = 100%nat.
Proof.
  eexists. split; [vm_compute; reflexivity|].
  split; [vm_compute; reflexivity|]. split; vm_compute; reflexivity.
Qed.

(** C8, counterexample.  A single person is placed at [(160, 100)], not
    at [(100, 100)]. *)
Lemma single_person_is_at_160 :
  exists r pos,
    calculateLayout TreeView.new inputOrder 2 [soloPerson "a"%string] = Returned r
    /\ JsMap.get (positions (placer r)) "a"%string = Some pos
    /\ Pos.x pos == 160 /\ Pos.y pos == 100 /\ 100 < Pos.x pos.
Proof.
  eexists. eexists. split; [vm_compute; reflexivity|].
  split; [vm_compute; reflexivity|]. repeat split; vm_compute; reflexivity.
Qed.

(** C10, counterexample.  In the blended family the tree of Zoe, Quinn
    and Ben is appended first; the couple Pat and Sam is then centred on
    its anchor Ben at x = 70, collides, is pushed left, and fits at
    x = -280: Pat and Sam get negative x coordinates. *)
Lemma blended_family_goes_negative :
  exists r pat sam,
    calculateLayout TreeView.new inputOrder 20 blendedFamily = Returned r
    /\ repairData blendedFamily = (blendedFamily, false)
    /\ JsMap.get (positions (placer r)) "pat"%string = Some pat
    /\ JsMap.get (positions (placer r)) "sam"%string = Some sam
    /\ Pos.x pat == -280 /\ Pos.x sam == -60
    /\ Pos.x pat < 0 /\ Pos.x sam < 0.
Proof.
  eexists. eexists. eexists. split; [vm_compute; reflexivity|].
  split; [vm_compute; reflexivity|]. split; [vm_compute; reflexivity|].
  split; [vm_compute; reflexivity|]. repeat split; vm_compute; reflexivity.
Qed.

(** * The theorems at the worked inputs *)

Local Open Scope string_scope.

Lemma tornStore_distinct : NoDup (map Person.id tornStore).
Proof.
  simpl. repeat constructor; simpl; intuition discriminate.
Defined.

Lemma every_person_positioned_within_cap_witness :
  exists r,
    calculateLayout TreeView.new inputOrder 20 blendedFamily = Returned r
    /\ ((length (roots r) <= 100)%nat -> capNotExhausted (placer r))
    /\ (capNotExhausted (placer r) ->
        forall p, In p blendedFamily ->
          exists pos,
            JsMap.get (positions (placer r)) (Person.id p) = Some pos
            /\ forall pos', In (Person.id p, pos') (positions (placer r)) -> pos' = pos)
    /\ snd (renderGhostNodes TreeView.new (repaired r) (positions (placer r)))
       = positions (placer r).
Proof.
  apply (every_person_positioned_within_cap TreeView.new inputOrder 20 blendedFamily).
  vm_compute. lia.
Defined.

Lemma repairData_idempotent_witness :
  repairData (fst (repairData tornStore)) = (fst (repairData tornStore), false)
  /\ snd (repairData tornStore) = true.
Proof.
  split; [exact (repairData_idempotent tornStore tornStore_distinct) | reflexivity].
Defined.

Lemma generations_total_and_normalized_witness :
  exists gens,
    assignGenerations 20 blendedFamily = Some gens
    /\ (forall p, In p blendedFamily -> exists g, JsMap.get gens (Person.id p) = Some g)
    /\ (forall k g, In (k, g) gens -> (0 <= g)%Z)
    /\ (exists k, In (k, 0%Z) gens).
Proof.
  apply (generations_total_and_normalized blendedFamily 20).
  - discriminate.
  - vm_compute. lia.
Defined.

Lemma nodes_have_couple_and_total_width_witness :
  exists visited' node,
    buildTree TreeView.new inputOrder blendedFamily 6 [] "zoe" = Some (visited', Some node)
    /\ WidthsOk TreeView.new node.
Proof.
  eexists. eexists. split; [vm_compute; reflexivity|].
  eapply (nodes_have_couple_and_total_width TreeView.new inputOrder blendedFamily 6
            [] "zoe"%string).
  - discriminate.
  - discriminate.
  - vm_compute. reflexivity.
Defined.

Lemma single_person_layout_witness :
  exists r node pos,
    calculateLayout TreeView.new inputOrder 2 [soloPerson "a"] = Returned r
    /\ roots r = [node]
    /\ Node.partners node = [] /\ Node.children node = []
    /\ Node.totalWidth node == TreeView.nodeWidth TreeView.new
    /\ positions (placer r) = [("a"%string, pos)]
    /\ Pos.x pos == 100 + TreeView.horizontalGap TreeView.new * 1.5
    /\ Pos.y pos == 100.
Proof.
  apply (single_person_layout TreeView.new inputOrder 2 "a"%string
           EmptyString EmptyString []).
  - discriminate.
  - exact inputOrder_SortsInPlace.
  - lia.
Defined.


Lemma positions_on_or_below_base_row_witness :
  exists r pos,
    calculateLayout TreeView.new inputOrder 20 blendedFamily = Returned r
    /\ JsMap.get (positions (placer r)) "zoe" = Some pos
    /\ 100 <= Pos.y pos
    /\ exists l,
        In l (rootLayouts (placer r)) /\ RootLayout.placed l = true
        /\ In "zoe"%string (layoutKeys l)
        /\ (RootLayout.anchors l = [] ->
            100 + TreeView.horizontalGap TreeView.new * 1.5 <= Pos.x pos).
Proof.
  eexists. eexists. split; [vm_compute; reflexivity|].
  split; [vm_compute; reflexivity|].
  apply (positions_on_or_below_base_row TreeView.new inputOrder 20 blendedFamily).
  - discriminate.
  - discriminate.
  - discriminate.
  - vm_compute. reflexivity.
  - vm_compute. reflexivity.
Defined.

(** * The data store at the worked inputs *)

Lemma blendedFamily_distinct : NoDup (map Person.id blendedFamily).
Proof.
  simpl. repeat constructor; simpl; intuition discriminate.
Defined.

Lemma blendedFamily_consistent : Mirrored blendedFamily /\ Deduplicated blendedFamily.
Proof.
  destruct (repairData_Heals blendedFamily blendedFamily_distinct) as [_ [Hm Hd]].
  assert (E : fst (repairData blendedFamily) = blendedFamily) by (vm_compute; reflexivity).
  rewrite E in Hm, Hd. split; assumption.
Defined.

Lemma blendedFamily_known id :
  In id ["zoe"; "quinn"; "ben"; "pat"; "sam"] -> known blendedFamily id.
Proof. intro H. exact H. Defined.

Lemma blendedFamily_no_link k a b pa :
  personMap_get blendedFamily a = Some pa -> includes (listOf k pa) b = false ->
  ~ link blendedFamily k a b.
Proof.
  intros Hpa Hb [pa' [Hpa' Hin]]. rewrite Hpa in Hpa'. injection Hpa' as <-.
  apply includes_not_In in Hb. contradiction.
Defined.

Lemma addRelationship_adds_the_link_and_its_reverse_witness :
  link (fst (addRelationship blendedFamily "sam" "ben" "child")) Children "sam" "ben"
  /\ link (fst (addRelationship blendedFamily "sam" "ben" "child")) Parents "ben" "sam".
Proof.
  apply (addRelationship_adds_the_link_and_its_reverse blendedFamily "sam" "ben" "child");
    [apply blendedFamily_known; simpl; auto 10 .. | reflexivity].
Defined.

Lemma addRelationship_keeps_the_store_consistent_witness :
  repairData (fst (addRelationship blendedFamily "sam" "ben" "child"))
  = (fst (addRelationship blendedFamily "sam" "ben" "child"), false)
  /\ repairLinks (fst (addRelationship blendedFamily "sam" "ben" "child"))
     = fst (addRelationship blendedFamily "sam" "ben" "child").
Proof.
  apply (addRelationship_keeps_the_store_consistent blendedFamily "sam" "ben" "child"
           blendedFamily_distinct (proj1 blendedFamily_consistent)
           (proj2 blendedFamily_consistent)).
Defined.

Lemma addRelationship_parent_is_child_reversed_witness :
  addRelationship blendedFamily "ben" "sam" "parent"
  = addRelationship blendedFamily "sam" "ben" "child".
Proof.
  exact (addRelationship_parent_is_child_reversed blendedFamily "ben" "sam"
           blendedFamily_distinct).
Defined.

Lemma removeRelationship_undoes_addRelationship_witness :
  removeRelationship (fst (addRelationship blendedFamily "sam" "ben" "child"))
                     "sam" "ben" "child"
  = (blendedFamily, true).
Proof.
  apply (removeRelationship_undoes_addRelationship blendedFamily "sam" "ben" "child"
           Children blendedFamily_distinct).
  - apply blendedFamily_known. simpl. auto 10.
  - apply blendedFamily_known. simpl. auto 10.
  - reflexivity.
  - eapply blendedFamily_no_link; reflexivity.
  - eapply blendedFamily_no_link; reflexivity.
Defined.

Lemma removeRelationship_removes_the_link_and_its_reverse_witness :
  snd (removeRelationship blendedFamily "pat" "sam" "partner") = true
  /\ ~ link (fst (removeRelationship blendedFamily "pat" "sam" "partner"))
            Partners "pat" "sam"
  /\ ~ link (fst (removeRelationship blendedFamily "pat" "sam" "partner"))
            Partners "sam" "pat"
  /\ Mirrored (fst (removeRelationship blendedFamily "pat" "sam" "partner")).
Proof.
  destruct (removeRelationship_removes_the_link_and_its_reverse
              blendedFamily "pat" "sam" "partner") as [H1 [_ [H3 _]]].
  - apply blendedFamily_known. simpl. auto 10.
  - apply blendedFamily_known. simpl. auto 10.
  - destruct (H3 Partners eq_refl) as [Hl [Hm _]].
    split; [exact H1|]. split; [|split].
    + intro H. apply Hl in H. destruct H as [_ [H _]]. apply H. auto.
    + intro H. apply Hl in H. destruct H as [_ [_ H]]. apply H. auto.
    + exact (Hm (proj1 blendedFamily_consistent)).
Defined.

Lemma operations_on_a_missing_person_witness :
  ~ known blendedFamily "max"
  /\ addRelationship blendedFamily "max" "ben" "parent" = (blendedFamily, false)
  /\ deletePerson blendedFamily "max" = (blendedFamily, false)
  /\ getSiblings blendedFamily "max" = [].
Proof.
  assert (Hn : ~ known blendedFamily "max").
  { unfold known. simpl. intuition discriminate. }
  destruct (operations_on_a_missing_person blendedFamily "max" "ben" "parent" Hn)
    as [H1 [_ [_ [_ [H5 [H6 _]]]]]].
  auto.
Defined.

Lemma deletePerson_leaves_no_reference_witness :
  snd (deletePerson blendedFamily "pat") = true
  /\ ~ known (fst (deletePerson blendedFamily "pat")) "pat"
  /\ ~ link (fst (deletePerson blendedFamily "pat")) Parents "ben" "pat"
  /\ link (fst (deletePerson blendedFamily "pat")) Parents "ben" "quinn"
  /\ repairData (fst (deletePerson blendedFamily "pat"))
     = (fst (deletePerson blendedFamily "pat"), false).
Proof.
  destruct (deletePerson_leaves_no_reference blendedFamily "pat" blendedFamily_distinct
              (proj1 blendedFamily_consistent) (proj2 blendedFamily_consistent))
    as [H1 [H2 [H3 [_ [_ H6]]]]].
  - apply blendedFamily_known. simpl. auto 10.
  - split; [exact H1|]. split; [|split; [|split; [|exact H6]]].
    + intro H. apply H2 in H. destruct H as [_ H]. now apply H.
    + intro H. apply H3 in H. destruct H as [_ [_ H]]. now apply H.
    + apply H3. split; [|split; discriminate].
      eexists. split; [reflexivity|]. simpl. auto.
Defined.

(** Ben has two half-siblings-to-be: Ada and Cleo are children of Quinn
    as well. *)
Definition threeChildren : list Person.t :=
  [ member "quinn" [] ["ben"; "ada"; "cleo"] [];
    member "ben" ["quinn"] [] [];
    member "ada" ["quinn"] [] [];
    member "cleo" ["quinn"] [] [] ].

Lemma threeChildren_consistent : Mirrored threeChildren.
Proof.
  assert (Hnd : NoDup (map Person.id threeChildren)).
  { simpl. repeat constructor; simpl; intuition discriminate. }
  destruct (repairData_Heals threeChildren Hnd) as [_ [Hm _]].
  assert (E : fst (repairData threeChildren) = threeChildren) by (vm_compute; reflexivity).
  now rewrite E in Hm.
Defined.

Lemma getSiblings_is_symmetric_witness :
  map Person.id (getSiblings threeChildren "ben") = ["ada"; "cleo"]
  /\ forall q, In q (getSiblings threeChildren "ben") ->
               In (member "ben" ["quinn"] [] []) (getSiblings threeChildren (Person.id q)).
Proof.
  split; [reflexivity|].
  apply (getSiblings_is_symmetric threeChildren "ben" (member "ben" ["quinn"] [] [])
           threeChildren_consistent eq_refl).
Defined.

Lemma getPartners_is_symmetric_witness :
  map Person.id (getPartners blendedFamily "quinn") = ["zoe"; "pat"]
  /\ forall q, In q (getPartners blendedFamily "quinn") ->
               In (member "quinn" [] ["ben"] ["zoe"]) (getPartners blendedFamily (Person.id q)).
Proof.
  split; [reflexivity|].
  apply (getPartners_is_symmetric blendedFamily "quinn" (member "quinn" [] ["ben"] ["zoe"])
           (proj1 blendedFamily_consistent) eq_refl).
Defined.

Lemma splitLink_and_unsplitLink_witness :
  snd (splitLink blendedFamily "ben" "parent" "pat" "parent") = true
  /\ isLinkSplit (fst (splitLink blendedFamily "ben" "parent" "pat" "parent"))
                 "ben" "parent" "pat" = true
  /\ snd (unsplitLink blendedFamily "ben" "parent" "pat") = false.
Proof.
  destruct (splitLink_and_unsplitLink blendedFamily "ben" "parent" "pat" "parent")
    as [H1 [H2 [_ [H4 _]]]].
  - apply blendedFamily_known. simpl. auto 10.
  - split; [rewrite H1; reflexivity|]. split; [exact H2 | rewrite H4; reflexivity].
Defined.

Lemma dateToDisplay_inverts_dateToISO_witness :
  dateToISO "15/01/2020" = Some "2020-01-15"
  /\ dateToDisplay "2020-01-15" = "15/01/2020"
  /\ dateToISO (dateToDisplay "2020-01-15") = Some "2020-01-15".
Proof.
  split; [reflexivity|].
  exact (dateToDisplay_inverts_dateToISO "15/01/2020" "2020-01-15" eq_refl).
Defined.

Lemma tree_layout_is_compact_witness :
  exists visited' node,
    buildTree TreeView.new inputOrder blendedFamily 6 [] "zoe" = Some (visited', Some node)
    /\ RootLayout.width (makeLayout TreeView.new blendedFamily node) = Node.totalWidth node
    /\ NoOverlap TreeView.new
                 (RootLayout.relativePositions (makeLayout TreeView.new blendedFamily node)).
Proof.
  eexists. eexists. split; [vm_compute; reflexivity|].
  edestruct (tree_layout_is_compact TreeView.new inputOrder blendedFamily 6 [] "zoe"%string)
    as [_ [Hw [_ Hno]]].
  - discriminate.
  - discriminate.
  - discriminate.
  - discriminate.
  - vm_compute. reflexivity.
  - split; [exact Hw | exact Hno].
Defined.

Lemma only_people_of_the_list_are_positioned_witness :
  exists r,
    calculateLayout TreeView.new inputOrder 20 blendedFamily = Returned r
    /\ NoDup (JsMap.keys (positions (placer r)))
    /\ forall k pos, JsMap.get (positions (placer r)) k = Some pos ->
                     exists p, In p blendedFamily /\ Person.id p = k.
Proof.
  eexists. split; [vm_compute; reflexivity|].
  apply (only_people_of_the_list_are_positioned TreeView.new inputOrder 20 blendedFamily).
  vm_compute. reflexivity.
Defined.

Lemma layout_repair_loop_mirrors_parents_and_children_witness :
  link (repairLinks tornStore) Children "bob" "ann"
  /\ repairLinks (repairLinks tornStore) = repairLinks tornStore.
Proof.
  destruct (layout_repair_loop_mirrors_parents_and_children tornStore tornStore_distinct)
    as [_ [Hkeep [Hm [Hi _]]]].
  split; [|exact Hi].
  apply (Hm "ann" "bob").
  - unfold known. simpl. auto.
  - apply Hkeep. eexists. split; [reflexivity|]. simpl. auto.
Defined.

Lemma positions_are_on_generation_rows_witness :
  exists r pos,
    calculateLayout TreeView.new inputOrder 20 blendedFamily = Returned r
    /\ JsMap.get (positions (placer r)) "ben" = Some pos
    /\ Pos.y pos == 250
    /\ exists n : nat,
         Pos.y pos
         == 100 + inject_Z (Z.of_nat n) * TreeView.generationGap TreeView.new.
Proof.
  eexists. eexists. split; [vm_compute; reflexivity|].
  split; [vm_compute; reflexivity|]. split; [vm_compute; reflexivity|].
  refine (positions_are_on_generation_rows TreeView.new inputOrder 20 blendedFamily _ _
            "ben" _ _); vm_compute; reflexivity.
Defined.

Lemma addRelationship_sibling_shares_the_parents_witness :
  exists qa qb,
    personMap_get (fst (addRelationship blendedFamily "ben" "sam" "sibling")) "ben" = Some qa
    /\ personMap_get (fst (addRelationship blendedFamily "ben" "sam" "sibling")) "sam"
       = Some qb
    /\ In qb (getSiblings (fst (addRelationship blendedFamily "ben" "sam" "sibling")) "ben")
    /\ In qa (getSiblings (fst (addRelationship blendedFamily "ben" "sam" "sibling")) "sam").
Proof.
  destruct (addRelationship_sibling_shares_the_parents blendedFamily "ben" "sam"
              (member "ben" ["quinn"; "pat"] [] []) (proj1 blendedFamily_consistent) eq_refl)
    as [H _].
  - apply blendedFamily_known. simpl. auto 10.
  - discriminate.
  - apply H. exists "quinn". split; [simpl; auto|]. apply blendedFamily_known. simpl. auto 10.
Defined.

Lemma parents_of_a_common_child_are_partners_witness :
  exists q1 q2,
    personMap_get
      (fst (addRelationship (fst (addRelationship blendedFamily "zoe" "ben" "child"))
                            "sam" "ben" "child")) "zoe" = Some q1
    /\ personMap_get
         (fst (addRelationship (fst (addRelationship blendedFamily "zoe" "ben" "child"))
                               "sam" "ben" "child")) "sam" = Some q2
    /\ In q2 (getPartners
                (fst (addRelationship (fst (addRelationship blendedFamily "zoe" "ben" "child"))
                                      "sam" "ben" "child")) "zoe").
Proof.
  destruct (parents_of_a_common_child_are_partners blendedFamily "zoe" "sam" "ben")
    as [q1 [q2 [E1 [E2 [H _]]]]].
  - apply blendedFamily_known. simpl. auto 10.
  - apply blendedFamily_known. simpl. auto 10.
  - apply blendedFamily_known. simpl. auto 10.
  - discriminate.
  - exists q1, q2. auto.
Defined.

Lemma rootClusters_partition_the_roots_witness :
  exists clusters,
    rootClusters inputOrder 10 blendedFamily blendedFamily = Some clusters
    /\ length clusters = 3%nat
    /\ Permutation (concat clusters) blendedFamily.
Proof.
  eexists. split; [vm_compute; reflexivity|]. split; [reflexivity|].
  apply (rootClusters_partition_the_roots inputOrder 10 blendedFamily blendedFamily).
  - exact blendedFamily_distinct.
  - intro l. apply Permutation_refl.
  - vm_compute. reflexivity.
Defined.

Lemma groupPartners_rearranges_the_people_witness :
  map Person.id (arrangeWithPartners blendedFamily) = ["zoe"; "quinn"; "ben"; "pat"; "sam"]
  /\ Permutation (arrangeWithPartners blendedFamily) blendedFamily.
Proof.
  split; [reflexivity|].
  apply (groupPartners_rearranges_the_people blendedFamily None blendedFamily_distinct).
Defined.

Local Close Scope string_scope.

(** * The repair passes at the worked inputs *)

Local Open Scope string_scope.



(** * The binary64 pass at the worked inputs *)




Local Close Scope string_scope.

(** Two nodes on one row, 500 apart; the second is moved 100 to the
    right. *)
Definition twoNodes : JsMap.t Binary64.Pos.t :=
  [ ("a"%string, Binary64.Pos.mk 0 100); ("b"%string, Binary64.Pos.mk 500 100) ].

Lemma accepted_shift_clears_the_nodes_that_stay_witness :
  exists positions',
    Binary64.applyShift twoNodes ["b"%string] 100 = Some positions'
    /\ JsMap.get positions' "b"%string = Some (Binary64.Pos.mk 600 100)
    /\ JsMap.get positions' "a"%string = Some (Binary64.Pos.mk 0 100)
    /\ forall movedId movedPos stayedId stayedPos,
        In movedId ["b"%string] -> ~ In stayedId ["b"%string] ->
        JsMap.get positions' movedId = Some movedPos ->
        JsMap.get positions' stayedId = Some stayedPos ->
        (PrimFloat.ltb (Binary64.Pos.x movedPos)
           (PrimFloat.add (PrimFloat.add (Binary64.Pos.x stayedPos) 180) 40)
         && PrimFloat.ltb (Binary64.Pos.x stayedPos)
              (PrimFloat.add (PrimFloat.add (Binary64.Pos.x movedPos) 180) 40))
        && PrimFloat.ltb
             (PrimFloat.abs (PrimFloat.sub (Binary64.Pos.y movedPos) (Binary64.Pos.y stayedPos)))
             80
        = false.
Proof.
  destruct (accepted_shift_clears_the_nodes_that_stay Binary64.TreeView.new twoNodes
              ["b"%string] 100) as [positions' [E [_ [_ Hclear]]]].
  - repeat constructor. intros [].
  - intros id [<- | []]. simpl. auto.
  - vm_compute. reflexivity.
  - exists positions'. split; [exact E|].
    assert (Ec : Binary64.applyShift twoNodes ["b"%string] 100 = Some positions') by exact E.
    vm_compute in Ec. injection Ec as <-.
    split; [vm_compute; reflexivity|]. split; [vm_compute; reflexivity | exact Hclear].
Defined.
